(** * Website link crawler: a shallow embedding of [crawler.js]

    The development follows the source file top to bottom: the JavaScript
    string built-ins the crawler uses, the interface of the libraries it
    calls (WHATWG [URL], [url-parse], [Buffer]), the pure helpers
    ([normalizeUrl], [getAssetType], [isUrlExcluded], [shouldCrawlUrl],
    [extractLinks]), the Redis writes of [storeResult], and finally the event
    loop: [checkUrl] calls suspended at their [await]s, [processQueue]
    timers and the shared [queue], [visitedUrls] and [activeTasks].  The
    answers of the network and the readings of the clock are inputs of the
    event loop.

    Strings are sequences of bytes (the UTF-8 encoding of the JavaScript
    string).  Every string operation the crawler performs tests or cuts at
    ASCII characters only, and those never occur inside a multi-byte UTF-8
    sequence, so the byte view and the UTF-16 view agree on them. *)

From Stdlib Require Import ZArith Ascii List Bool Lia.
From stdpp Require Import gmap strings list fin_maps pretty.

Local Open Scope Z_scope.

(** ** JavaScript string built-ins *)

Module Js.

(** [s.startsWith(p)] *)
Definition startsWith (s p : string) : bool := String.prefix p s.

Fixpoint drop (n : nat) (s : string) : string :=
  match n, s with
  | O, _ => s
  | S _, EmptyString => EmptyString
  | S n', String _ t => drop n' t
  end.

Fixpoint take (n : nat) (s : string) : string :=
  match n, s with
  | O, _ => EmptyString
  | S _, EmptyString => EmptyString
  | S n', String c t => String c (take n' t)
  end.

(** [s.includes(p)] *)
Fixpoint includes (s p : string) : bool :=
  startsWith s p ||
  match s with
  | EmptyString => false
  | String _ t => includes t p
  end.

(** [s.split(c)] for a one-character separator: never the empty array. *)
Fixpoint split (c : ascii) (s : string) : list string :=
  match s with
  | EmptyString => [EmptyString]
  | String d t =>
      if Ascii.eqb d c then EmptyString :: split c t
      else match split c t with
           | [] => [String d EmptyString]
           | w :: ws => String d w :: ws
           end
  end.

(** [a.join(sep)] *)
Fixpoint join (sep : string) (a : list string) : string :=
  match a with
  | [] => EmptyString
  | [w] => w
  | w :: ws => w +:+ sep +:+ join sep ws
  end.

(** [a.slice(0, -1)] *)
Definition slice_0_m1 (a : list string) : list string := removelast a.

(** [a[0]] on the result of a [split], which is never empty. *)
Definition first (a : list string) : string := hd EmptyString a.

(** [s.replace(/\/$/, '')]: one trailing slash is removed. *)
Fixpoint strip_trailing_slash (s : string) : string :=
  match s with
  | EmptyString => EmptyString
  | String c EmptyString => if Ascii.eqb c "/" then EmptyString else s
  | String c t => String c (strip_trailing_slash t)
  end.

(** [s.endsWith(c)] for a one-character [c]. *)
Fixpoint endsWith (s : string) (c : ascii) : bool :=
  match s with
  | EmptyString => false
  | String d EmptyString => Ascii.eqb d c
  | String _ t => endsWith t c
  end.

(** Case folding of the [i] flag.  Without the [u] flag a character
    outside ASCII never matches an ASCII letter, so folding the 26 letters
    is all there is. *)
Definition lower_ascii (c : ascii) : ascii :=
  let n := nat_of_ascii c in
  if (Nat.leb 65 n && Nat.leb n 90)%bool then ascii_of_nat (n + 32)%nat else c.

Fixpoint lower (s : string) : string :=
  match s with
  | EmptyString => EmptyString
  | String c t => String (lower_ascii c) (lower t)
  end.

(** The tail of the patterns in [getAssetType]: [($|\?)]. *)
Definition end_or_query (s : string) : bool :=
  match s with
  | EmptyString => true
  | String c _ => Ascii.eqb c "?"
  end.

(** [/\.(e1|...|en)($|\?)/i] anchored at the start of [s]. *)
Definition ext_here (exts : list string) (s : string) : bool :=
  match s with
  | String "." t =>
      existsb (fun e =>
                 String.eqb (lower (take (String.length e) t)) e
                 && end_or_query (drop (String.length e) t)) exts
  | _ => false
  end.

(** [s.match(/\.(e1|...|en)($|\?)/i)] as a truth value: the pattern is
    tried at every position. *)
Fixpoint match_ext (exts : list string) (s : string) : bool :=
  ext_here exts s ||
  match s with
  | EmptyString => false
  | String _ t => match_ext exts t
  end.

End Js.

(** Values that appear in the object literals handed to [storeResult]. *)
Inductive JsVal :=
| VStr (s : string)
| VNum (n : Z)
| VArr (a : list string)
| VNull
| VUndef.

(** [String(v)] for the values above. *)
Definition js_String (v : JsVal) : string :=
  match v with
  | VStr s => s
  | VNum n => pretty n
  | VArr a => Js.join "," a
  | VNull => "null"
  | VUndef => "undefined"
  end.

(** Truthiness ([if (v)], [v || d]). *)
Definition truthy (v : JsVal) : bool :=
  match v with
  | VStr s => negb (String.eqb s EmptyString)
  | VNum n => negb (n =? 0)
  | VArr _ => true
  | VNull | VUndef => false
  end.

(** [JSON.stringify] of an array of strings (QuoteJSONString on each). *)
Definition hex_digit (n : nat) : ascii :=
  ascii_of_nat (if Nat.ltb n 10 then 48 + n else 87 + n)%nat.

Definition dquote : ascii := ascii_of_nat 34.

Definition json_quote_char (c : ascii) : string :=
  let n := nat_of_ascii c in
  if Ascii.eqb c dquote then String "\" (String dquote EmptyString)
  else if Ascii.eqb c "\" then "\\"
  else if Nat.eqb n 8 then "\b"
  else if Nat.eqb n 9 then "\t"
  else if Nat.eqb n 10 then "\n"
  else if Nat.eqb n 12 then "\f"
  else if Nat.eqb n 13 then "\r"
  else if Nat.ltb n 32 then
    "\u00" +:+ String (hex_digit (n / 16)) (String (hex_digit (n mod 16)) EmptyString)
  else String c EmptyString.

Fixpoint json_quote_body (s : string) : string :=
  match s with
  | EmptyString => EmptyString
  | String c t => json_quote_char c +:+ json_quote_body t
  end.

Definition json_quote (s : string) : string :=
  String dquote (json_quote_body s) +:+ String dquote EmptyString.

Definition JSON_stringify (a : list string) : string :=
  "[" +:+ Js.join "," (map json_quote a) +:+ "]".

(** ** The libraries the crawler calls

    [new URL(s)] (the WHATWG parser of Node), [new URLParse(s)] (the
    [url-parse] package), [Buffer.from(s).toString('base64')] and
    [String.prototype.trim] are not part of the crawler.  They are taken as
    an interface; every result about the crawler holds for any
    implementation of it.  [None] stands for a thrown exception. *)

Record ParsedUrl := { protocol : string; hostname : string }.

Class NodeApi := {
  URLObj : Type;
  URL_new : string -> option URLObj;
  URL_pathname : URLObj -> string;
  URL_searchParams_delete : URLObj -> string -> URLObj;
  URL_toString : URLObj -> string;
  URLParse : string -> option ParsedUrl;
  base64 : string -> string;
  String_trim : string -> string
}.

(** ** Configuration (the [config] object; connection settings left out) *)

Record Config := {
  websiteUrl : string;
  maxDepth : Z;
  concurrency : Z;
  redisKeyPrefix : string;
  skipDataImages : bool;
  excludePatterns : list string
}.

Inductive AssetType := LINK | CSS | SCRIPT | IMAGE | OTHER.

(** The values of the [ASSET_TYPES] table. *)
Definition asset_name (t : AssetType) : string :=
  match t with
  | LINK => "link"
  | CSS => "css"
  | SCRIPT => "script"
  | IMAGE => "image"
  | OTHER => "other"
  end.

Global Instance AssetType_eq_dec : EqDecision AssetType.
Proof. solve_decision. Defined.

(** ** What cheerio hands to [extractLinks]

    The body of a response is represented by the four selections
    [extractLinks] makes on it, each element by the attributes it reads. *)

Record Element := {
  attr_href : option string;
  attr_src : option string;
  attr_rel : option string;
  attr_alt : option string;
  elem_text : string
}.

Record Document := {
  sel_a : list Element;           (* $('a') *)
  sel_stylesheet : list Element;  (* $('link[rel="stylesheet"], link[type="text/css"]') *)
  sel_script : list Element;      (* $('script') *)
  sel_img : list Element          (* $('img') *)
}.

Definition empty_document : Document :=
  {| sel_a := []; sel_stylesheet := []; sel_script := []; sel_img := [] |}.

(** An entry of the array [extractLinks] returns. *)
Record Link := {
  link_url : string;
  link_tag : string;
  link_text : option string;
  link_alt : option string;
  link_rel : option string
}.

(** An entry of [queue]. *)
Record Task := {
  task_url : string;
  task_referrer : string;
  task_depth : Z;
  task_sourcePages : list string
}.

(** ** Redis *)

Inductive RedisCmd :=
| HSET (key : string) (fields : list (string * string))
| SADD (key member : string).

Record Redis := {
  hashes : gmap string (gmap string string);
  sets : gmap string (gset string)
}.

Definition hGetAll (r : Redis) (key : string) : gmap string string :=
  default ∅ (hashes r !! key).

Definition hGet (r : Redis) (key field : string) : option string :=
  hGetAll r key !! field.

Definition sMembers (r : Redis) (key : string) : gset string :=
  default ∅ (sets r !! key).

(** The server executes the commands of the single connection in the order
    they are sent, and every command succeeds. *)
Definition redis_exec (c : RedisCmd) (r : Redis) : Redis :=
  match c with
  | HSET key fields =>
      {| hashes := <[key := list_to_map fields ∪ hGetAll r key]> (hashes r);
         sets := sets r |}
  | SADD key member =>
      {| hashes := hashes r;
         sets := <[key := {[member]} ∪ sMembers r key]> (sets r) |}
  end.

Definition redis_empty : Redis := {| hashes := ∅; sets := ∅ |}.

(** Object literals: fields in insertion order. *)
Definition Data := list (string * JsVal).

Fixpoint get_field (f : string) (d : Data) : JsVal :=
  match d with
  | [] => VUndef
  | (g, v) :: d' => if String.eqb g f then v else get_field f d'
  end.

Fixpoint set_field (f : string) (v : JsVal) (d : Data) : Data :=
  match d with
  | [] => [(f, v)]
  | (g, w) :: d' => if String.eqb g f then (g, v) :: d' else (g, w) :: set_field f v d'
  end.

Definition is_nullish (v : JsVal) : bool :=
  match v with
  | VNull | VUndef => true
  | _ => false
  end.

Section Crawler.

Context `{api : NodeApi}.
Variable config : Config.

(** [const baseUrl = new URLParse(config.websiteUrl)], evaluated when the
    module is loaded. *)
Variable baseUrl : ParsedUrl.

Definition baseDomain : string := hostname baseUrl.
Definition baseProtocol : string := protocol baseUrl.

Definition isInboundLink (url : string) : bool :=
  match URLParse url with
  | Some parsedUrl => String.eqb (hostname parsedUrl) baseDomain
  | None => false
  end.

Definition utm_params : list string :=
  ["utm_source"; "utm_medium"; "utm_campaign"; "utm_term"; "utm_content"].

(** The last step of [normalizeUrl]: the inner [try]. *)
Definition cleanup_query (url : string) : string :=
  match URL_new url with
  | Some parsedUrl =>
      URL_toString (fold_left URL_searchParams_delete utm_params parsedUrl)
  | None => url
  end.

(** The first step of [normalizeUrl]: the two [if]s that make the
    reference absolute. *)
Definition absolutize (url base : string) : string :=
  let url := if Js.startsWith url "//" then "https:" +:+ url else url in
  if Js.startsWith url "/" then
    baseProtocol +:+ "//" +:+ baseDomain +:+ url
  else if negb (Js.startsWith url "http") then
    let base := Js.join "/" (Js.slice_0_m1 (Js.split "/" base)) in
    base +:+ "/" +:+ url
  else url.

(** [normalizeUrl(url, baseUrl)].  On strings nothing in the outer [try]
    throws, so its [catch] is never entered. *)
Definition normalizeUrl (url base : string) : string :=
  let url := absolutize url base in
  let url := Js.strip_trailing_slash url in
  let url := Js.first (Js.split "#" url) in
  cleanup_query url.

Definition image_exts : list string :=
  ["jpg"; "jpeg"; "png"; "gif"; "svg"; "webp"; "ico"].

Definition getAssetType (url tag : string) : AssetType :=
  if String.eqb tag "a" then LINK
  else if String.eqb tag "link" && Js.match_ext ["css"] url then CSS
  else if String.eqb tag "script" then SCRIPT
  else if String.eqb tag "img" then IMAGE
  else if Js.match_ext image_exts url then IMAGE
  else if Js.match_ext ["css"] url then CSS
  else if Js.match_ext ["js"] url then SCRIPT
  else OTHER.

Definition fixProtocolRelativeUrl (url : string) : string :=
  if Js.startsWith url "//" then "https:" +:+ url else url.

(** *** [storeResult]

    The function only writes; the commands it sends are a function of its
    arguments.  Each command is followed by an [await]. *)

Definition urlKey (url : string) : string :=
  redisKeyPrefix config +:+ base64 url.

Definition sourcePagesKey (url : string) : string :=
  redisKeyPrefix config +:+ "sources:" +:+ base64 url.

Definition allUrlsKey : string := redisKeyPrefix config +:+ "all_urls".

Definition typeKey (t : string) : string :=
  redisKeyPrefix config +:+ "type:" +:+ t.

Definition statusKey (s : string) : string :=
  redisKeyPrefix config +:+ "status:" +:+ s.

Definition processData (data : Data) : list (string * string) :=
  map (fun fv => (fst fv, if is_nullish (snd fv) then EmptyString
                          else js_String (snd fv))) data.

Definition storeResult (url : string) (data : Data) : list RedisCmd :=
  let url := fixProtocolRelativeUrl url in
  let data :=
    if is_nullish (get_field "status" data)
    then set_field "status" (VNum 0) data else data in
  [HSET (urlKey url) (processData data); SADD allUrlsKey url]
  ++ (if truthy (get_field "referrer" data)
      then [SADD (sourcePagesKey url) (js_String (get_field "referrer" data))]
      else [])
  ++ (match get_field "sourcePages" data with
      | VArr a =>
          flat_map (fun sourcePage =>
                      if String.eqb sourcePage EmptyString then []
                      else [SADD (sourcePagesKey url) sourcePage]) a
      | _ => []
      end)
  ++ (if truthy (get_field "type" data)
      then [SADD (typeKey (js_String (get_field "type" data))) url]
      else [])
  ++ [SADD (statusKey (js_String (get_field "status" data))) url].

(** *** [extractLinks] *)

Definition nonempty (o : option string) : option string :=
  match o with
  | Some s => if String.eqb s EmptyString then None else Some s
  | None => None
  end.

Definition extract_a (base : string) (elem : Element) : list Link :=
  match nonempty (attr_href elem) with
  | Some href =>
      if negb (Js.startsWith href "javascript:")
         && negb (Js.startsWith href "mailto:")
         && negb (Js.startsWith href "tel:")
         && negb (Js.startsWith href "data:image")
      then [{| link_url := normalizeUrl href base; link_tag := "a";
               link_text := Some (String_trim (elem_text elem));
               link_alt := None; link_rel := None |}]
      else []
  | None => []
  end.

Definition extract_stylesheet (base : string) (elem : Element) : list Link :=
  match nonempty (attr_href elem) with
  | Some href =>
      [{| link_url := normalizeUrl href base; link_tag := "link";
          link_text := None; link_alt := None; link_rel := attr_rel elem |}]
  | None => []
  end.

Definition extract_script (base : string) (elem : Element) : list Link :=
  match nonempty (attr_src elem) with
  | Some src =>
      [{| link_url := normalizeUrl src base; link_tag := "script";
          link_text := None; link_alt := None; link_rel := None |}]
  | None => []
  end.

Definition extract_img (base : string) (elem : Element) : list Link :=
  match nonempty (attr_src elem) with
  | Some src =>
      if negb (Js.startsWith src "data:image")
      then [{| link_url := normalizeUrl src base; link_tag := "img";
               link_text := None;
               link_alt := Some (default EmptyString (nonempty (attr_alt elem)));
               link_rel := None |}]
      else []
  | None => []
  end.

Definition extractLinks (doc : Document) (base : string) : list Link :=
  flat_map (extract_a base) (sel_a doc)
  ++ flat_map (extract_stylesheet base) (sel_stylesheet doc)
  ++ flat_map (extract_script base) (sel_script doc)
  ++ flat_map (extract_img base) (sel_img doc).

(** *** Admission *)

Definition isUrlExcluded (url : string) : bool :=
  match excludePatterns config with
  | [] => false
  | _ =>
      match URL_new url with
      | Some parsedUrl =>
          existsb (fun pattern => Js.startsWith (URL_pathname parsedUrl) pattern)
                  (excludePatterns config)
      | None => false
      end
  end.

Definition shouldCrawlUrl (url : string) (depth : Z) : bool :=
  if maxDepth config <? depth then false
  else if skipDataImages config && Js.startsWith url "data:image" then false
  else if isUrlExcluded url then false
  else true.

(** ** The event loop

    JavaScript runs one segment of code at a time: a segment starts when
    an awaited promise has settled (or a timer fires) and ends at the next
    [await] (or at the end of the callback).  Segments of different
    [checkUrl] calls interleave in any order; what the network answers is
    not determined by the program.  Both are inputs of the step function
    below, so a statement about all runs covers every schedule and every
    behaviour of the remote servers. *)

Inductive Method := HEAD | GET.

Global Instance Method_eq_dec : EqDecision Method.
Proof. solve_decision. Defined.

(** What the crawler reads of an axios response; [response.data] is
    represented as the document cheerio makes of it. *)
Record Response := {
  resp_status : Z;
  resp_responseUrl : option string;   (* response.request.res.responseUrl *)
  resp_contentType : option string;   (* response.headers['content-type'] *)
  resp_data : Document
}.

(** What the [catch] reads of a rejected request. *)
Record AxiosError := {
  err_message : string;
  err_status : option Z               (* error.response?.status *)
}.

Inductive HttpResult :=
| Resolved (response : Response)
| Rejected (error : AxiosError).

(** Where a [checkUrl] call is suspended.  [pending] are the Redis
    commands of the running [storeResult] that are still to be sent. *)
Inductive Pc :=
| AtAdmission                                           (* await shouldCrawlUrl *)
| AtMerge                                               (* await safeSetAdd *)
| AtDataStore (pending : list RedisCmd)                 (* await storeResult, data image *)
| AtRequest (method : Method)                           (* await axios[method] *)
| AtEscalation (response : Response)                    (* await axios.get *)
| AtStoreResult (pending : list RedisCmd) (response : Response)
| AtLinkStore (pending : list RedisCmd) (links : list Link) (* inside the for loop *)
| AtErrorStore (pending : list RedisCmd)                (* await storeResult in catch *)
| Settled                                               (* returned; .finally callback queued *)
| Finished.

Record Job := { job_task : Task; job_pc : Pc }.

Record State := {
  queue : list Task;
  activeTasks : Z;
  visitedUrls : gset string;
  redis : Redis;
  jobs : list Job;        (* the checkUrl calls so far, in call order *)
  timers : nat;           (* setTimeout(processQueue, 0) not yet fired *)
  summaries : nat;        (* calls of generateCrawlSummary so far *)
  requests : list (nat * Method * string)  (* axios calls so far, latest first *)
}.

(** What one segment of [checkUrl] does to the globals. *)
Record Effect := {
  e_pc : Pc;
  e_visit : option string;      (* visitedUrls.add(url) *)
  e_push : list Task;           (* queue.push(...) *)
  e_send : list RedisCmd;       (* commands sent to Redis *)
  e_request : option Method     (* axios[method](url, ...) *)
}.

Definition goto (pc : Pc) : Effect :=
  {| e_pc := pc; e_visit := None; e_push := []; e_send := []; e_request := None |}.

(** Calling or resuming [storeResult]: the next command is sent and the
    call awaits its reply; with nothing left it returns to [k]. *)
Definition store (cmds : list RedisCmd) (at_ : list RedisCmd -> Pc) : Effect :=
  match cmds with
  | c :: rest =>
      {| e_pc := at_ rest; e_visit := None; e_push := []; e_send := [c];
         e_request := None |}
  | [] => goto (at_ [])
  end.

Definition bit (b : bool) : JsVal := VNum (if b then 1 else 0).

Definition finalUrl_of (url : string) (response : Response) : string :=
  default url (nonempty (resp_responseUrl response)).

Definition contentType_of (response : Response) : string :=
  default EmptyString (nonempty (resp_contentType response)).

Definition isHtml_of (response : Response) : bool :=
  Js.includes (contentType_of response) "text/html".

(** The three object literals [checkUrl] stores for its own URL, and the
    one it stores for each extracted link. *)
Definition data_image_record (t : Task) (now : string) : Data :=
  [("url", VStr (Js.take 100 (task_url t) +:+ "... (truncated)"));
   ("originalUrl", VStr (task_url t));
   ("status", VNum 200);
   ("contentType", VStr "image/embedded");
   ("finalUrl", VStr (task_url t));
   ("isRedirect", VNum 0);
   ("referrer", VStr (task_referrer t));
   ("depth", VNum (task_depth t));
   ("type", VStr (asset_name IMAGE));
   ("checkedAt", VStr now);
   ("isInbound", VNum 1);
   ("isDataImage", VNum 1);
   ("sourcePages", VStr (JSON_stringify (task_sourcePages t)))].

Definition result_record (t : Task) (response : Response) (now : string) : Data :=
  let url := task_url t in
  let finalUrl := finalUrl_of url response in
  [("url", VStr url);
   ("status", VNum (resp_status response));
   ("contentType", VStr (contentType_of response));
   ("finalUrl", VStr finalUrl);
   ("isRedirect", bit (negb (String.eqb finalUrl url)));
   ("referrer", VStr (task_referrer t));
   ("depth", VNum (task_depth t));
   ("type", VStr (asset_name (if isHtml_of response then LINK
                              else getAssetType url EmptyString)));
   ("checkedAt", VStr now);
   ("isInbound", bit (isInboundLink url));
   ("sourcePages", VStr (JSON_stringify (task_sourcePages t)))].

(** [error.response?.status || 0] *)
Definition error_status (error : AxiosError) : Z :=
  match err_status error with
  | Some n => if n =? 0 then 0 else n
  | None => 0
  end.

Definition error_record (t : Task) (error : AxiosError) (now : string) : Data :=
  let url := task_url t in
  [("url", VStr url);
   ("status", VNum (error_status error));
   ("error", VStr (err_message error));
   ("referrer", VStr (task_referrer t));
   ("depth", VNum (task_depth t));
   ("type", VStr (asset_name (getAssetType url EmptyString)));
   ("checkedAt", VStr now);
   ("isInbound", bit (isInboundLink url));
   ("sourcePages", VStr (JSON_stringify (task_sourcePages t)))].

Definition link_record (t : Task) (link : Link) : Data :=
  [("url", VStr (link_url link));
   ("referrer", VStr (task_url t));
   ("type", VStr (asset_name (getAssetType (link_url link) (link_tag link))));
   ("isInbound", bit (isInboundLink (link_url link)));
   ("tag", VStr (link_tag link));
   ("text", VStr (default EmptyString (link_text link)));
   ("alt", VStr (default EmptyString (link_alt link)));
   ("checkedAt", VNull);
   ("sourcePages", VStr (JSON_stringify (task_sourcePages t ++ [task_url t])))].

(** The condition of both [if]s that lead to link extraction. *)
Definition expands (t : Task) (response : Response) : bool :=
  isHtml_of response && isInboundLink (task_url t)
  && (task_depth t <? maxDepth config).

(** One turn of [for (const link of links)]: the push, then the call of
    [storeResult] for the link. *)
Definition for_links (t : Task) (visited : gset string) (links : list Link) : Effect :=
  match links with
  | [] => goto Settled
  | link :: rest =>
      let isInbound := isInboundLink (link_url link) in
      let fresh := negb (bool_decide (link_url link ∈ visited)) in
      let item depth :=
        {| task_url := link_url link; task_referrer := task_url t;
           task_depth := depth;
           task_sourcePages := task_sourcePages t ++ [task_url t] |} in
      let push :=
        if isInbound && fresh then [item (task_depth t + 1)]
        else if negb isInbound && fresh then [item (maxDepth config)]
        else [] in
      let e := store (storeResult (link_url link) (link_record t link))
                     (fun pending => AtLinkStore pending rest) in
      {| e_pc := e_pc e; e_visit := None; e_push := push; e_send := e_send e;
         e_request := None |}
  end.

(** The [catch] block. *)
Definition on_error (t : Task) (error : AxiosError) (now : string) : Effect :=
  store (storeResult (task_url t) (error_record t error now)) AtErrorStore.

(** After the last request: [storeResult] for the URL itself. *)
Definition on_response (t : Task) (response : Response) (now : string) : Effect :=
  store (storeResult (task_url t) (result_record t response now))
        (fun pending => AtStoreResult pending response).

(** A segment that starts when an awaited promise other than a request
    has settled. *)
Definition resume (t : Task) (pc : Pc) (visited : gset string) (now : string)
  : option Effect :=
  let url := task_url t in
  match pc with
  | AtAdmission =>
      Some (
      if negb (shouldCrawlUrl url (task_depth t)) then goto Settled
      else if bool_decide (url ∈ visited) then
        if negb (String.eqb (task_referrer t) EmptyString) then
          {| e_pc := AtMerge; e_visit := None; e_push := [];
             e_send := [SADD (redisKeyPrefix config +:+ "sources:" +:+ base64 url)
                             (task_referrer t)];
             e_request := None |}
        else goto Settled
      else if Js.startsWith url "data:image" && skipDataImages config then
        let e := store (storeResult url (data_image_record t now)) AtDataStore in
        {| e_pc := e_pc e; e_visit := Some url; e_push := [];
           e_send := e_send e; e_request := None |}
      else
        let assetType := getAssetType url EmptyString in
        let shouldGetFullResponse := bool_decide (assetType = LINK) in
        let method := if shouldGetFullResponse then GET else HEAD in
        {| e_pc := AtRequest method; e_visit := Some url; e_push := [];
           e_send := []; e_request := Some method |})
  | AtMerge => Some (goto Settled)
  | AtDataStore (c :: rest) => Some (store (c :: rest) AtDataStore)
  | AtDataStore [] => Some (goto Settled)
  | AtStoreResult (c :: rest) response =>
      Some (store (c :: rest) (fun pending => AtStoreResult pending response))
  | AtStoreResult [] response =>
      Some (if expands t response
            then for_links t visited (extractLinks (resp_data response) url)
            else goto Settled)
  | AtLinkStore (c :: rest) links =>
      Some (store (c :: rest) (fun pending => AtLinkStore pending links))
  | AtLinkStore [] links => Some (for_links t visited links)
  | AtErrorStore (c :: rest) => Some (store (c :: rest) AtErrorStore)
  | AtErrorStore [] => Some (goto Settled)
  | AtRequest _ | AtEscalation _ | Settled | Finished => None
  end.

(** A segment that starts when a request has settled. *)
Definition reply (t : Task) (pc : Pc) (result : HttpResult) (now : string)
  : option Effect :=
  match pc, result with
  | AtRequest method, Resolved response =>
      let shouldGetFullResponse := bool_decide (method = GET) in
      Some (if negb shouldGetFullResponse && expands t response
            then {| e_pc := AtEscalation response; e_visit := None; e_push := [];
                    e_send := []; e_request := Some GET |}
            else on_response t response now)
  | AtEscalation response, Resolved fullResponse =>
      Some (on_response t
              {| resp_status := resp_status response;
                 resp_responseUrl := resp_responseUrl response;
                 resp_contentType := resp_contentType response;
                 resp_data := resp_data fullResponse |} now)
  | AtRequest _, Rejected error => Some (on_error t error now)
  | AtEscalation _, Rejected error => Some (on_error t error now)
  | _, _ => None
  end.

(** *** The globals and the step function *)

Definition perform (i : nat) (t : Task) (e : Effect) (s : State) : State :=
  {| queue := queue s ++ e_push e;
     activeTasks := activeTasks s;
     visitedUrls := match e_visit e with
                    | Some url => {[url]} ∪ visitedUrls s
                    | None => visitedUrls s
                    end;
     redis := fold_left (fun r c => redis_exec c r) (e_send e) (redis s);
     jobs := <[i := {| job_task := t; job_pc := e_pc e |}]> (jobs s);
     timers := timers s;
     summaries := summaries s;
     requests := match e_request e with
                 | Some method => (i, method, task_url t) :: requests s
                 | None => requests s
                 end |}.

(** The callback passed to [.finally] in [processQueue]. *)
Definition finally (i : nat) (t : Task) (s : State) : State :=
  {| queue := queue s;
     activeTasks := activeTasks s - 1;
     visitedUrls := visitedUrls s;
     redis := redis s;
     jobs := <[i := {| job_task := t; job_pc := Finished |}]> (jobs s);
     timers := S (timers s);
     summaries := summaries s;
     requests := requests s |}.

Definition MAX_ACTIVE_TASKS : Z := concurrency config.

(** The [while] loop of [processQueue]: [queue.shift()], [activeTasks++]
    and the call of [checkUrl], which runs up to its first [await]. *)
Fixpoint fill (q : list Task) (active : Z) (js : list Job)
  : list Task * Z * list Job :=
  match q with
  | task :: rest =>
      if active <? MAX_ACTIVE_TASKS
      then fill rest (active + 1)
                (js ++ [{| job_task := task; job_pc := AtAdmission |}])
      else (q, active, js)
  | [] => ([], active, js)
  end.

(** [processQueue].  [generateCrawlSummary] is represented by the count of
    its calls. *)
Definition processQueue (s : State) : State :=
  if bool_decide (queue s = []) && (activeTasks s =? 0) then
    {| queue := queue s; activeTasks := activeTasks s;
       visitedUrls := visitedUrls s; redis := redis s; jobs := jobs s;
       timers := timers s; summaries := S (summaries s);
       requests := requests s |}
  else
    let '(q, active, js) := fill (queue s) (activeTasks s) (jobs s) in
    {| queue := q; activeTasks := active;
       visitedUrls := visitedUrls s; redis := redis s; jobs := js;
       timers := timers s; summaries := summaries s;
       requests := requests s |}.

(** [main]: the seed is pushed and [processQueue] is called, on whatever
    the database holds at that moment. *)
Definition main (db : Redis) : State :=
  processQueue
    {| queue := [{| task_url := websiteUrl config; task_referrer := EmptyString;
                    task_depth := 0; task_sourcePages := [] |}];
       activeTasks := 0; visitedUrls := ∅; redis := db; jobs := [];
       timers := 0; summaries := 0; requests := [] |}.

(** What the event loop may do next.  [now] is the clock reading
    [new Date().toISOString()] would give in that segment. *)
Inductive Label :=
| Resume (i : nat) (now : string)
| Reply (i : nat) (result : HttpResult) (now : string)
| Timer.

Definition step (s : State) (l : Label) : option State :=
  match l with
  | Resume i now =>
      match jobs s !! i with
      | Some job =>
          match job_pc job with
          | Settled => Some (finally i (job_task job) s)
          | pc =>
              match resume (job_task job) pc (visitedUrls s) now with
              | Some e => Some (perform i (job_task job) e s)
              | None => None
              end
          end
      | None => None
      end
  | Reply i result now =>
      match jobs s !! i with
      | Some job =>
          match reply (job_task job) (job_pc job) result now with
          | Some e => Some (perform i (job_task job) e s)
          | None => None
          end
      | None => None
      end
  | Timer =>
      match timers s with
      | S n =>
          Some (processQueue
                  {| queue := queue s; activeTasks := activeTasks s;
                     visitedUrls := visitedUrls s; redis := redis s;
                     jobs := jobs s; timers := n; summaries := summaries s;
                     requests := requests s |})
      | O => None
      end
  end.

Fixpoint run (s : State) (ls : list Label) : option State :=
  match ls with
  | [] => Some s
  | l :: ls' =>
      match step s l with
      | Some s' => run s' ls'
      | None => None
      end
  end.

(** The states of all runs that start from database [db]. *)
Inductive reachable (db : Redis) : State -> Prop :=
| reach_main : reachable db (main db)
| reach_step s l s' : reachable db s -> step s l = Some s' -> reachable db s'.

(** Job [i] alone is given the next [n] turns, as far as it can take
    them.  A job that awaits a request takes none. *)
Fixpoint resume_n (n : nat) (i : nat) (now : string) (s : State) : State :=
  match n with
  | O => s
  | S n' =>
      match step s (Resume i now) with
      | Some s' => resume_n n' i now s'
      | None => s
      end
  end.

Definition pc_of (s : State) (i : nat) : option Pc := job_pc <$> jobs s !! i.

(** The requests made so far for [url]. *)
Definition requests_for (url : string) (s : State) : list (nat * Method * string) :=
  filter (fun r => r.2 = url) (requests s).

End Crawler.

(** ** The helpers around the crawl

    [truncateUrl] and [getColoredStatusCode] format what the summary and
    [--source] print; the two initialisers below are the entries of the
    [config] object that are computed from the environment by more than a
    default. *)

(** [s.length] and [s.substring(0, n)]; a negative [n] counts as 0.
    JavaScript counts UTF-16 code units, this development bytes: the two
    agree on ASCII strings, and the statements about [truncateUrl] are
    made for those. *)
Definition Js_length (s : string) : Z := Z.of_nat (String.length s).

Definition Js_substring_0 (s : string) (n : Z) : string := Js.take (Z.to_nat n) s.

Definition Js_is_ascii (s : string) : bool :=
  forallb (fun c => Nat.ltb (nat_of_ascii c) 128) (String.list_ascii_of_string s).

(** The number of bytes of the WhiteSpace or LineTerminator character at
    the start of [s], 0 when there is none: TAB, LF, VT, FF, CR, SP, and in
    UTF-8 U+00A0, U+1680, U+2000 to U+200A, U+2028, U+2029, U+202F, U+205F,
    U+3000 and U+FEFF. *)
Definition white_space_len (s : string) : nat :=
  match s with
  | String a t =>
      let a := nat_of_ascii a in
      if (Nat.leb 9 a && Nat.leb a 13) || Nat.eqb a 32 then 1%nat
      else
        match t with
        | String b t' =>
            let b := nat_of_ascii b in
            if Nat.eqb a 194 && Nat.eqb b 160 then 2%nat
            else
              match t' with
              | String c _ =>
                  let c := nat_of_ascii c in
                  if Nat.eqb a 225 && Nat.eqb b 154 && Nat.eqb c 128 then 3%nat
                  else if Nat.eqb a 226 && Nat.eqb b 128
                          && ((Nat.leb 128 c && Nat.leb c 138) || Nat.eqb c 168
                              || Nat.eqb c 169 || Nat.eqb c 175) then 3%nat
                  else if Nat.eqb a 226 && Nat.eqb b 129 && Nat.eqb c 159 then 3%nat
                  else if Nat.eqb a 227 && Nat.eqb b 128 && Nat.eqb c 128 then 3%nat
                  else if Nat.eqb a 239 && Nat.eqb b 187 && Nat.eqb c 191 then 3%nat
                  else 0%nat
              | EmptyString => 0%nat
              end
        | EmptyString => 0%nat
        end
  | EmptyString => 0%nat
  end.

(** [TrimString(s, start)]; [fuel] bounds the number of characters
    removed. *)
Fixpoint trimStart_fuel (fuel : nat) (s : string) : string :=
  match fuel with
  | O => s
  | S fuel' =>
      match white_space_len s with
      | O => s
      | n => trimStart_fuel fuel' (Js.drop n s)
      end
  end.

Definition Js_trimStart (s : string) : string :=
  trimStart_fuel (String.length s) s.

Definition digit_of (c : ascii) : option Z :=
  let n := nat_of_ascii c in
  if Nat.leb 48 n && Nat.leb n 57 then Some (Z.of_nat n - 48) else None.

(** The value of the longest prefix of decimal digits, read from the
    left. *)
Fixpoint read_digits (acc : Z) (s : string) : Z :=
  match s with
  | String c t =>
      match digit_of c with
      | Some d => read_digits (10 * acc + d) t
      | None => acc
      end
  | EmptyString => acc
  end.

(** [parseInt(s, 10)]: leading white space and one sign are skipped, the
    digits that follow are read, anything after them is ignored; without
    a digit the result is [NaN], here [None].  The result is the
    mathematical integer: the callers only compare it with 200, 300 and
    400, and rounding to a double keeps the order. *)
Definition Js_parseInt (s : string) : option Z :=
  let s := Js_trimStart s in
  let '(sign, s) :=
    match s with
    | String "-" t => (-1, t)
    | String "+" t => (1, t)
    | _ => (1, s)
    end in
  match s with
  | String c _ =>
      match digit_of c with
      | Some _ => Some (sign * read_digits 0 s)
      | None => None
      end
  | EmptyString => None
  end.

(** [`\x1b[${code}m${text}\x1b[0m`] *)
Definition esc : ascii := ascii_of_nat 27.

Definition paint (code text : string) : string :=
  String esc ("[" +:+ code +:+ "m") +:+ text +:+ String esc "[0m".

(** [getColoredStatusCode(status)].  [status] is a field read from a
    Redis hash (a string, or [undefined]) or a key of [statusBuckets]; both
    [parseInt] and the template apply [String] to it.  Every comparison
    with [NaN] is false. *)
Definition getColoredStatusCode (status : JsVal) : string :=
  let text := js_String status in
  match Js_parseInt text with
  | Some statusNum =>
      if (200 <=? statusNum) && (statusNum <? 300) then paint "32" text
      else if (300 <=? statusNum) && (statusNum <? 400) then paint "33" text
      else if 400 <=? statusNum then paint "31" text
      else paint "37" text
  | None => paint "37" text
  end.

(** The WHATWG [URL] object has more properties than the crawl reads;
    [truncateUrl] reads these two. *)
Class UrlParts `{api : NodeApi} := {
  URL_protocol : URLObj -> string;
  URL_hostname : URLObj -> string
}.

Section Tools.

Context `{api : NodeApi} `{parts : !UrlParts}.

(** [truncateUrl(url, maxLength)]; the callers pass 50 and 100, the
    default is 70.  [url] is a string (possibly empty). *)
Definition truncateUrl (url : string) (maxLength : Z) : string :=
  if String.eqb url EmptyString then EmptyString
  else if Js_length url <=? maxLength then url
  else
    match URL_new url with
    | Some parsed =>
        let domain := URL_protocol parsed +:+ "//" +:+ URL_hostname parsed in
        if maxLength - 5 <=? Js_length domain then
          Js_substring_0 domain (maxLength - 5) +:+ "..."
        else
          let pathMaxLength := maxLength - Js_length domain - 5 in
          let truncatedPath :=
            Js_substring_0 (URL_pathname parsed) pathMaxLength +:+ "..." in
          domain +:+ truncatedPath
    | None => Js_substring_0 url (maxLength - 3) +:+ "..."
    end.

(** [config.excludePatterns]:
    [process.env.EXCLUDE_PATTERNS ? ....split(',').map(p => p.trim()) : []];
    the variable is unset ([None]) or a string. *)
Definition excludePatterns_of_env (v : option string) : list string :=
  match v with
  | Some s =>
      if String.eqb s EmptyString then []
      else map String_trim (Js.split "," s)
  | None => []
  end.

End Tools.

(** [config.skipDataImages]:
    [process.env.SKIP_DATA_IMAGES !== 'false' || true]. *)
Definition skipDataImages_of_env (v : option string) : bool :=
  negb (bool_decide (v = Some "false")) || true.

(** ** The command line

    The last statement of the file: what the process does with
    [process.argv]. *)

Inductive Action :=
| CallShowSourcePages (targetUrl : string)  (* showSourcePages(targetUrl) *)
| ExitWithUsage                             (* console.error(...); process.exit(1) *)
| CallMain.                                 (* main() *)

(** [a.indexOf(x)]; [None] stands for -1. *)
Fixpoint Js_indexOf (x : string) (a : list string) : option nat :=
  match a with
  | [] => None
  | y :: a' =>
      if String.eqb y x then Some O
      else match Js_indexOf x a' with
           | Some i => Some (S i)
           | None => None
           end
  end.

(** [a.includes(x)] *)
Definition Js_array_includes (x : string) (a : list string) : bool :=
  existsb (fun y => String.eqb y x) a.

(** The [if] at the end of the file.  [argv[sourceIndex + 1]] is read
    only when the index is in range. *)
Definition dispatch (argv : list string) : Action :=
  if Js_array_includes "--source" argv && Nat.ltb 3 (length argv) then
    match Js_indexOf "--source" argv with
    | Some sourceIndex =>
        if Nat.ltb (sourceIndex + 1) (length argv)
        then CallShowSourcePages (nth (sourceIndex + 1) argv EmptyString)
        else ExitWithUsage
    | None => ExitWithUsage
    end
  else CallMain.

(** ** Reading the store: [type], [exists] and the [safe...] helpers

    A Redis key holds one value.  The store above keeps hashes and sets
    apart; a key counts as a hash when it is one. *)
Definition redis_type (r : Redis) (key : string) : string :=
  match hashes r !! key, sets r !! key with
  | Some _, _ => "hash"
  | None, Some _ => "set"
  | None, None => "none"
  end.

Definition redis_exists (r : Redis) (key : string) : bool :=
  negb (String.eqb (redis_type r key) "none").

(** [safeSetMembers(key)]; the members come in the order the server
    chooses, here that of [elements]. *)
Definition safeSetMembers (r : Redis) (key : string) : list string :=
  if String.eqb (redis_type r key) "set" then elements (sMembers r key) else [].

(** [safeSetCardinality(key)] *)
Definition safeSetCardinality (r : Redis) (key : string) : Z :=
  if String.eqb (redis_type r key) "set" then Z.of_nat (size (sMembers r key)) else 0.

(** [safeHashExists(key)] *)
Definition safeHashExists (r : Redis) (key : string) : bool :=
  String.eqb (redis_type r key) "hash".

Definition bold (text : string) : string :=
  String esc "[1m" +:+ text +:+ String esc "[0m".

Definition newline : string := String (ascii_of_nat 10) EmptyString.

(** A field of the object [hGetAll] returns. *)
Definition field_of (urlData : gmap string string) (field : string) : JsVal :=
  match urlData !! field with
  | Some v => VStr v
  | None => VUndef
  end.

Section ShowSourcePages.

Context `{api : NodeApi}.
Variable config : Config.

(** [showSourcePages(targetUrl)]: the lines it writes with [console.log],
    in order.  [hGetAll] on a key that holds a set is an error, which the
    [catch] reports on the error stream: no further line is written. *)
Definition showSourcePages (r : Redis) (targetUrl : string) : list string :=
  let urlKey := redisKeyPrefix config +:+ base64 targetUrl in
  let sourcePagesKey := redisKeyPrefix config +:+ "sources:" +:+ base64 targetUrl in
  [bold "Finding source pages for:" +:+ " " +:+ targetUrl;
   "Connected to Redis"]
  ++ if negb (redis_exists r urlKey) then
       [String esc "[33mURL not found in the crawl database" +:+ String esc "[0m"]
     else if String.eqb (redis_type r urlKey) "set" then []
     else
       let urlData := hGetAll r urlKey in
       [newline +:+ bold "URL information:";
        "Status: " +:+ getColoredStatusCode (field_of urlData "status");
        "Type: " +:+ (if truthy (field_of urlData "type")
                      then js_String (field_of urlData "type") else "unknown");
        "Is internal: " +:+ (if bool_decide (urlData !! "isInbound" = Some "1")
                             then "Yes" else "No")]
       ++ (if bool_decide (urlData !! "isRedirect" = Some "1")
           then ["Redirects to: " +:+ js_String (field_of urlData "finalUrl")]
           else [])
       ++ let sourcePages := safeSetMembers r sourcePagesKey in
          [newline +:+ bold ("Found on " +:+ pretty (length sourcePages) +:+ " page(s):")]
          ++ match sourcePages with
             | [] => ["No source pages recorded (this might be the starting URL)"]
             | _ => map (fun sourcePage => "- " +:+ sourcePage) sourcePages
             end.

End ShowSourcePages.
(** ** A reference implementation of the library interface

    Used to evaluate the crawler on concrete inputs, and to show that the
    laws assumed of the URL library further down can be met.  [URL_new] follows
    the WHATWG parser on plain ASCII URLs: a scheme
    [[A-Za-z][A-Za-z0-9+.-]*:] is required (a string without one throws, as
    no base is given); for [http] and [https] the slashes after the scheme
    are skipped, the host runs up to the next [/], [?] or [#] and is
    lower-cased, an empty host throws and an empty path becomes [/].  User
    info, ports, dot segments and percent-encoding are outside its range, and
    no example below uses them. *)

Module Reference.

Definition is_alpha (c : ascii) : bool :=
  let n := nat_of_ascii c in
  (Nat.leb 65 n && Nat.leb n 90) || (Nat.leb 97 n && Nat.leb n 122).

Definition is_digit (c : ascii) : bool :=
  let n := nat_of_ascii c in Nat.leb 48 n && Nat.leb n 57.

Definition is_scheme_char (c : ascii) : bool :=
  is_alpha c || is_digit c || Ascii.eqb c "+" || Ascii.eqb c "-" || Ascii.eqb c ".".

(** The longest prefix whose characters satisfy [p], and the rest. *)
Fixpoint span (p : ascii -> bool) (s : string) : string * string :=
  match s with
  | EmptyString => (EmptyString, EmptyString)
  | String c t =>
      if p c then let '(a, b) := span p t in (String c a, b)
      else (EmptyString, s)
  end.

(** [Some (scheme, rest)] when [s] is [scheme ":" rest]. *)
Definition scan_scheme (s : string) : option (string * string) :=
  match s with
  | String c _ =>
      if is_alpha c then
        match span is_scheme_char s with
        | (scheme, String ":" rest) => Some (Js.lower scheme, rest)
        | _ => None
        end
      else None
  | EmptyString => None
  end.

Record url := {
  u_scheme : string;
  u_host : option string;
  u_path : string;
  u_query : option string;
  u_fragment : option string
}.

Definition is_special (scheme : string) : bool :=
  String.eqb scheme "http" || String.eqb scheme "https".

Definition is_slash (c : ascii) : bool := Ascii.eqb c "/" || Ascii.eqb c "\".

Definition not_in (cs : list ascii) (c : ascii) : bool :=
  negb (existsb (Ascii.eqb c) cs).

(** Path, query and fragment of what follows the authority. *)
Definition scan_tail (s : string) : string * option string * option string :=
  let '(path, r) := span (not_in ["?"; "#"]%char) s in
  let '(query, r) :=
    match r with
    | String "?" q => let '(q, r) := span (not_in ["#"]%char) q in (Some q, r)
    | _ => (None, r)
    end in
  let fragment :=
    match r with
    | String "#" f => Some f
    | _ => None
    end in
  (path, query, fragment).

Definition parse (s : string) : option url :=
  match scan_scheme s with
  | None => None
  | Some (scheme, rest) =>
      if is_special scheme then
        let '(_, rest) := span is_slash rest in
        let '(host, rest) := span (not_in ["/"; "\"; "?"; "#"]%char) rest in
        if String.eqb host EmptyString then None
        else
          let '(path, query, fragment) := scan_tail rest in
          Some {| u_scheme := scheme; u_host := Some (Js.lower host);
                  u_path := if String.eqb path EmptyString then "/" else path;
                  u_query := query; u_fragment := fragment |}
      else if Js.startsWith rest "//" then
        let '(host, rest) :=
          span (not_in ["/"; "?"; "#"]%char) (Js.drop 2 rest) in
        let '(path, query, fragment) := scan_tail rest in
        Some {| u_scheme := scheme; u_host := Some host; u_path := path;
                u_query := query; u_fragment := fragment |}
      else
        let '(path, query, fragment) := scan_tail rest in
        Some {| u_scheme := scheme; u_host := None; u_path := path;
                u_query := query; u_fragment := fragment |}
  end.

Definition serialize (u : url) : string :=
  u_scheme u +:+ ":"
  +:+ match u_host u with Some h => "//" +:+ h | None => EmptyString end
  +:+ u_path u
  +:+ match u_query u with Some q => "?" +:+ q | None => EmptyString end
  +:+ match u_fragment u with Some f => "#" +:+ f | None => EmptyString end.

(** [searchParams.delete(name)]: the query is split at [&], each piece at
    its first [=]; the remaining pairs are written back as [name=value]. *)
Definition pair_of (piece : string) : string * string :=
  let '(name, r) := span (not_in ["="]%char) piece in
  (name, Js.drop 1 r).

Definition searchParams_delete (u : url) (name : string) : url :=
  let pieces :=
    match u_query u with
    | Some q => filter (fun p => negb (String.eqb p EmptyString)) (Js.split "&" q)
    | None => []
    end in
  let kept :=
    filter (fun nv => negb (String.eqb (fst nv) name)) (map pair_of pieces) in
  let q := Js.join "&" (map (fun nv => fst nv +:+ "=" +:+ snd nv) kept) in
  {| u_scheme := u_scheme u; u_host := u_host u; u_path := u_path u;
     u_query := if String.eqb q EmptyString then None else Some q;
     u_fragment := u_fragment u |}.

(** [url-parse]: protocol with its colon, host name without port; both
    empty for a string without scheme. *)
Definition url_parse (s : string) : option ParsedUrl :=
  Some match parse s with
       | Some u =>
           {| protocol := u_scheme u +:+ ":";
              hostname := match u_host u with
                          | Some h => fst (span (not_in [":"]%char) (Js.lower h))
                          | None => EmptyString
                          end |}
       | None => {| protocol := EmptyString; hostname := EmptyString |}
       end.

(** Base64 of the bytes of the string, with padding. *)
Definition b64_char (n : nat) : ascii :=
  if Nat.ltb n 26 then ascii_of_nat (65 + n)
  else if Nat.ltb n 52 then ascii_of_nat (71 + n)
  else if Nat.ltb n 62 then ascii_of_nat (n - 4)
  else if Nat.eqb n 62 then "+"%char else "/"%char.

Fixpoint b64_bytes (l : list nat) : string :=
  match l with
  | a :: b :: c :: rest =>
      String (b64_char (a / 4))
      (String (b64_char ((a mod 4) * 16 + b / 16))
      (String (b64_char ((b mod 16) * 4 + c / 64))
      (String (b64_char (c mod 64)) (b64_bytes rest))))
  | [a; b] =>
      String (b64_char (a / 4))
      (String (b64_char ((a mod 4) * 16 + b / 16))
      (String (b64_char ((b mod 16) * 4)) "="))
  | [a] =>
      String (b64_char (a / 4))
      (String (b64_char ((a mod 4) * 16)) "==")
  | [] => EmptyString
  end%nat.

Definition to_base64 (s : string) : string :=
  b64_bytes (map nat_of_ascii (String.list_ascii_of_string s)).

Definition is_space (c : ascii) : bool :=
  let n := nat_of_ascii c in
  Nat.eqb n 32 || (Nat.leb 9 n && Nat.leb n 13).

Fixpoint trim_end (s : string) : string :=
  match s with
  | EmptyString => EmptyString
  | String c t =>
      match trim_end t with
      | EmptyString => if is_space c then EmptyString else String c EmptyString
      | t' => String c t'
      end
  end.

Definition trim (s : string) : string := trim_end (snd (span is_space s)).

Definition node : NodeApi :=
  {| URLObj := url;
     URL_new := parse;
     URL_pathname := u_path;
     URL_searchParams_delete := searchParams_delete;
     URL_toString := serialize;
     URLParse := url_parse;
     base64 := to_base64;
     String_trim := trim |}.

End Reference.


(** The reference implementation of the two further properties of a
    [URL]; the host is the parsed one (no port is split off, see above). *)
Definition reference_parts : UrlParts (api := Reference.node) :=
  {| URL_protocol := fun u : URLObj (NodeApi := Reference.node) =>
                       Reference.u_scheme u +:+ ":";
     URL_hostname := fun u : URLObj (NodeApi := Reference.node) =>
                       default EmptyString (Reference.u_host u) |}.
(** * Vocabulary of the statements *)

(** ** The patterns of [getAssetType]

    [has_ext e url]: somewhere in [url] there is a dot followed by [e] in
    any letter case, and then the string ends or a [?] follows. *)

Definition has_ext (e url : string) : Prop :=
  exists pre mid post,
    url = pre +:+ "." +:+ mid +:+ post
    /\ Js.lower mid = e
    /\ (post = EmptyString \/ exists q, post = "?" +:+ q).

(** Extension sniffing, the fall-back of the classifier, as the
    specification words it. *)
Definition sniffed (url : string) (t : AssetType) : Prop :=
  let image := exists e, In e image_exts /\ has_ext e url in
  (image -> t = IMAGE)
  /\ (~ image -> has_ext "css" url -> t = CSS)
  /\ (~ image -> ~ has_ext "css" url -> has_ext "js" url -> t = SCRIPT)
  /\ (~ image -> ~ has_ext "css" url -> ~ has_ext "js" url -> t = OTHER).


(** ** Jobs, requests and the invariant of the event loop *)

Definition job_url (job : Job) : string := task_url (job_task job).

Definition job_depth (job : Job) : Z := task_depth (job_task job).

(** The call has put its URL into [visitedUrls] and has not returned. *)
Definition claimed (pc : Pc) : bool :=
  match pc with
  | AtDataStore _ | AtRequest _ | AtEscalation _ | AtStoreResult _ _
  | AtLinkStore _ _ | AtErrorStore _ => true
  | AtAdmission | AtMerge | Settled | Finished => false
  end.

(** The call has passed admission and has not returned. *)
Definition admitted (pc : Pc) : bool :=
  match pc with
  | AtMerge => true
  | _ => claimed pc
  end.

(** The call is past every request it could make and only writes to Redis
    or returns. *)
Definition winding_up (pc : Pc) : bool :=
  match pc with
  | AtMerge | AtErrorStore _ | AtDataStore _ | Settled | Finished => true
  | _ => false
  end.

Definition is_finished (pc : Pc) : bool :=
  match pc with
  | Finished => true
  | _ => false
  end.

(** The requests job [i] has made. *)
Definition requests_by (i : nat) (s : State) : list (nat * Method * string) :=
  filter (fun r => r.1.1 = i) (requests s).

Section Invariant.

Context `{api : NodeApi}.
Variable config : Config.
Variable baseUrl : ParsedUrl.

Record Inv (s : State) : Prop := {
  inv_req_job : forall i m u,
    (i, m, u) ∈ requests s ->
    exists job, jobs s !! i = Some job /\ job_url job = u;
  inv_req_visited : forall i m u,
    (i, m, u) ∈ requests s -> u ∈ visitedUrls s;
  inv_claimed_visited : forall i job,
    jobs s !! i = Some job -> claimed (job_pc job) = true ->
    job_url job ∈ visitedUrls s;
  inv_visited_admitted : forall u,
    u ∈ visitedUrls s -> shouldCrawlUrl config u 0 = true;
  inv_queue_depth : forall task,
    task ∈ queue s ->
    0 <= task_depth task
    /\ (task_depth task <= maxDepth config \/ task_depth task = 0);
  inv_job_depth : forall i job,
    jobs s !! i = Some job ->
    0 <= job_depth job
    /\ (job_depth job <= maxDepth config \/ job_depth job = 0);
  inv_admitted : forall i job,
    jobs s !! i = Some job -> admitted (job_pc job) = true ->
    shouldCrawlUrl config (job_url job) (job_depth job) = true;
  inv_unique : forall i j m m' u,
    (i, m, u) ∈ requests s -> (j, m', u) ∈ requests s -> i = j;
  inv_fresh : forall i job,
    jobs s !! i = Some job -> job_pc job = AtAdmission ->
    requests_by i s = [];
  inv_waiting : forall i job m,
    jobs s !! i = Some job -> job_pc job = AtRequest m ->
    requests_by i s = [(i, m, job_url job)];
  inv_two : forall i, (length (requests_by i s) <= 2)%nat;
  inv_escalating : forall i job response,
    jobs s !! i = Some job -> job_pc job = AtEscalation response ->
    (i, GET, job_url job) ∈ requests s
    /\ isInboundLink baseUrl (job_url job) = true;
  inv_outbound : forall i job,
    jobs s !! i = Some job -> isInboundLink baseUrl (job_url job) = false ->
    (length (requests_by i s) <= 1)%nat;
  inv_loop : forall i job pending links,
    jobs s !! i = Some job -> job_pc job = AtLinkStore pending links ->
    isInboundLink baseUrl (job_url job) = true
    /\ job_depth job < maxDepth config
}.

(** The number of calls whose [.finally] callback has not run. *)
Definition in_flight (s : State) : nat :=
  length (filter (fun job => is_finished (job_pc job) = false) (jobs s)).

End Invariant.

Section Segments.

Context `{api : NodeApi}.
Variable config : Config.
Variable baseUrl : ParsedUrl.

(** What every segment of [checkUrl] guarantees about its effect [e],
    given the task [t], the point [pc] it resumes from and the visited
    set [vis] it reads. *)
Record sound (t : Task) (pc : Pc) (vis : gset string) (e : Effect) : Prop := {
  snd_visit : forall u,
    e_visit e = Some u ->
    u = task_url t /\ pc = AtAdmission /\ (u ∉ vis)
    /\ shouldCrawlUrl config u (task_depth t) = true;
  snd_request : forall m,
    e_request e = Some m ->
    (pc = AtAdmission /\ e_visit e = Some (task_url t) /\ e_pc e = AtRequest m)
    \/ (exists m0 r, pc = AtRequest m0 /\ e_pc e = AtEscalation r);
  snd_waiting : forall m,
    e_pc e = AtRequest m -> e_request e = Some m /\ pc = AtAdmission;
  snd_started : e_pc e <> AtAdmission;
  snd_push_depth : forall task,
    task ∈ e_push e ->
    ((exists pending links, pc = AtLinkStore pending links) ->
     task_depth t < maxDepth config) ->
    0 <= task_depth t ->
    0 <= task_depth task /\ task_depth task <= maxDepth config;
  snd_escalate : forall response,
    e_pc e = AtEscalation response ->
    e_request e = Some GET /\ isInboundLink baseUrl (task_url t) = true;
  snd_claimed :
    claimed (e_pc e) = true ->
    claimed pc = true \/ e_visit e = Some (task_url t);
  snd_admitted :
    admitted (e_pc e) = true ->
    admitted pc = true \/ shouldCrawlUrl config (task_url t) (task_depth t) = true;
  snd_loop : forall pending links,
    e_pc e = AtLinkStore pending links ->
    (exists pending' links', pc = AtLinkStore pending' links')
    \/ (isInboundLink baseUrl (task_url t) = true
        /\ task_depth t < maxDepth config);
  snd_push :
    e_push e <> [] ->
    (exists pending links, pc = AtLinkStore pending links)
    \/ isInboundLink baseUrl (task_url t) = true;
  snd_winding_up :
    winding_up pc = true ->
    winding_up (e_pc e) = true /\ e_request e = None /\ e_visit e = None
    /\ e_push e = []
}.

End Segments.

(** ** Reading the store *)

(** The first value filed under [k] in a list of fields. *)
Fixpoint assoc (k : string) (l : list (string * string)) : option string :=
  match l with
  | [] => None
  | (k', v) :: l' => if String.eqb k' k then Some v else assoc k l'
  end.

Definition is_SADD (c : RedisCmd) : bool :=
  match c with
  | SADD _ _ => true
  | HSET _ _ => false
  end.

Definition redis_exec_all (cmds : list RedisCmd) (r : Redis) : Redis :=
  fold_left (fun r c => redis_exec c r) cmds r.

(** ** What a job has done between two states

    [job_ran i t pc cmds pushed s s']: from [s] to [s'] job [i], with task
    [t], has moved to [pc], sent [cmds] to Redis and pushed [pushed]; nothing
    else has changed. *)
Definition job_ran (i : nat) (t : Task) (pc : Pc) (cmds : list RedisCmd)
           (pushed : list Task) (s s' : State) : Prop :=
  jobs s' = <[i := {| job_task := t; job_pc := pc |}]> (jobs s)
  /\ redis s' = redis_exec_all cmds (redis s)
  /\ queue s' = queue s ++ pushed
  /\ requests s' = requests s
  /\ visitedUrls s' = visitedUrls s
  /\ activeTasks s' = activeTasks s
  /\ timers s' = timers s
  /\ summaries s' = summaries s.

(** No call for [u] waits for its first response, and [u] is visited: no
    request for [u] can follow. *)
Definition closed_for (u : string) (s : State) : Prop :=
  u ∈ visitedUrls s
  /\ forall j job m,
      jobs s !! j = Some job -> job_url job = u -> job_pc job <> AtRequest m.

Section StoredStub.

Context `{api : NodeApi}.
Variable config : Config.

(** What the store holds for a link once its record has been written. *)
Definition stub_stored (t : Task) (link : Link) (r : Redis) : Prop :=
  let u := fixProtocolRelativeUrl (link_url link) in
  hGet r (urlKey config u) "checkedAt" = Some EmptyString
  /\ hGet r (urlKey config u) "status" = Some "0"
  /\ u ∈ sMembers r (allUrlsKey config)
  /\ u ∈ sMembers r (statusKey config "0")
  /\ task_url t ∈ sMembers r (sourcePagesKey config u).

End StoredStub.

(** [activeTasks] counts the calls whose [.finally] callback has not run. *)
Definition counted (s : State) : Prop := activeTasks s = Z.of_nat (in_flight s).


(** ** Order of calls and discovery paths *)

(** The tasks in the order in which [checkUrl] has been or will be called
    on them: those of the calls made so far, then the queue. *)
Definition dispatch_order (s : State) : list Task :=
  map job_task (jobs s) ++ queue s.

Section Paths.

Variable config : Config.

(** The entry [main] pushes. *)
Definition seed : Task :=
  {| task_url := websiteUrl config; task_referrer := EmptyString;
     task_depth := 0; task_sourcePages := [] |}.

(** [sourcePages] of a task is the chain of pages that led to it: it
    starts at the seed, ends with the referrer and is no longer than the
    depth, which is at most [maxDepth]. *)
Definition on_path (t : Task) : Prop :=
  t = seed
  \/ (head (task_sourcePages t) = Some (websiteUrl config)
      /\ last (task_sourcePages t) = Some (task_referrer t)
      /\ Z.of_nat (length (task_sourcePages t)) <= task_depth t
      /\ task_depth t <= maxDepth config).

End Paths.

(** The crawl is idle: no call is in flight and no timer is pending. *)
Definition idle (s : State) : Prop := activeTasks s = 0 /\ timers s = 0%nat.

Section Segments2.

Context `{api : NodeApi}.
Variable config : Config.
Variable baseUrl : ParsedUrl.

(** [next_pc pc' pc]: a [checkUrl] call suspended at [pc] is at [pc']
    after its next segment, for some task, visited set, clock reading and
    answer of the network; the [.finally] callback takes a call that has
    returned to [Finished]. *)
Inductive next_pc : Pc -> Pc -> Prop :=
| next_resume t pc vis now e :
    resume config baseUrl t pc vis now = Some e -> next_pc (e_pc e) pc
| next_reply t pc result now e :
    reply config baseUrl t pc result now = Some e -> next_pc (e_pc e) pc
| next_finally : next_pc Finished Settled.

End Segments2.

(** ** The indexes of the store *)

(** The commands of the running [storeResult] that a call has still to
    send. *)
Definition unsent (pc : Pc) : list RedisCmd :=
  match pc with
  | AtDataStore p | AtStoreResult p _ | AtLinkStore p _ | AtErrorStore p => p
  | _ => []
  end.

Section Indexes.

Context `{api : NodeApi}.
Variable config : Config.

(** [indexed r waiting]: every record of [r] that has a status is the
    record of a URL that is in [all_urls] and in the [status:] set of that
    status, and, when it has a type, in the [type:] set of that type; or
    the command that puts it there is among [waiting]. *)
Definition indexed (r : Redis) (waiting : list RedisCmd) : Prop :=
  forall key,
    (forall st, hGet r key "status" = Some st ->
       exists u, key = urlKey config u
                 /\ (u ∈ sMembers r (statusKey config st)
                     \/ SADD (statusKey config st) u ∈ waiting))
    /\ (forall ty, hGet r key "type" = Some ty ->
          exists u, key = urlKey config u
                    /\ (u ∈ sMembers r (typeKey config ty)
                        \/ SADD (typeKey config ty) u ∈ waiting))
    /\ (is_Some (hGet r key "status") ->
        exists u, key = urlKey config u
                  /\ (u ∈ sMembers r (allUrlsKey config)
                      \/ SADD (allUrlsKey config) u ∈ waiting)).

(** What all calls together have still to send. *)
Definition waiting (s : State) : list RedisCmd :=
  flat_map (fun job => unsent (job_pc job)) (jobs s).

(** The first command of a [storeResult] and the ones that follow it:
    the [HSET] of the record of [u], then only [SADD]s, among them those
    that index [u] under what the record says. *)
Definition indexing (u : string) (fields : list (string * string))
           (rest : list RedisCmd) : Prop :=
  forallb is_SADD rest = true
  /\ is_Some (assoc "status" fields)
  /\ (forall st, assoc "status" fields = Some st ->
                 SADD (statusKey config st) u ∈ rest)
  /\ (forall ty, assoc "type" fields = Some ty ->
                 SADD (typeKey config ty) u ∈ rest)
  /\ SADD (allUrlsKey config) u ∈ rest.

(** What a segment does about the store: it sends the next command of
    the running [storeResult]; or it starts a [storeResult]; or it is in
    none and sends at most the [SADD] of a merged referrer. *)
Definition store_step (pc : Pc) (e : Effect) : Prop :=
  (exists c rest, unsent pc = c :: rest /\ e_send e = [c] /\ unsent (e_pc e) = rest)
  \/ (unsent pc = []
      /\ exists u fields,
          e_send e = [HSET (urlKey config u) fields]
          /\ indexing u fields (unsent (e_pc e)))
  \/ (unsent pc = [] /\ unsent (e_pc e) = []
      /\ forallb is_SADD (e_send e) = true).

End Indexes.

(** ** Laws of the URL library

    [normalizeUrl] hands its string to [new URL], deletes the tracking
    parameters and takes the serialisation.  What the crawler does with a
    string that has been through this once already depends on four rules of
    the URL Standard, stated here for that composite, [cleanup_query], and
    proved further down for the reference implementation. *)

(** [url] is [http://host/] or [https://host/]: a host and the path [/],
    nothing else. *)
Definition bare_host (url : string) : bool :=
  match Js.split "/" url with
  | [scheme; gap; host; tail] =>
      (String.eqb scheme "http:" || String.eqb scheme "https:")
      && String.eqb gap EmptyString
      && negb (String.eqb host EmptyString)
      && negb (Js.includes host "\")
      && negb (Js.includes host "?")
      && negb (Js.includes host "#")
      && String.eqb tail EmptyString
  | _ => false
  end.

Class UrlLaws `{api : NodeApi} : Prop := {
  (** Parsing a serialisation gives the URL that was serialised, and a
      parameter that has been deleted is not there to be deleted again. *)
  url_round_trip : forall x,
    cleanup_query (cleanup_query x) = cleanup_query x;
  (** A [#] in a serialisation introduces the fragment; a string without
      [#] has no fragment. *)
  url_fragment_only : forall x,
    Js.includes x "#" = false -> Js.includes (cleanup_query x) "#" = false;
  (** The scheme is kept, in lower case. *)
  url_scheme_kept : forall x,
    Js.startsWith x "http" = true -> Js.startsWith (cleanup_query x) "http" = true;
  (** The empty path of an [http] or [https] URL is the path [/]. *)
  url_empty_path : forall x,
    bare_host x = true -> URL_new x <> None ->
    cleanup_query (Js.strip_trailing_slash x) = cleanup_query x;
  (** Without a base, a string that starts with [/] is not a URL. *)
  url_needs_scheme : forall x,
    Js.startsWith x "/" = true -> URL_new x = None
}.

(** ** What a crawl meets *)

(** A URL that starts with [http], or a path. *)
Definition web_url (url : string) : bool :=
  Js.startsWith url "http" || Js.startsWith url "/".

(** The links a call has still to go through in its loop. *)
Definition links_of (pc : Pc) : list Link :=
  match pc with
  | AtLinkStore _ links => links
  | _ => []
  end.

(** ** Vocabulary for the reference URL parser *)

(** Every character of [s] satisfies [p]. *)
Definition str_all (p : ascii -> bool) (s : string) : bool :=
  forallb p (String.list_ascii_of_string s).

(** [s] is empty or starts with a character that does not satisfy [p]:
    a scan for [p] stops in front of [s]. *)
Definition stops_at (p : ascii -> bool) (s : string) : bool :=
  match s with
  | EmptyString => true
  | String c _ => negb (p c)
  end.

Module RefUrl.

Import Reference.

Definition set_query (u : url) (q : option string) : url :=
  {| u_scheme := u_scheme u; u_host := u_host u; u_path := u_path u;
     u_query := q; u_fragment := u_fragment u |}.

(** The pairs of a query string, and the query string of a list of
    pairs, as [searchParams_delete] reads and writes them. *)
Definition pairs (q : option string) : list (string * string) :=
  match q with
  | Some q =>
      map pair_of (filter (fun p => negb (String.eqb p EmptyString)) (Js.split "&" q))
  | None => []
  end.

Definition fmt (nv : string * string) : string := fst nv +:+ "=" +:+ snd nv.

Definition unpairs (l : list (string * string)) : option string :=
  let q := Js.join "&" (map fmt l) in
  if String.eqb q EmptyString then None else Some q.

(** The pairs that are left when every parameter of [names] has been
    deleted. *)
Definition without (names : list string) (l : list (string * string))
  : list (string * string) :=
  List.filter (fun nv => forallb (fun n => negb (String.eqb (fst nv) n)) names) l.

(** A pair that a query string can hold as it is. *)
Definition plain_pair (nv : string * string) : Prop :=
  str_all (not_in ["="; "&"]%char) (fst nv) = true
  /\ str_all (not_in ["&"]%char) (snd nv) = true.

(** The tail of a serialisation: query and fragment. *)
Definition tail_of (query fragment : option string) : string :=
  match query with Some q => "?" +:+ q | None => EmptyString end
  +:+ match fragment with Some f => "#" +:+ f | None => EmptyString end.

(** What the parser returns: the shape of the records that [parse] and
    [searchParams_delete] produce. *)
Definition well_formed (u : url) : Prop :=
  (exists c s, u_scheme u = String c s /\ is_alpha c = true)
  /\ str_all is_scheme_char (u_scheme u) = true
  /\ Js.lower (u_scheme u) = u_scheme u
  /\ str_all (not_in ["?"; "#"]%char) (u_path u) = true
  /\ (forall q, u_query u = Some q -> str_all (not_in ["#"]%char) q = true)
  /\ (if is_special (u_scheme u) then
        exists h,
          u_host u = Some h /\ h <> EmptyString
          /\ str_all (not_in ["/"; "\"; "?"; "#"]%char) h = true
          /\ Js.lower h = h
          /\ u_path u <> EmptyString
          /\ stops_at (not_in ["/"; "\"; "?"; "#"]%char) (u_path u) = true
      else
        match u_host u with
        | Some h =>
            str_all (not_in ["/"; "?"; "#"]%char) h = true
            /\ stops_at (not_in ["/"; "?"; "#"]%char) (u_path u) = true
        | None => Js.startsWith (u_path u) "//" = false
        end).

End RefUrl.

(** * Concrete runs

    A small site, evaluated with the reference libraries. *)

Module Example.

Definition config : Config :=
  {| websiteUrl := "https://ex.com"; maxDepth := 2; concurrency := 5;
     redisKeyPrefix := "tracer:"; skipDataImages := true;
     excludePatterns := ["/admin"] |}.

Definition baseUrl : ParsedUrl := {| protocol := "https:"; hostname := "ex.com" |}.

(** A seed served over plain [http]. *)
Definition http_seed : string := "http://example.com".

Definition http_baseUrl : ParsedUrl :=
  {| protocol := "http:"; hostname := "example.com" |}.

Definition anchor (href : string) : Element :=
  {| attr_href := Some href; attr_src := None; attr_rel := None;
     attr_alt := None; elem_text := "go" |}.

Definition stylesheet (href : string) : Element :=
  {| attr_href := Some href; attr_src := None; attr_rel := Some "stylesheet";
     attr_alt := None; elem_text := EmptyString |}.

Definition html (doc : Document) : HttpResult :=
  Resolved {| resp_status := 200; resp_responseUrl := None;
              resp_contentType := Some "text/html; charset=utf-8";
              resp_data := doc |}.

Definition css : HttpResult :=
  Resolved {| resp_status := 200; resp_responseUrl := None;
              resp_contentType := Some "text/css";
              resp_data := empty_document |}.

Definition now : string := "2025-01-01T00:00:00.000Z".

Definition turns (i n : nat) : list Label := repeat (Resume i now) n.

(** The seed page links to an inbound and to an outbound URL, both under
    the excluded prefix [/admin]. *)
Definition admin_page : Document :=
  {| sel_a := [anchor "/admin/users"; anchor "https://other.org/admin/x"];
     sel_stylesheet := []; sel_script := []; sel_img := [] |}.

(** Job 0 fetches the seed (HEAD, then GET), stores its result and the
    two links and finishes; the timer starts jobs 1 and 2, which are
    refused at admission; the last timer finds nothing left. *)
Definition admin_schedule : list Label :=
  [Resume 0 now; Reply 0 (html empty_document) now; Reply 0 (html admin_page) now]
  ++ turns 0 3                 (* rest of storeResult for the seed *)
  ++ turns 0 5                 (* first link: push, five commands *)
  ++ turns 0 5                 (* second link *)
  ++ turns 0 2                 (* end of loop, .finally *)
  ++ [Timer; Resume 1 now; Resume 2 now; Resume 1 now; Resume 2 now; Timer; Timer].

Definition admin_run : option State :=
  run (api := Reference.node) config baseUrl
      (main config redis_empty) admin_schedule.

Definition admin_final : State := default (main config redis_empty) admin_run.

(** The same run, stopped before its last timer. *)
Definition admin_before_last : State :=
  default (main config redis_empty)
          (run (api := Reference.node) config baseUrl
               (main config redis_empty) (removelast admin_schedule)).

(** The same run, stopped while job 0 waits for the answer to its HEAD. *)
Definition waiting_state : State :=
  default (main config redis_empty)
          (run (api := Reference.node) config baseUrl
               (main config redis_empty) [Resume 0 now]).

Definition seed_task : Task :=
  {| task_url := "https://ex.com"; task_referrer := EmptyString;
     task_depth := 0; task_sourcePages := [] |}.

Definition timeout : AxiosError :=
  {| err_message := "timeout of 10000ms exceeded"; err_status := None |}.

(** The same run, stopped when job 0 has stored the result for the seed and
    is about to extract the links. *)
Definition page_response : Response :=
  {| resp_status := 200; resp_responseUrl := None;
     resp_contentType := Some "text/html; charset=utf-8";
     resp_data := admin_page |}.

Definition expanding_state : State :=
  default (main config redis_empty)
          (run (api := Reference.node) config baseUrl
               (main config redis_empty)
               ([Resume 0 now; Reply 0 (html empty_document) now;
                 Reply 0 (html admin_page) now] ++ turns 0 3)).

(** The seed page links two style sheets; jobs 1 and 2 check them and
    both settle before the first of their timers fires. *)
Definition css_page : Document :=
  {| sel_a := []; sel_stylesheet := [stylesheet "/a.css"; stylesheet "/b.css"];
     sel_script := []; sel_img := [] |}.

Definition css_schedule : list Label :=
  [Resume 0 now; Reply 0 (html empty_document) now; Reply 0 (html css_page) now]
  ++ turns 0 3 ++ turns 0 5 ++ turns 0 5 ++ turns 0 2
  ++ [Timer; Resume 1 now; Resume 2 now; Reply 1 css now; Reply 2 css now]
  ++ turns 1 5 ++ turns 2 5    (* storeResult of each, then return *)
  ++ [Resume 1 now; Resume 2 now]   (* both .finally callbacks *)
  ++ [Timer; Timer].

Definition css_run : option State :=
  run (api := Reference.node) config baseUrl
      (main config redis_empty) css_schedule.

Definition css_final : State := default (main config redis_empty) css_run.

(** The scenario of the specification: [maxDepth] 1, no exclusion; the seed
    page has [<a href="/about">], [<img src="//ex.com/a.png">] and
    [<a href="https://other.org">]. *)
Definition site_config : Config :=
  {| websiteUrl := "https://ex.com"; maxDepth := 1; concurrency := 5;
     redisKeyPrefix := "tracer:"; skipDataImages := true;
     excludePatterns := [] |}.

Definition image (src : string) : Element :=
  {| attr_href := None; attr_src := Some src; attr_rel := None;
     attr_alt := None; elem_text := EmptyString |}.

Definition png : HttpResult :=
  Resolved {| resp_status := 200; resp_responseUrl := None;
              resp_contentType := Some "image/png";
              resp_data := empty_document |}.

Definition site_page : Document :=
  {| sel_a := [anchor "/about"; anchor "https://other.org"];
     sel_stylesheet := []; sel_script := [];
     sel_img := [image "//ex.com/a.png"] |}.

Definition site_schedule : list Label :=
  [Resume 0 now; Reply 0 (html empty_document) now; Reply 0 (html site_page) now]
  ++ turns 0 3 ++ turns 0 5 ++ turns 0 5 ++ turns 0 5 ++ turns 0 2
  ++ [Timer; Resume 1 now; Resume 2 now; Resume 3 now;
      Reply 2 (html empty_document) now; Reply 1 (html empty_document) now;
      Reply 3 png now]
  ++ turns 1 6 ++ [Timer] ++ turns 3 6 ++ [Timer] ++ turns 2 6 ++ [Timer].

Definition site_run : option State :=
  run (api := Reference.node) site_config baseUrl
      (main site_config redis_empty) site_schedule.

Definition site_final : State := default (main site_config redis_empty) site_run.

(** A data image. *)
Definition data_image : string := "data:image/png;base64,iVBORw0KGgo=".

End Example.

(** ** Further configurations and runs *)

Module Cases.

(** [EXCLUDE_PATTERNS=/admin,] with its trailing comma. *)
Definition comma_config : Config :=
  {| websiteUrl := "https://ex.com"; maxDepth := 2; concurrency := 5;
     redisKeyPrefix := "tracer:"; skipDataImages := true;
     excludePatterns :=
       excludePatterns_of_env (api := Reference.node) (Some "/admin,") |}.

(** The seed is refused at admission, its call returns and the timer
    finds the crawl idle. *)
Definition comma_run : option State :=
  run (api := Reference.node) comma_config Example.baseUrl
      (main comma_config redis_empty)
      [Resume 0 Example.now; Resume 0 Example.now; Timer].

Definition comma_final : State :=
  default (main comma_config redis_empty) comma_run.

(** [SKIP_DATA_IMAGES=false]. *)
Definition images_config : Config :=
  {| websiteUrl := "https://ex.com"; maxDepth := 2; concurrency := 5;
     redisKeyPrefix := "tracer:";
     skipDataImages := skipDataImages_of_env (Some "false");
     excludePatterns := [] |}.

(** [CONCURRENCY=0]. *)
Definition stalled_config : Config :=
  {| websiteUrl := "https://ex.com"; maxDepth := 2; concurrency := 0;
     redisKeyPrefix := "tracer:"; skipDataImages := true;
     excludePatterns := [] |}.

(** [MAX_DEPTH=-1]: the seed is refused, its call returns, the timer
    generates the summary. *)
Definition shallow_config : Config :=
  {| websiteUrl := "https://ex.com"; maxDepth := -1; concurrency := 5;
     redisKeyPrefix := "tracer:"; skipDataImages := true;
     excludePatterns := [] |}.

Definition shallow_run : option State :=
  run (api := Reference.node) shallow_config Example.baseUrl
      (main shallow_config redis_empty)
      [Resume 0 Example.now; Resume 0 Example.now; Timer].

Definition shallow_final : State :=
  default (main shallow_config redis_empty) shallow_run.

(** The example run of the site, cut where the call for the seed has
    returned: the three links have their stub records, none is checked. *)
Definition site_first_part : list Label :=
  [Resume 0 Example.now; Reply 0 (Example.html empty_document) Example.now;
   Reply 0 (Example.html Example.site_page) Example.now]
  ++ Example.turns 0 3 ++ Example.turns 0 5 ++ Example.turns 0 5
  ++ Example.turns 0 5 ++ Example.turns 0 2.

Definition site_second_part : list Label :=
  [Timer; Resume 1 Example.now; Resume 2 Example.now; Resume 3 Example.now;
   Reply 2 (Example.html empty_document) Example.now;
   Reply 1 (Example.html empty_document) Example.now;
   Reply 3 Example.png Example.now]
  ++ Example.turns 1 6 ++ [Timer] ++ Example.turns 3 6 ++ [Timer]
  ++ Example.turns 2 6 ++ [Timer].

Definition site_stubbed : State :=
  default (main Example.site_config redis_empty)
          (run (api := Reference.node) Example.site_config Example.baseUrl
               (main Example.site_config redis_empty) site_first_part).

(** Some of the fields of the stub record [checkUrl] writes for a link. *)
Definition stub_data : Data :=
  [("url", VStr "https://ex.com/about");
   ("referrer", VStr "https://ex.com");
   ("type", VStr "link");
   ("isInbound", VNum 1);
   ("checkedAt", VNull)].

(** Four calls in flight, three tasks queued, and a concurrency of 5. *)
Definition task_for (url : string) : Task :=
  {| task_url := url; task_referrer := "https://ex.com"; task_depth := 1;
     task_sourcePages := ["https://ex.com"] |}.

Definition crowded_state : State :=
  {| queue := [task_for "https://ex.com/e"; task_for "https://ex.com/f";
               task_for "https://ex.com/g"];
     activeTasks := 4; visitedUrls := ∅; redis := redis_empty;
     jobs := map (fun u => {| job_task := task_for u; job_pc := AtRequest HEAD |})
                 ["https://ex.com/a"; "https://ex.com/b"; "https://ex.com/c";
                  "https://ex.com/d"];
     timers := 0; summaries := 0; requests := [] |}.

End Cases.

(** ** A data image as the seed *)

Module DataSeed.

Definition config : Config :=
  {| websiteUrl := Example.data_image; maxDepth := 2; concurrency := 5;
     redisKeyPrefix := "tracer:"; skipDataImages := true;
     excludePatterns := [] |}.

Definition baseUrl : ParsedUrl := {| protocol := "data:"; hostname := EmptyString |}.

(** The call for the seed runs its only segment and returns, its
    [.finally] callback runs, the timer fires. *)
Definition schedule : list Label :=
  [Resume 0 Example.now; Resume 0 Example.now; Timer].

Definition seed_run : option State :=
  run (api := Reference.node) config baseUrl (main config redis_empty) schedule.

Definition final : State := default (main config redis_empty) seed_run.

End DataSeed.
(** * Properties *)

(** ** String lemmas *)

Lemma append_cons (c : ascii) (a b : string) :
  String c a +:+ b = String c (a +:+ b).
Proof. reflexivity. Qed.

Lemma append_nil (b : string) : EmptyString +:+ b = b.
Proof. reflexivity. Qed.

Lemma Js_take_drop (n : nat) (s : string) : Js.take n s +:+ Js.drop n s = s.
Proof.
  revert s; induction n as [|n IH]; intros [|c t]; simpl; try reflexivity.
  rewrite append_cons. f_equal. apply IH.
Qed.

Lemma Js_take_app (a b : string) : Js.take (String.length a) (a +:+ b) = a.
Proof.
  induction a as [|c a IH]; simpl.
  - now destruct b.
  - rewrite ?append_cons. simpl. f_equal. exact IH.
Qed.

Lemma Js_drop_app (a b : string) : Js.drop (String.length a) (a +:+ b) = b.
Proof.
  induction a as [|c a IH]; simpl; [reflexivity|].
  rewrite ?append_cons. exact IH.
Qed.

Lemma lower_length (s : string) : String.length (Js.lower s) = String.length s.
Proof. induction s as [|c s IH]; simpl; [reflexivity | f_equal; exact IH]. Qed.

Lemma startsWith_app (p s : string) : Js.startsWith (p +:+ s) p = true.
Proof.
  unfold Js.startsWith. induction p as [|c p IH].
  - now destruct s.
  - rewrite append_cons. simpl.
    destruct (ascii_dec c c) as [_|n]; [exact IH | now destruct n].
Qed.

Lemma startsWith_inv (s p : string) :
  Js.startsWith s p = true -> exists t, s = p +:+ t.
Proof.
  unfold Js.startsWith. revert s; induction p as [|c p IH]; intros s H.
  - now exists s.
  - destruct s as [|d s]; [discriminate|]. simpl in H.
    destruct (ascii_dec c d) as [->|]; [|discriminate].
    destruct (IH _ H) as [t ->]. now exists t.
Qed.

(** ** The patterns of [getAssetType] *)

Lemma end_or_query_spec (s : string) :
  Js.end_or_query s = true <-> s = EmptyString \/ exists q, s = "?" +:+ q.
Proof.
  destruct s as [|c t]; simpl.
  - split; [now left | reflexivity].
  - rewrite Ascii.eqb_eq. split.
    + intros ->. right. now exists t.
    + intros [H|[q H]]; [discriminate | now injection H].
Qed.

Lemma ext_here_spec (exts : list string) (s : string) :
  Js.ext_here exts s = true <->
  exists e mid post,
    In e exts /\ s = "." +:+ mid +:+ post /\ Js.lower mid = e
    /\ (post = EmptyString \/ exists q, post = "?" +:+ q).
Proof.
  unfold Js.ext_here. split.
  - destruct s as [|c t]; [discriminate|].
    destruct (Ascii.eqb_spec c ".") as [->|Hc].
    + intros H. apply existsb_exists in H as (e & He & H).
      apply andb_true_iff in H as [H1 H2].
      apply String.eqb_eq in H1. apply end_or_query_spec in H2.
      exists e, (Js.take (String.length e) t), (Js.drop (String.length e) t).
      repeat split; try assumption. simpl. now rewrite Js_take_drop.
    + intros H. exfalso.
      destruct c as [[] [] [] [] [] [] [] []]; try discriminate H.
      now apply Hc.
  - intros (e & mid & post & He & -> & Hl & Hp).
    change ("." +:+ mid +:+ post) with (String "." (mid +:+ post)).
    cbv iota beta.
    apply existsb_exists. exists e. split; [assumption|].
    assert (String.length e = String.length mid) as ->
      by (rewrite <- Hl; apply lower_length).
    rewrite Js_take_app, Js_drop_app, Hl, String.eqb_refl. simpl.
    now apply end_or_query_spec.
Qed.

Lemma match_ext_spec (exts : list string) (url : string) :
  Js.match_ext exts url = true <-> exists e, In e exts /\ has_ext e url.
Proof.
  induction url as [|c t IH].
  - simpl. split.
    + discriminate.
    + intros (e & _ & pre & mid & post & H & _). now destruct pre.
  - change (Js.match_ext exts (String c t))
      with (Js.ext_here exts (String c t) || Js.match_ext exts t).
    rewrite orb_true_iff, IH, ext_here_spec. split.
    + intros [(e & mid & post & He & Hs & Hl & Hp) | (e & He & pre & mid & post & Hs & Hl & Hp)].
      * exists e. split; [assumption|]. exists EmptyString, mid, post. auto.
      * exists e. split; [assumption|]. exists (String c pre), mid, post.
        simpl. rewrite Hs. auto.
    + intros (e & He & pre & mid & post & Hs & Hl & Hp).
      destruct pre as [|d pre].
      * left. exists e, mid, post. auto.
      * right. exists e. split; [assumption|]. simpl in Hs.
        injection Hs as _ Hs. exists pre, mid, post. auto.
Qed.

Lemma match_ext_one (e url : string) :
  Js.match_ext [e] url = true <-> has_ext e url.
Proof.
  rewrite match_ext_spec. split.
  - intros (e' & [<-|[]] & H). exact H.
  - intros H. exists e. split; [now left | exact H].
Qed.

Lemma match_ext_false (exts : list string) (url : string) :
  Js.match_ext exts url = false <-> ~ exists e, In e exts /\ has_ext e url.
Proof.
  rewrite <- match_ext_spec. destruct (Js.match_ext exts url); split; intros H.
  - discriminate.
  - now destruct H.
  - discriminate.
  - reflexivity.
Qed.

(** C9.  Classification precedence: tag [a] gives [link], tag [script]
    gives [script], tag [img] gives [image], tag [link] on a URL with a
    [.css] suffix gives [css]; in every other case the result is decided by
    the extension: an image extension gives [image], then [.css] gives
    [css], then [.js] gives [script], and [other] is the default. *)
Theorem getAssetType_precedence (url tag : string) :
  (tag = "a" -> getAssetType url tag = LINK)
  /\ (tag = "script" -> getAssetType url tag = SCRIPT)
  /\ (tag = "img" -> getAssetType url tag = IMAGE)
  /\ (tag = "link" -> has_ext "css" url -> getAssetType url tag = CSS)
  /\ (tag <> "a" -> tag <> "script" -> tag <> "img" ->
      (tag = "link" -> ~ has_ext "css" url) ->
      sniffed url (getAssetType url tag)).
Proof.
  unfold getAssetType. split; [|split; [|split; [|split]]].
  - now intros ->.
  - intros ->. simpl. reflexivity.
  - intros ->. simpl. reflexivity.
  - intros -> H. apply match_ext_one in H. now rewrite H.
  - intros Ha Hs Hi Hl.
    apply String.eqb_neq in Ha, Hs, Hi. rewrite Ha, Hs, Hi.
    assert (String.eqb tag "link" && Js.match_ext ["css"] url = false) as ->.
    { destruct (String.eqb_spec tag "link") as [E|]; [|reflexivity].
      simpl. apply match_ext_false. intros (e & [<-|[]] & H). now apply Hl. }
    unfold sniffed. split; [|split; [|split]].
    + intros Himg. apply match_ext_spec in Himg. now rewrite Himg.
    + intros Himg Hcss. apply match_ext_false in Himg.
      apply match_ext_one in Hcss. now rewrite Himg, Hcss.
    + intros Himg Hcss Hjs. apply match_ext_false in Himg.
      assert (Js.match_ext ["css"] url = false) as Hc.
      { apply match_ext_false. intros (e & [<-|[]] & H). now apply Hcss. }
      apply match_ext_one in Hjs. now rewrite Himg, Hc, Hjs.
    + intros Himg Hcss Hjs. apply match_ext_false in Himg.
      assert (Js.match_ext ["css"] url = false) as Hc.
      { apply match_ext_false. intros (e & [<-|[]] & H). now apply Hcss. }
      assert (Js.match_ext ["js"] url = false) as Hj.
      { apply match_ext_false. intros (e & [<-|[]] & H). now apply Hjs. }
      now rewrite Himg, Hc, Hj.
Qed.

(** ** [normalizeUrl] *)

Lemma strip_trailing_slash_id (s : string) :
  Js.endsWith s "/" = false -> Js.strip_trailing_slash s = s.
Proof.
  induction s as [|c t IH]; [reflexivity|].
  destruct t as [|d t'].
  - simpl. now intros ->.
  - intros H. change (Js.strip_trailing_slash (String c (String d t')))
      with (String c (Js.strip_trailing_slash (String d t'))).
    f_equal. apply IH. exact H.
Qed.

Lemma first_split_id (c : ascii) (s : string) :
  Js.includes s (String c EmptyString) = false -> Js.first (Js.split c s) = s.
Proof.
  induction s as [|d t IH]; [reflexivity|].
  intros H. simpl in H. apply orb_false_iff in H as [H1 H2].
  unfold Js.startsWith in H1. simpl in H1.
  simpl. destruct (Ascii.eqb_spec d c) as [->|Hne].
  - destruct (ascii_dec c c) as [_|n]; [|now destruct n].
    now destruct t.
  - specialize (IH H2). destruct (Js.split c t) as [|w ws]; simpl in *.
    + now subst t.
    + now subst w.
Qed.

Section NormalizeUrl.

Context `{api : NodeApi}.
Variable baseUrl : ParsedUrl.

Lemma absolutize_http (url base : string) :
  Js.startsWith url "http" = true -> absolutize baseUrl url base = url.
Proof.
  intros H. unfold absolutize.
  assert (Js.startsWith url "//" = false) as ->
    by (destruct (startsWith_inv _ _ H) as [t ->]; reflexivity).
  assert (Js.startsWith url "/" = false) as ->
    by (destruct (startsWith_inv _ _ H) as [t ->]; reflexivity).
  now rewrite H.
Qed.

Lemma absolutize_protocol_relative (url base : string) :
  Js.startsWith url "//" = true -> absolutize baseUrl url base = "https:" +:+ url.
Proof.
  intros H. unfold absolutize. rewrite H. reflexivity.
Qed.

(** C5, as the code has it.  A reference that starts with [//] is
    prefixed with the fixed scheme [https:], whatever the scheme of the seed,
    and then goes through the remaining steps: one trailing slash and the
    fragment are removed and the tracking parameters are deleted. *)
Theorem normalizeUrl_protocol_relative (url base : string) :
  Js.startsWith url "//" = true ->
  normalizeUrl baseUrl url base =
    cleanup_query
      (Js.first (Js.split "#" (Js.strip_trailing_slash ("https:" +:+ url)))).
Proof.
  intros H. unfold normalizeUrl. now rewrite absolutize_protocol_relative.
Qed.

End NormalizeUrl.

(** Witness of [normalizeUrl_protocol_relative]. *)
Lemma normalizeUrl_protocol_relative_witness :
  Js.startsWith "//cdn.example.org/app.js" "//" = true
  /\ normalizeUrl (api := Reference.node) Example.http_baseUrl
       "//cdn.example.org/app.js" Example.http_seed
     = "https://cdn.example.org/app.js".
Proof.
  split; [reflexivity|].
  rewrite (normalizeUrl_protocol_relative (api := Reference.node)); reflexivity.
Defined.

(** C5 as stated fails: with a seed served over [http], the reference
    [//cdn.example.org/app.js] comes back with [https:], not with the
    scheme of the seed. *)
Lemma normalizeUrl_protocol_relative_not_seed_scheme :
  URLParse (NodeApi := Reference.node) Example.http_seed = Some Example.http_baseUrl
  /\ Js.startsWith "//cdn.example.org/app.js" "//" = true
  /\ normalizeUrl (api := Reference.node) Example.http_baseUrl
       "//cdn.example.org/app.js" Example.http_seed
     <> baseProtocol Example.http_baseUrl +:+ "//cdn.example.org/app.js".
Proof.
  split; [reflexivity|]. split; [reflexivity|]. vm_compute. discriminate.
Qed.

(** C3 as stated fails: a slash in front of the fragment survives the first
    pass and is removed by the second. *)
Lemma normalizeUrl_not_idempotent :
  normalizeUrl (api := Reference.node) Example.baseUrl
    "https://ex.com/docs/#intro" "https://ex.com"
  = "https://ex.com/docs/"
  /\ normalizeUrl (api := Reference.node) Example.baseUrl
       "https://ex.com/docs/" "https://ex.com"
     = "https://ex.com/docs"
  /\ normalizeUrl (api := Reference.node) Example.baseUrl
       (normalizeUrl (api := Reference.node) Example.baseUrl
          "https://ex.com/docs/#intro" "https://ex.com")
       "https://ex.com"
     <> normalizeUrl (api := Reference.node) Example.baseUrl
          "https://ex.com/docs/#intro" "https://ex.com".
Proof.
  split; [reflexivity|]. split; [reflexivity|]. vm_compute. discriminate.
Qed.

(** ** Segments of [checkUrl] *)

Section SegmentFacts.

Context `{api : NodeApi}.
Variable config : Config.
Variable baseUrl : ParsedUrl.

Ltac segments H :=
  unfold resume, reply, for_links, on_error, on_response, store, goto, expands in H;
  repeat case_match; simplify_eq; simpl in *.

Lemma expands_inbound (t : Task) (r : Response) :
  expands config baseUrl t r = true ->
  isInboundLink baseUrl (task_url t) = true /\ task_depth t < maxDepth config.
Proof.
  unfold expands. intros H.
  apply andb_true_iff in H as [H H3]. apply andb_true_iff in H as [_ H2].
  split; [assumption | now apply Z.ltb_lt].
Qed.

Ltac tidy :=
  repeat match goal with
    | H : negb _ = false |- _ => apply negb_false_iff in H
    | H : negb _ = true |- _ => apply negb_true_iff in H
    | H : bool_decide _ = false |- _ => apply bool_decide_eq_false in H
    | H : bool_decide _ = true |- _ => apply bool_decide_eq_true in H
    | H : _ && _ = true |- _ => apply andb_true_iff in H as [? ?]
    | H : (_ <? _) = true |- _ => apply Z.ltb_lt in H
    end.

Ltac close :=
  tidy; simplify_eq; simpl in *;
  try discriminate; try congruence;
  repeat match goal with
    | |- _ /\ _ => split
    | |- _ = _ => reflexivity || assumption || congruence
    | |- _ ∉ _ => assumption
    | |- _ < _ => assumption
    | |- exists _, _ => eexists
    end;
  try solve [auto | left; eauto | right; eauto | right; split; auto].

Ltac pushed Hin :=
  repeat match type of Hin with
    | (_ ∈ []) => apply elem_of_nil in Hin; destruct Hin
    | (_ ∈ [_]) => apply list_elem_of_singleton in Hin; subst; simpl
    | (_ ∈ (if ?b then _ else _)) => destruct b eqn:?
    end;
  tidy;
  try match goal with
    | Hloop : (exists _ _, _ = _) -> _ |- _ =>
        let H := fresh in
        assert (H := Hloop ltac:(eauto)); lia
    end;
  try lia.

Lemma resume_sound (t : Task) (pc : Pc) (vis : gset string) (now : string) (e : Effect) :
  resume config baseUrl t pc vis now = Some e -> sound config baseUrl t pc vis e.
Proof.
  intros H. split.
  - intros u Hu. segments H; close.
  - intros m Hm. segments H; close.
  - intros m Hm. segments H; close.
  - intros Hm. segments H; close.
  - intros task Hin Hloop Hd. segments H; close; pushed Hin.
  - intros response0 Hm. segments H; close.
  - intros Hm. segments H; close.
  - intros Hm. segments H; close.
  - intros p l Hm. segments H; close.
  - intros Hm. segments H; close.
  - intros Hm. segments H; close.
Qed.

Lemma reply_sound (t : Task) (pc : Pc) (vis : gset string) (r : HttpResult)
      (now : string) (e : Effect) :
  reply config baseUrl t pc r now = Some e -> sound config baseUrl t pc vis e.
Proof.
  intros H. split.
  - intros u Hu. segments H; close.
  - intros m Hm. segments H; close.
  - intros m Hm. segments H; close.
  - intros Hm. segments H; close.
  - intros task Hin Hloop Hd. segments H; close; pushed Hin.
  - intros response0 Hm. segments H; close.
  - intros Hm. segments H; close.
  - intros Hm. segments H; close.
  - intros p l Hm. segments H; close.
  - intros Hm. segments H; close.
  - intros Hm. segments H; close.
Qed.

(** A request settles only for a job that waits for one, a job that
    waits for one resumes only then. *)
Lemma reply_enabled (t : Task) (pc : Pc) (r : HttpResult) (now : string) :
  is_Some (reply config baseUrl t pc r now)
  <-> (exists m, pc = AtRequest m) \/ (exists response, pc = AtEscalation response).
Proof.
  split.
  - intros [e H]. destruct pc; try discriminate; eauto.
  - intros [[m ->] | [response ->]]; destruct r; simpl; eauto.
Qed.

(** Only a call that has not finished runs a segment, and no segment is
    the last word: the [.finally] callback is. *)
Lemma resume_live (t : Task) (pc : Pc) (vis : gset string) (now : string) (e : Effect) :
  resume config baseUrl t pc vis now = Some e ->
  is_finished (e_pc e) = false /\ is_finished pc = false.
Proof. intros H. segments H; close. Qed.

Lemma reply_live (t : Task) (pc : Pc) (r : HttpResult) (now : string) (e : Effect) :
  reply config baseUrl t pc r now = Some e ->
  is_finished (e_pc e) = false /\ is_finished pc = false.
Proof. intros H. segments H; close. Qed.

Lemma shouldCrawlUrl_not_excluded (url : string) (depth : Z) :
  shouldCrawlUrl config url depth = true -> isUrlExcluded config url = false.
Proof.
  unfold shouldCrawlUrl. repeat case_match; congruence.
Qed.

Lemma shouldCrawlUrl_depth (url : string) (depth : Z) :
  shouldCrawlUrl config url depth = true -> depth <= maxDepth config.
Proof.
  unfold shouldCrawlUrl. destruct (maxDepth config <? depth) eqn:E; [discriminate|].
  intros _. apply Z.ltb_ge in E. exact E.
Qed.

Lemma shouldCrawlUrl_at_0 (url : string) (depth : Z) :
  shouldCrawlUrl config url depth = true -> 0 <= depth ->
  shouldCrawlUrl config url 0 = true.
Proof.
  unfold shouldCrawlUrl. intros H Hd.
  destruct (maxDepth config <? depth) eqn:E; [discriminate|].
  apply Z.ltb_ge in E.
  assert ((maxDepth config <? 0) = false) as -> by (apply Z.ltb_ge; lia).
  exact H.
Qed.

Lemma shouldCrawlUrl_at_depth (url : string) (depth : Z) :
  shouldCrawlUrl config url 0 = true -> depth <= maxDepth config ->
  shouldCrawlUrl config url depth = true.
Proof.
  unfold shouldCrawlUrl. intros H Hd.
  destruct (maxDepth config <? 0) eqn:E; [discriminate|].
  assert ((maxDepth config <? depth) = false) as -> by (apply Z.ltb_ge; lia).
  exact H.
Qed.

(** ** What a segment changes *)

Section Perform.

Variables (s : State) (i : nat) (job : Job) (e : Effect).
Hypothesis Hjob : jobs s !! i = Some job.

Let s' := perform i (job_task job) e s.
Let job' := {| job_task := job_task job; job_pc := e_pc e |}.

Lemma perform_jobs (j : nat) (job2 : Job) :
  jobs s' !! j = Some job2 <->
  (j = i /\ job2 = job') \/ (j <> i /\ jobs s !! j = Some job2).
Proof.
  unfold s'. simpl. rewrite list_lookup_insert_Some.
  pose proof (lookup_lt_Some _ _ _ Hjob). intuition; subst; auto.
Qed.

Lemma perform_requests (r : nat * Method * string) :
  r ∈ requests s' <->
  (exists m, e_request e = Some m /\ r = (i, m, job_url job)) \/ r ∈ requests s.
Proof.
  unfold s'. simpl. destruct (e_request e) as [m|].
  - rewrite elem_of_cons. split.
    + intros [->|H]; [left; eauto | now right].
    + intros [(m' & Hm & ->)|H]; [left; injection Hm as ->; reflexivity | now right].
  - split; [now right|]. intros [(m' & Hm & _)|H]; [discriminate | assumption].
Qed.

Lemma perform_visited (u : string) :
  u ∈ visitedUrls s' <-> e_visit e = Some u \/ u ∈ visitedUrls s.
Proof.
  unfold s'. simpl. destruct (e_visit e) as [v|].
  - rewrite elem_of_union, elem_of_singleton. split.
    + intros [->|H]; auto.
    + intros [H|H]; [left; congruence | now right].
  - split; [now right|]. intros [H|H]; [discriminate | assumption].
Qed.

Lemma perform_requests_by (j : nat) :
  requests_by j s' =
  match e_request e with
  | Some m => if decide (j = i) then (i, m, job_url job) :: requests_by j s
              else requests_by j s
  | None => requests_by j s
  end.
Proof.
  unfold requests_by, s'. simpl. destruct (e_request e) as [m|]; [|reflexivity].
  destruct (decide (j = i)) as [->|Hne].
  - now rewrite filter_cons_True.
  - rewrite filter_cons_False; [reflexivity|]. simpl. congruence.
Qed.

End Perform.

Lemma requests_by_elem (s : State) (i : nat) (r : nat * Method * string) :
  r ∈ requests_by i s <-> r.1.1 = i /\ r ∈ requests s.
Proof. unfold requests_by. now rewrite list_elem_of_filter. Qed.

Lemma requests_by_nil (s : State) (i : nat) :
  (forall m u, (i, m, u) ∉ requests s) -> requests_by i s = [].
Proof.
  intros H. destruct (requests_by i s) as [|[[j m] u] l] eqn:E; [reflexivity|].
  assert ((j, m, u) ∈ requests_by i s) as Hin by (rewrite E; left).
  apply requests_by_elem in Hin as [Hj Hin]. simpl in Hj. subst j.
  now destruct (H m u).
Qed.

Lemma perform_inv (s : State) (i : nat) (job : Job) (e : Effect) :
  Inv config baseUrl s -> jobs s !! i = Some job ->
  sound config baseUrl (job_task job) (job_pc job) (visitedUrls s) e ->
  Inv config baseUrl (perform i (job_task job) e s).
Proof.
  intros I Hjob S. split.
  - (* inv_req_job *)
    intros j m u Hr. apply (perform_requests s i job e) in Hr as [(m' & Hm & Hr)|Hr].
    + simplify_eq. eexists. split; [apply (perform_jobs s i job e Hjob); left; eauto|].
      reflexivity.
    + destruct (inv_req_job _ _ _ I _ _ _ Hr) as (job2 & Hj & Hu).
      destruct (decide (j = i)) as [->|Hne].
      * simplify_eq. eexists. split; [apply (perform_jobs s i job e Hjob); left; eauto|].
        reflexivity.
      * exists job2. split; [|assumption].
        apply (perform_jobs s i job e Hjob). right; auto.
  - (* inv_req_visited *)
    intros j m u Hr. apply (perform_visited s i job e).
    apply (perform_requests s i job e) in Hr as [(m' & Hm & Hr)|Hr].
    + simplify_eq. destruct (snd_request _ _ _ _ _ _ S _ Hm) as [(_ & Hv & _)|(m0 & r & Hpc & _)].
      * left. exact Hv.
      * right. apply (inv_claimed_visited _ _ _ I i job Hjob). now rewrite Hpc.
    + right. eapply inv_req_visited; eauto.
  - (* inv_claimed_visited *)
    intros j job2 Hj Hc. apply (perform_visited s i job e).
    apply (perform_jobs s i job e Hjob) in Hj as [[-> ->]|[Hne Hj]].
    + simpl in Hc. destruct (snd_claimed _ _ _ _ _ _ S Hc) as [Hc'|Hv].
      * right. exact (inv_claimed_visited _ _ _ I i job Hjob Hc').
      * left. exact Hv.
    + right. eapply inv_claimed_visited; eauto.
  - (* inv_visited_admitted *)
    intros u Hu. apply (perform_visited s i job e) in Hu as [Hv|Hu].
    + destruct (snd_visit _ _ _ _ _ _ S _ Hv) as (_ & _ & _ & Ha).
      eapply shouldCrawlUrl_at_0; [exact Ha|].
      apply (inv_job_depth _ _ _ I i job Hjob).
    + eapply inv_visited_admitted; eauto.
  - (* inv_queue_depth *)
    intros task Hin. simpl in Hin. apply elem_of_app in Hin as [Hin|Hin].
    + eapply inv_queue_depth; eauto.
    + destruct (inv_job_depth _ _ _ I i job Hjob) as [Hd0 _].
      destruct (snd_push_depth _ _ _ _ _ _ S task Hin) as [H0 Hmax]; [|exact Hd0|auto].
      intros (pending & links & Hpc).
      apply (inv_loop _ _ _ I i job pending links Hjob Hpc).
  - (* inv_job_depth *)
    intros j job2 Hj.
    apply (perform_jobs s i job e Hjob) in Hj as [[-> ->]|[Hne Hj]].
    + exact (inv_job_depth _ _ _ I i job Hjob).
    + exact (inv_job_depth _ _ _ I j job2 Hj).
  - (* inv_admitted *)
    intros j job2 Hj Ha.
    apply (perform_jobs s i job e Hjob) in Hj as [[-> ->]|[Hne Hj]].
    + simpl in Ha. destruct (snd_admitted _ _ _ _ _ _ S Ha) as [Ha'|Ha'].
      * apply (inv_admitted _ _ _ I i job Hjob Ha').
      * exact Ha'.
    + eapply inv_admitted; eauto.
  - (* inv_unique *)
    assert (forall m k m' u, e_request e = Some m -> (k, m', u) ∈ requests s ->
                             u = job_url job -> k = i) as Hnew.
    { intros m k m' u Hm Hk ->.
      destruct (snd_request _ _ _ _ _ _ S _ Hm) as [(_ & Hv & _)|(m0 & r & Hpc & _)].
      - destruct (snd_visit _ _ _ _ _ _ S _ Hv) as (_ & _ & Hn & _).
        destruct Hn. eapply inv_req_visited; eauto.
      - pose proof (inv_waiting _ _ _ I i job m0 Hjob Hpc) as Hw.
        assert ((i, m0, job_url job) ∈ requests s) as Hi.
        { eapply requests_by_elem. rewrite Hw. left. }
        eapply inv_unique; eauto. }
    intros j k m m' u Hj Hk.
    apply (perform_requests s i job e) in Hj as [(m1 & Hm1 & Hj)|Hj];
      apply (perform_requests s i job e) in Hk as [(m2 & Hm2 & Hk)|Hk]; simplify_eq.
    + reflexivity.
    + symmetry. eapply Hnew; eauto.
    + eapply Hnew; eauto.
    + eapply inv_unique; eauto.
  - (* inv_fresh *)
    intros j job2 Hj Hpc.
    apply (perform_jobs s i job e Hjob) in Hj as [[-> ->]|[Hne Hj]].
    + simpl in Hpc. now destruct (snd_started _ _ _ _ _ _ S).
    + rewrite (perform_requests_by s i job e).
      destruct (e_request e); [rewrite decide_False by assumption|];
        eapply inv_fresh; eauto.
  - (* inv_waiting *)
    intros j job2 m Hj Hpc.
    apply (perform_jobs s i job e Hjob) in Hj as [[-> ->]|[Hne Hj]].
    + simpl in Hpc. destruct (snd_waiting _ _ _ _ _ _ S _ Hpc) as [Hm Ha].
      rewrite (perform_requests_by s i job e), Hm, decide_True by reflexivity.
      rewrite (inv_fresh _ _ _ I i job Hjob Ha). reflexivity.
    + rewrite (perform_requests_by s i job e).
      destruct (e_request e); [rewrite decide_False by assumption|];
        eapply inv_waiting; eauto.
  - (* inv_two *)
    intros j. rewrite (perform_requests_by s i job e).
    destruct (e_request e) as [m|] eqn:Hm; [|apply (inv_two _ _ _ I)].
    destruct (decide (j = i)) as [->|Hne]; [|apply (inv_two _ _ _ I)].
    destruct (snd_request _ _ _ _ _ _ S _ Hm) as [(Ha & _ & _)|(m0 & r & Hpc & _)].
    + rewrite (inv_fresh _ _ _ I i job Hjob Ha). simpl. lia.
    + rewrite (inv_waiting _ _ _ I i job m0 Hjob Hpc). simpl. lia.
  - (* inv_escalating *)
    intros j job2 response Hj Hpc.
    apply (perform_jobs s i job e Hjob) in Hj as [[-> ->]|[Hne Hj]].
    + simpl in Hpc. destruct (snd_escalate _ _ _ _ _ _ S _ Hpc) as [Hm Hin].
      split; [|exact Hin].
      apply (perform_requests s i job e). left. eauto.
    + destruct (inv_escalating _ _ _ I j job2 _ Hj Hpc) as [Hr Hin].
      split; [|exact Hin]. apply (perform_requests s i job e). now right.
  - (* inv_outbound *)
    intros j job2 Hj Hout. rewrite (perform_requests_by s i job e).
    apply (perform_jobs s i job e Hjob) in Hj as [[-> ->]|[Hne Hj]].
    + change (isInboundLink baseUrl (job_url job) = false) in Hout.
      destruct (e_request e) as [m|] eqn:Hm; [|exact (inv_outbound _ _ _ I i job Hjob Hout)].
      rewrite decide_True by reflexivity.
      destruct (snd_request _ _ _ _ _ _ S _ Hm) as [(Ha & _ & _)|(m0 & r & _ & Hpc)].
      * rewrite (inv_fresh _ _ _ I i job Hjob Ha). simpl. lia.
      * destruct (snd_escalate _ _ _ _ _ _ S _ Hpc) as [_ Hin].
        unfold job_url in Hout. congruence.
    + destruct (e_request e); [rewrite decide_False by assumption|];
        exact (inv_outbound _ _ _ I j job2 Hj Hout).
  - (* inv_loop *)
    intros j job2 pending links Hj Hpc.
    apply (perform_jobs s i job e Hjob) in Hj as [[-> ->]|[Hne Hj]].
    + simpl in Hpc.
      destruct (snd_loop _ _ _ _ _ _ S _ _ Hpc) as [(p' & l' & Hpc')|H].
      * exact (inv_loop _ _ _ I i job _ _ Hjob Hpc').
      * exact H.
    + eapply inv_loop; eauto.
Qed.

(** ** [processQueue] *)

Lemma fill_spec (q : list Task) (active : Z) (js : list Job) :
  exists started,
    fill config q active js =
      (drop (length started) q, active + Z.of_nat (length started),
       js ++ map (fun task => {| job_task := task; job_pc := AtAdmission |}) started)
    /\ started = take (length started) q
    /\ (drop (length started) q = []
        \/ ~ active + Z.of_nat (length started) < MAX_ACTIVE_TASKS config).
Proof.
  revert active js. induction q as [|task q IH]; intros active js.
  - exists []. simpl. rewrite Z.add_0_r, app_nil_r. auto.
  - simpl. destruct (active <? MAX_ACTIVE_TASKS config) eqn:E.
    + destruct (IH (active + 1) (js ++ [{| job_task := task; job_pc := AtAdmission |}]))
        as (started & Hf & Ht & Hstop).
      exists (task :: started).
      change (length (task :: started)) with (S (length started)).
      rewrite Nat2Z.inj_succ.
      replace (active + Z.succ (Z.of_nat (length started)))
        with (active + 1 + Z.of_nat (length started)) by lia.
      split; [|split].
      * rewrite Hf. cbn [drop map]. now rewrite <- app_assoc.
      * cbn [take]. now rewrite <- Ht.
      * exact Hstop.
    + exists []. simpl. rewrite Z.add_0_r, app_nil_r.
      apply Z.ltb_ge in E. split; [reflexivity|]. split; [reflexivity|]. right. lia.
Qed.

(** New calls at their first [await], taken from the queue, do not disturb
    the invariant. *)
Lemma inv_new_jobs (s s' : State) (started : list Task) :
  jobs s' = jobs s ++ map (fun task => {| job_task := task; job_pc := AtAdmission |}) started ->
  requests s' = requests s ->
  visitedUrls s' = visitedUrls s ->
  (forall task, task ∈ queue s' -> task ∈ queue s) ->
  (forall task, task ∈ started -> task ∈ queue s) ->
  Inv config baseUrl s -> Inv config baseUrl s'.
Proof.
  intros Hj Hr Hv Hq Hst I.
  assert (forall i job, jobs s' !! i = Some job ->
            jobs s !! i = Some job
            \/ (job_pc job = AtAdmission /\ (length (jobs s) <= i)%nat
                /\ job_task job ∈ queue s)) as Hold.
  { intros i job. rewrite Hj, lookup_app_Some.
    intros [H|[Hi H]]; [now left|]. right.
    apply list_lookup_fmap_Some in H as (task & -> & Ht). simpl.
    split; [reflexivity|]. split; [assumption|].
    apply Hst. eapply list_elem_of_lookup_2; eauto. }
  assert (forall i, requests_by i s' = requests_by i s) as Hby.
  { intros i. unfold requests_by. now rewrite Hr. }
  split.
  - intros i m u Hi. rewrite Hr in Hi.
    destruct (inv_req_job _ _ _ I _ _ _ Hi) as (job & Hjob & Hu).
    exists job. split; [|assumption]. rewrite Hj. now apply lookup_app_l_Some.
  - intros i m u Hi. rewrite Hr in Hi. rewrite Hv. eapply inv_req_visited; eauto.
  - intros i job Hi Hc. rewrite Hv.
    destruct (Hold _ _ Hi) as [Hi'|[Hpc _]].
    + eapply inv_claimed_visited; eauto.
    + rewrite Hpc in Hc. discriminate.
  - intros u Hu. rewrite Hv in Hu. eapply inv_visited_admitted; eauto.
  - intros task Hin. apply (inv_queue_depth _ _ _ I). now apply Hq.
  - intros i job Hi.
    destruct (Hold _ _ Hi) as [Hi'|(_ & _ & Hin)].
    + eapply inv_job_depth; eauto.
    + exact (inv_queue_depth _ _ _ I _ Hin).
  - intros i job Hi Ha.
    destruct (Hold _ _ Hi) as [Hi'|[Hpc _]].
    + eapply inv_admitted; eauto.
    + rewrite Hpc in Ha. discriminate.
  - intros i j m m' u Hi Hk. rewrite Hr in Hi, Hk. eapply inv_unique; eauto.
  - intros i job Hi Hpc. rewrite Hby.
    destruct (Hold _ _ Hi) as [Hi'|(_ & Hlen & _)].
    + eapply inv_fresh; eauto.
    + apply requests_by_nil. intros m u Hin.
      destruct (inv_req_job _ _ _ I _ _ _ Hin) as (job2 & Hjob2 & _).
      apply lookup_lt_Some in Hjob2. lia.
  - intros i job m Hi Hpc. rewrite Hby.
    destruct (Hold _ _ Hi) as [Hi'|[Hpc' _]].
    + eapply inv_waiting; eauto.
    + congruence.
  - intros i. rewrite Hby. apply (inv_two _ _ _ I).
  - intros i job response Hi Hpc. rewrite Hr.
    destruct (Hold _ _ Hi) as [Hi'|[Hpc' _]].
    + eapply inv_escalating; eauto.
    + congruence.
  - intros i job Hi Hout. rewrite Hby.
    destruct (Hold _ _ Hi) as [Hi'|(_ & Hlen & _)].
    + eapply inv_outbound; eauto.
    + rewrite requests_by_nil; [simpl; lia|]. intros m u Hin.
      destruct (inv_req_job _ _ _ I _ _ _ Hin) as (job2 & Hjob2 & _).
      apply lookup_lt_Some in Hjob2. lia.
  - intros i job pending links Hi Hpc.
    destruct (Hold _ _ Hi) as [Hi'|[Hpc' _]].
    + eapply inv_loop; eauto.
    + congruence.
Qed.

(** The invariant looks at the queue, the jobs, the requests and the
    visited set only. *)
Lemma inv_same (s s' : State) :
  jobs s' = jobs s -> requests s' = requests s -> visitedUrls s' = visitedUrls s ->
  queue s' = queue s ->
  Inv config baseUrl s -> Inv config baseUrl s'.
Proof.
  intros Hj Hr Hv Hq. apply (inv_new_jobs s s' []); try assumption.
  - simpl. now rewrite app_nil_r.
  - intros task. now rewrite Hq.
  - intros task H. now apply elem_of_nil in H.
Qed.

Lemma in_take {A} (n : nat) (l : list A) (x : A) : x ∈ take n l -> x ∈ l.
Proof. intros H. rewrite <- (take_drop n l). apply elem_of_app. now left. Qed.

Lemma in_drop {A} (n : nat) (l : list A) (x : A) : x ∈ drop n l -> x ∈ l.
Proof. intros H. rewrite <- (take_drop n l). apply elem_of_app. now right. Qed.

Lemma processQueue_inv (s : State) :
  Inv config baseUrl s -> Inv config baseUrl (processQueue config s).
Proof.
  intros I. unfold processQueue.
  destruct (bool_decide (queue s = []) && (activeTasks s =? 0)).
  - now apply (inv_same s).
  - destruct (fill_spec (queue s) (activeTasks s) (jobs s)) as (started & -> & Hst & _).
    apply (inv_new_jobs s _ started); try reflexivity; [| |exact I].
    + intros task. simpl. apply in_drop.
    + intros task. rewrite Hst. apply in_take.
Qed.

Lemma finally_inv (s : State) (i : nat) (job : Job) :
  Inv config baseUrl s -> jobs s !! i = Some job -> job_pc job = Settled ->
  Inv config baseUrl (finally i (job_task job) s).
Proof.
  intros I Hjob Hpc.
  apply (inv_same (perform i (job_task job) (goto Finished) s)); try reflexivity.
  { simpl. now rewrite app_nil_r. }
  apply perform_inv; [assumption..|].
  rewrite Hpc. split; simpl; try discriminate; auto.
  intros task Hin. now apply elem_of_nil in Hin.
Qed.

Lemma main_inv (db : Redis) : Inv config baseUrl (main config db).
Proof.
  apply processQueue_inv. split; simpl.
  all: try (intros; match goal with H : _ ∈ [] |- _ => now apply elem_of_nil in H end).
  all: try (intros; match goal with H : [] !! _ = Some _ |- _ => now rewrite lookup_nil in H end).
  - intros u Hu. now apply elem_of_empty in Hu.
  - intros task Hin. apply list_elem_of_singleton in Hin as ->. simpl. lia.
  - intros i. unfold requests_by. simpl. lia.
Qed.

(** ** The three kinds of step *)

Lemma step_Resume (s s' : State) (i : nat) (now : string) :
  step config baseUrl s (Resume i now) = Some s' <->
  exists job,
    jobs s !! i = Some job
    /\ ((job_pc job = Settled /\ s' = finally i (job_task job) s)
        \/ (exists e, resume config baseUrl (job_task job) (job_pc job)
                              (visitedUrls s) now = Some e
                      /\ s' = perform i (job_task job) e s)).
Proof.
  unfold step.
  destruct (jobs s !! i) as [job|]; [|split; [discriminate | now intros (? & ? & _)]].
  split.
  - intros H. exists job. split; [reflexivity|].
    destruct (job_pc job) eqn:Hpc.
    all: try (left; split; [reflexivity | congruence]).
    all: right; cbv beta iota in H;
      match type of H with
      | context [resume ?c ?b ?t ?pc ?v ?n] =>
          destruct (resume c b t pc v n) as [e|] eqn:He
      end;
      [injection H as <-; exists e; split; [first [exact He | reflexivity] | reflexivity]
      | discriminate H].
  - intros (job2 & [= <-] & [[Hpc ->]|(e & He & ->)]).
    + now rewrite Hpc.
    + destruct (job_pc job) eqn:Hpc; cbv beta iota; try discriminate He;
        now rewrite He.
Qed.

Lemma step_Reply (s s' : State) (i : nat) (result : HttpResult) (now : string) :
  step config baseUrl s (Reply i result now) = Some s' <->
  exists job e,
    jobs s !! i = Some job
    /\ reply config baseUrl (job_task job) (job_pc job) result now = Some e
    /\ s' = perform i (job_task job) e s.
Proof.
  simpl. destruct (jobs s !! i) as [job|]; [|split; [discriminate | now intros (? & ? & ? & _)]].
  destruct (reply config baseUrl (job_task job) (job_pc job) result now) as [e|] eqn:He.
  - split.
    + intros [= <-]. eauto.
    + intros (job2 & e2 & [= <-] & He2 & ->). congruence.
  - split; [discriminate|]. intros (job2 & e2 & [= <-] & He2 & _). congruence.
Qed.

Lemma step_Timer (s s' : State) :
  step config baseUrl s Timer = Some s' <->
  exists n,
    timers s = S n
    /\ s' = processQueue config
              {| queue := queue s; activeTasks := activeTasks s;
                 visitedUrls := visitedUrls s; redis := redis s;
                 jobs := jobs s; timers := n; summaries := summaries s;
                 requests := requests s |}.
Proof.
  simpl. destruct (timers s) as [|n].
  - split; [discriminate | now intros (? & ? & _)].
  - split.
    + intros [= <-]. eauto.
    + intros (n' & [= <-] & ->). reflexivity.
Qed.

Lemma step_inv (s s' : State) (l : Label) :
  Inv config baseUrl s -> step config baseUrl s l = Some s' -> Inv config baseUrl s'.
Proof.
  intros I H. destruct l as [i now|i result now|].
  - apply step_Resume in H as (job & Hjob & [[Hpc ->]|(e & He & ->)]).
    + now apply finally_inv.
    + apply perform_inv; [assumption..|]. eapply resume_sound; eauto.
  - apply step_Reply in H as (job & e & Hjob & He & ->).
    apply perform_inv; [assumption..|]. eapply reply_sound; eauto.
  - apply step_Timer in H as (n & Hn & ->).
    apply processQueue_inv. now apply (inv_same s).
Qed.

Lemma reachable_inv (db : Redis) (s : State) :
  reachable config baseUrl db s -> Inv config baseUrl s.
Proof.
  induction 1 as [|s l s' _ IH Hstep]; [apply main_inv | eapply step_inv; eauto].
Qed.

Lemma run_inv (s s' : State) (ls : list Label) :
  Inv config baseUrl s -> run config baseUrl s ls = Some s' -> Inv config baseUrl s'.
Proof.
  revert s. induction ls as [|l ls IH]; intros s I H; simpl in H.
  - now injection H as <-.
  - destruct (step config baseUrl s l) as [s1|] eqn:E; [|discriminate].
    eapply IH; [|exact H]. eapply step_inv; eauto.
Qed.

Lemma run_reachable (db : Redis) (s s' : State) (ls : list Label) :
  reachable config baseUrl db s -> run config baseUrl s ls = Some s' ->
  reachable config baseUrl db s'.
Proof.
  revert s. induction ls as [|l ls IH]; intros s R H; simpl in H.
  - now injection H as <-.
  - destruct (step config baseUrl s l) as [s1|] eqn:E; [|discriminate].
    eapply IH; [|exact H]. eapply reach_step; eauto.
Qed.

End SegmentFacts.

(** ** Frames: what a step leaves alone *)

Section Frames.

Context `{api : NodeApi}.
Variable config : Config.
Variable baseUrl : ParsedUrl.

Lemma processQueue_frame (s : State) :
  requests (processQueue config s) = requests s
  /\ visitedUrls (processQueue config s) = visitedUrls s
  /\ redis (processQueue config s) = redis s
  /\ timers (processQueue config s) = timers s
  /\ exists started,
       jobs (processQueue config s) =
       jobs s ++ map (fun task => {| job_task := task; job_pc := AtAdmission |}) started.
Proof.
  unfold processQueue.
  destruct (bool_decide (queue s = []) && (activeTasks s =? 0)).
  - repeat split. exists []. simpl. now rewrite app_nil_r.
  - destruct (fill_spec config (queue s) (activeTasks s) (jobs s)) as (started & -> & _).
    repeat split. now exists started.
Qed.

(** Every step is a segment of one job, a [.finally] callback, or a timer. *)
Lemma step_cases (s s' : State) (l : Label) :
  step config baseUrl s l = Some s' ->
  (exists j job e,
      jobs s !! j = Some job
      /\ sound config baseUrl (job_task job) (job_pc job) (visitedUrls s) e
      /\ s' = perform j (job_task job) e s)
  \/ (exists j job,
        jobs s !! j = Some job /\ job_pc job = Settled
        /\ s' = finally j (job_task job) s)
  \/ (exists n,
        timers s = S n
        /\ s' = processQueue config
                  {| queue := queue s; activeTasks := activeTasks s;
                     visitedUrls := visitedUrls s; redis := redis s;
                     jobs := jobs s; timers := n; summaries := summaries s;
                     requests := requests s |}).
Proof.
  intros H. destruct l as [i now|i result now|].
  - apply step_Resume in H as (job & Hjob & [[Hpc ->]|(e & He & ->)]).
    + right. left. eauto.
    + left. exists i, job, e.
      split; [exact Hjob | split; [eapply resume_sound; eauto | reflexivity]].
  - apply step_Reply in H as (job & e & Hjob & He & ->).
    left. exists i, job, e.
    split; [exact Hjob | split; [eapply reply_sound; eauto | reflexivity]].
  - apply step_Timer in H. right. right. exact H.
Qed.

(** The visited set only grows. *)
Lemma step_visited_mono (s s' : State) (l : Label) (u : string) :
  step config baseUrl s l = Some s' -> u ∈ visitedUrls s -> u ∈ visitedUrls s'.
Proof.
  intros H Hu.
  destruct (step_cases _ _ _ H)
    as [(j & job & e & Hjob & S & ->)|[(j & job & Hjob & Hpc & ->)|(n & Hn & ->)]].
  - apply (perform_visited s j job e). now right.
  - exact Hu.
  - destruct (processQueue_frame
                {| queue := queue s; activeTasks := activeTasks s;
                   visitedUrls := visitedUrls s; redis := redis s;
                   jobs := jobs s; timers := n; summaries := summaries s;
                   requests := requests s |}) as (_ & -> & _).
    exact Hu.
Qed.

(** A job that is winding up stays so and makes no request. *)
Lemma winding_up_step (s s' : State) (l : Label) (i : nat) (job : Job) :
  step config baseUrl s l = Some s' ->
  jobs s !! i = Some job -> winding_up (job_pc job) = true ->
  exists job',
    jobs s' !! i = Some job' /\ job_task job' = job_task job
    /\ winding_up (job_pc job') = true
    /\ requests_by i s' = requests_by i s.
Proof.
  intros H Hi Hw.
  destruct (step_cases _ _ _ H)
    as [(j & job2 & e & Hjob & S & ->)|[(j & job2 & Hjob & Hpc & ->)|(n & Hn & ->)]].
  - destruct (decide (i = j)) as [->|Hne].
    + rewrite Hi in Hjob. injection Hjob as <-.
      destruct (snd_winding_up _ _ _ _ _ _ S Hw) as (Hw' & Hr & _).
      eexists. split; [apply (perform_jobs s j job e Hi); left; eauto|].
      repeat split; [exact Hw'|].
      now rewrite (perform_requests_by s j job e), Hr.
    + exists job. split; [apply (perform_jobs s j job2 e Hjob); right; auto|].
      repeat split; [exact Hw|].
      rewrite (perform_requests_by s j job2 e).
      destruct (e_request e); [now rewrite decide_False|reflexivity].
  - destruct (decide (i = j)) as [->|Hne].
    + rewrite Hi in Hjob. injection Hjob as <-. eexists. split.
      * simpl. apply list_lookup_insert_eq. eapply lookup_lt_Some; eauto.
      * repeat split.
    + exists job. split; [simpl; now rewrite list_lookup_insert_ne|]. repeat split. exact Hw.
  - match goal with |- context [processQueue config ?s0] =>
      destruct (processQueue_frame s0) as (Hr & _ & _ & _ & started & Hj) end.
    exists job. split; [rewrite Hj; now apply lookup_app_l_Some|].
    repeat split; [exact Hw|]. unfold requests_by. now rewrite Hr.
Qed.

Lemma winding_up_run (ls : list Label) (s s' : State) (i : nat) (job : Job) :
  run config baseUrl s ls = Some s' ->
  jobs s !! i = Some job -> winding_up (job_pc job) = true ->
  requests_by i s' = requests_by i s.
Proof.
  revert s job. induction ls as [|l ls IH]; intros s job H Hi Hw; simpl in H.
  - now injection H as <-.
  - destruct (step config baseUrl s l) as [s1|] eqn:E; [|discriminate].
    destruct (winding_up_step _ _ _ _ _ E Hi Hw) as (job' & Hi' & _ & Hw' & Hr).
    rewrite <- Hr. eapply IH; eauto.
Qed.

End Frames.

(** ** The concrete runs *)

Example example_baseUrl :
  URLParse (NodeApi := Reference.node) (websiteUrl Example.config)
  = Some Example.baseUrl.
Proof. reflexivity. Qed.

Lemma admin_run_final : Example.admin_run = Some Example.admin_final.
Proof. vm_compute. reflexivity. Qed.

Lemma admin_final_reachable :
  reachable (api := Reference.node) Example.config Example.baseUrl
            redis_empty Example.admin_final.
Proof.
  eapply run_reachable; [apply reach_main | exact admin_run_final].
Qed.

Lemma css_run_final : Example.css_run = Some Example.css_final.
Proof. vm_compute. reflexivity. Qed.

Lemma site_run_final : Example.site_run = Some Example.site_final.
Proof. vm_compute. reflexivity. Qed.

Lemma site_final_reachable :
  reachable (api := Reference.node) Example.site_config Example.baseUrl
            redis_empty Example.site_final.
Proof.
  eapply run_reachable; [apply reach_main | exact site_run_final].
Qed.

(** The scenario of the specification: [/about] is fetched at depth 1, the
    image and the outbound link are checked with one HEAD each, the seed
    with a HEAD and a GET; the outbound page is not expanded although it is
    HTML; the summary is generated once. *)
Example site_scenario :
  requests Example.site_final
  = [(3%nat, HEAD, "https://ex.com/a.png"); (2%nat, HEAD, "https://other.org/");
     (1%nat, HEAD, "https://ex.com/about"); (0%nat, GET, "https://ex.com");
     (0%nat, HEAD, "https://ex.com")]
  /\ map job_depth (jobs Example.site_final) = [0; 1; 1; 1]
  /\ queue Example.site_final = []
  /\ summaries Example.site_final = 1%nat
  /\ hGet (redis Example.site_final) "tracer:aHR0cHM6Ly9leC5jb20vYS5wbmc=" "type"
     = Some "image"
  /\ hGet (redis Example.site_final) "tracer:aHR0cHM6Ly9vdGhlci5vcmcv" "isInbound"
     = Some "0".
Proof. repeat split; vm_compute; reflexivity. Qed.

(** ** At most one fetch per URL *)

Lemma filter_owner (l : list (nat * Method * string)) (u : string) (i : nat) :
  (forall r, r ∈ l -> r.2 = u -> r.1.1 = i) ->
  filter (fun r => r.2 = u) l
  = filter (fun r => r.2 = u) (filter (fun r => r.1.1 = i) l).
Proof.
  induction l as [|r l IH]; intros H; [reflexivity|].
  assert (forall r', r' ∈ l -> r'.2 = u -> r'.1.1 = i) as H'
    by (intros r' Hr'; apply H; now right).
  destruct (decide (r.2 = u)) as [Hu|Hu].
  - assert (r.1.1 = i) as Hi by (apply H; [left | exact Hu]).
    rewrite (filter_cons_True (fun r => r.1.1 = i)) by exact Hi.
    rewrite !(filter_cons_True (fun r => r.2 = u)) by exact Hu.
    f_equal. now apply IH.
  - rewrite (filter_cons_False (fun r => r.2 = u)) by exact Hu.
    rewrite IH by exact H'.
    destruct (decide (r.1.1 = i)) as [Hi|Hi].
    + rewrite (filter_cons_True (fun r => r.1.1 = i)) by exact Hi.
      now rewrite (filter_cons_False (fun r => r.2 = u)) by exact Hu.
    + now rewrite (filter_cons_False (fun r => r.1.1 = i)) by exact Hi.
Qed.

Section AtMostOnce.

Context `{api : NodeApi}.
Variable config : Config.
Variable baseUrl : ParsedUrl.

Lemma requests_for_owner (s : State) (u : string) :
  Inv config baseUrl s ->
  requests_for u s = []
  \/ exists i m,
       (i, m, u) ∈ requests s
       /\ requests_for u s = filter (fun r => r.2 = u) (requests_by i s).
Proof.
  intros I. destruct (requests_for u s) as [|[[i m] v] l] eqn:E; [now left|].
  right. exists i, m. rewrite <- E. unfold requests_for, requests_by.
  assert ((i, m, v) ∈ requests_for u s) as Hin by (rewrite E; left).
  unfold requests_for in Hin. apply list_elem_of_filter in Hin as [Hv Hin].
  simpl in Hv. subst v. split; [exact Hin|].
  apply filter_owner. intros [[j m'] v] Hr Hv. simpl in *. subst v.
  eapply inv_unique; eauto.
Qed.

Lemma requests_for_two (s : State) (u : string) :
  Inv config baseUrl s -> (length (requests_for u s) <= 2)%nat.
Proof.
  intros I. destruct (requests_for_owner s u I) as [->|(i & m & _ & ->)]; [simpl; lia|].
  etransitivity; [apply length_filter|]. apply (inv_two _ _ _ I).
Qed.

Lemma excluded_no_requests (s : State) (u : string) :
  Inv config baseUrl s -> isUrlExcluded config u = true ->
  (u ∉ visitedUrls s) /\ requests_for u s = [].
Proof.
  intros I Hex.
  assert (u ∉ visitedUrls s) as Hv.
  { intros Hv. pose proof (inv_visited_admitted _ _ _ I u Hv) as Ha.
    apply shouldCrawlUrl_not_excluded in Ha. congruence. }
  split; [exact Hv|].
  destruct (requests_for u s) as [|[[i m] v] l] eqn:E; [reflexivity|].
  assert ((i, m, v) ∈ requests_for u s) as Hin by (rewrite E; left).
  unfold requests_for in Hin. apply list_elem_of_filter in Hin as [Hu Hin].
  simpl in Hu. subst v. destruct Hv. eapply inv_req_visited; eauto.
Qed.

(** C1.  In every run and for every URL: all requests for the URL are made
    by one and the same [checkUrl] call (a HEAD and, for a page that is to
    be expanded, the GET that follows it), and the URL is in [visitedUrls]
    whenever a request for it exists.  The call that passes admission on a
    URL not yet visited adds it to [visitedUrls] in that very segment, the
    segment that makes its first request.  A call that comes to a URL
    already visited changes neither [visitedUrls] nor the request log, adds
    its referrer (when it has one) to the URL's set of source pages, and
    never makes a request later in the run. *)
Theorem fetch_at_most_once (db : Redis) (s : State) :
  reachable config baseUrl db s ->
  (forall i j m m' u,
      (i, m, u) ∈ requests s -> (j, m', u) ∈ requests s -> i = j)
  /\ (forall u, (length (requests_for u s) <= 2)%nat)
  /\ (forall i m u, (i, m, u) ∈ requests s -> u ∈ visitedUrls s)
  /\ (forall i job now s',
         jobs s !! i = Some job -> job_pc job = AtAdmission ->
         shouldCrawlUrl config (job_url job) (job_depth job) = true ->
         job_url job ∉ visitedUrls s ->
         step config baseUrl s (Resume i now) = Some s' ->
         visitedUrls s' = {[job_url job]} ∪ visitedUrls s
         /\ forall r, r ∈ requests s' -> r ∈ requests s \/ r.1.1 = i)
  /\ (forall i job now s',
         jobs s !! i = Some job -> job_pc job = AtAdmission ->
         job_url job ∈ visitedUrls s ->
         step config baseUrl s (Resume i now) = Some s' ->
         visitedUrls s' = visitedUrls s
         /\ requests s' = requests s
         /\ (task_referrer (job_task job) <> EmptyString ->
             task_referrer (job_task job)
               ∈ sMembers (redis s')
                   (redisKeyPrefix config +:+ "sources:" +:+ base64 (job_url job)))
         /\ forall ls s'',
             run config baseUrl s' ls = Some s'' -> requests_by i s'' = []).
Proof.
  intros R. pose proof (reachable_inv _ _ _ _ R) as I.
  split; [exact (inv_unique _ _ _ I)|].
  split; [intros u; now apply requests_for_two|].
  split; [exact (inv_req_visited _ _ _ I)|].
  split.
  - intros i job now s' Hjob Hpc Hadm Hnew Hstep.
    apply step_Resume in Hstep as (job2 & Hjob2 & [[Hpc2 _]|(e & He & ->)]);
      rewrite Hjob in Hjob2; injection Hjob2 as <-; [congruence|].
    rewrite Hpc in He. unfold resume in He.
    unfold job_url, job_depth in *. rewrite Hadm in He. simpl in He.
    rewrite bool_decide_eq_false_2 in He by exact Hnew.
    destruct (Js.startsWith (task_url (job_task job)) "data:image" && skipDataImages config);
      injection He as <-; simpl.
    + split; [reflexivity|]. intros r Hr. now left.
    + split; [reflexivity|]. intros r Hr. apply elem_of_cons in Hr as [->|Hr]; auto.
  - intros i job now s' Hjob Hpc Hold Hstep.
    assert (shouldCrawlUrl config (job_url job) (job_depth job) = true) as Hadm.
    { pose proof (inv_visited_admitted _ _ _ I _ Hold) as H0.
      apply shouldCrawlUrl_at_depth; [exact H0|].
      pose proof (shouldCrawlUrl_depth _ _ _ H0).
      destruct (inv_job_depth _ _ _ I i job Hjob) as [_ [Hd|Hd]]; lia. }
    apply step_Resume in Hstep as (job2 & Hjob2 & [[Hpc2 _]|(e & He & ->)]);
      rewrite Hjob in Hjob2; injection Hjob2 as <-; [congruence|].
    rewrite Hpc in He. unfold resume in He.
    unfold job_url, job_depth in *. rewrite Hadm in He. simpl in He.
    rewrite bool_decide_eq_true_2 in He by exact Hold.
    assert (winding_up (e_pc e) = true /\ e_visit e = None /\ e_request e = None
            /\ (task_referrer (job_task job) <> EmptyString ->
                e_send e = [SADD (redisKeyPrefix config +:+ "sources:"
                                  +:+ base64 (task_url (job_task job)))
                                 (task_referrer (job_task job))]))
      as (Hw & Hv & Hr & Hs).
    { destruct (String.eqb_spec (task_referrer (job_task job)) EmptyString) as [E|E];
        simpl in He; injection He as <-; simpl; repeat split; congruence. }
    split; [simpl; now rewrite Hv|].
    split; [simpl; now rewrite Hr|].
    split.
    + intros Href. simpl. rewrite (Hs Href). simpl. unfold sMembers at 1. simpl.
      rewrite lookup_insert_eq. simpl. apply elem_of_union_l, elem_of_singleton. reflexivity.
    + intros ls s'' Hrun.
      assert (jobs (perform i (job_task job) e s) !! i
              = Some {| job_task := job_task job; job_pc := e_pc e |}) as Hi.
      { apply (perform_jobs s i job e Hjob). left. auto. }
      rewrite (winding_up_run _ _ _ _ _ _ _ Hrun Hi Hw).
      rewrite (perform_requests_by s i job e), Hr.
      eapply inv_fresh; eauto.
Qed.

End AtMostOnce.

(** Witness of [fetch_at_most_once]: the two requests for the seed in the
    example run, a HEAD and a GET, belong to the same call. *)
Lemma fetch_at_most_once_witness :
  (0%nat, HEAD, "https://ex.com") ∈ requests Example.admin_final
  /\ (0%nat, GET, "https://ex.com") ∈ requests Example.admin_final
  /\ forall i j m m' u,
      (i, m, u) ∈ requests Example.admin_final ->
      (j, m', u) ∈ requests Example.admin_final -> i = j.
Proof.
  split; [vm_compute; apply list_elem_of_In; simpl; auto|].
  split; [vm_compute; apply list_elem_of_In; simpl; auto|].
  exact (proj1 (fetch_at_most_once (api := Reference.node) Example.config
                  Example.baseUrl redis_empty Example.admin_final
                  admin_final_reachable)).
Defined.

(** ** Exclusion prefixes and data images: refused at admission *)

Section Admission.

Context `{api : NodeApi}.
Variable config : Config.
Variable baseUrl : ParsedUrl.

Lemma excluded_not_admitted (url : string) (depth : Z) :
  isUrlExcluded config url = true -> shouldCrawlUrl config url depth = false.
Proof.
  intros H. unfold shouldCrawlUrl. rewrite H. now repeat case_match.
Qed.

Lemma data_image_not_admitted (url : string) (depth : Z) :
  skipDataImages config = true -> Js.startsWith url "data:image" = true ->
  shouldCrawlUrl config url depth = false.
Proof.
  intros H1 H2. unfold shouldCrawlUrl. rewrite H1, H2. now repeat case_match.
Qed.

(** A call refused at admission returns at once: nothing is written, pushed,
    visited or requested. *)
Lemma refused_step (s : State) (i : nat) (job : Job) (now : string) :
  jobs s !! i = Some job -> job_pc job = AtAdmission ->
  shouldCrawlUrl config (job_url job) (job_depth job) = false ->
  exists s',
    step config baseUrl s (Resume i now) = Some s'
    /\ redis s' = redis s /\ requests s' = requests s
    /\ visitedUrls s' = visitedUrls s /\ queue s' = queue s
    /\ pc_of s' i = Some Settled.
Proof.
  intros Hjob Hpc Hadm. eexists. split.
  - apply step_Resume. exists job. split; [exact Hjob|]. right.
    eexists. split; [|reflexivity].
    rewrite Hpc. unfold resume. unfold job_url, job_depth in Hadm. rewrite Hadm.
    reflexivity.
  - simpl. rewrite app_nil_r. repeat split.
    unfold pc_of. simpl. rewrite list_lookup_insert_eq; [reflexivity|].
    eapply lookup_lt_Some; eauto.
Qed.

(** C2, as the code has it.  A URL whose path starts with an exclusion
    prefix is never put into [visitedUrls] and never requested, and the
    [checkUrl] call for it does nothing: no request ever settles for it, and
    its segments leave Redis, the queue, the visited set and the request log
    as they are. *)
Theorem excluded_url_never_fetched (db : Redis) (s : State) (u : string) :
  reachable config baseUrl db s ->
  isUrlExcluded config u = true ->
  (u ∉ visitedUrls s)
  /\ requests_for u s = []
  /\ forall i job,
      jobs s !! i = Some job -> job_url job = u ->
      (forall result now, step config baseUrl s (Reply i result now) = None)
      /\ (forall now s',
             step config baseUrl s (Resume i now) = Some s' ->
             redis s' = redis s /\ queue s' = queue s
             /\ visitedUrls s' = visitedUrls s /\ requests s' = requests s).
Proof.
  intros R Hex. pose proof (reachable_inv _ _ _ _ R) as I.
  destruct (excluded_no_requests config baseUrl s u I Hex) as [Hv Hnone].
  split; [exact Hv|]. split; [exact Hnone|]. clear Hnone.
  intros i job Hjob <-.
  assert (admitted (job_pc job) = false) as Hna.
  { destruct (admitted (job_pc job)) eqn:E; [|reflexivity].
    pose proof (inv_admitted _ _ _ I i job Hjob E) as Ha.
    rewrite (excluded_not_admitted _ (job_depth job) Hex) in Ha. discriminate. }
  split.
  + intros result now.
    destruct (step config baseUrl s (Reply i result now)) as [s'|] eqn:E; [|reflexivity].
    apply step_Reply in E as (job2 & e & Hjob2 & He & _).
    rewrite Hjob in Hjob2. injection Hjob2 as <-.
    destruct (job_pc job); discriminate.
  + intros now s' Hstep.
    destruct (job_pc job) eqn:Hpc; try discriminate Hna.
    * destruct (refused_step s i job now Hjob Hpc
                  (excluded_not_admitted _ (job_depth job) Hex))
        as (s2 & Hs2 & Hr & Hq & Hvis & Hqu & _).
      rewrite Hstep in Hs2. injection Hs2 as <-. auto.
    * apply step_Resume in Hstep as (job2 & Hjob2 & [[_ ->]|(e & He & ->)]).
      -- repeat split.
      -- rewrite Hjob in Hjob2. injection Hjob2 as <-. rewrite Hpc in He. discriminate.
    * apply step_Resume in Hstep as (job2 & Hjob2 & [[Hs _]|(e & He & ->)]);
        rewrite Hjob in Hjob2; injection Hjob2 as <-.
      -- congruence.
      -- rewrite Hpc in He. discriminate.
Qed.

End Admission.

(** Witness of [excluded_url_never_fetched]. *)
Lemma excluded_url_never_fetched_witness :
  isUrlExcluded (api := Reference.node) Example.config "https://ex.com/admin/users" = true
  /\ ("https://ex.com/admin/users" ∉ visitedUrls Example.admin_final)
  /\ requests_for "https://ex.com/admin/users" Example.admin_final = [].
Proof.
  split; [reflexivity|].
  pose proof (excluded_url_never_fetched (api := Reference.node) Example.config
                Example.baseUrl redis_empty Example.admin_final
                "https://ex.com/admin/users" admin_final_reachable eq_refl)
    as (H1 & H2 & _).
  split; assumption.
Defined.

(** C2 as stated fails: after the example run the store holds a record, a
    provenance entry and index entries for the excluded URL. *)
Lemma excluded_url_in_store :
  isUrlExcluded (api := Reference.node) Example.config "https://ex.com/admin/users" = true
  /\ hGet (redis Example.admin_final)
          (urlKey (api := Reference.node) Example.config "https://ex.com/admin/users")
          "url"
     = Some "https://ex.com/admin/users"
  /\ "https://ex.com/admin/users"
       ∈ sMembers (redis Example.admin_final) (allUrlsKey Example.config)
  /\ "https://ex.com/admin/users"
       ∈ sMembers (redis Example.admin_final) (typeKey Example.config "link")
  /\ "https://ex.com/admin/users"
       ∈ sMembers (redis Example.admin_final) (statusKey Example.config "0")
  /\ "https://ex.com"
       ∈ sMembers (redis Example.admin_final)
           (sourcePagesKey (api := Reference.node) Example.config
              "https://ex.com/admin/users").
Proof.
  split; [reflexivity|]. split; [vm_compute; reflexivity|].
  repeat split; apply bool_decide_unpack; vm_compute; exact I.
Qed.

(** ** Outbound links *)

Section Outbound.

Context `{api : NodeApi}.
Variable config : Config.
Variable baseUrl : ParsedUrl.

Lemma for_links_outbound (t : Task) (vis : gset string) (link : Link) (rest : list Link) :
  isInboundLink baseUrl (link_url link) = false ->
  link_url link ∉ vis ->
  e_push (for_links config baseUrl t vis (link :: rest))
  = [{| task_url := link_url link; task_referrer := task_url t;
        task_depth := maxDepth config;
        task_sourcePages := task_sourcePages t ++ [task_url t] |}].
Proof.
  intros Hout Hnew. unfold for_links. cbn [e_push].
  rewrite Hout, bool_decide_eq_false_2 by exact Hnew. reflexivity.
Qed.

End Outbound.

(** C6 as stated fails: in the example run the page of the seed is fetched
    and links to an outbound URL under an exclusion prefix; the run comes to
    its end (empty queue, no timer, every call finished) and the outbound
    URL has not been requested at all. *)
Lemma outbound_link_never_checked :
  map link_url (extractLinks (api := Reference.node) Example.baseUrl
                  Example.admin_page "https://ex.com")
  = ["https://ex.com/admin/users"; "https://other.org/admin/x"]
  /\ (0%nat, GET, "https://ex.com") ∈ requests Example.admin_final
  /\ isInboundLink (api := Reference.node) Example.baseUrl "https://other.org/admin/x" = false
  /\ Example.admin_run = Some Example.admin_final
  /\ queue Example.admin_final = []
  /\ timers Example.admin_final = 0%nat
  /\ map job_pc (jobs Example.admin_final) = [Finished; Finished; Finished]
  /\ requests_for "https://other.org/admin/x" Example.admin_final = [].
Proof.
  split; [reflexivity|].
  split; [vm_compute; apply list_elem_of_In; simpl; auto|].
  split; [reflexivity|].
  split; [exact admin_run_final|].
  repeat split; vm_compute; reflexivity.
Qed.

(** ** The summary *)

(** C7 on the code.  In the example run the timer starts two calls that
    are both refused at admission; both promises settle and both [.finally]
    callbacks run before the first of the two timers they set fires.  Each
    timer then finds the queue empty and no task active, and each calls
    [generateCrawlSummary]: two calls in one run. *)
Theorem summary_generated_twice :
  Example.admin_run = Some Example.admin_final
  /\ summaries Example.admin_final = 2%nat.
Proof.
  split; [exact admin_run_final | vm_compute; reflexivity].
Qed.

(** The same happens when two calls that did go to the network and to Redis
    run their [.finally] callbacks before the first timer fires. *)
Example summary_generated_twice_after_requests :
  Example.css_run = Some Example.css_final
  /\ summaries Example.css_final = 2%nat.
Proof.
  split; [exact css_run_final | vm_compute; reflexivity].
Qed.

(** ** Redis *)

Lemma list_to_map_assoc (l : list (string * string)) (k : string) :
  (list_to_map l : gmap string string) !! k = assoc k l.
Proof.
  induction l as [|[k' v] l IH]; [apply lookup_empty|].
  simpl. destruct (String.eqb_spec k' k) as [->|Hne].
  - apply lookup_insert_eq.
  - rewrite lookup_insert_ne by exact Hne. exact IH.
Qed.

Lemma hGet_HSET (r : Redis) (key : string) (fields : list (string * string)) (f : string) :
  hGet (redis_exec (HSET key fields) r) key f
  = match assoc f fields with
    | Some v => Some v
    | None => hGet r key f
    end.
Proof.
  unfold hGet, hGetAll at 1. simpl. rewrite lookup_insert_eq. simpl.
  rewrite lookup_union, list_to_map_assoc.
  destruct (assoc f fields); now destruct (hGetAll r key !! f).
Qed.

Lemma hGet_HSET_ne (r : Redis) (key key' : string) (fields : list (string * string))
      (f : string) :
  key' <> key -> hGet (redis_exec (HSET key' fields) r) key f = hGet r key f.
Proof.
  intros Hne. unfold hGet, hGetAll. simpl. now rewrite lookup_insert_ne.
Qed.

Lemma hGet_SADD (r : Redis) (k m key f : string) :
  hGet (redis_exec (SADD k m) r) key f = hGet r key f.
Proof. reflexivity. Qed.

Lemma hGet_exec_SADDs (cmds : list RedisCmd) (r : Redis) (key f : string) :
  forallb is_SADD cmds = true ->
  hGet (redis_exec_all cmds r) key f = hGet r key f.
Proof.
  revert r. induction cmds as [|c cmds IH]; intros r H; [reflexivity|].
  simpl in H. apply andb_true_iff in H as [Hc H]. simpl.
  unfold redis_exec_all in *. simpl. rewrite IH by exact H.
  destruct c; [discriminate | apply hGet_SADD].
Qed.

Lemma sMembers_exec (c : RedisCmd) (r : Redis) (k m : string) :
  m ∈ sMembers (redis_exec c r) k <->
  c = SADD k m \/ m ∈ sMembers r k.
Proof.
  destruct c as [key fields|k' m']; simpl.
  - split; [now right|]. intros [H|H]; [discriminate | exact H].
  - unfold sMembers at 1. simpl. destruct (decide (k' = k)) as [->|Hne].
    + rewrite lookup_insert_eq. simpl. rewrite elem_of_union, elem_of_singleton.
      split.
      * intros [->|H]; auto.
      * intros [Heq|H]; [left; congruence | now right].
    + rewrite lookup_insert_ne by exact Hne. split; [now right|].
      intros [Heq|H]; [destruct Hne; congruence | exact H].
Qed.

Lemma sMembers_exec_all (cmds : list RedisCmd) (r : Redis) (k m : string) :
  m ∈ sMembers (redis_exec_all cmds r) k <->
  SADD k m ∈ cmds \/ m ∈ sMembers r k.
Proof.
  revert r. induction cmds as [|c cmds IH]; intros r.
  - simpl. split; [now right|]. intros [H|H]; [now apply elem_of_nil in H | exact H].
  - unfold redis_exec_all in *. simpl. rewrite IH, sMembers_exec, elem_of_cons.
    intuition congruence.
Qed.

Lemma redis_exec_all_app (a b : list RedisCmd) (r : Redis) :
  redis_exec_all (a ++ b) r = redis_exec_all b (redis_exec_all a r).
Proof. unfold redis_exec_all. apply fold_left_app. Qed.

(** ** One job running on its own *)

Section Alone.

Context `{api : NodeApi}.
Variable config : Config.
Variable baseUrl : ParsedUrl.

Lemma step_resume_eq (s : State) (i : nat) (t : Task) (pc : Pc) (now : string) (e : Effect) :
  jobs s !! i = Some {| job_task := t; job_pc := pc |} ->
  resume config baseUrl t pc (visitedUrls s) now = Some e ->
  step config baseUrl s (Resume i now) = Some (perform i t e s).
Proof.
  intros Hjob He. apply step_Resume. eexists. split; [exact Hjob|].
  right. exists e. simpl. auto.
Qed.

Lemma step_settled_eq (s : State) (i : nat) (t : Task) (now : string) :
  jobs s !! i = Some {| job_task := t; job_pc := Settled |} ->
  step config baseUrl s (Resume i now) = Some (finally i t s).
Proof.
  intros Hjob. apply step_Resume. eexists. split; [exact Hjob|]. left. auto.
Qed.

Lemma step_finished_eq (s : State) (i : nat) (t : Task) (now : string) :
  jobs s !! i = Some {| job_task := t; job_pc := Finished |} ->
  step config baseUrl s (Resume i now) = None.
Proof.
  intros Hjob. unfold step. now rewrite Hjob.
Qed.

Lemma resume_n_add (a b i : nat) (now : string) (s : State) :
  resume_n config baseUrl (a + b) i now s
  = resume_n config baseUrl b i now (resume_n config baseUrl a i now s).
Proof.
  revert s. induction a as [|a IH]; intros s; [reflexivity|].
  cbn [resume_n Nat.add].
  destruct (step config baseUrl s (Resume i now)) as [s'|] eqn:E; [apply IH|].
  destruct b; cbn [resume_n]; [reflexivity | now rewrite E].
Qed.

Lemma resume_n_1 (i : nat) (now : string) (s s' : State) :
  step config baseUrl s (Resume i now) = Some s' ->
  resume_n config baseUrl 1 i now s = s'.
Proof. intros H. cbn [resume_n]. now rewrite H. Qed.

Lemma resume_n_finished (n i : nat) (t : Task) (now : string) (s : State) :
  jobs s !! i = Some {| job_task := t; job_pc := Finished |} ->
  resume_n config baseUrl n i now s = s.
Proof.
  intros Hjob. destruct n; [reflexivity|]. cbn [resume_n].
  now rewrite (step_finished_eq s i t now Hjob).
Qed.

Lemma resume_n_inv (n i : nat) (now : string) (s : State) :
  Inv config baseUrl s -> Inv config baseUrl (resume_n config baseUrl n i now s).
Proof.
  revert s. induction n as [|n IH]; intros s I; [exact I|].
  cbn [resume_n].
  destruct (step config baseUrl s (Resume i now)) as [s'|] eqn:E; [|exact I].
  apply IH. eapply step_inv; eauto.
Qed.

Lemma job_ran_refl (i : nat) (t : Task) (pc : Pc) (s : State) :
  jobs s !! i = Some {| job_task := t; job_pc := pc |} ->
  job_ran i t pc [] [] s s.
Proof.
  intros Hjob. unfold job_ran. rewrite app_nil_r, list_insert_id by exact Hjob.
  repeat split.
Qed.

Lemma job_ran_trans (i : nat) (t : Task) (pc1 pc2 : Pc) (c1 c2 : list RedisCmd)
      (p1 p2 : list Task) (s s1 s2 : State) :
  job_ran i t pc1 c1 p1 s s1 -> job_ran i t pc2 c2 p2 s1 s2 ->
  job_ran i t pc2 (c1 ++ c2) (p1 ++ p2) s s2.
Proof.
  intros (Hj1 & Hr1 & Hq1 & Hrq1 & Hv1 & Ha1 & Ht1 & Hs1)
         (Hj2 & Hr2 & Hq2 & Hrq2 & Hv2 & Ha2 & Ht2 & Hs2).
  unfold job_ran.
  rewrite Hj2, Hj1, list_insert_insert_eq, Hr2, Hr1, redis_exec_all_app,
    Hq2, Hq1, app_assoc, Hrq2, Hrq1, Hv2, Hv1, Ha2, Ha1, Ht2, Ht1, Hs2, Hs1.
  repeat split.
Qed.

Lemma job_ran_lookup (i : nat) (t : Task) (pc0 pc : Pc) (cmds : list RedisCmd)
      (pushed : list Task) (s s' : State) :
  jobs s !! i = Some {| job_task := t; job_pc := pc0 |} ->
  job_ran i t pc cmds pushed s s' ->
  jobs s' !! i = Some {| job_task := t; job_pc := pc |}.
Proof.
  intros Hjob (Hj & _). rewrite Hj. apply list_lookup_insert_eq.
  eapply lookup_lt_Some; eauto.
Qed.

(** A segment that neither visits nor requests. *)
Lemma job_ran_perform (i : nat) (t : Task) (e : Effect) (s : State) :
  e_visit e = None -> e_request e = None ->
  job_ran i t (e_pc e) (e_send e) (e_push e) s (perform i t e s).
Proof.
  intros Hv Hr. unfold job_ran. simpl. rewrite Hv, Hr. repeat split.
Qed.

(** The rest of a [storeResult] call: one command per turn. *)
Lemma drain_pending (at_ : list RedisCmd -> Pc) (now : string) :
  (forall t c rest vis,
      resume config baseUrl t (at_ (c :: rest)) vis now
      = Some (store (c :: rest) at_)) ->
  forall (pending : list RedisCmd) (s : State) (i : nat) (t : Task),
    jobs s !! i = Some {| job_task := t; job_pc := at_ pending |} ->
    job_ran i t (at_ []) pending [] s
            (resume_n config baseUrl (length pending) i now s).
Proof.
  intros Hat. induction pending as [|c rest IH]; intros s i t Hjob.
  - cbn [resume_n length]. now apply job_ran_refl.
  - cbn [resume_n length].
    rewrite (step_resume_eq s i t _ now _ Hjob (Hat t c rest _)).
    assert (job_ran i t (at_ rest) [c] [] s
                    (perform i t (store (c :: rest) at_) s)) as H1
      by (apply (job_ran_perform i t (store (c :: rest) at_) s); reflexivity).
    pose proof (job_ran_lookup _ _ _ _ _ _ _ _ Hjob H1) as Hjob1.
    exact (job_ran_trans _ _ _ _ _ _ _ _ _ _ _ H1 (IH _ _ _ Hjob1)).
Qed.

(** From the end of the last [storeResult] of a call to the end of its
    [.finally] callback. *)
Lemma job_returns (s : State) (i : nat) (t : Task) (pc : Pc) (now : string) :
  jobs s !! i = Some {| job_task := t; job_pc := pc |} ->
  resume config baseUrl t pc (visitedUrls s) now = Some (goto Settled) ->
  let s' := resume_n config baseUrl 2 i now s in
  jobs s' = <[i := {| job_task := t; job_pc := Finished |}]> (jobs s)
  /\ redis s' = redis s /\ queue s' = queue s /\ requests s' = requests s
  /\ visitedUrls s' = visitedUrls s
  /\ activeTasks s' = activeTasks s - 1 /\ timers s' = S (timers s)
  /\ summaries s' = summaries s.
Proof.
  intros Hjob He. cbn [resume_n].
  rewrite (step_resume_eq s i t pc now _ Hjob He).
  assert (jobs (perform i t (goto Settled) s) !! i
          = Some {| job_task := t; job_pc := Settled |}) as Hjob1.
  { simpl. apply list_lookup_insert_eq. eapply lookup_lt_Some; eauto. }
  rewrite (step_settled_eq _ i t now Hjob1). cbn.
  rewrite list_insert_insert_eq, app_nil_r. repeat split.
Qed.

End Alone.

(** ** A request that fails *)

Section Failure.

Context `{api : NodeApi}.
Variable config : Config.
Variable baseUrl : ParsedUrl.

Lemma asset_name_truthy (a : AssetType) : truthy (VStr (asset_name a)) = true.
Proof. now destruct a. Qed.

Lemma storeResult_error (t : Task) (error : AxiosError) (now : string) :
  let u := fixProtocolRelativeUrl (task_url t) in
  storeResult config (task_url t) (error_record baseUrl t error now)
  = HSET (urlKey config u) (processData (error_record baseUrl t error now))
    :: SADD (allUrlsKey config) u
    :: (if negb (String.eqb (task_referrer t) EmptyString)
        then [SADD (sourcePagesKey config u) (task_referrer t)] else [])
    ++ [SADD (typeKey config (asset_name (getAssetType (task_url t) EmptyString))) u;
        SADD (statusKey config (pretty (error_status error))) u].
Proof.
  unfold storeResult, error_record.
  cbn [get_field String.eqb Ascii.eqb Bool.eqb is_nullish truthy js_String app].
  change (negb (String.eqb (asset_name (getAssetType (task_url t) EmptyString)) EmptyString))
    with (truthy (VStr (asset_name (getAssetType (task_url t) EmptyString)))).
  rewrite asset_name_truthy. reflexivity.
Qed.

Lemma error_status_default (error : AxiosError) :
  error_status error = default 0 (err_status error).
Proof.
  unfold error_status. destruct (err_status error) as [n|]; [|reflexivity].
  simpl. destruct (Z.eqb_spec n 0); congruence.
Qed.

(** Once [u] is closed no step makes a request for it. *)
Lemma closed_step (u : string) (s s' : State) (l : Label) :
  closed_for u s -> step config baseUrl s l = Some s' ->
  closed_for u s' /\ requests_for u s' = requests_for u s.
Proof.
  intros [Hv Hc] Hstep.
  destruct (step_cases _ _ _ _ _ Hstep)
    as [(j & job & e & Hjob & S & ->)|[(j & job & Hjob & Hpc & ->)|(n & Hn & ->)]].
  - assert (forall m, e_request e = Some m -> job_url job <> u) as Hreq.
    { intros m Hm Hu.
      destruct (snd_request _ _ _ _ _ _ S _ Hm) as [(_ & Hvis & _)|(m0 & r & Hpc & _)].
      - destruct (snd_visit _ _ _ _ _ _ S _ Hvis) as (_ & _ & Hn & _).
        apply Hn. unfold job_url in Hu. now rewrite Hu.
      - exact (Hc j job m0 Hjob Hu Hpc). }
    split; [split|].
    + apply (perform_visited s j job e). now right.
    + intros k job2 m Hk Hu Hpc.
      apply (perform_jobs s j job e Hjob) in Hk as [[-> ->]|[Hne Hk]].
      * simpl in Hpc. destruct (snd_waiting _ _ _ _ _ _ S _ Hpc) as [Hm _].
        exact (Hreq m Hm Hu).
      * exact (Hc k job2 m Hk Hu Hpc).
    + unfold requests_for. simpl. destruct (e_request e) as [m|] eqn:Hm; [|reflexivity].
      rewrite filter_cons_False; [reflexivity|]. simpl. exact (Hreq m eq_refl).
  - split; [split|]; [exact Hv| |reflexivity].
    intros k job2 m Hk Hu Hpc2. simpl in Hk.
    apply list_lookup_insert_Some in Hk as [(-> & <- & _)|[Hne Hk]].
    + discriminate.
    + exact (Hc k job2 m Hk Hu Hpc2).
  - match goal with |- context [processQueue config ?s0] =>
      destruct (processQueue_frame config s0) as (Hr & Hvis & _ & _ & started & Hj) end.
    split; [split|].
    + rewrite Hvis. exact Hv.
    + intros k job2 m Hk Hu Hpc. rewrite Hj in Hk. simpl in Hk.
      apply lookup_app_Some in Hk as [Hk|[_ Hk]].
      * exact (Hc k job2 m Hk Hu Hpc).
      * apply list_lookup_fmap_Some in Hk as (task & -> & _). discriminate.
    + unfold requests_for. now rewrite Hr.
Qed.

Lemma closed_run (u : string) (ls : list Label) (s s' : State) :
  closed_for u s -> run config baseUrl s ls = Some s' ->
  requests_for u s' = requests_for u s.
Proof.
  revert s. induction ls as [|l ls IH]; intros s Hc H; simpl in H.
  - now injection H as <-.
  - destruct (step config baseUrl s l) as [s1|] eqn:E; [|discriminate].
    destruct (closed_step u s s1 l Hc E) as [Hc1 <-]. now apply IH.
Qed.

(** The [catch] block, run to the end of the call. *)
Lemma error_store_runs (s : State) (i : nat) (t : Task) (pc : Pc)
      (error : AxiosError) (now : string) :
  jobs s !! i = Some {| job_task := t; job_pc := pc |} ->
  let s1 := perform i t (on_error config baseUrl t error now) s in
  let s2 := resume_n config baseUrl 6 i now s1 in
  jobs s2 = <[i := {| job_task := t; job_pc := Finished |}]> (jobs s)
  /\ redis s2 = redis_exec_all
                  (storeResult config (task_url t) (error_record baseUrl t error now))
                  (redis s)
  /\ queue s2 = queue s /\ requests s2 = requests s
  /\ visitedUrls s2 = visitedUrls s
  /\ activeTasks s2 = activeTasks s - 1 /\ timers s2 = S (timers s)
  /\ summaries s2 = summaries s.
Proof.
  intros Hjob s1 s2. subst s1 s2. unfold on_error.
  rewrite storeResult_error.
  set (hset := HSET _ _).
  set (tail := SADD (allUrlsKey config) _ :: _).
  cbn [store].
  set (e := {| e_pc := AtErrorStore tail |}).
  pose proof (job_ran_perform i t e s eq_refl eq_refl) as H1.
  pose proof (job_ran_lookup _ _ _ _ _ _ _ _ Hjob H1) as Hjob1.
  pose proof (drain_pending config baseUrl AtErrorStore now
                (fun _ _ _ _ => eq_refl) tail _ i t Hjob1) as H2.
  pose proof (job_ran_lookup _ _ _ _ _ _ _ _ Hjob1 H2) as Hjob2.
  pose proof (job_ran_trans _ _ _ _ _ _ _ _ _ _ _ H1 H2) as H12.
  set (s2 := resume_n config baseUrl (length tail) i now (perform i t e s)) in *.
  destruct (job_returns config baseUrl s2 i t (AtErrorStore []) now Hjob2 eq_refl)
    as (Hj & Hr & Hq & Hrq & Hv & Ha & Ht & Hs).
  set (s3 := resume_n config baseUrl 2 i now s2) in *.
  assert (jobs s3 !! i = Some {| job_task := t; job_pc := Finished |}) as Hjob3.
  { rewrite Hj. apply list_lookup_insert_eq. eapply lookup_lt_Some; eauto. }
  assert (exists k, (6 = length tail + (2 + k))%nat) as [k Hk].
  { subst tail. destruct (negb (String.eqb (task_referrer t) EmptyString));
      simpl; [exists 0%nat | exists 1%nat]; reflexivity. }
  rewrite Hk, !resume_n_add. fold s2. fold s3.
  rewrite (resume_n_finished config baseUrl k i t now s3 Hjob3).
  destruct H12 as (Hj' & Hr' & Hq' & Hrq' & Hv' & Ha' & Ht' & Hs').
  rewrite Hj, Hj', list_insert_insert_eq, Hr, Hr', Hq, Hq', app_nil_r,
    Hrq, Hrq', Hv, Hv', Ha, Ha', Ht, Ht', Hs, Hs'.
  repeat split.
Qed.

(** C8.  When the request (the first one, or the GET that follows a HEAD)
    of a [checkUrl] call is rejected, the call writes a record for its URL
    whose [status] is the HTTP status the error carries, or 0 when it
    carries none, and whose [error] is the message of the error; it then
    returns.  It pushes nothing, requests nothing more and leaves
    [visitedUrls] alone; its [.finally] callback decrements [activeTasks]
    and sets the timer for the next [processQueue], so the crawl goes on;
    and however the run continues, no request for that URL is made again. *)
Theorem fetch_exception_terminal (db : Redis) (s : State) (i : nat) (job : Job)
        (error : AxiosError) (now : string) :
  reachable config baseUrl db s ->
  jobs s !! i = Some job ->
  (exists m, job_pc job = AtRequest m)
  \/ (exists response, job_pc job = AtEscalation response) ->
  exists s1,
    step config baseUrl s (Reply i (Rejected error) now) = Some s1
    /\ let s2 := resume_n config baseUrl 6 i now s1 in
       let key := urlKey config (fixProtocolRelativeUrl (job_url job)) in
       hGet (redis s2) key "status" = Some (pretty (default 0 (err_status error)))
       /\ hGet (redis s2) key "error" = Some (err_message error)
       /\ hGet (redis s2) key "checkedAt" = Some now
       /\ pc_of s2 i = Some Finished
       /\ queue s2 = queue s /\ requests s2 = requests s
       /\ visitedUrls s2 = visitedUrls s
       /\ activeTasks s2 = activeTasks s - 1 /\ timers s2 = S (timers s)
       /\ forall ls s3,
           run config baseUrl s2 ls = Some s3 ->
           requests_for (job_url job) s3 = requests_for (job_url job) s.
Proof.
  intros R Hjob Hpc. pose proof (reachable_inv _ _ _ _ R) as I.
  destruct job as [t pc]. simpl in Hpc.
  exists (perform i t (on_error config baseUrl t error now) s). split.
  { apply step_Reply. exists {| job_task := t; job_pc := pc |}, (on_error config baseUrl t error now).
    split; [exact Hjob|]. split; [|reflexivity].
    destruct Hpc as [[m ->]|[r ->]]; reflexivity. }
  destruct (error_store_runs s i t pc error now Hjob)
    as (Hj & Hr & Hq & Hrq & Hv & Ha & Ht & Hs).
  cbv zeta. set (s2 := resume_n config baseUrl 6 i now _) in *.
  assert (forall f, hGet (redis s2) (urlKey config (fixProtocolRelativeUrl (task_url t))) f
                    = match assoc f (processData (error_record baseUrl t error now)) with
                      | Some v => Some v
                      | None => hGet (redis s)
                                  (urlKey config (fixProtocolRelativeUrl (task_url t))) f
                      end) as Hget.
  { intros f. rewrite Hr, storeResult_error. cbv zeta.
    change (redis_exec_all (?c :: ?l) ?r) with (redis_exec_all l (redis_exec c r)).
    rewrite hGet_exec_SADDs; [apply hGet_HSET|].
    simpl. now destruct (negb (String.eqb (task_referrer t) EmptyString)). }
  unfold job_url. simpl job_task.
  split; [rewrite Hget; simpl; now rewrite error_status_default|].
  split; [rewrite Hget; reflexivity|].
  split; [rewrite Hget; reflexivity|].
  split.
  { unfold pc_of. rewrite Hj, list_lookup_insert_eq; [reflexivity|].
    eapply lookup_lt_Some; eauto. }
  do 5 (split; [assumption|]).
  intros ls s3 Hrun.
  assert (requests_for (task_url t) s2 = requests_for (task_url t) s) as <-
    by (unfold requests_for; now rewrite Hrq).
  apply (closed_run (task_url t) ls s2 s3); [|exact Hrun].
  assert (exists m, (i, m, task_url t) ∈ requests s) as [m0 Hmine].
  { destruct Hpc as [[m ->]|[r ->]].
    - exists m. pose proof (inv_waiting _ _ _ I i _ m Hjob eq_refl) as Hw.
      eapply requests_by_elem. rewrite Hw. left.
    - exists GET. exact (proj1 (inv_escalating _ _ _ I i _ r Hjob eq_refl)). }
  split.
  - rewrite Hv. eapply inv_req_visited; eauto.
  - intros k job2 m Hk Hu Hpc2. rewrite Hj in Hk.
    apply list_lookup_insert_Some in Hk as [(-> & <- & _)|[Hne Hk]]; [discriminate|].
    pose proof (inv_waiting _ _ _ I k job2 m Hk Hpc2) as Hw.
    assert ((k, m, job_url job2) ∈ requests s) as Hother
      by (eapply requests_by_elem; rewrite Hw; left).
    rewrite Hu in Hother. apply Hne.
    exact (inv_unique _ _ _ I _ _ _ _ _ Hmine Hother).
Qed.

End Failure.

(** ** The record written for every extracted link *)

Section Stubs.

Context `{api : NodeApi}.
Variable config : Config.
Variable baseUrl : ParsedUrl.

Lemma storeResult_link (t : Task) (link : Link) :
  task_url t <> EmptyString ->
  let u := fixProtocolRelativeUrl (link_url link) in
  storeResult config (link_url link) (link_record baseUrl t link)
  = [HSET (urlKey config u)
          (processData (link_record baseUrl t link ++ [("status", VNum 0)]));
     SADD (allUrlsKey config) u;
     SADD (sourcePagesKey config u) (task_url t);
     SADD (typeKey config
             (asset_name (getAssetType (link_url link) (link_tag link)))) u;
     SADD (statusKey config "0") u].
Proof.
  intros Hurl. unfold storeResult, link_record.
  cbn [get_field set_field String.eqb Ascii.eqb Bool.eqb is_nullish truthy js_String app].
  change (negb (String.eqb (asset_name (getAssetType (link_url link) (link_tag link)))
                           EmptyString))
    with (truthy (VStr (asset_name (getAssetType (link_url link) (link_tag link))))).
  rewrite asset_name_truthy.
  apply String.eqb_neq in Hurl. rewrite Hurl. reflexivity.
Qed.

Lemma stub_written (t : Task) (link : Link) (r : Redis) :
  task_url t <> EmptyString ->
  stub_stored config t link
    (redis_exec_all (storeResult config (link_url link) (link_record baseUrl t link)) r).
Proof.
  intros Hurl. rewrite (storeResult_link t link Hurl). cbv zeta.
  set (u := fixProtocolRelativeUrl (link_url link)).
  unfold stub_stored. fold u.
  change (redis_exec_all (?c :: ?l) ?r) with (redis_exec_all l (redis_exec c r)).
  rewrite !hGet_exec_SADDs by reflexivity. rewrite !hGet_HSET.
  split; [reflexivity|]. split; [reflexivity|].
  repeat split; apply sMembers_exec_all; left; set_solver.
Qed.

Lemma stub_kept (t : Task) (link link' : Link) (r : Redis) :
  task_url t <> EmptyString ->
  stub_stored config t link r ->
  stub_stored config t link
    (redis_exec_all (storeResult config (link_url link') (link_record baseUrl t link')) r).
Proof.
  intros Hurl (H1 & H2 & H3 & H4 & H5). rewrite (storeResult_link t link' Hurl). cbv zeta.
  set (u := fixProtocolRelativeUrl (link_url link)) in *.
  set (u' := fixProtocolRelativeUrl (link_url link')).
  unfold stub_stored. fold u.
  change (redis_exec_all (?c :: ?l) ?r) with (redis_exec_all l (redis_exec c r)).
  rewrite !hGet_exec_SADDs by reflexivity.
  assert (forall f v,
             assoc f (processData (link_record baseUrl t link' ++ [("status", VNum 0)]))
             = Some v ->
             hGet r (urlKey config u) f = Some v ->
             hGet (redis_exec
                     (HSET (urlKey config u')
                        (processData (link_record baseUrl t link' ++ [("status", VNum 0)])))
                     r) (urlKey config u) f = Some v) as Hh.
  { intros f v Ha Hg. destruct (decide (urlKey config u' = urlKey config u)) as [E|E].
    - rewrite E, hGet_HSET, Ha. reflexivity.
    - now rewrite hGet_HSET_ne. }
  split; [apply Hh; [reflexivity | exact H1]|].
  split; [apply Hh; [reflexivity | exact H2]|].
  repeat split; apply sMembers_exec_all; right; rewrite sMembers_exec; now right.
Qed.

Lemma stubs_kept (t : Task) (link : Link) (links : list Link) (r : Redis) :
  task_url t <> EmptyString ->
  stub_stored config t link r ->
  stub_stored config t link
    (redis_exec_all
       (flat_map (fun l => storeResult config (link_url l) (link_record baseUrl t l)) links)
       r).
Proof.
  intros Hurl. revert r. induction links as [|l links IH]; intros r H; [exact H|].
  simpl. rewrite redis_exec_all_app. apply IH. now apply stub_kept.
Qed.

Lemma stubs_written (t : Task) (link : Link) (links : list Link) (r : Redis) :
  task_url t <> EmptyString ->
  link ∈ links ->
  stub_stored config t link
    (redis_exec_all
       (flat_map (fun l => storeResult config (link_url l) (link_record baseUrl t l)) links)
       r).
Proof.
  intros Hurl. revert r. induction links as [|l links IH]; intros r H.
  - now apply elem_of_nil in H.
  - simpl. rewrite redis_exec_all_app. apply elem_of_cons in H as [->|H].
    + apply stubs_kept; [exact Hurl|]. now apply stub_written.
    + now apply IH.
Qed.

(** The [for] loop over the links, run to the end of the call. *)
Lemma loop_runs (now : string) (links : list Link) :
  forall (s : State) (i : nat) (t : Task) (pc : Pc),
    task_url t <> EmptyString ->
    jobs s !! i = Some {| job_task := t; job_pc := pc |} ->
    (forall vis, resume config baseUrl t pc vis now
                 = Some (for_links config baseUrl t vis links)) ->
    let s' := resume_n config baseUrl (5 * length links + 2) i now s in
    jobs s' = <[i := {| job_task := t; job_pc := Finished |}]> (jobs s)
    /\ redis s' =
       redis_exec_all
         (flat_map (fun l => storeResult config (link_url l) (link_record baseUrl t l)) links)
         (redis s)
    /\ requests s' = requests s /\ visitedUrls s' = visitedUrls s
    /\ activeTasks s' = activeTasks s - 1 /\ timers s' = S (timers s).
Proof.
  induction links as [|link rest IH]; intros s i t pc Hurl Hjob Hpc.
  - cbn [length Nat.mul Nat.add].
    destruct (job_returns config baseUrl s i t pc now Hjob (Hpc _))
      as (Hj & Hr & _ & Hrq & Hv & Ha & Ht & _).
    cbv zeta. rewrite Hj, Hr, Hrq, Hv, Ha, Ht. repeat split.
  - replace (5 * length (link :: rest) + 2)%nat
      with (1 + (4 + (5 * length rest + 2)))%nat by (simpl; lia).
    rewrite (resume_n_add config baseUrl 1), (resume_n_add config baseUrl 4). cbv zeta.
    (* the turn of the loop: push and first command *)
    pose proof (Hpc (visitedUrls s)) as He.
    unfold for_links in He. rewrite (storeResult_link t link Hurl) in He.
    cbv zeta in He. cbn [store e_pc e_send] in He.
    set (e := {| e_pc := AtLinkStore _ rest |}) in He.
    rewrite (resume_n_1 config baseUrl i now s _
               (step_resume_eq config baseUrl s i t pc now e Hjob He)).
    pose proof (job_ran_perform i t e s eq_refl eq_refl) as H1.
    pose proof (job_ran_lookup _ _ _ _ _ _ _ _ Hjob H1) as Hjob1.
    (* the four commands that are left *)
    pose proof (drain_pending config baseUrl (fun pending => AtLinkStore pending rest) now
                  (fun _ _ _ _ => eq_refl) _ _ i t Hjob1) as H2.
    pose proof (job_ran_lookup _ _ _ _ _ _ _ _ Hjob1 H2) as Hjob2.
    pose proof (job_ran_trans _ _ _ _ _ _ _ _ _ _ _ H1 H2) as H12.
    cbn [length] in H2, Hjob2, H12 |- *.
    set (s2 := resume_n config baseUrl 4 i now (perform i t e s)) in *.
    destruct (IH s2 i t (AtLinkStore [] rest) Hurl Hjob2 (fun _ => eq_refl))
      as (Hj & Hr & Hrq & Hv & Ha & Ht).
    destruct H12 as (Hj' & Hr' & _ & Hrq' & Hv' & Ha' & Ht' & _).
    rewrite Hj, Hj', list_insert_insert_eq, Hr, Hr', Hrq, Hrq', Hv, Hv', Ha, Ha', Ht, Ht'.
    split; [reflexivity|]. split; [|repeat split].
    cbn [flat_map]. rewrite (storeResult_link t link Hurl). cbv zeta.
    rewrite redis_exec_all_app. reflexivity.
Qed.

(** C10.  When a fetched page is expanded, the call that fetched it stores,
    for every link [extractLinks] returns, a record with empty [checkedAt]
    and status 0, the URL in [all_urls] and in the status index, and the
    URL of the page in the link's set of source pages.  It does so for
    every link: admission ([shouldCrawlUrl]) is not consulted, nor whether
    the link is, or ever will be, queued or fetched. *)
Theorem stub_for_every_extracted_link (s : State) (i : nat) (job : Job)
        (response : Response) (now : string) :
  jobs s !! i = Some job ->
  job_pc job = AtStoreResult [] response ->
  expands config baseUrl (job_task job) response = true ->
  job_url job <> EmptyString ->
  let links := extractLinks baseUrl (resp_data response) (job_url job) in
  let s' := resume_n config baseUrl (5 * length links + 2) i now s in
  pc_of s' i = Some Finished
  /\ forall link,
      link ∈ links ->
      let u := fixProtocolRelativeUrl (link_url link) in
      hGet (redis s') (urlKey config u) "checkedAt" = Some EmptyString
      /\ hGet (redis s') (urlKey config u) "status" = Some "0"
      /\ u ∈ sMembers (redis s') (allUrlsKey config)
      /\ u ∈ sMembers (redis s') (statusKey config "0")
      /\ job_url job ∈ sMembers (redis s') (sourcePagesKey config u).
Proof.
  intros Hjob Hpc Hex Hurl. destruct job as [t pc].
  unfold job_url in *. cbn [job_task job_pc] in *. subst pc. cbv zeta.
  destruct (loop_runs now (extractLinks baseUrl (resp_data response) (task_url t))
              s i t _ Hurl Hjob)
    as (Hj & Hr & _).
  { intros vis. cbn [resume]. now rewrite Hex. }
  split.
  - unfold pc_of. rewrite Hj, list_lookup_insert_eq; [reflexivity|].
    eapply lookup_lt_Some; eauto.
  - intros link Hin. rewrite Hr. now apply stubs_written.
Qed.

End Stubs.

(** ** The example run, stopped half-way *)

Lemma waiting_state_run :
  run (api := Reference.node) Example.config Example.baseUrl
      (main Example.config redis_empty) [Resume 0 Example.now]
  = Some Example.waiting_state.
Proof. vm_compute. reflexivity. Qed.

Lemma waiting_state_reachable :
  reachable (api := Reference.node) Example.config Example.baseUrl
            redis_empty Example.waiting_state.
Proof.
  eapply run_reachable; [apply reach_main | exact waiting_state_run].
Qed.

Lemma waiting_state_job :
  jobs Example.waiting_state !! 0%nat
  = Some {| job_task := Example.seed_task; job_pc := AtRequest HEAD |}.
Proof. vm_compute. reflexivity. Qed.

Lemma expanding_state_job :
  jobs Example.expanding_state !! 0%nat
  = Some {| job_task := Example.seed_task;
            job_pc := AtStoreResult [] Example.page_response |}.
Proof. vm_compute. reflexivity. Qed.

(** Witness of [fetch_exception_terminal]: the HEAD for the seed times out. *)
Lemma fetch_exception_terminal_witness :
  exists s1,
    step (api := Reference.node) Example.config Example.baseUrl
         Example.waiting_state (Reply 0 (Rejected Example.timeout) Example.now)
    = Some s1
    /\ hGet (redis (resume_n (api := Reference.node) Example.config Example.baseUrl
                             6 0 Example.now s1))
            "tracer:aHR0cHM6Ly9leC5jb20=" "status" = Some "0"
    /\ hGet (redis (resume_n (api := Reference.node) Example.config Example.baseUrl
                             6 0 Example.now s1))
            "tracer:aHR0cHM6Ly9leC5jb20=" "error"
       = Some "timeout of 10000ms exceeded".
Proof.
  destruct (fetch_exception_terminal (api := Reference.node) Example.config
              Example.baseUrl redis_empty Example.waiting_state 0 _
              Example.timeout Example.now
              waiting_state_reachable waiting_state_job
              (or_introl (ex_intro _ HEAD eq_refl)))
    as (s1 & Hstep & Hstatus & Herror & _).
  exists s1. split; [exact Hstep|]. split; [exact Hstatus | exact Herror].
Defined.

(** Witness of [stub_for_every_extracted_link]: the link to the excluded
    [/admin/users] gets its record. *)
Lemma stub_for_every_extracted_link_witness :
  hGet (redis (resume_n (api := Reference.node) Example.config Example.baseUrl
                        12 0 Example.now Example.expanding_state))
       "tracer:aHR0cHM6Ly9leC5jb20vYWRtaW4vdXNlcnM=" "checkedAt"
  = Some EmptyString
  /\ shouldCrawlUrl (api := Reference.node) Example.config
       "https://ex.com/admin/users" 1 = false.
Proof.
  split; [|reflexivity].
  refine (proj1 (proj2 (stub_for_every_extracted_link (api := Reference.node)
                          Example.config Example.baseUrl Example.expanding_state 0 _
                          Example.page_response Example.now
                          expanding_state_job eq_refl eq_refl _)
                       {| link_url := "https://ex.com/admin/users"; link_tag := "a";
                          link_text := Some "go"; link_alt := None;
                          link_rel := None |} _)).
  - discriminate.
  - vm_compute. left.
Defined.

(** ** When the summary is generated *)

Section Summary.

Context `{api : NodeApi}.
Variable config : Config.
Variable baseUrl : ParsedUrl.

Lemma unfinished_insert (l : list Job) (i : nat) (job job' : Job) :
  l !! i = Some job ->
  (length (filter (fun j => is_finished (job_pc j) = false) (<[i := job']> l))
   + (if is_finished (job_pc job) then 0 else 1)
   = length (filter (fun j => is_finished (job_pc j) = false) l)
     + (if is_finished (job_pc job') then 0 else 1))%nat.
Proof.
  intros Hi. pose proof (lookup_lt_Some _ _ _ Hi) as Hlt.
  rewrite insert_take_drop by exact Hlt.
  rewrite <- (take_drop_middle l i job Hi) at 3.
  rewrite !filter_app, !length_app, !filter_cons.
  destruct (decide (is_finished (job_pc job') = false)) as [E'|E'];
    destruct (decide (is_finished (job_pc job) = false)) as [E|E];
    simpl; rewrite ?E, ?E';
    try (apply not_false_is_true in E; rewrite E);
    try (apply not_false_is_true in E'; rewrite E'); lia.
Qed.

Lemma perform_counted (s : State) (i : nat) (job : Job) (e : Effect) :
  jobs s !! i = Some job ->
  is_finished (e_pc e) = false -> is_finished (job_pc job) = false ->
  counted s -> counted (perform i (job_task job) e s).
Proof.
  unfold counted, in_flight. intros Hjob He Hpc Hc. simpl. rewrite Hc. f_equal.
  pose proof (unfinished_insert (jobs s) i job
                {| job_task := job_task job; job_pc := e_pc e |} Hjob) as H.
  simpl in H. rewrite He, Hpc in H. lia.
Qed.

Lemma processQueue_counted (s : State) :
  counted s -> counted (processQueue config s).
Proof.
  unfold counted, in_flight, processQueue. intros H.
  destruct (bool_decide (queue s = []) && (activeTasks s =? 0)); [exact H|].
  destruct (fill_spec config (queue s) (activeTasks s) (jobs s)) as (started & -> & _).
  simpl. rewrite H, filter_app, length_app, Nat2Z.inj_add. f_equal. f_equal.
  clear. induction started as [|t l IH]; [reflexivity|].
  cbn [map length]. rewrite filter_cons_True by reflexivity.
  cbn [length]. now rewrite <- IH.
Qed.

Lemma reachable_counted (db : Redis) (s : State) :
  reachable config baseUrl db s -> counted s.
Proof.
  induction 1 as [|s l s' _ IH Hstep].
  - apply processQueue_counted. reflexivity.
  - destruct l as [i now|i result now|].
    + apply step_Resume in Hstep as (job & Hjob & [[Hpc ->]|(e & He & ->)]).
      * unfold counted, in_flight in *. simpl. rewrite IH.
        pose proof (unfinished_insert (jobs s) i job
                      {| job_task := job_task job; job_pc := Finished |} Hjob) as H.
        simpl in H. rewrite Hpc in H. simpl in H. lia.
      * destruct (resume_live _ _ _ _ _ _ _ He). now apply perform_counted.
    + apply step_Reply in Hstep as (job & e & Hjob & He & ->).
      destruct (reply_live _ _ _ _ _ _ _ He). now apply perform_counted.
    + apply step_Timer in Hstep as (n & Hn & ->). now apply processQueue_counted.
Qed.

(** X27.  The part of C7 that the guard in [processQueue] secures: the summary
    is generated by a timer only, one call at a time, and at that moment the
    queue is empty and every [checkUrl] call made so far has finished. *)
Theorem summary_only_when_idle (db : Redis) (s s' : State) (l : Label) :
  reachable config baseUrl db s ->
  step config baseUrl s l = Some s' ->
  summaries s' <> summaries s ->
  l = Timer
  /\ summaries s' = S (summaries s)
  /\ queue s = [] /\ activeTasks s = 0
  /\ forall i job, jobs s !! i = Some job -> job_pc job = Finished.
Proof.
  intros R Hstep Hsum. pose proof (reachable_counted _ _ R) as Hc.
  destruct l as [i now|i result now|].
  - apply step_Resume in Hstep as (job & Hjob & [[Hpc ->]|(e & He & ->)]);
      now destruct Hsum.
  - apply step_Reply in Hstep as (job & e & Hjob & He & ->). now destruct Hsum.
  - apply step_Timer in Hstep as (n & Hn & ->). unfold processQueue in *.
    cbn [queue activeTasks jobs] in *.
    destruct (bool_decide (queue s = []) && (activeTasks s =? 0)) eqn:E.
    + apply andb_true_iff in E as [Hq Ha].
      apply bool_decide_eq_true in Hq. apply Z.eqb_eq in Ha.
      repeat split; try assumption.
      intros i job Hjob. unfold counted, in_flight in Hc. rewrite Ha in Hc.
      destruct (is_finished (job_pc job)) eqn:Hf; [now destruct (job_pc job)|].
      assert (job ∈ filter (fun j => is_finished (job_pc j) = false) (jobs s)) as Hin.
      { apply list_elem_of_filter. split; [exact Hf|].
        eapply list_elem_of_lookup_2; eauto. }
      destruct (filter _ (jobs s)); [now apply elem_of_nil in Hin | simpl in Hc; lia].
    + destruct (fill config (queue s) (activeTasks s) (jobs s)) as [[q a] js].
      cbn [summaries] in Hsum. now destruct Hsum.
Qed.

End Summary.

Lemma admin_prefix_run :
  run (api := Reference.node) Example.config Example.baseUrl
      (main Example.config redis_empty) (removelast Example.admin_schedule)
  = Some Example.admin_before_last.
Proof. vm_compute. reflexivity. Qed.

Lemma admin_last_step :
  step (api := Reference.node) Example.config Example.baseUrl
       Example.admin_before_last Timer
  = Some Example.admin_final.
Proof. vm_compute. reflexivity. Qed.

Lemma admin_last_counts :
  summaries Example.admin_final <> summaries Example.admin_before_last.
Proof. vm_compute. discriminate. Qed.

(** Witness of [summary_only_when_idle]: the second call of the summary in
    the example run also finds the crawl idle. *)
Lemma summary_only_when_idle_witness :
  exists s,
    step (api := Reference.node) Example.config Example.baseUrl s Timer
    = Some Example.admin_final
    /\ summaries s = 1%nat /\ queue s = [] /\ activeTasks s = 0.
Proof.
  pose proof admin_prefix_run as Hrun.
  exists Example.admin_before_last. split; [exact admin_last_step|].
  destruct (summary_only_when_idle (api := Reference.node) Example.config
              Example.baseUrl redis_empty Example.admin_before_last
              Example.admin_final Timer
              (run_reachable _ _ _ _ _ _ (reach_main _ _ _) Hrun)
              admin_last_step admin_last_counts)
    as (_ & _ & Hq & Ha & _).
  split; [vm_compute; reflexivity|]. split; assumption.
Defined.

(** * Further properties of the code *)

(** ** Strings *)

Lemma Js_app_assoc (a b c : string) : (a +:+ b) +:+ c = a +:+ (b +:+ c).
Proof.
  induction a as [|x a IH]; [now rewrite !append_nil|].
  now rewrite !append_cons, IH.
Qed.

Lemma Js_app_nil_r (a : string) : a +:+ EmptyString = a.
Proof. induction a as [|x a IH]; [reflexivity|]. now rewrite append_cons, IH. Qed.

Lemma Js_app_length (a b : string) :
  String.length (a +:+ b) = (String.length a + String.length b)%nat.
Proof.
  induction a as [|x a IH]; [now rewrite append_nil|].
  rewrite append_cons. simpl. now rewrite IH.
Qed.

Lemma prefix_empty (t : string) : String.prefix EmptyString t = true.
Proof. now destruct t. Qed.

Lemma startsWith_cons (a b : ascii) (s p : string) :
  Js.startsWith (String a s) (String b p)
  = if Ascii.eqb b a then Js.startsWith s p else false.
Proof.
  unfold Js.startsWith. cbn [String.prefix].
  destruct (ascii_dec b a) as [->|Hne].
  - now rewrite Ascii.eqb_refl.
  - apply Ascii.eqb_neq in Hne. now rewrite Hne.
Qed.

(** A character that does not occur in [p] cannot complete [p]. *)
Lemma startsWith_app_other (p u rest : string) (c : ascii) :
  forallb (fun d => negb (Ascii.eqb d c)) (String.list_ascii_of_string p) = true ->
  Js.startsWith (u +:+ String c rest) p = Js.startsWith u p.
Proof.
  unfold Js.startsWith. revert u. induction p as [|a p IH]; intros u H.
  - now rewrite !prefix_empty.
  - simpl in H. apply andb_true_iff in H as [Ha Hp].
    destruct u as [|b u].
    + rewrite append_nil. simpl. destruct (ascii_dec a c) as [->|_]; [|reflexivity].
      rewrite Ascii.eqb_refl in Ha. discriminate.
    + rewrite append_cons. simpl. destruct (ascii_dec a b); [now apply IH | reflexivity].
Qed.

Lemma endsWith_app (a b : string) (c : ascii) :
  b <> EmptyString -> Js.endsWith (a +:+ b) c = Js.endsWith b c.
Proof.
  intros Hb. induction a as [|x a IH]; [now rewrite append_nil|].
  rewrite append_cons. simpl. destruct (a +:+ b) eqn:E; [|exact IH].
  destruct a; [rewrite append_nil in E; contradiction | now rewrite append_cons in E].
Qed.

Lemma strip_trailing_slash_app (a b : string) :
  b <> EmptyString ->
  Js.strip_trailing_slash (a +:+ b) = a +:+ Js.strip_trailing_slash b.
Proof.
  intros Hb. induction a as [|x a IH]; [now rewrite !append_nil|].
  rewrite !append_cons. simpl. destruct (a +:+ b) eqn:E; [|now rewrite IH].
  destruct a; [rewrite append_nil in E; contradiction | now rewrite append_cons in E].
Qed.

Lemma strip_trailing_slash_added (a : string) :
  Js.strip_trailing_slash (a +:+ "/") = a.
Proof.
  rewrite strip_trailing_slash_app by discriminate. apply Js_app_nil_r.
Qed.

Lemma split_nonempty (c : ascii) (s : string) : Js.split c s <> [].
Proof.
  destruct s as [|d t]; simpl; [discriminate|].
  destruct (Ascii.eqb d c); [discriminate|]. now destruct (Js.split c t).
Qed.

(** Splitting at an occurrence of the separator. *)
Lemma split_app (c : ascii) (a b : string) :
  Js.split c (a +:+ String c b) = Js.split c a ++ Js.split c b.
Proof.
  induction a as [|d a IH].
  - rewrite append_nil. simpl. now rewrite Ascii.eqb_refl.
  - rewrite append_cons. simpl. rewrite IH.
    destruct (Ascii.eqb d c); [reflexivity|].
    pose proof (split_nonempty c a). now destruct (Js.split c a).
Qed.

Lemma split_id (c : ascii) (s : string) :
  Js.includes s (String c EmptyString) = false -> Js.split c s = [s].
Proof.
  induction s as [|d t IH]; [reflexivity|].
  simpl. unfold Js.startsWith. simpl.
  destruct (ascii_dec c d) as [->|Hne].
  - now destruct t.
  - intros H. assert (Ascii.eqb d c = false) as ->
      by (apply Ascii.eqb_neq; congruence).
    now rewrite IH.
Qed.

(** [join] undoes [split]. *)
Lemma join_split (c : ascii) (s : string) :
  Js.join (String c EmptyString) (Js.split c s) = s.
Proof.
  induction s as [|d t IH]; [reflexivity|].
  simpl. pose proof (split_nonempty c t) as Hne.
  destruct (Ascii.eqb_spec d c) as [->|Hdc].
  - destruct (Js.split c t) as [|w ws]; [contradiction|].
    change (Js.join (String c EmptyString) (EmptyString :: w :: ws))
      with (EmptyString +:+ String c EmptyString
            +:+ Js.join (String c EmptyString) (w :: ws)).
    now rewrite IH, append_nil, append_cons, append_nil.
  - destruct (Js.split c t) as [|w ws]; [contradiction|].
    destruct ws as [|w' ws].
    + simpl in *. now rewrite IH.
    + change (Js.join (String c EmptyString) (String d w :: w' :: ws))
        with (String d w +:+ String c EmptyString
              +:+ Js.join (String c EmptyString) (w' :: ws)).
      rewrite append_cons. f_equal. exact IH.
Qed.

(** The page URL without its last segment. *)
Lemma parent_of_page (dir file : string) :
  Js.includes file "/" = false ->
  Js.join "/" (Js.slice_0_m1 (Js.split "/" (dir +:+ "/" +:+ file))) = dir.
Proof.
  intros H. change ("/" +:+ file) with (String "/" file).
  rewrite split_app, (split_id _ _ H). unfold Js.slice_0_m1.
  rewrite removelast_last. apply (join_split "/").
Qed.

Lemma first_split_app (c : ascii) (a b : string) :
  Js.first (Js.split c (a +:+ String c b)) = Js.first (Js.split c a).
Proof.
  rewrite split_app. pose proof (split_nonempty c a).
  now destruct (Js.split c a).
Qed.

(** ** [normalizeUrl]: which references name the same URL *)

Section NormalizeMore.

Context `{api : NodeApi}.
Variable baseUrl : ParsedUrl.

Lemma absolutize_app (url tail base : string) :
  Js.startsWith (url +:+ tail) "//" = Js.startsWith url "//" ->
  Js.startsWith (url +:+ tail) "/" = Js.startsWith url "/" ->
  Js.startsWith (url +:+ tail) "http" = Js.startsWith url "http" ->
  absolutize baseUrl (url +:+ tail) base = absolutize baseUrl url base +:+ tail.
Proof.
  intros H2 H1 Hh. destruct (Js.startsWith url "//") eqn:E2.
  - now rewrite !absolutize_protocol_relative, Js_app_assoc.
  - unfold absolutize. rewrite H2, E2, H1, Hh.
    destruct (Js.startsWith url "/"); [now rewrite !Js_app_assoc|].
    destruct (Js.startsWith url "http"); simpl; [reflexivity|].
    now rewrite !Js_app_assoc.
Qed.

Lemma absolutize_ends (url base : string) (c : ascii) :
  url <> EmptyString ->
  Js.endsWith (absolutize baseUrl url base) c = Js.endsWith url c.
Proof.
  intros Hne. destruct (Js.startsWith url "//") eqn:E.
  - rewrite absolutize_protocol_relative by exact E. now apply endsWith_app.
  - unfold absolutize. rewrite E. destruct (Js.startsWith url "/").
    + rewrite <- !Js_app_assoc. now apply endsWith_app.
    + destruct (Js.startsWith url "http"); cbv beta iota zeta; [reflexivity|].
      rewrite <- Js_app_assoc. now apply endsWith_app.
Qed.

(** X1.  A fragment does not matter: for a non-empty reference that does
    not end in a slash, appending [#] and any fragment gives the same
    normalised URL.  (After a trailing slash it does matter: the slash is
    removed only when it is the last character.) *)
Theorem normalizeUrl_ignores_fragment (url fragment base : string) :
  url <> EmptyString ->
  Js.endsWith url "/" = false ->
  normalizeUrl baseUrl (url +:+ "#" +:+ fragment) base
  = normalizeUrl baseUrl url base.
Proof.
  intros Hne Hslash. unfold normalizeUrl.
  change ("#" +:+ fragment) with (String "#" fragment).
  rewrite absolutize_app by (apply startsWith_app_other; reflexivity).
  rewrite strip_trailing_slash_app by discriminate.
  rewrite (strip_trailing_slash_id (absolutize baseUrl url base))
    by now rewrite absolutize_ends.
  assert (exists f, Js.strip_trailing_slash (String "#" fragment) = String "#" f)
    as [f ->].
  { simpl. destruct fragment; eauto. }
  now rewrite first_split_app.
Qed.

Lemma startsWith_slash_added (url p : string) :
  url <> EmptyString -> Js.endsWith url "/" = false ->
  p = "/" \/ p = "//" \/ p = "http" ->
  Js.startsWith (url +:+ "/") p = Js.startsWith url p.
Proof.
  intros Hne Hslash [ -> | [ -> | -> ] ].
  - destruct url as [|a u]; [contradiction|].
    rewrite append_cons, !startsWith_cons. unfold Js.startsWith.
    now rewrite !prefix_empty.
  - destruct url as [|a [|b u]]; [contradiction| |].
    + rewrite append_cons, append_nil, !startsWith_cons.
      simpl in Hslash. rewrite Ascii.eqb_sym, Hslash. reflexivity.
    + rewrite !append_cons, !startsWith_cons. unfold Js.startsWith.
      now rewrite !prefix_empty.
  - apply startsWith_app_other. reflexivity.
Qed.

(** X2.  One trailing slash does not matter: for a non-empty reference
    that does not end in a slash, appending a slash gives the same
    normalised URL. *)
Theorem normalizeUrl_ignores_trailing_slash (url base : string) :
  url <> EmptyString ->
  Js.endsWith url "/" = false ->
  normalizeUrl baseUrl (url +:+ "/") base = normalizeUrl baseUrl url base.
Proof.
  intros Hne Hslash. unfold normalizeUrl.
  rewrite absolutize_app by (apply startsWith_slash_added; auto).
  rewrite strip_trailing_slash_added.
  now rewrite (strip_trailing_slash_id (absolutize baseUrl url base))
    by now rewrite absolutize_ends.
Qed.

(** X3.  A relative reference (neither [/...] nor [http...]) replaces the
    last segment of the page URL: everything after the last slash of the
    page URL is dropped and the reference is put in its place, before the
    slash, fragment and query steps run. *)
Theorem normalizeUrl_relative (url dir file : string) :
  Js.startsWith url "/" = false ->
  Js.startsWith url "http" = false ->
  Js.includes file "/" = false ->
  normalizeUrl baseUrl url (dir +:+ "/" +:+ file)
  = cleanup_query
      (Js.first (Js.split "#" (Js.strip_trailing_slash (dir +:+ "/" +:+ url)))).
Proof.
  intros Hroot Hhttp Hfile. unfold normalizeUrl, absolutize.
  assert (Js.startsWith url "//" = false) as ->.
  { destruct (Js.startsWith url "//") eqn:E; [|reflexivity].
    destruct (startsWith_inv _ _ E) as [t ->]. discriminate. }
  rewrite Hroot, Hhttp. simpl. now rewrite parent_of_page.
Qed.

(** X4.  On a page whose URL has no path ([scheme//host], as the seed
    [https://example.com] of the default configuration), the host counts
    as the last segment: a relative reference is resolved to
    [scheme//reference], and the host of the page is lost. *)
Theorem normalizeUrl_relative_on_bare_host (url scheme host : string) :
  Js.startsWith url "/" = false ->
  Js.startsWith url "http" = false ->
  Js.includes host "/" = false ->
  normalizeUrl baseUrl url (scheme +:+ "//" +:+ host)
  = cleanup_query
      (Js.first (Js.split "#" (Js.strip_trailing_slash (scheme +:+ "//" +:+ url)))).
Proof.
  intros Hroot Hhttp Hhost.
  change (scheme +:+ "//" +:+ host) with (scheme +:+ String "/" ("/" +:+ host)).
  change (scheme +:+ "//" +:+ url) with (scheme +:+ String "/" ("/" +:+ url)).
  change (String "/" ("/" +:+ host)) with ("/" +:+ "/" +:+ host).
  change (String "/" ("/" +:+ url)) with ("/" +:+ "/" +:+ url).
  rewrite <- !(Js_app_assoc scheme "/").
  now apply normalizeUrl_relative.
Qed.

End NormalizeMore.

(** X5.  A reference that starts with [/] or with the letters [http] is
    resolved without the page it was found on: the result is the same for
    every page URL.  This includes a relative file name such as
    [http-errors.html], which is therefore not resolved at all. *)
Theorem normalizeUrl_page_independent `{api : NodeApi} (baseUrl : ParsedUrl)
        (url base base' : string) :
  Js.startsWith url "/" = true \/ Js.startsWith url "http" = true ->
  normalizeUrl baseUrl url base = normalizeUrl baseUrl url base'.
Proof.
  intros [H|H]; unfold normalizeUrl.
  - assert (absolutize baseUrl url base = absolutize baseUrl url base') as ->;
      [|reflexivity].
    unfold absolutize. destruct (Js.startsWith url "//").
    + reflexivity.
    + now rewrite H.
  - now rewrite !absolutize_http.
Qed.

(** Witness of [normalizeUrl_ignores_fragment]. *)
Lemma normalizeUrl_ignores_fragment_witness :
  normalizeUrl (api := Reference.node) Example.baseUrl
    "/docs?page=2#intro" "https://ex.com"
  = normalizeUrl (api := Reference.node) Example.baseUrl
      "/docs?page=2" "https://ex.com".
Proof.
  apply (normalizeUrl_ignores_fragment (api := Reference.node) Example.baseUrl
           "/docs?page=2" "intro" "https://ex.com");
    [discriminate | reflexivity].
Defined.

(** Witness of [normalizeUrl_ignores_trailing_slash]. *)
Lemma normalizeUrl_ignores_trailing_slash_witness :
  normalizeUrl (api := Reference.node) Example.baseUrl "/docs/" "https://ex.com"
  = normalizeUrl (api := Reference.node) Example.baseUrl "/docs" "https://ex.com".
Proof.
  apply (normalizeUrl_ignores_trailing_slash (api := Reference.node)
           Example.baseUrl "/docs" "https://ex.com");
    [discriminate | reflexivity].
Defined.

(** Witness of [normalizeUrl_page_independent]: a file name that starts
    with [http] is taken as an absolute URL on every page. *)
Lemma normalizeUrl_page_independent_witness :
  normalizeUrl (api := Reference.node) Example.baseUrl
    "http-errors.html" "https://ex.com/docs/index.html"
  = normalizeUrl (api := Reference.node) Example.baseUrl
      "http-errors.html" "https://ex.com/blog/2024/post.html"
  /\ normalizeUrl (api := Reference.node) Example.baseUrl
       "http-errors.html" "https://ex.com/docs/index.html"
     = "http-errors.html".
Proof.
  split; [|reflexivity].
  apply (normalizeUrl_page_independent (api := Reference.node) Example.baseUrl).
  right. reflexivity.
Defined.

(** Witness of [normalizeUrl_relative]. *)
Lemma normalizeUrl_relative_witness :
  normalizeUrl (api := Reference.node) Example.baseUrl
    "img/logo.png" "https://ex.com/docs/index.html"
  = "https://ex.com/docs/img/logo.png".
Proof.
  change "https://ex.com/docs/index.html"
    with ("https://ex.com/docs" +:+ "/" +:+ "index.html").
  rewrite (normalizeUrl_relative (api := Reference.node) Example.baseUrl
             "img/logo.png" "https://ex.com/docs" "index.html");
    reflexivity.
Defined.

(** Witness of [normalizeUrl_relative_on_bare_host]: on the home page
    [https://ex.com] the reference [about.html] becomes a URL on the host
    [about.html]. *)
Lemma normalizeUrl_relative_on_bare_host_witness :
  normalizeUrl (api := Reference.node) Example.baseUrl "about.html" "https://ex.com"
  = "https://about.html/".
Proof.
  change "https://ex.com" with ("https:" +:+ "//" +:+ "ex.com").
  rewrite (normalizeUrl_relative_on_bare_host (api := Reference.node)
             Example.baseUrl "about.html" "https:" "ex.com");
    reflexivity.
Defined.

(** ** [getAssetType]: letter case *)

Lemma lower_ascii_idem (c : ascii) :
  Js.lower_ascii (Js.lower_ascii c) = Js.lower_ascii c.
Proof. destruct c as [[] [] [] [] [] [] [] []]; reflexivity. Qed.

Lemma lower_ascii_dot (c : ascii) :
  Ascii.eqb (Js.lower_ascii c) "." = Ascii.eqb c ".".
Proof. destruct c as [[] [] [] [] [] [] [] []]; reflexivity. Qed.

Lemma lower_ascii_query (c : ascii) :
  Ascii.eqb (Js.lower_ascii c) "?" = Ascii.eqb c "?".
Proof. destruct c as [[] [] [] [] [] [] [] []]; reflexivity. Qed.

Lemma lower_idem (s : string) : Js.lower (Js.lower s) = Js.lower s.
Proof.
  induction s as [|c t IH]; [reflexivity|]. simpl. now rewrite lower_ascii_idem, IH.
Qed.

Lemma lower_take (n : nat) (s : string) :
  Js.lower (Js.take n s) = Js.take n (Js.lower s).
Proof.
  revert s. induction n as [|n IH]; intros [|c t]; try reflexivity.
  simpl. now rewrite IH.
Qed.

Lemma lower_drop (n : nat) (s : string) :
  Js.lower (Js.drop n s) = Js.drop n (Js.lower s).
Proof.
  revert s. induction n as [|n IH]; intros [|c t]; try reflexivity.
  simpl. now rewrite IH.
Qed.

Lemma end_or_query_lower (s : string) :
  Js.end_or_query (Js.lower s) = Js.end_or_query s.
Proof. destruct s as [|c t]; [reflexivity|]. simpl. apply lower_ascii_query. Qed.

Lemma ext_here_cons (exts : list string) (c : ascii) (t : string) :
  Js.ext_here exts (String c t)
  = if Ascii.eqb c "." then
      existsb (fun e =>
                 String.eqb (Js.lower (Js.take (String.length e) t)) e
                 && Js.end_or_query (Js.drop (String.length e) t)) exts
    else false.
Proof. destruct c as [[] [] [] [] [] [] [] []]; reflexivity. Qed.

Lemma ext_here_lower (exts : list string) (s : string) :
  Js.ext_here exts (Js.lower s) = Js.ext_here exts s.
Proof.
  destruct s as [|c t]; [reflexivity|].
  cbn [Js.lower]. rewrite !ext_here_cons, lower_ascii_dot.
  destruct (Ascii.eqb c "."); [|reflexivity].
  induction exts as [|e exts IH]; [reflexivity|].
  cbn [existsb]. rewrite IH. f_equal.
  now rewrite <- lower_take, lower_idem, <- lower_drop, end_or_query_lower.
Qed.

Lemma match_ext_lower (exts : list string) (s : string) :
  Js.match_ext exts (Js.lower s) = Js.match_ext exts s.
Proof.
  induction s as [|c t IH]; [reflexivity|].
  change (Js.match_ext exts (Js.lower (String c t)))
    with (Js.ext_here exts (Js.lower (String c t)) || Js.match_ext exts (Js.lower t)).
  change (Js.match_ext exts (String c t))
    with (Js.ext_here exts (String c t) || Js.match_ext exts t).
  now rewrite ext_here_lower, IH.
Qed.

(** X6.  The classifier does not look at the letter case of the URL:
    lower-casing the URL never changes the asset type, for any tag. *)
Theorem getAssetType_case_insensitive (url tag : string) :
  getAssetType (Js.lower url) tag = getAssetType url tag.
Proof.
  unfold getAssetType. now rewrite !match_ext_lower.
Qed.

(** ** The configuration read from the environment *)

Section Environment.

Context `{api : NodeApi}.
Variable config : Config.
Variable baseUrl : ParsedUrl.

Lemma blank_pattern (env item : string) :
  env <> EmptyString ->
  item ∈ Js.split "," env ->
  String_trim item = EmptyString ->
  EmptyString ∈ excludePatterns_of_env (Some env).
Proof.
  intros Hne Hin Hblank. unfold excludePatterns_of_env.
  destruct (String.eqb_spec env EmptyString) as [->|_]; [contradiction|].
  rewrite <- Hblank. now apply list_elem_of_fmap_2.
Qed.

Lemma empty_pattern_excludes (url : string) :
  EmptyString ∈ excludePatterns config ->
  is_Some (URL_new url) ->
  isUrlExcluded config url = true.
Proof.
  intros Hin [parsed Hparsed]. unfold isUrlExcluded. rewrite Hparsed.
  destruct (excludePatterns config) as [|p ps] eqn:E;
    [now apply elem_of_nil in Hin|].
  apply existsb_exists. exists EmptyString. split.
  - now apply list_elem_of_In.
  - unfold Js.startsWith. apply prefix_empty.
Qed.

(** X7.  A blank item in [EXCLUDE_PATTERNS] (a trailing comma, two commas
    in a row) becomes the empty pattern, and every path starts with the
    empty string: every URL the URL parser accepts is excluded, and no
    such URL is ever visited or requested in any run. *)
Theorem blank_exclude_pattern_excludes_all (env item : string) (db : Redis)
        (s : State) (url : string) :
  excludePatterns config = excludePatterns_of_env (Some env) ->
  env <> EmptyString ->
  item ∈ Js.split "," env ->
  String_trim item = EmptyString ->
  is_Some (URL_new url) ->
  reachable config baseUrl db s ->
  isUrlExcluded config url = true
  /\ (url ∉ visitedUrls s)
  /\ requests_for url s = [].
Proof.
  intros Hcfg Hne Hin Hblank Hurl R.
  assert (isUrlExcluded config url = true) as Hex.
  { apply empty_pattern_excludes; [|exact Hurl].
    rewrite Hcfg. eapply blank_pattern; eauto. }
  split; [exact Hex|].
  apply (excluded_no_requests config baseUrl s url); [|exact Hex].
  eapply reachable_inv; eauto.
Qed.

(** X8.  [config.skipDataImages] is [true] whatever [SKIP_DATA_IMAGES] is
    set to ([... || true]), so a [data:image] URL is refused by
    [shouldCrawlUrl] under every setting of the environment. *)
Theorem skipDataImages_cannot_be_disabled (v : option string) (url : string)
        (depth : Z) :
  skipDataImages config = skipDataImages_of_env v ->
  Js.startsWith url "data:image" = true ->
  skipDataImages config = true
  /\ shouldCrawlUrl config url depth = false.
Proof.
  intros Hcfg Hdata.
  assert (skipDataImages config = true) as Hskip.
  { rewrite Hcfg. unfold skipDataImages_of_env. apply orb_true_r. }
  split; [exact Hskip|].
  unfold shouldCrawlUrl. rewrite Hskip, Hdata.
  now destruct (maxDepth config <? depth).
Qed.

End Environment.

Lemma comma_run_final : Cases.comma_run = Some Cases.comma_final.
Proof. vm_compute. reflexivity. Qed.

Lemma comma_final_reachable :
  reachable (api := Reference.node) Cases.comma_config Example.baseUrl
            redis_empty Cases.comma_final.
Proof.
  eapply run_reachable; [apply reach_main | exact comma_run_final].
Qed.

(** Witness of [blank_exclude_pattern_excludes_all]: with
    [EXCLUDE_PATTERNS=/admin,] the seed itself is excluded, and the run
    ends without a request. *)
Lemma blank_exclude_pattern_excludes_all_witness :
  excludePatterns Cases.comma_config = ["/admin"; EmptyString]
  /\ isUrlExcluded (api := Reference.node) Cases.comma_config "https://ex.com" = true
  /\ ("https://ex.com" ∉ visitedUrls Cases.comma_final)
  /\ requests_for "https://ex.com" Cases.comma_final = [].
Proof.
  split; [reflexivity|].
  apply (blank_exclude_pattern_excludes_all (api := Reference.node)
           Cases.comma_config Example.baseUrl "/admin," EmptyString
           redis_empty Cases.comma_final "https://ex.com").
  - reflexivity.
  - discriminate.
  - vm_compute. apply list_elem_of_In. simpl. auto.
  - reflexivity.
  - vm_compute. eauto.
  - exact comma_final_reachable.
Defined.

(** Witness of [skipDataImages_cannot_be_disabled]:
    [SKIP_DATA_IMAGES=false] leaves the flag set. *)
Lemma skipDataImages_cannot_be_disabled_witness :
  skipDataImages Cases.images_config = true
  /\ shouldCrawlUrl (api := Reference.node) Cases.images_config
       Example.data_image 1 = false.
Proof.
  apply (skipDataImages_cannot_be_disabled (api := Reference.node)
           Cases.images_config (Some "false") Example.data_image 1);
    reflexivity.
Defined.

(** ** The queue and the calls *)

Section Order.

Context `{api : NodeApi}.
Variable config : Config.
Variable baseUrl : ParsedUrl.

Lemma map_insert_same {A B} (f : A -> B) (l : list A) (i : nat) (x y : A) :
  l !! i = Some x -> f y = f x -> map f (<[i := y]> l) = map f l.
Proof.
  revert i. induction l as [|a l IH]; intros [|i] H Hf; try discriminate; simpl in *.
  - injection H as ->. now rewrite Hf.
  - f_equal. now apply IH.
Qed.

Lemma perform_order (s : State) (i : nat) (job : Job) (e : Effect) :
  jobs s !! i = Some job ->
  dispatch_order (perform i (job_task job) e s) = dispatch_order s ++ e_push e.
Proof.
  intros Hjob. unfold dispatch_order. simpl.
  rewrite (map_insert_same job_task _ _ job) by (exact Hjob || reflexivity).
  apply app_assoc.
Qed.

Lemma finally_order (s : State) (i : nat) (job : Job) :
  jobs s !! i = Some job ->
  dispatch_order (finally i (job_task job) s) = dispatch_order s.
Proof.
  intros Hjob. unfold dispatch_order. simpl.
  now rewrite (map_insert_same job_task _ _ job) by (exact Hjob || reflexivity).
Qed.

Lemma processQueue_order (s : State) :
  dispatch_order (processQueue config s) = dispatch_order s.
Proof.
  unfold processQueue.
  destruct (bool_decide (queue s = []) && (activeTasks s =? 0)); [reflexivity|].
  destruct (fill_spec config (queue s) (activeTasks s) (jobs s))
    as (started & -> & Hst & _).
  unfold dispatch_order. simpl.
  rewrite map_app, map_map. simpl. rewrite map_id, <- app_assoc. f_equal.
  rewrite Hst at 1. apply take_drop.
Qed.

(** X9.  First in, first out.  The sequence of tasks (those [checkUrl] has
    been called on, in call order, followed by the queue) starts with the
    seed and only ever grows at its end: a task is never overtaken,
    dropped or called twice, and a timer only moves tasks from the queue
    to the calls. *)
Theorem calls_in_push_order (db : Redis) (s : State) :
  reachable config baseUrl db s ->
  (exists rest, dispatch_order s = seed config :: rest)
  /\ forall l s',
      step config baseUrl s l = Some s' ->
      exists pushed,
        dispatch_order s' = dispatch_order s ++ pushed
        /\ (l = Timer -> pushed = []).
Proof.
  intros R. split.
  - induction R as [|s l s' _ [rest IH] Hstep].
    + exists []. unfold main. now rewrite processQueue_order.
    + destruct (step_cases _ _ _ _ _ Hstep)
        as [(j & job & e & Hjob & _ & ->)|[(j & job & Hjob & _ & ->)|(n & _ & ->)]].
      * rewrite perform_order, IH by exact Hjob. now eexists.
      * rewrite finally_order, IH by exact Hjob. now eexists.
      * rewrite processQueue_order. now exists rest.
  - intros l s' Hstep. destruct l as [i now|i result now|].
    + apply step_Resume in Hstep as (job & Hjob & [[_ ->]|(e & _ & ->)]).
      * exists []. rewrite finally_order by exact Hjob.
        split; [now rewrite app_nil_r | reflexivity].
      * exists (e_push e). rewrite perform_order by exact Hjob.
        split; [reflexivity | discriminate].
    + apply step_Reply in Hstep as (job & e & Hjob & _ & ->).
      exists (e_push e). rewrite perform_order by exact Hjob.
      split; [reflexivity | discriminate].
    + apply step_Timer in Hstep as (n & _ & ->). exists [].
      rewrite processQueue_order. split; [now rewrite app_nil_r | reflexivity].
Qed.

(** *** Concurrency *)

Lemma fill_bound (q : list Task) (active : Z) (js : list Job) :
  (fill config q active js).1.2 <= Z.max active (concurrency config).
Proof.
  revert active js. induction q as [|task q IH]; intros active js; simpl; [lia|].
  unfold MAX_ACTIVE_TASKS. destruct (active <? concurrency config) eqn:E.
  - apply Z.ltb_lt in E. specialize (IH (active + 1) (js ++ [{| job_task := task; job_pc := AtAdmission |}])).
    lia.
  - simpl. lia.
Qed.

Lemma processQueue_bound (s : State) :
  activeTasks (processQueue config s) <= Z.max (activeTasks s) (concurrency config).
Proof.
  unfold processQueue.
  destruct (bool_decide (queue s = []) && (activeTasks s =? 0)); [simpl; lia|].
  pose proof (fill_bound (queue s) (activeTasks s) (jobs s)) as H.
  destruct (fill config (queue s) (activeTasks s) (jobs s)) as [[q a] js].
  exact H.
Qed.

(** X10.  At most [concurrency] calls of [checkUrl] are in flight at any
    time: [activeTasks] is exactly the number of calls whose [.finally]
    callback has not run, it is never negative and never above
    [concurrency] (0 when that is negative). *)
Theorem concurrency_respected (db : Redis) (s : State) :
  reachable config baseUrl db s ->
  activeTasks s = Z.of_nat (in_flight s)
  /\ 0 <= activeTasks s <= Z.max 0 (concurrency config).
Proof.
  intros R. pose proof (reachable_counted _ _ _ _ R) as Hc.
  split; [exact Hc|]. split; [rewrite Hc; lia|].
  clear Hc. induction R as [|s l s' R IH Hstep].
  - unfold main. etransitivity; [apply processQueue_bound|]. simpl. lia.
  - pose proof (reachable_counted _ _ _ _ R) as Hc. unfold counted in Hc.
    destruct (step_cases _ _ _ _ _ Hstep)
      as [(j & job & e & _ & _ & ->)|[(j & job & _ & _ & ->)|(n & _ & ->)]].
    + exact IH.
    + simpl. lia.
    + etransitivity; [apply processQueue_bound|]. simpl. lia.
Qed.

(** *** The crawl does not stall *)

Lemma fill_progress (q : list Task) (active : Z) (js : list Job) :
  let '(q', active', _) := fill config q active js in
  active <= active'
  /\ (q' <> [] -> concurrency config <= active')
  /\ (q <> [] -> active < concurrency config -> active < active').
Proof.
  revert active js. induction q as [|task q IH]; intros active js; simpl.
  - repeat split; try lia; congruence.
  - unfold MAX_ACTIVE_TASKS. destruct (active <? concurrency config) eqn:E.
    + specialize (IH (active + 1) (js ++ [{| job_task := task; job_pc := AtAdmission |}])).
      destruct (fill config q (active + 1) _) as [[q' a'] js'].
      destruct IH as (H1 & H2 & _). repeat split; try lia. exact H2.
    + apply Z.ltb_ge in E. repeat split; try lia.
Qed.

Lemma live_in_flight (s : State) (i : nat) (job : Job) :
  jobs s !! i = Some job -> is_finished (job_pc job) = false ->
  (0 < in_flight s)%nat.
Proof.
  intros Hjob Hf. unfold in_flight.
  assert (job ∈ filter (fun j => is_finished (job_pc j) = false) (jobs s)) as Hin.
  { apply list_elem_of_filter. split; [exact Hf|].
    eapply list_elem_of_lookup_2; eauto. }
  destruct (filter _ (jobs s)); [now apply elem_of_nil in Hin | simpl; lia].
Qed.

Lemma busy_or_done (db : Redis) (s : State) :
  1 <= concurrency config ->
  reachable config baseUrl db s ->
  (queue s <> [] -> 0 < activeTasks s \/ (0 < timers s)%nat)
  /\ (0 < activeTasks s \/ (0 < timers s)%nat \/ (1 <= summaries s)%nat).
Proof.
  intros Hc R. induction R as [|s l s' R [IH1 IH2] Hstep].
  - unfold main, processQueue. simpl. unfold MAX_ACTIVE_TASKS.
    assert ((0 <? concurrency config) = true) as -> by (apply Z.ltb_lt; lia).
    simpl. split; [intros _|]; left; lia.
  - pose proof (reachable_counted _ _ _ _ R) as Hcount. unfold counted in Hcount.
    destruct l as [i now|i result now|].
    + apply step_Resume in Hstep as (job & Hjob & [[Hpc ->]|(e & He & ->)]).
      * simpl. split; [intros _; right; lia | right; left; lia].
      * destruct (resume_live _ _ _ _ _ _ _ He) as [_ Hl].
        pose proof (live_in_flight s i job Hjob Hl). simpl.
        split; [intros _|]; left; lia.
    + apply step_Reply in Hstep as (job & e & Hjob & He & ->).
      destruct (reply_live _ _ _ _ _ _ _ He) as [_ Hl].
      pose proof (live_in_flight s i job Hjob Hl). simpl.
      split; [intros _|]; left; lia.
    + apply step_Timer in Hstep as (n & Hn & ->). unfold processQueue.
      cbn [queue activeTasks jobs].
      destruct (bool_decide (queue s = []) && (activeTasks s =? 0)) eqn:E.
      * apply andb_true_iff in E as [Hq _]. apply bool_decide_eq_true in Hq.
        simpl. split; [congruence | right; right; lia].
      * pose proof (fill_progress (queue s) (activeTasks s) (jobs s)) as H.
        destruct (fill config (queue s) (activeTasks s) (jobs s)) as [[q a] js].
        destruct H as (H1 & H2 & H3). simpl.
        assert (0 < a) as Ha.
        { apply andb_false_iff in E as [E|E].
          - apply bool_decide_eq_false in E.
            destruct (Z_lt_le_dec (activeTasks s) (concurrency config)) as [Hlt|Hge];
              [specialize (H3 E Hlt)|]; lia.
          - apply Z.eqb_neq in E. lia. }
        split; [intros _|]; left; exact Ha.
Qed.

(** X11.  With a concurrency of at least 1 the crawl neither stalls nor
    ends silently: whenever no call is in flight and no timer is pending,
    the queue is empty and the summary has been generated. *)
Theorem idle_means_done (db : Redis) (s : State) :
  1 <= concurrency config ->
  reachable config baseUrl db s ->
  idle s ->
  queue s = [] /\ (1 <= summaries s)%nat.
Proof.
  intros Hc R [Ha Ht]. destruct (busy_or_done db s Hc R) as [H1 H2]. split.
  - destruct (queue s) eqn:E; [reflexivity|].
    destruct H1 as [H|H]; [discriminate | lia | lia].
  - destruct H2 as [H|[H|H]]; lia.
Qed.

(** X12.  With [concurrency] 0 or less, [processQueue] starts nothing: the
    seed stays in the queue, no call, request, timer or summary ever
    happens, and the event loop has nothing left to run. *)
Theorem no_concurrency_no_crawl (db : Redis) (s : State) :
  concurrency config <= 0 ->
  reachable config baseUrl db s ->
  queue s = [seed config] /\ jobs s = [] /\ requests s = []
  /\ timers s = 0%nat /\ summaries s = 0%nat /\ redis s = db
  /\ forall l, step config baseUrl s l = None.
Proof.
  intros Hc R.
  assert (main config db =
          {| queue := [seed config]; activeTasks := 0; visitedUrls := ∅;
             redis := db; jobs := []; timers := 0; summaries := 0;
             requests := [] |}) as Hmain.
  { unfold main, processQueue. simpl. unfold MAX_ACTIVE_TASKS.
    assert ((0 <? concurrency config) = false) as -> by (apply Z.ltb_ge; lia).
    reflexivity. }
  assert (forall l, step config baseUrl (main config db) l = None) as Hstuck.
  { intros l. rewrite Hmain. now destruct l. }
  assert (s = main config db) as ->.
  { induction R as [|s l s' R IH Hstep]; [reflexivity|].
    subst s. rewrite Hstuck in Hstep. discriminate. }
  rewrite Hmain at 1 2 3 4 5 6. simpl. repeat split. exact Hstuck.
Qed.

End Order.

(** Witness of [calls_in_push_order]. *)
Lemma calls_in_push_order_witness :
  exists rest,
    dispatch_order Example.site_final = seed Example.site_config :: rest.
Proof.
  exact (proj1 (calls_in_push_order (api := Reference.node) Example.site_config
                  Example.baseUrl redis_empty Example.site_final
                  site_final_reachable)).
Defined.

(** Witness of [concurrency_respected]: while the seed waits for the answer
    to its HEAD, one call is in flight. *)
Lemma concurrency_respected_witness :
  activeTasks Example.waiting_state = Z.of_nat (in_flight Example.waiting_state)
  /\ 0 <= activeTasks Example.waiting_state <= Z.max 0 (concurrency Example.config).
Proof.
  exact (concurrency_respected (api := Reference.node) Example.config
           Example.baseUrl redis_empty Example.waiting_state
           waiting_state_reachable).
Defined.

(** Witness of [idle_means_done]: the end of the example run. *)
Lemma idle_means_done_witness :
  idle Example.site_final
  /\ queue Example.site_final = [] /\ (1 <= summaries Example.site_final)%nat.
Proof.
  assert (idle Example.site_final) as H by (split; vm_compute; reflexivity).
  split; [exact H|].
  apply (idle_means_done (api := Reference.node) Example.site_config
           Example.baseUrl redis_empty Example.site_final);
    [vm_compute; discriminate | exact site_final_reachable | exact H].
Defined.

(** Witness of [no_concurrency_no_crawl]. *)
Lemma no_concurrency_no_crawl_witness :
  queue (main Cases.stalled_config redis_empty) = [seed Cases.stalled_config]
  /\ jobs (main Cases.stalled_config redis_empty) = []
  /\ requests (main Cases.stalled_config redis_empty) = []
  /\ timers (main Cases.stalled_config redis_empty) = 0%nat
  /\ summaries (main Cases.stalled_config redis_empty) = 0%nat
  /\ redis (main Cases.stalled_config redis_empty) = redis_empty
  /\ forall l, step (api := Reference.node) Cases.stalled_config Example.baseUrl
                    (main Cases.stalled_config redis_empty) l = None.
Proof.
  apply (no_concurrency_no_crawl (api := Reference.node) Cases.stalled_config
           Example.baseUrl redis_empty (main Cases.stalled_config redis_empty));
    [vm_compute; discriminate | apply reach_main].
Defined.

(** ** What is requested, and how *)

Section Requests.

Context `{api : NodeApi}.
Variable config : Config.
Variable baseUrl : ParsedUrl.

(** Without a tag the classifier never answers [LINK]: the first request
    of [checkUrl] is never a GET. *)
Lemma getAssetType_untagged (url : string) : getAssetType url EmptyString <> LINK.
Proof. unfold getAssetType. simpl. repeat case_match; discriminate. Qed.

Ltac untagged :=
  repeat match goal with
    | H : bool_decide (getAssetType _ EmptyString = LINK) = true |- _ =>
        apply bool_decide_eq_true in H; destruct (getAssetType_untagged _ H)
    | H : getAssetType _ EmptyString = LINK |- _ =>
        destruct (getAssetType_untagged _ H)
    end.

Ltac cases H :=
  unfold resume, reply, for_links, on_error, on_response, store, goto in H;
  repeat case_match; simplify_eq; simpl in *; untagged.

Lemma resume_requests (t : Task) (pc : Pc) (vis : gset string) (now : string)
      (e : Effect) (m : Method) :
  resume config baseUrl t pc vis now = Some e ->
  e_request e = Some m ->
  m = HEAD /\ pc = AtAdmission
  /\ shouldCrawlUrl config (task_url t) (task_depth t) = true.
Proof.
  intros H Hm. cases H; try discriminate.
  injection Hm as <-. repeat split.
  match goal with
  | H : negb (shouldCrawlUrl _ _ _) = false |- _ => now apply negb_false_iff in H
  end.
Qed.

Lemma resume_AtRequest (t : Task) (pc : Pc) (vis : gset string) (now : string)
      (e : Effect) (m : Method) :
  resume config baseUrl t pc vis now = Some e -> e_pc e = AtRequest m -> m = HEAD.
Proof. intros H Hm. cases H; try discriminate. now injection Hm as <-. Qed.

Lemma reply_requests (t : Task) (pc : Pc) (r : HttpResult) (now : string)
      (e : Effect) (m : Method) :
  reply config baseUrl t pc r now = Some e ->
  e_request e = Some m ->
  m = GET /\ (exists m0, pc = AtRequest m0)
  /\ isInboundLink baseUrl (task_url t) = true
  /\ task_depth t < maxDepth config.
Proof.
  intros H Hm. cases H; try discriminate.
  injection Hm as <-.
  match goal with
  | H : _ && expands _ _ _ _ = true |- _ =>
      apply andb_true_iff in H as [_ H]; apply expands_inbound in H as [? ?]
  end.
  repeat split; eauto.
Qed.

Lemma reply_not_AtRequest (t : Task) (pc : Pc) (r : HttpResult) (now : string)
      (e : Effect) (m : Method) :
  reply config baseUrl t pc r now = Some e -> e_pc e <> AtRequest m.
Proof. intros H Hm. cases H; discriminate. Qed.

(** Every job keeps its task; new jobs come from a timer and start at
    admission. *)
Lemma step_jobs (s s' : State) (l : Label) (i : nat) (job' : Job) :
  step config baseUrl s l = Some s' ->
  jobs s' !! i = Some job' ->
  (exists job, jobs s !! i = Some job /\ job_task job = job_task job')
  \/ (jobs s !! i = None /\ job_pc job' = AtAdmission).
Proof.
  intros Hstep Hi.
  destruct (step_cases _ _ _ _ _ Hstep)
    as [(j & job & e & Hjob & _ & ->)|[(j & job & Hjob & _ & ->)|(n & _ & ->)]].
  - apply (perform_jobs s j job e Hjob) in Hi as [[-> ->]|[_ Hi]]; left; eauto.
  - simpl in Hi. destruct (decide (i = j)) as [->|Hne].
    + rewrite list_lookup_insert_eq in Hi by (eapply lookup_lt_Some; eauto).
      injection Hi as <-. left. eauto.
    + rewrite list_lookup_insert_ne in Hi by congruence. left. eauto.
  - match type of Hi with context [processQueue config ?s0] =>
      destruct (processQueue_frame config s0) as (_ & _ & _ & _ & started & Hj) end.
    rewrite Hj in Hi. simpl in Hi.
    apply lookup_app_Some in Hi as [Hi|[Hlen Hi]]; [left; eauto|].
    right. split; [now apply lookup_ge_None_2|].
    apply list_lookup_fmap_Some in Hi as (task & -> & _). reflexivity.
Qed.

Lemma step_jobs_kept (s s' : State) (l : Label) (i : nat) (job : Job) :
  step config baseUrl s l = Some s' ->
  jobs s !! i = Some job ->
  exists job', jobs s' !! i = Some job' /\ job_task job' = job_task job.
Proof.
  intros Hstep Hi.
  destruct (step_cases _ _ _ _ _ Hstep)
    as [(j & job2 & e & Hjob & _ & ->)|[(j & job2 & Hjob & _ & ->)|(n & _ & ->)]].
  - destruct (decide (i = j)) as [->|Hne].
    + rewrite Hi in Hjob. injection Hjob as <-.
      eexists. split; [apply (perform_jobs s j job e Hi); left; eauto | reflexivity].
    + exists job. split; [apply (perform_jobs s j job2 e Hjob); right; auto | reflexivity].
  - simpl. destruct (decide (i = j)) as [->|Hne].
    + rewrite Hi in Hjob. injection Hjob as <-.
      rewrite list_lookup_insert_eq by (eapply lookup_lt_Some; eauto). eauto.
    + rewrite list_lookup_insert_ne by congruence. eauto.
  - match goal with |- context [processQueue config ?s0] =>
      destruct (processQueue_frame config s0) as (_ & _ & _ & _ & started & Hj) end.
    exists job. split; [rewrite Hj; now apply lookup_app_l_Some | reflexivity].
Qed.

Lemma step_requests (s s' : State) (l : Label) (r : nat * Method * string) :
  step config baseUrl s l = Some s' -> r ∈ requests s -> r ∈ requests s'.
Proof.
  intros Hstep Hr.
  destruct (step_cases _ _ _ _ _ Hstep)
    as [(j & job & e & Hjob & _ & ->)|[(j & job & Hjob & _ & ->)|(n & _ & ->)]].
  - apply (perform_requests s j job e). now right.
  - exact Hr.
  - match goal with |- context [processQueue config ?s0] =>
      destruct (processQueue_frame config s0) as (-> & _) end.
    exact Hr.
Qed.

(** X13.  How the network is used.  Every request is made by a call whose
    depth is between 0 and [maxDepth], and the first request of every call
    is a HEAD: a GET is only ever sent after a HEAD of the same call for
    the same URL, and only for an inbound URL at a depth below
    [maxDepth].  Outbound URLs, and everything at [maxDepth], are checked
    by HEAD alone. *)
Theorem head_first_get_only_to_expand (db : Redis) (s : State) :
  reachable config baseUrl db s ->
  (forall i job m,
      jobs s !! i = Some job -> job_pc job = AtRequest m -> m = HEAD)
  /\ forall i m u,
      (i, m, u) ∈ requests s ->
      exists job,
        jobs s !! i = Some job /\ job_url job = u
        /\ 0 <= job_depth job <= maxDepth config
        /\ (i, HEAD, u) ∈ requests s
        /\ (m = GET ->
            isInboundLink baseUrl u = true /\ job_depth job < maxDepth config).
Proof.
  induction 1 as [|s l s' R [IH1 IH2] Hstep].
  - split.
    + intros i job m Hjob Hpc. unfold main in Hjob.
      match type of Hjob with context [processQueue config ?s0] =>
        destruct (processQueue_frame config s0) as (_ & _ & _ & _ & started & Hj) end.
      rewrite Hj in Hjob. simpl in Hjob.
      apply list_lookup_fmap_Some in Hjob as (task & -> & _). discriminate.
    + intros i m u Hin. unfold main in Hin.
      match type of Hin with context [processQueue config ?s0] =>
        destruct (processQueue_frame config s0) as (Hr & _) end.
      rewrite Hr in Hin. now apply elem_of_nil in Hin.
  - pose proof (reachable_inv _ _ _ _ R) as I.
    assert (forall i m u,
               (i, m, u) ∈ requests s ->
               exists job,
                 jobs s' !! i = Some job /\ job_url job = u
                 /\ 0 <= job_depth job <= maxDepth config
                 /\ (i, HEAD, u) ∈ requests s'
                 /\ (m = GET ->
                     isInboundLink baseUrl u = true
                     /\ job_depth job < maxDepth config)) as Hold.
    { intros i m u Hin.
      destruct (IH2 i m u Hin) as (job & Hjob & Hu & Hd & Hh & Hg).
      destruct (step_jobs_kept _ _ _ _ _ Hstep Hjob) as (job' & Hjob' & Ht).
      exists job'. unfold job_url, job_depth in *. rewrite Ht.
      repeat split; try tauto; try lia.
      eapply step_requests; eauto. }
    split.
    + intros i job' m Hjob' Hpc.
      destruct l as [j now|j result now|].
      * apply step_Resume in Hstep as (job & Hjob & [[_ ->]|(e & He & ->)]).
        -- simpl in Hjob'. destruct (decide (i = j)) as [->|Hne].
           ++ rewrite list_lookup_insert_eq in Hjob' by (eapply lookup_lt_Some; eauto).
              injection Hjob' as <-. discriminate.
           ++ rewrite list_lookup_insert_ne in Hjob' by congruence. eauto.
        -- apply (perform_jobs s j job e Hjob) in Hjob' as [[-> ->]|[_ Hi]]; [|eauto].
           eapply resume_AtRequest; eauto.
      * apply step_Reply in Hstep as (job & e & Hjob & He & ->).
        apply (perform_jobs s j job e Hjob) in Hjob' as [[-> ->]|[_ Hi]]; [|eauto].
        destruct (reply_not_AtRequest _ _ _ _ _ m He Hpc).
      * apply step_Timer in Hstep as (n & _ & ->).
        match type of Hjob' with context [processQueue config ?s0] =>
          destruct (processQueue_frame config s0) as (_ & _ & _ & _ & started & Hj) end.
        rewrite Hj in Hjob'. simpl in Hjob'.
        apply lookup_app_Some in Hjob' as [Hi|[_ Hi]]; [eauto|].
        apply list_lookup_fmap_Some in Hi as (task & -> & _). discriminate.
    + intros i m u Hin.
      destruct l as [j now|j result now|].
      * pose proof Hstep as Hstep0.
        apply step_Resume in Hstep as (job & Hjob & [[_ ->]|(e & He & ->)]);
          [now apply Hold|].
        apply (perform_requests s j job e) in Hin as [(m' & Hm & Heq)|Hin];
          [|now apply Hold].
        injection Heq as -> -> ->.
        destruct (resume_requests _ _ _ _ _ _ He Hm) as (-> & _ & Hadm).
        eexists. split; [apply (perform_jobs s j job e Hjob); left; eauto|].
        split; [reflexivity|]. unfold job_depth. simpl.
        pose proof (inv_job_depth _ _ _ I j job Hjob) as [Hd _].
        apply shouldCrawlUrl_depth in Hadm. unfold job_depth in Hd.
        split; [lia|]. split; [|discriminate].
        apply (perform_requests s j job e). left. eauto.
      * pose proof Hstep as Hstep0.
        apply step_Reply in Hstep as (job & e & Hjob & He & ->).
        apply (perform_requests s j job e) in Hin as [(m' & Hm & Heq)|Hin];
          [|now apply Hold].
        injection Heq as -> -> ->.
        destruct (reply_requests _ _ _ _ _ _ He Hm) as (-> & [m0 Hpc] & Hin & Hlt).
        eexists. split; [apply (perform_jobs s j job e Hjob); left; eauto|].
        split; [reflexivity|]. unfold job_depth. simpl.
        pose proof (inv_job_depth _ _ _ I j job Hjob) as [Hd _].
        unfold job_depth in Hd. split; [lia|]. split; [|auto].
        apply (perform_requests s j job e). right.
        pose proof (IH1 j job m0 Hjob Hpc) as ->.
        pose proof (inv_waiting _ _ _ I j job HEAD Hjob Hpc) as Hw.
        assert ((j, HEAD, job_url job) ∈ requests_by j s) as Hin'
          by (rewrite Hw; left).
        now apply requests_by_elem in Hin' as [_ Hin'].
      * apply Hold. apply step_Timer in Hstep as (n & _ & ->).
        match type of Hin with context [processQueue config ?s0] =>
          destruct (processQueue_frame config s0) as (Hr & _) end.
        now rewrite Hr in Hin.
Qed.

(** *** The path to a task *)

Lemma resume_pushes (t : Task) (pc : Pc) (vis : gset string) (now : string)
      (e : Effect) (task : Task) :
  resume config baseUrl t pc vis now = Some e ->
  task ∈ e_push e ->
  task_referrer task = task_url t
  /\ task_sourcePages task = task_sourcePages t ++ [task_url t]
  /\ (task_depth task = task_depth t + 1 \/ task_depth task = maxDepth config)
  /\ ((exists pending links, pc = AtLinkStore pending links)
      \/ task_depth t < maxDepth config).
Proof.
  intros H Hin. unfold resume, for_links, store, goto in H.
  repeat case_match; simplify_eq; simpl in *;
    try (now apply elem_of_nil in Hin);
    repeat match type of Hin with
      | (_ ∈ (if ?b then _ else _)) => destruct b eqn:?
      | (_ ∈ [_]) => apply list_elem_of_singleton in Hin; subst; simpl
      | (_ ∈ []) => apply elem_of_nil in Hin; destruct Hin
      end;
    repeat split; auto;
    try (left; eauto; fail);
    try (right;
         match goal with
         | H : expands _ _ _ _ = true |- _ => now apply expands_inbound in H as [_ ?]
         end).
Qed.

Lemma reply_pushes (t : Task) (pc : Pc) (r : HttpResult) (now : string) (e : Effect) :
  reply config baseUrl t pc r now = Some e -> e_push e = [].
Proof.
  intros H. unfold reply, on_error, on_response, store in H.
  repeat case_match; simplify_eq; reflexivity.
Qed.

Lemma child_on_path (t task : Task) :
  on_path config t ->
  0 <= task_depth t < maxDepth config ->
  task_referrer task = task_url t ->
  task_sourcePages task = task_sourcePages t ++ [task_url t] ->
  task_depth task = task_depth t + 1 \/ task_depth task = maxDepth config ->
  on_path config task.
Proof.
  intros Ht Hd Hr Hs Hdepth. right. rewrite Hs, Hr, last_snoc, length_app. simpl.
  destruct Ht as [->|(Hh & _ & Hlen & _)]; simpl in *.
  - repeat split; lia.
  - destruct (task_sourcePages t); [discriminate|]. simpl in *.
    repeat split; try assumption; lia.
Qed.

(** X14.  [sourcePages] records the path of discovery.  For every task,
    queued or already called, other than the seed itself: its
    [sourcePages] starts with the seed URL, ends with its referrer, and
    has at most as many entries as its depth, which is at most
    [maxDepth]. *)
Theorem sourcePages_is_discovery_path (db : Redis) (s : State) (t : Task) :
  reachable config baseUrl db s ->
  t ∈ dispatch_order s ->
  on_path config t.
Proof.
  intros R. revert t. induction R as [|s l s' R IH Hstep]; intros t Hin.
  - unfold main in Hin. rewrite processQueue_order in Hin.
    apply list_elem_of_singleton in Hin. now left.
  - pose proof (reachable_inv _ _ _ _ R) as I.
    assert (forall j job e,
               jobs s !! j = Some job ->
               (forall task, task ∈ e_push e ->
                  task_referrer task = task_url (job_task job)
                  /\ task_sourcePages task
                     = task_sourcePages (job_task job) ++ [task_url (job_task job)]
                  /\ (task_depth task = task_depth (job_task job) + 1
                      \/ task_depth task = maxDepth config)
                  /\ ((exists pending links, job_pc job = AtLinkStore pending links)
                      \/ task_depth (job_task job) < maxDepth config)) ->
               t ∈ dispatch_order (perform j (job_task job) e s) ->
               on_path config t) as Hperform.
    { intros j job e Hjob Hpush Ht.
      rewrite perform_order in Ht by exact Hjob.
      apply elem_of_app in Ht as [Ht|Ht]; [now apply IH|].
      destruct (Hpush t Ht) as (Hr & Hs & Hd & Hlt).
      assert (on_path config (job_task job)) as Hjp.
      { apply IH. unfold dispatch_order. apply elem_of_app. left.
        apply list_elem_of_fmap. exists job. split; [reflexivity|].
        eapply list_elem_of_lookup_2; eauto. }
      pose proof (inv_job_depth _ _ _ I j job Hjob) as [H0 _].
      unfold job_depth in H0.
      assert (task_depth (job_task job) < maxDepth config) as Hlt'.
      { destruct Hlt as [(p & links & Hpc)|Hlt]; [|exact Hlt].
        now destruct (inv_loop _ _ _ I j job p links Hjob Hpc). }
      eapply child_on_path; eauto. }
    destruct l as [j now|j result now|].
    + apply step_Resume in Hstep as (job & Hjob & [[_ ->]|(e & He & ->)]).
      * rewrite finally_order in Hin by exact Hjob. now apply IH.
      * apply (Hperform j job e Hjob); [|exact Hin].
        intros task Ht. eapply resume_pushes; eauto.
    + apply step_Reply in Hstep as (job & e & Hjob & He & ->).
      apply (Hperform j job e Hjob); [|exact Hin].
      intros task Ht. rewrite (reply_pushes _ _ _ _ _ He) in Ht.
      now apply elem_of_nil in Ht.
    + apply step_Timer in Hstep as (n & _ & ->).
      rewrite processQueue_order in Hin. now apply IH.
Qed.

(** *** What counts as checked *)

Lemma resume_visit (t : Task) (pc : Pc) (vis : gset string) (now : string)
      (e : Effect) (u : string) :
  resume config baseUrl t pc vis now = Some e ->
  e_visit e = Some u ->
  u = task_url t /\ exists m, e_request e = Some m.
Proof.
  intros H Hu. destruct pc; simpl in H; try discriminate;
    try (destruct pending; simplify_eq; simpl in *; repeat case_match;
         simplify_eq; discriminate);
    try (simplify_eq; discriminate).
  - injection H as <-.
    destruct (negb (shouldCrawlUrl config (task_url t) (task_depth t))) eqn:Hadm;
      [discriminate|].
    destruct (bool_decide (task_url t ∈ vis));
      [destruct (negb (String.eqb (task_referrer t) EmptyString)); discriminate|].
    destruct (Js.startsWith (task_url t) "data:image" && skipDataImages config) eqn:Hd.
    + apply negb_false_iff in Hadm. unfold shouldCrawlUrl in Hadm.
      apply andb_true_iff in Hd as [Hd1 Hd2]. rewrite Hd1, Hd2 in Hadm.
      destruct (maxDepth config <? task_depth t); discriminate.
    + simpl in Hu. injection Hu as <-. split; [reflexivity | eauto].
  - unfold for_links in H. repeat case_match; simplify_eq; discriminate.
  - unfold for_links in H. repeat case_match; simplify_eq; discriminate.
Qed.

Lemma reply_visit (t : Task) (pc : Pc) (r : HttpResult) (now : string) (e : Effect) :
  reply config baseUrl t pc r now = Some e -> e_visit e = None.
Proof.
  intros H. unfold reply, on_error, on_response, store in H.
  repeat case_match; simplify_eq; reflexivity.
Qed.

(** X28.  [visitedUrls] is exactly the set of URLs that have been
    requested: a URL is in it if and only if some call has sent a request
    for it.  The "Total URLs checked" of the summary, [visitedUrls.size],
    therefore counts the URLs requested, neither more nor less. *)
Theorem visited_iff_requested (db : Redis) (s : State) (u : string) :
  reachable config baseUrl db s ->
  u ∈ visitedUrls s <-> exists i m, (i, m, u) ∈ requests s.
Proof.
  intros R. split.
  - induction R as [|s l s' R IH Hstep]; intros Hu.
    + unfold main in Hu. match type of Hu with context [processQueue config ?s0] =>
        destruct (processQueue_frame config s0) as (_ & Hv & _) end.
      rewrite Hv in Hu. simpl in Hu. now apply elem_of_empty in Hu.
    + assert (u ∈ visitedUrls s -> exists i m, (i, m, u) ∈ requests s') as Hold.
      { intros H. destruct (IH H) as (i & m & Hin). exists i, m.
        eapply step_requests; eauto. }
      destruct l as [j now|j result now|].
      * apply step_Resume in Hstep as (job & Hjob & [[_ ->]|(e & He & ->)]);
          [now apply Hold|].
        apply (perform_visited s j job e) in Hu as [Hv|Hu].
        -- destruct (resume_visit _ _ _ _ _ _ He Hv) as (-> & m & Hm).
           exists j, m. apply (perform_requests s j job e). left. eauto.
        -- destruct (IH Hu) as (i & m & Hin). exists i, m.
           apply (perform_requests s j job e). now right.
      * apply step_Reply in Hstep as (job & e & Hjob & He & ->).
        apply (perform_visited s j job e) in Hu as [Hv|Hu].
        -- rewrite (reply_visit _ _ _ _ _ He) in Hv. discriminate.
        -- destruct (IH Hu) as (i & m & Hin). exists i, m.
           apply (perform_requests s j job e). now right.
      * pose proof Hstep as Hstep0.
        apply step_Timer in Hstep as (n & _ & ->).
        match type of Hu with context [processQueue config ?s0] =>
          destruct (processQueue_frame config s0) as (_ & Hv & _) end.
        rewrite Hv in Hu. destruct (IH Hu) as (i & m & Hin). exists i, m.
        eapply step_requests; eauto.
  - intros (i & m & Hin).
    eapply inv_req_visited; [eapply reachable_inv|]; eauto.
Qed.

End Requests.

(** Witness of [head_first_get_only_to_expand]: the GET of the seed page
    in the example run. *)
Lemma head_first_get_only_to_expand_witness :
  (0%nat, GET, "https://ex.com") ∈ requests Example.site_final
  /\ exists job,
      jobs Example.site_final !! 0%nat = Some job
      /\ job_url job = "https://ex.com"
      /\ 0 <= job_depth job <= maxDepth Example.site_config
      /\ (0%nat, HEAD, "https://ex.com") ∈ requests Example.site_final
      /\ (GET = GET ->
          isInboundLink (api := Reference.node) Example.baseUrl "https://ex.com" = true
          /\ job_depth job < maxDepth Example.site_config).
Proof.
  assert ((0%nat, GET, "https://ex.com") ∈ requests Example.site_final) as H
    by (vm_compute; apply list_elem_of_In; simpl; auto 20).
  split; [exact H|].
  exact (proj2 (head_first_get_only_to_expand (api := Reference.node)
                  Example.site_config Example.baseUrl redis_empty
                  Example.site_final site_final_reachable)
               0%nat GET "https://ex.com" H).
Defined.

(** Witness of [sourcePages_is_discovery_path]: the task for [/about] in
    the example run. *)
Lemma sourcePages_is_discovery_path_witness :
  on_path Example.site_config
    {| task_url := "https://ex.com/about"; task_referrer := "https://ex.com";
       task_depth := 1; task_sourcePages := ["https://ex.com"] |}.
Proof.
  apply (sourcePages_is_discovery_path (api := Reference.node)
           Example.site_config Example.baseUrl redis_empty Example.site_final);
    [exact site_final_reachable|].
  vm_compute. apply list_elem_of_In. simpl. auto 20.
Defined.

(** Witness of [visited_iff_requested]: the image of the example site. *)
Lemma visited_iff_requested_witness :
  "https://ex.com/a.png" ∈ visitedUrls Example.site_final
  /\ exists i m, (i, m, "https://ex.com/a.png") ∈ requests Example.site_final.
Proof.
  assert ("https://ex.com/a.png" ∈ visitedUrls Example.site_final) as H
    by (apply (bool_decide_unpack _); vm_compute; exact I).
  split; [exact H|].
  exact (proj1 (visited_iff_requested (api := Reference.node) Example.site_config
                  Example.baseUrl redis_empty Example.site_final
                  "https://ex.com/a.png" site_final_reachable) H).
Defined.

(** ** The store *)

Section Store.

Context `{api : NodeApi}.
Variable config : Config.
Variable baseUrl : ParsedUrl.

Lemma redis_exec_grows (c : RedisCmd) (r : Redis) (key : string) :
  (forall member, member ∈ sMembers r key -> member ∈ sMembers (redis_exec c r) key)
  /\ (forall field, is_Some (hGet r key field) ->
                    is_Some (hGet (redis_exec c r) key field)).
Proof.
  split.
  - intros member H. apply sMembers_exec. now right.
  - intros field H. destruct c as [key' fields|k m]; [|exact H].
    destruct (decide (key' = key)) as [->|Hne].
    + rewrite hGet_HSET. now destruct (assoc field fields).
    + now rewrite hGet_HSET_ne.
Qed.

Lemma redis_exec_all_grows (cmds : list RedisCmd) (r : Redis) (key : string) :
  (forall member, member ∈ sMembers r key ->
                  member ∈ sMembers (redis_exec_all cmds r) key)
  /\ (forall field, is_Some (hGet r key field) ->
                    is_Some (hGet (redis_exec_all cmds r) key field)).
Proof.
  revert r. induction cmds as [|c cmds IH]; intros r; [now split|].
  destruct (redis_exec_grows c r key) as [H1 H2].
  destruct (IH (redis_exec c r)) as [H3 H4].
  split; intros x H; [apply H3, H1, H | apply H4, H2, H].
Qed.

Lemma step_redis (s s' : State) (l : Label) :
  step config baseUrl s l = Some s' ->
  exists cmds, redis s' = redis_exec_all cmds (redis s).
Proof.
  intros Hstep.
  destruct (step_cases _ _ _ _ _ Hstep)
    as [(j & job & e & _ & _ & ->)|[(j & job & _ & _ & ->)|(n & _ & ->)]].
  - now exists (e_send e).
  - now exists [].
  - exists []. match goal with |- context [processQueue config ?s0] =>
      destruct (processQueue_frame config s0) as (_ & _ & -> & _) end.
    reflexivity.
Qed.

(** X15.  The crawl never removes anything from the store: along every
    run, a member of a set stays a member and a field of a hash stays
    defined.  In particular a URL stays in every [status:] and [type:]
    index it was ever added to, also after its record has been rewritten
    with another status or type. *)
Theorem store_only_grows (s s' : State) (ls : list Label) :
  run config baseUrl s ls = Some s' ->
  (forall key member,
      member ∈ sMembers (redis s) key -> member ∈ sMembers (redis s') key)
  /\ (forall key field,
        is_Some (hGet (redis s) key field) -> is_Some (hGet (redis s') key field)).
Proof.
  revert s. induction ls as [|l ls IH]; intros s H; simpl in H.
  - injection H as <-. now split.
  - destruct (step config baseUrl s l) as [s1|] eqn:E; [|discriminate].
    destruct (step_redis _ _ _ E) as [cmds Hr].
    destruct (IH s1 H) as [H1 H2].
    split; intros key x Hx.
    + apply H1. rewrite Hr. now apply redis_exec_all_grows.
    + apply H2. rewrite Hr. now apply redis_exec_all_grows.
Qed.

(** *** [storeResult] *)

Lemma forallb_flat_map_SADD (key : string) (a : list string) :
  forallb is_SADD
    (flat_map (fun sourcePage =>
                 if String.eqb sourcePage EmptyString then []
                 else [SADD key sourcePage]) a) = true.
Proof.
  induction a as [|x a IH]; [reflexivity|].
  simpl. rewrite forallb_app, IH. now destruct (String.eqb x EmptyString).
Qed.

(** The commands of [storeResult]: one [HSET] on the record of the URL,
    then only [SADD]s, among them the one on [all_urls]. *)
Lemma storeResult_shape (url : string) (data : Data) :
  exists rest,
    storeResult config url data
    = HSET (urlKey config (fixProtocolRelativeUrl url))
           (processData (if is_nullish (get_field "status" data)
                         then set_field "status" (VNum 0) data else data))
      :: rest
    /\ forallb is_SADD rest = true
    /\ SADD (allUrlsKey config) (fixProtocolRelativeUrl url) ∈ rest.
Proof.
  unfold storeResult. eexists. split; [reflexivity|]. split.
  - cbn [forallb is_SADD andb]. rewrite !forallb_app. cbn [forallb is_SADD andb].
    repeat (apply andb_true_iff; split); try reflexivity.
    + now destruct (truthy _).
    + destruct (get_field "sourcePages" _); try reflexivity.
      apply forallb_flat_map_SADD.
    + now destruct (truthy _).
  - left.
Qed.

Lemma elem_of_map_fst (data : Data) (field : string) (value : JsVal) :
  (field, value) ∈ data -> field ∈ map fst data.
Proof.
  induction data as [|[g w] data IH]; intros Hin; [now apply elem_of_nil in Hin|].
  simpl. apply elem_of_cons in Hin as [Heq|Hin]; [injection Heq as -> _; left|].
  right. now apply IH.
Qed.

Lemma assoc_processData_in (data : Data) (field : string) (value : JsVal) :
  NoDup (map fst data) -> (field, value) ∈ data ->
  assoc field (processData data) = Some (if is_nullish value then EmptyString else js_String value).
Proof.
  induction data as [|[g w] data IH]; intros Hnd Hin; [now apply elem_of_nil in Hin|].
  simpl in Hnd. apply NoDup_cons in Hnd as [Hg Hnd]. simpl.
  apply elem_of_cons in Hin as [Heq|Hin].
  - injection Heq as -> ->. now rewrite String.eqb_refl.
  - destruct (String.eqb_spec g field) as [->|_]; [|now apply IH].
    destruct Hg. eapply elem_of_map_fst; eauto.
Qed.

Lemma assoc_processData_notin (data : Data) (field : string) :
  field ∉ map fst data -> assoc field (processData data) = None.
Proof.
  induction data as [|[g w] data IH]; intros Hn; [reflexivity|]. simpl in *.
  apply not_elem_of_cons in Hn as [Hne Hn].
  destruct (String.eqb_spec g field) as [->|_]; [congruence|]. now apply IH.
Qed.

Lemma get_field_in (data : Data) (field : string) (value : JsVal) :
  NoDup (map fst data) -> (field, value) ∈ data -> get_field field data = value.
Proof.
  induction data as [|[g w] data IH]; intros Hnd Hin; [now apply elem_of_nil in Hin|].
  simpl in Hnd. apply NoDup_cons in Hnd as [Hg Hnd]. simpl.
  apply elem_of_cons in Hin as [Heq|Hin].
  - injection Heq as -> ->. now rewrite String.eqb_refl.
  - destruct (String.eqb_spec g field) as [->|_]; [|now apply IH].
    destruct Hg. eapply elem_of_map_fst; eauto.
Qed.

Lemma set_field_fst (data : Data) (g : string) (w : JsVal) (field : string) :
  field ∈ map fst (set_field g w data) <-> field = g \/ field ∈ map fst data.
Proof.
  induction data as [|[h v] data IH]; simpl.
  - rewrite list_elem_of_singleton. split; [now left|].
    intros [H|H]; [exact H | now apply elem_of_nil in H].
  - destruct (String.eqb_spec h g) as [->|Hne]; simpl.
    + rewrite elem_of_cons. tauto.
    + rewrite !elem_of_cons, IH. tauto.
Qed.

Lemma set_field_NoDup (data : Data) (g : string) (w : JsVal) :
  NoDup (map fst data) -> NoDup (map fst (set_field g w data)).
Proof.
  induction data as [|[h v] data IH]; intros Hnd; simpl.
  - apply NoDup_cons. split; [apply not_elem_of_nil | apply NoDup_nil_2].
  - simpl in Hnd. apply NoDup_cons in Hnd as [Hh Hnd].
    destruct (String.eqb_spec h g) as [->|Hne]; simpl.
    + apply NoDup_cons. now split.
    + apply NoDup_cons. split; [|now apply IH].
      rewrite set_field_fst. intros [->|Hin]; [congruence | contradiction].
Qed.

Lemma set_field_elem (data : Data) (g : string) (w : JsVal) : (g, w) ∈ set_field g w data.
Proof.
  induction data as [|[h v] data IH]; simpl; [left|].
  destruct (String.eqb_spec h g) as [->|Hne]; [left | now right].
Qed.

Lemma set_field_other (data : Data) (g : string) (w : JsVal) (field : string)
      (value : JsVal) :
  field <> g -> (field, value) ∈ data -> (field, value) ∈ set_field g w data.
Proof.
  intros Hne. induction data as [|[h v] data IH]; intros Hin;
    [now apply elem_of_nil in Hin|].
  simpl. apply elem_of_cons in Hin as [Heq|Hin].
  - injection Heq as <- <-.
    destruct (String.eqb_spec field g) as [->|_]; [congruence | left].
  - destruct (String.eqb_spec h g) as [->|_]; right; auto.
Qed.

(** X16.  What [storeResult] leaves in the record of the URL: every field
    of [data] reads back as its string ([''] for [null] and [undefined]),
    [status] reads ['0'] when [data] has no status, fields that [data]
    does not name keep the value they had, and the URL is in [all_urls].
    [data] is an object: no field name occurs twice. *)
Theorem storeResult_read_back (url : string) (data : Data) (r : Redis) :
  NoDup (map fst data) ->
  let u := fixProtocolRelativeUrl url in
  let r' := redis_exec_all (storeResult config url data) r in
  (forall field value,
      (field, value) ∈ data ->
      hGet r' (urlKey config u) field
      = Some (if is_nullish value
              then (if String.eqb field "status" then "0" else EmptyString)
              else js_String value))
  /\ (is_nullish (get_field "status" data) = true ->
      hGet r' (urlKey config u) "status" = Some "0")
  /\ (forall field,
        field ∉ map fst data -> field <> "status" ->
        hGet r' (urlKey config u) field = hGet r (urlKey config u) field)
  /\ u ∈ sMembers r' (allUrlsKey config).
Proof.
  intros Hnd u r'. subst r'.
  destruct (storeResult_shape url data) as (rest & -> & Hrest & Hall).
  fold u in Hall |- *.
  assert (forall field,
             hGet (redis_exec_all (HSET (urlKey config u)
                     (processData (if is_nullish (get_field "status" data)
                                   then set_field "status" (VNum 0) data else data))
                     :: rest) r) (urlKey config u) field
             = match assoc field
                       (processData (if is_nullish (get_field "status" data)
                                     then set_field "status" (VNum 0) data else data)) with
               | Some v => Some v
               | None => hGet r (urlKey config u) field
               end) as Hget.
  { intros field. change (redis_exec_all (?c :: rest) r)
      with (redis_exec_all rest (redis_exec c r)).
    now rewrite hGet_exec_SADDs, hGet_HSET. }
  split; [|split; [|split]].
  - intros field value Hin. rewrite Hget.
    destruct (is_nullish (get_field "status" data)) eqn:Hst.
    + destruct (String.eqb_spec field "status") as [->|Hne].
      * rewrite (get_field_in _ _ _ Hnd Hin) in Hst. rewrite Hst.
        now rewrite (assoc_processData_in _ "status" (VNum 0)
                       (set_field_NoDup _ _ _ Hnd) (set_field_elem _ _ _)).
      * now rewrite (assoc_processData_in _ field value
                       (set_field_NoDup _ _ _ Hnd) (set_field_other _ _ _ _ _ Hne Hin)).
    + rewrite (assoc_processData_in _ field value Hnd Hin).
      destruct (is_nullish value) eqn:Hv; [|reflexivity].
      destruct (String.eqb_spec field "status") as [->|Hne]; [|reflexivity].
      rewrite (get_field_in _ _ _ Hnd Hin) in Hst. congruence.
  - intros Hst. rewrite Hget, Hst.
    now rewrite (assoc_processData_in _ "status" (VNum 0)
                   (set_field_NoDup _ _ _ Hnd) (set_field_elem _ _ _)).
  - intros field Hn Hne. rewrite Hget, assoc_processData_notin; [reflexivity|].
    destruct (is_nullish (get_field "status" data)); [|exact Hn].
    rewrite set_field_fst. tauto.
  - apply sMembers_exec_all. left. now right.
Qed.

Lemma redis_exec_all_cons (c : RedisCmd) (cmds : list RedisCmd) (r : Redis) :
  redis_exec_all (c :: cmds) r = redis_exec_all cmds (redis_exec c r).
Proof. reflexivity. Qed.

Lemma SADD_absorbed (k m : string) (r : Redis) (X : gset string) :
  sets r !! k = Some X -> m ∈ X -> redis_exec (SADD k m) r = r.
Proof.
  intros Hk Hm. destruct r as [h st]. simpl in *. f_equal.
  unfold sMembers. simpl. rewrite Hk. simpl.
  assert ({[m]} ∪ X = X) as ->
    by now apply subseteq_union_1_L, singleton_subseteq_l.
  now apply insert_id.
Qed.

Lemma SADD_present (cmds : list RedisCmd) (r : Redis) (k m : string) :
  (SADD k m ∈ cmds \/ exists X, sets r !! k = Some X /\ m ∈ X) ->
  exists X, sets (redis_exec_all cmds r) !! k = Some X /\ m ∈ X.
Proof.
  revert r. induction cmds as [|c cmds IH]; intros r H.
  - destruct H as [H|H]; [now apply elem_of_nil in H | exact H].
  - change (redis_exec_all (c :: cmds) r) with (redis_exec_all cmds (redis_exec c r)).
    apply IH. destruct H as [H|(X & HX & Hm)].
    + apply elem_of_cons in H as [<-|H]; [|now left].
      right. simpl. rewrite lookup_insert_eq. eexists. split; [reflexivity|].
      set_solver.
    + right. destruct c as [key fields|k' m']; simpl; [eauto|].
      destruct (decide (k' = k)) as [->|Hne].
      * rewrite lookup_insert_eq. eexists. split; [reflexivity|].
        unfold sMembers. rewrite HX. simpl. set_solver.
      * rewrite lookup_insert_ne by exact Hne. eauto.
Qed.

Lemma SADDs_absorbed (cmds : list RedisCmd) (r : Redis) :
  forallb is_SADD cmds = true ->
  (forall k m, SADD k m ∈ cmds -> exists X, sets r !! k = Some X /\ m ∈ X) ->
  redis_exec_all cmds r = r.
Proof.
  induction cmds as [|c cmds IH]; intros Hs H; [reflexivity|].
  simpl in Hs. apply andb_true_iff in Hs as [Hc Hs].
  change (redis_exec_all (c :: cmds) r) with (redis_exec_all cmds (redis_exec c r)).
  destruct c as [|k m]; [discriminate|].
  destruct (H k m) as (X & HX & Hm); [left|].
  rewrite (SADD_absorbed k m r X HX Hm). apply IH; [exact Hs|].
  intros k' m' Hin. apply H. now right.
Qed.

Lemma hashes_exec_SADDs (cmds : list RedisCmd) (r : Redis) :
  forallb is_SADD cmds = true -> hashes (redis_exec_all cmds r) = hashes r.
Proof.
  revert r. induction cmds as [|c cmds IH]; intros r Hs; [reflexivity|].
  simpl in Hs. apply andb_true_iff in Hs as [Hc Hs].
  change (redis_exec_all (c :: cmds) r) with (redis_exec_all cmds (redis_exec c r)).
  rewrite IH by exact Hs. now destruct c.
Qed.

Lemma HSET_absorbed (key : string) (fields : list (string * string)) (r : Redis)
      (H : gmap string string) :
  hashes r !! key = Some H -> list_to_map fields ∪ H = H ->
  redis_exec (HSET key fields) r = r.
Proof.
  intros Hk Hu. destruct r as [h st]. simpl in *. f_equal.
  unfold hGetAll. simpl. rewrite Hk. simpl. rewrite Hu. now apply insert_id.
Qed.

(** X17.  [storeResult] is idempotent: running it a second time with the
    same URL and data leaves the store exactly as the first run left
    it. *)
Theorem storeResult_idempotent (url : string) (data : Data) (r : Redis) :
  redis_exec_all (storeResult config url data)
    (redis_exec_all (storeResult config url data) r)
  = redis_exec_all (storeResult config url data) r.
Proof.
  destruct (storeResult_shape url data) as (rest & -> & Hrest & _).
  set (c := HSET _ _). rewrite !redis_exec_all_cons.
  set (r1 := redis_exec_all rest (redis_exec c r)).
  assert (redis_exec c r1 = r1) as ->.
  { subst r1 c. eapply HSET_absorbed.
    - rewrite hashes_exec_SADDs by exact Hrest. simpl. apply lookup_insert_eq.
    - rewrite (assoc_L (∪)). f_equal. apply (idemp_L (∪)). }
  apply SADDs_absorbed; [exact Hrest|].
  intros k m Hin. apply SADD_present. now left.
Qed.

End Store.

Lemma site_second_part_run :
  run (api := Reference.node) Example.site_config Example.baseUrl
      Cases.site_stubbed Cases.site_second_part
  = Some Example.site_final.
Proof. vm_compute. reflexivity. Qed.

(** Witness of [store_only_grows]: the image of the example site is put
    into [status:0] with its stub; at the end its record says 200 and it
    is still in [status:0]. *)
Lemma store_only_grows_witness :
  "https://ex.com/a.png" ∈ sMembers (redis Cases.site_stubbed) "tracer:status:0"
  /\ "https://ex.com/a.png" ∈ sMembers (redis Example.site_final) "tracer:status:0"
  /\ hGet (redis Example.site_final)
          (urlKey (api := Reference.node) Example.site_config "https://ex.com/a.png")
          "status" = Some "200".
Proof.
  assert ("https://ex.com/a.png"
            ∈ sMembers (redis Cases.site_stubbed) "tracer:status:0") as H
    by (apply (bool_decide_unpack _); vm_compute; exact I).
  split; [exact H|]. split; [|vm_compute; reflexivity].
  exact (proj1 (store_only_grows (api := Reference.node) Example.site_config
                  Example.baseUrl Cases.site_stubbed Example.site_final
                  Cases.site_second_part site_second_part_run)
               "tracer:status:0" "https://ex.com/a.png" H).
Defined.

(** Witness of [storeResult_read_back]: a stub record, written to an
    empty store. *)
Lemma storeResult_read_back_witness :
  let r' := redis_exec_all
              (storeResult (api := Reference.node) Example.config
                 "https://ex.com/about" Cases.stub_data) redis_empty in
  hGet r' (urlKey (api := Reference.node) Example.config "https://ex.com/about")
       "checkedAt" = Some EmptyString
  /\ hGet r' (urlKey (api := Reference.node) Example.config "https://ex.com/about")
          "status" = Some "0".
Proof.
  assert (NoDup (map fst Cases.stub_data)) as Hnd
    by (apply (bool_decide_unpack _); vm_compute; exact I).
  destruct (storeResult_read_back (api := Reference.node) Example.config
              "https://ex.com/about" Cases.stub_data redis_empty Hnd)
    as (Hfields & Hstatus & _).
  split.
  - apply (Hfields "checkedAt" VNull). vm_compute. apply list_elem_of_In. simpl. auto 10.
  - apply Hstatus. reflexivity.
Defined.

(** ** A negative [maxDepth] *)

Section NegativeDepth.

Context `{api : NodeApi}.
Variable config : Config.
Variable baseUrl : ParsedUrl.

Lemma resume_sends (t : Task) (pc : Pc) (vis : gset string) (now : string)
      (e : Effect) :
  resume config baseUrl t pc vis now = Some e ->
  e_send e <> [] ->
  claimed pc = true \/ is_Some (e_visit e) \/ task_url t ∈ vis.
Proof.
  intros H Hs. unfold resume, for_links, on_error, on_response, store, goto in H.
  repeat case_match; simplify_eq; simpl in *;
    try congruence; auto;
    try (right; left; eauto; fail);
    try (right; right;
         match goal with
         | H : bool_decide _ = true |- _ => now apply bool_decide_eq_true in H
         end).
Qed.

Lemma reply_claimed (t : Task) (pc : Pc) (r : HttpResult) (now : string)
      (e : Effect) :
  reply config baseUrl t pc r now = Some e -> claimed pc = true.
Proof. intros H. destruct pc; try discriminate; reflexivity. Qed.

(** X18.  With a negative [maxDepth] even the seed is beyond the limit:
    in every run nothing is visited, nothing is requested and nothing is
    written to the store. *)
Theorem negative_depth_no_crawl (db : Redis) (s : State) :
  maxDepth config < 0 ->
  reachable config baseUrl db s ->
  visitedUrls s = ∅ /\ requests s = [] /\ redis s = db.
Proof.
  intros Hneg R.
  assert (forall s0, reachable config baseUrl db s0 ->
                     forall u, u ∉ visitedUrls s0) as Hvis.
  { intros s0 R0 u Hu.
    pose proof (inv_visited_admitted _ _ _ (reachable_inv _ _ _ _ R0) u Hu) as Ha.
    unfold shouldCrawlUrl in Ha.
    assert ((maxDepth config <? 0) = true) as E by (apply Z.ltb_lt; lia).
    rewrite E in Ha. discriminate. }
  split; [|split].
  - apply elem_of_equiv_empty_L. now apply Hvis.
  - destruct (requests s) as [|[[i m] u] l] eqn:E; [reflexivity|].
    destruct (Hvis s R u).
    apply (inv_req_visited _ _ _ (reachable_inv _ _ _ _ R) i m u).
    rewrite E. left.
  - induction R as [|s l s' R IH Hstep].
    + unfold main. match goal with |- context [processQueue config ?s0] =>
        destruct (processQueue_frame config s0) as (_ & _ & -> & _) end.
      reflexivity.
    + rewrite <- IH.
      pose proof (reachable_inv _ _ _ _ R) as I.
      assert (forall j job e,
                 jobs s !! j = Some job ->
                 (e_send e <> [] ->
                  claimed (job_pc job) = true \/ is_Some (e_visit e)
                  \/ job_url job ∈ visitedUrls s) ->
                 reachable config baseUrl db (perform j (job_task job) e s) ->
                 redis (perform j (job_task job) e s) = redis s) as Hperform.
      { intros j job e Hjob Hsend R'. simpl.
        destruct (e_send e) as [|c cmds] eqn:Hs; [reflexivity|].
        destruct Hsend as [Hc|[[u Hu]|Hin]]; [discriminate| | |].
        - destruct (Hvis s R (job_url job)).
          eapply inv_claimed_visited; eauto.
        - destruct (Hvis _ R' u). apply (perform_visited s j job e). now left.
        - destruct (Hvis s R _ Hin). }
      assert (reachable config baseUrl db s') as R' by (eapply reach_step; eauto).
      destruct l as [j now|j result now|].
      * apply step_Resume in Hstep as (job & Hjob & [[_ ->]|(e & He & ->)]);
          [reflexivity|].
        apply Hperform; [exact Hjob| |exact R'].
        intros Hs. eapply resume_sends; eauto.
      * apply step_Reply in Hstep as (job & e & Hjob & He & ->).
        apply Hperform; [exact Hjob| |exact R'].
        intros _. left. eapply reply_claimed; eauto.
      * apply step_Timer in Hstep as (n & _ & ->).
        match goal with |- context [processQueue config ?s0] =>
          destruct (processQueue_frame config s0) as (_ & _ & -> & _) end.
        reflexivity.
Qed.

End NegativeDepth.

Lemma shallow_run_final : Cases.shallow_run = Some Cases.shallow_final.
Proof. vm_compute. reflexivity. Qed.

(** Witness of [negative_depth_no_crawl]: with [MAX_DEPTH=-1] the run ends,
    the summary generated, without a request. *)
Lemma negative_depth_no_crawl_witness :
  summaries Cases.shallow_final = 1%nat
  /\ visitedUrls Cases.shallow_final = ∅
  /\ requests Cases.shallow_final = []
  /\ redis Cases.shallow_final = redis_empty.
Proof.
  split; [vm_compute; reflexivity|].
  apply (negative_depth_no_crawl (api := Reference.node) Cases.shallow_config
           Example.baseUrl redis_empty Cases.shallow_final);
    [vm_compute; reflexivity|].
  eapply run_reachable; [apply reach_main | exact shallow_run_final].
Defined.

(** ** What the summary prints *)

Lemma take_length (n : nat) (s : string) :
  String.length (Js.take n s) = Nat.min n (String.length s).
Proof.
  revert s. induction n as [|n IH]; intros [|c t]; try reflexivity.
  simpl. now rewrite IH.
Qed.

Section Truncate.

Context `{api : NodeApi} `{parts : !UrlParts}.

(** X19.  [truncateUrl] on an ASCII string: a URL no longer than
    [maxLength] is returned as it is; a longer one is cut and ends in
    three dots; and for [maxLength] of at least 3 the result is never
    longer than [maxLength], whether or not the URL can be parsed. *)
Theorem truncateUrl_fits (url : string) (maxLength : Z) :
  Js_is_ascii url = true ->
  (Js_length url <= maxLength -> truncateUrl url maxLength = url)
  /\ (url <> EmptyString -> maxLength < Js_length url ->
      exists kept, truncateUrl url maxLength = kept +:+ "...")
  /\ (3 <= maxLength -> Js_length (truncateUrl url maxLength) <= maxLength).
Proof.
  intros _. unfold truncateUrl, Js_length, Js_substring_0.
  destruct (String.eqb_spec url EmptyString) as [->|Hne].
  { repeat split; [contradiction | simpl; lia]. }
  destruct (Z.leb_spec (Z.of_nat (String.length url)) maxLength) as [Hle|Hgt].
  { repeat split; [lia | lia]. }
  split; [lia|]. split.
  - intros _ _. destruct (URL_new url) as [parsed|]; [|eauto].
    destruct (Z.leb_spec (maxLength - 5)
                (Z.of_nat (String.length
                   (URL_protocol parsed +:+ "//" +:+ URL_hostname parsed))));
      [eauto|].
    eexists. now rewrite <- Js_app_assoc.
  - intros H3. destruct (URL_new url) as [parsed|].
    + set (domain := URL_protocol parsed +:+ "//" +:+ URL_hostname parsed).
      destruct (Z.leb_spec (maxLength - 5) (Z.of_nat (String.length domain))).
      * rewrite Js_app_length, take_length. simpl. lia.
      * rewrite !Js_app_length, take_length. simpl. lia.
    + rewrite Js_app_length, take_length. simpl. lia.
Qed.

End Truncate.

(** Witness of [truncateUrl_fits]: a URL of 38 characters, cut to fit 30. *)
Lemma truncateUrl_fits_witness :
  truncateUrl (api := Reference.node) (parts := reference_parts)
    "https://ex.com/docs/guide/install.html" 30
  = "https://ex.com/docs/guide..."
  /\ Js_length (truncateUrl (api := Reference.node) (parts := reference_parts)
                  "https://ex.com/docs/guide/install.html" 30) <= 30.
Proof.
  split; [reflexivity|].
  apply (truncateUrl_fits (api := Reference.node) (parts := reference_parts)
           "https://ex.com/docs/guide/install.html" 30 eq_refl).
  vm_compute. discriminate.
Defined.

(** ** [parseInt] reads what [String] writes *)

Lemma digit_of_pretty (d : N) :
  (d < 10)%N -> digit_of (pretty_N_char d) = Some (Z.of_N d).
Proof.
  intros H.
  assert (d = 0 \/ d = 1 \/ d = 2 \/ d = 3 \/ d = 4 \/ d = 5 \/ d = 6 \/ d = 7
          \/ d = 8 \/ d = 9)%N as Hd by lia.
  repeat destruct Hd as [->|Hd]; try subst d; reflexivity.
Qed.

Lemma read_digits_pretty (x : N) (s : string) :
  exists k : Z,
    0 <= k /\
    forall acc, read_digits acc (pretty_N_go x s)
                = read_digits (acc * 10 ^ k + Z.of_N x) s.
Proof.
  revert s. induction (N.lt_wf_0 x) as [x _ IH]. intros s.
  destruct (N.eq_dec x 0%N) as [->|Hx].
  - exists 0. split; [lia|]. intros acc. rewrite pretty_N_go_0. f_equal. lia.
  - rewrite pretty_N_go_step by lia.
    assert (x `div` 10 < x)%N as Hlt by (apply N.div_lt; lia).
    destruct (IH (x `div` 10)%N Hlt
                 (String (pretty_N_char (x `mod` 10)) s)) as (k & Hk & H).
    exists (k + 1). split; [lia|]. intros acc. rewrite H. cbn [read_digits].
    rewrite digit_of_pretty by (apply N.mod_lt; lia). f_equal.
    rewrite Z.pow_add_r by lia.
    rewrite N2Z.inj_div, N2Z.inj_mod. change (Z.of_N 10) with 10.
    pose proof (Z.div_mod (Z.of_N x) 10 ltac:(lia)) as Hz. lia.
Qed.

Lemma pretty_N_go_head (x : N) (s : string) :
  (0 < x)%N ->
  exists d t, (d < 10)%N /\ pretty_N_go x s = String (pretty_N_char d) t.
Proof.
  revert s. induction (N.lt_wf_0 x) as [x _ IH]. intros s Hx.
  rewrite pretty_N_go_step by exact Hx.
  destruct (N.eq_dec (x `div` 10)%N 0%N) as [E|E].
  - rewrite E, pretty_N_go_0. exists (x `mod` 10)%N. eexists.
    split; [apply N.mod_lt; lia | reflexivity].
  - apply IH; [apply N.div_lt; lia | now apply N.neq_0_lt_0].
Qed.

Lemma white_space_len_digit (c : ascii) (t : string) (d : Z) :
  digit_of c = Some d -> white_space_len (String c t) = 0%nat.
Proof.
  destruct c as [[] [] [] [] [] [] [] []]; try discriminate; intros _;
    destruct t as [|b [|c' t']]; reflexivity.
Qed.

Lemma trimStart_none (s : string) :
  white_space_len s = 0%nat -> Js_trimStart s = s.
Proof.
  intros H. unfold Js_trimStart. destruct (String.length s); simpl; [reflexivity|].
  now rewrite H.
Qed.

Lemma parseInt_digits (c : ascii) (t : string) (d : Z) :
  digit_of c = Some d ->
  Js_parseInt (String c t) = Some (read_digits 0 (String c t)).
Proof.
  intros H. unfold Js_parseInt.
  rewrite trimStart_none by (eapply white_space_len_digit; eauto).
  destruct c as [[] [] [] [] [] [] [] []]; try discriminate;
    cbn [digit_of] in *; rewrite ?H; try reflexivity;
    rewrite Z.mul_1_l; reflexivity.
Qed.

Lemma parseInt_minus_digits (c : ascii) (t : string) (d : Z) :
  digit_of c = Some d ->
  Js_parseInt (String "-" (String c t)) = Some (- read_digits 0 (String c t)).
Proof.
  intros H. unfold Js_parseInt.
  rewrite trimStart_none by (destruct t; reflexivity).
  cbv beta iota zeta. rewrite H. f_equal; lia.
Qed.

Lemma read_pretty_positive (p : positive) :
  exists c t d,
    pretty (N.pos p) = String c t /\ digit_of c = Some d
    /\ read_digits 0 (String c t) = Z.pos p.
Proof.
  unfold pretty, pretty_N. destruct (decide (N.pos p = 0%N)) as [E|_]; [discriminate|].
  destruct (pretty_N_go_head (N.pos p) EmptyString ltac:(lia)) as (d & t & Hd & Ht).
  exists (pretty_N_char d), t, (Z.of_N d). split; [exact Ht|].
  split; [now apply digit_of_pretty|].
  rewrite <- Ht.
  destruct (read_digits_pretty (N.pos p) EmptyString) as (k & _ & H).
  rewrite H. simpl. lia.
Qed.

(** [parseInt(String(n), 10)] is [n], for every integer [n]. *)
Lemma parseInt_pretty (n : Z) : Js_parseInt (pretty n) = Some n.
Proof.
  destruct n as [|p|p].
  - reflexivity.
  - change (pretty (Z.pos p)) with (pretty (N.pos p)).
    destruct (read_pretty_positive p) as (c & t & d & -> & Hd & H).
    now rewrite (parseInt_digits c t d Hd), H.
  - change (pretty (Z.neg p)) with ("-" +:+ pretty (N.pos p)).
    destruct (read_pretty_positive p) as (c & t & d & -> & Hd & H).
    rewrite append_cons, append_nil.
    now rewrite (parseInt_minus_digits c t d Hd), H.
Qed.

(** X20.  The colour of a stored status.  [storeResult] writes the status
    [n] as [String(n)]; [getColoredStatusCode] reads that string back as
    [n] and paints it green for 200 to 299, yellow for 300 to 399, red
    from 400 on, and white otherwise (0 and 1xx included). *)
Theorem getColoredStatusCode_of_stored_status (n : Z) :
  getColoredStatusCode (VStr (js_String (VNum n)))
  = paint (if (200 <=? n) && (n <? 300) then "32"
           else if (300 <=? n) && (n <? 400) then "33"
           else if 400 <=? n then "31"
           else "37")
          (pretty n).
Proof.
  unfold getColoredStatusCode. cbn [js_String]. rewrite parseInt_pretty.
  now repeat case_match.
Qed.

(** ** Every call returns *)

Section Progress.

Context `{api : NodeApi}.
Variable config : Config.
Variable baseUrl : ParsedUrl.

Ltac next H :=
  inversion H; subst; clear H;
  repeat match goal with
    | H : resume _ _ _ _ _ _ = Some _ |- _ =>
        unfold resume, for_links, on_error, on_response, store, goto in H
    | H : reply _ _ _ _ _ _ = Some _ |- _ =>
        unfold reply, for_links, on_error, on_response, store, goto in H
    end;
  repeat case_match; simplify_eq; simpl in *.

Lemma Acc_Finished : Acc (next_pc config baseUrl) Finished.
Proof. constructor. intros pc H. next H. Qed.

Lemma Acc_Settled : Acc (next_pc config baseUrl) Settled.
Proof. constructor. intros pc H. next H. apply Acc_Finished. Qed.

Lemma Acc_AtMerge : Acc (next_pc config baseUrl) AtMerge.
Proof. constructor. intros pc H. next H. apply Acc_Settled. Qed.

Lemma Acc_AtDataStore (pending : list RedisCmd) :
  Acc (next_pc config baseUrl) (AtDataStore pending).
Proof.
  induction pending as [|c rest IH]; constructor; intros pc H; next H;
    auto using Acc_Settled.
Qed.

Lemma Acc_AtErrorStore (pending : list RedisCmd) :
  Acc (next_pc config baseUrl) (AtErrorStore pending).
Proof.
  induction pending as [|c rest IH]; constructor; intros pc H; next H;
    auto using Acc_Settled.
Qed.

Lemma Acc_AtLinkStore (links : list Link) (pending : list RedisCmd) :
  Acc (next_pc config baseUrl) (AtLinkStore pending links).
Proof.
  revert pending. induction links as [|link links IHl]; intros pending;
    induction pending as [|c rest IHp]; constructor; intros pc H; next H;
    auto using Acc_Settled.
Qed.

Lemma Acc_AtStoreResult (pending : list RedisCmd) (response : Response) :
  Acc (next_pc config baseUrl) (AtStoreResult pending response).
Proof.
  induction pending as [|c rest IH]; constructor; intros pc H; next H;
    auto using Acc_Settled, Acc_AtLinkStore.
Qed.

Lemma Acc_AtEscalation (response : Response) :
  Acc (next_pc config baseUrl) (AtEscalation response).
Proof.
  constructor; intros pc H; next H;
    auto using Acc_AtStoreResult, Acc_AtErrorStore.
Qed.

Lemma Acc_AtRequest (method : Method) :
  Acc (next_pc config baseUrl) (AtRequest method).
Proof.
  constructor; intros pc H; next H;
    auto using Acc_AtStoreResult, Acc_AtErrorStore, Acc_AtEscalation.
Qed.

Lemma Acc_AtAdmission : Acc (next_pc config baseUrl) AtAdmission.
Proof.
  constructor; intros pc H; next H;
    auto using Acc_Settled, Acc_AtMerge, Acc_AtDataStore, Acc_AtRequest.
Qed.

(** A step moves at most one call, and moves it along [next_pc]. *)
Lemma step_next_pc (s s' : State) (l : Label) (i : nat) (job job' : Job) :
  step config baseUrl s l = Some s' ->
  jobs s !! i = Some job -> jobs s' !! i = Some job' ->
  job' = job \/ next_pc config baseUrl (job_pc job') (job_pc job).
Proof.
  intros Hstep Hi Hi'. destruct l as [j now|j result now|].
  - apply step_Resume in Hstep as (job2 & Hjob & [[Hpc ->]|(e & He & ->)]).
    + simpl in Hi'. destruct (decide (i = j)) as [->|Hne].
      * rewrite list_lookup_insert_eq in Hi' by (eapply lookup_lt_Some; eauto).
        injection Hi' as <-. rewrite Hi in Hjob. injection Hjob as <-.
        right. simpl. rewrite Hpc. constructor.
      * rewrite list_lookup_insert_ne in Hi' by congruence. left. congruence.
    + apply (perform_jobs s j job2 e Hjob) in Hi' as [[-> ->]|[_ Hi']].
      * rewrite Hi in Hjob. injection Hjob as <-. right. simpl.
        econstructor; eauto.
      * left. congruence.
  - apply step_Reply in Hstep as (job2 & e & Hjob & He & ->).
    apply (perform_jobs s j job2 e Hjob) in Hi' as [[-> ->]|[_ Hi']].
    + rewrite Hi in Hjob. injection Hjob as <-. right. simpl.
      eapply next_reply; eauto.
    + left. congruence.
  - apply step_Timer in Hstep as (n & _ & ->).
    match type of Hi' with context [processQueue config ?s0] =>
      destruct (processQueue_frame config s0) as (_ & _ & _ & _ & started & Hj) end.
    rewrite Hj in Hi'. simpl in Hi'.
    rewrite (lookup_app_l_Some _ _ _ _ Hi) in Hi'. left. congruence.
Qed.

(** X21.  [checkUrl] terminates.  Whatever the task, whatever the network
    answers and whatever the other calls do in between, a call runs only
    finitely many segments before its [.finally] callback has run: the
    relation "one segment later" on the points where a call can be
    suspended is well-founded, and every step of the event loop moves a
    call along that relation or leaves it where it is. *)
Theorem checkUrl_terminates :
  well_founded (next_pc config baseUrl)
  /\ forall s l s' i job job',
      step config baseUrl s l = Some s' ->
      jobs s !! i = Some job -> jobs s' !! i = Some job' ->
      job' = job \/ next_pc config baseUrl (job_pc job') (job_pc job).
Proof.
  split; [|intros; eapply step_next_pc; eauto].
  intros pc.
  destruct pc; auto using Acc_Finished, Acc_Settled, Acc_AtMerge, Acc_AtDataStore,
    Acc_AtErrorStore, Acc_AtLinkStore, Acc_AtStoreResult, Acc_AtEscalation,
    Acc_AtRequest, Acc_AtAdmission.
Qed.

(** *** [processQueue] *)

Lemma fill_closed_form (q : list Task) (active : Z) (js : list Job) :
  let k := Z.to_nat (Z.min (Z.of_nat (length q)) (concurrency config - active)) in
  fill config q active js
  = (drop k q, active + Z.of_nat k,
     js ++ map (fun task => {| job_task := task; job_pc := AtAdmission |}) (take k q)).
Proof.
  revert active js. induction q as [|task q IH]; intros active js k.
  - assert (k = 0%nat) as -> by (subst k; simpl; lia).
    cbn [fill drop take map]. rewrite app_nil_r.
    replace (active + Z.of_nat 0) with active by lia. reflexivity.
  - cbn [fill]. unfold MAX_ACTIVE_TASKS.
    destruct (Z.ltb_spec active (concurrency config)).
    + rewrite IH.
      set (k' := Z.to_nat (Z.min (Z.of_nat (length q))
                             (concurrency config - (active + 1)))).
      assert (k = S k') as -> by (subst k k'; cbn [length]; lia).
      cbn [drop take map]. rewrite <- app_assoc. cbn [app].
      replace (active + 1 + Z.of_nat k') with (active + Z.of_nat (S k')) by lia.
      reflexivity.
    + assert (k = 0%nat) as -> by (subst k; cbn [length]; lia).
      cbn [drop take map]. rewrite app_nil_r.
      replace (active + Z.of_nat 0) with active by lia. reflexivity.
Qed.

(** X23.  [processQueue] fills the free slots.  When there is work (the
    queue is not empty or a call is in flight), it takes the first [k]
    tasks off the queue, in order, and calls [checkUrl] on each, where [k]
    is the smaller of the queue length and [concurrency - activeTasks] (0
    when that is negative); nothing else changes. *)
Theorem processQueue_fills_free_slots (s : State) :
  queue s <> [] \/ activeTasks s <> 0 ->
  let k := Z.to_nat (Z.min (Z.of_nat (length (queue s)))
                           (concurrency config - activeTasks s)) in
  processQueue config s
  = {| queue := drop k (queue s);
       activeTasks := activeTasks s + Z.of_nat k;
       visitedUrls := visitedUrls s; redis := redis s;
       jobs := jobs s ++ map (fun task => {| job_task := task; job_pc := AtAdmission |})
                             (take k (queue s));
       timers := timers s; summaries := summaries s; requests := requests s |}.
Proof.
  intros Hwork k. unfold processQueue.
  assert (bool_decide (queue s = []) && (activeTasks s =? 0) = false) as ->.
  { apply andb_false_iff. destruct Hwork as [H|H].
    - left. now apply bool_decide_eq_false.
    - right. now apply Z.eqb_neq. }
  now rewrite fill_closed_form.
Qed.

End Progress.

(** Witness of [processQueue_fills_free_slots]: one slot is free, one task
    is started. *)
Lemma processQueue_fills_free_slots_witness :
  queue (processQueue Example.config Cases.crowded_state)
  = [Cases.task_for "https://ex.com/f"; Cases.task_for "https://ex.com/g"]
  /\ activeTasks (processQueue Example.config Cases.crowded_state) = 5.
Proof.
  rewrite (processQueue_fills_free_slots Example.config Cases.crowded_state)
    by (left; discriminate).
  split; reflexivity.
Defined.

(** ** The indexes agree with the records *)

Section Index.

Context `{api : NodeApi}.
Variable config : Config.
Variable baseUrl : ParsedUrl.

Lemma assoc_processData (data : Data) (field x : string) :
  assoc field (processData data) = Some x ->
  x = if is_nullish (get_field field data) then EmptyString
      else js_String (get_field field data).
Proof.
  induction data as [|[g w] data IH]; [discriminate|]. simpl.
  destruct (String.eqb g field); [now intros [= <-] | exact IH].
Qed.

Lemma assoc_processData_Some (data : Data) (field : string) :
  is_nullish (get_field field data) = false ->
  is_Some (assoc field (processData data)).
Proof.
  induction data as [|[g w] data IH]; [discriminate|]. simpl.
  destruct (String.eqb g field); [eauto | exact IH].
Qed.

Lemma get_set_field (data : Data) (g : string) (w : JsVal) :
  get_field g (set_field g w data) = w.
Proof.
  induction data as [|[h v] data IH]; simpl; [now rewrite String.eqb_refl|].
  destruct (String.eqb h g) eqn:E; simpl; rewrite E; [reflexivity | exact IH].
Qed.

Lemma get_set_field_other (data : Data) (g field : string) (w : JsVal) :
  field <> g -> get_field field (set_field g w data) = get_field field data.
Proof.
  intros Hne. induction data as [|[h v] data IH]; simpl.
  - destruct (String.eqb_spec g field); [congruence | reflexivity].
  - destruct (String.eqb_spec h g) as [->|Hhg]; simpl.
    + destruct (String.eqb_spec g field); [congruence | reflexivity].
    + now rewrite IH.
Qed.

(** [storeResult] of a record whose [type] is one of the asset types. *)
Lemma storeResult_indexing (url : string) (data : Data) (a : AssetType) :
  get_field "type" data = VStr (asset_name a) ->
  exists fields rest,
    storeResult config url data
    = HSET (urlKey config (fixProtocolRelativeUrl url)) fields :: rest
    /\ indexing config (fixProtocolRelativeUrl url) fields rest.
Proof.
  intros Htype. destruct (storeResult_shape config url data) as (rest & Heq & Hs & Hall).
  eexists _, rest. split; [exact Heq|].
  set (data' := if is_nullish (get_field "status" data)
                then set_field "status" (VNum 0) data else data) in *.
  assert (is_nullish (get_field "status" data') = false) as Hst.
  { subst data'. destruct (is_nullish (get_field "status" data)) eqn:E; [|exact E].
    now rewrite get_set_field. }
  assert (get_field "type" data' = VStr (asset_name a)) as Hty.
  { subst data'. destruct (is_nullish (get_field "status" data)); [|exact Htype].
    rewrite get_set_field_other by discriminate. exact Htype. }
  assert (storeResult config url data
          = HSET (urlKey config (fixProtocolRelativeUrl url)) (processData data')
            :: SADD (allUrlsKey config) (fixProtocolRelativeUrl url)
            :: (if truthy (get_field "referrer" data')
                then [SADD (sourcePagesKey config (fixProtocolRelativeUrl url))
                           (js_String (get_field "referrer" data'))]
                else [])
            ++ (match get_field "sourcePages" data' with
                | VArr a =>
                    flat_map (fun sourcePage =>
                                if String.eqb sourcePage EmptyString then []
                                else [SADD (sourcePagesKey config
                                              (fixProtocolRelativeUrl url)) sourcePage]) a
                | _ => []
                end)
            ++ (if truthy (get_field "type" data')
                then [SADD (typeKey config (js_String (get_field "type" data')))
                           (fixProtocolRelativeUrl url)]
                else [])
            ++ [SADD (statusKey config (js_String (get_field "status" data')))
                     (fixProtocolRelativeUrl url)]) as Hcmds by reflexivity.
  rewrite Hcmds in Heq. injection Heq as <-.
  split; [exact Hs|]. split; [now apply assoc_processData_Some|].
  split; [|split; [|left]].
  - intros st H. apply assoc_processData in H. rewrite Hst in H. subst st.
    right. rewrite !elem_of_app. right. right. right. left.
  - intros ty H. apply assoc_processData in H. rewrite Hty in H. simpl in H. subst ty.
    right. rewrite !elem_of_app. right. right. left.
    rewrite Hty. cbn [js_String].
    change (truthy (VStr (asset_name a))) with (negb (String.eqb (asset_name a) EmptyString)).
    destruct a; left.
Qed.

Lemma store_starts (url : string) (data : Data) (a : AssetType)
      (at_ : list RedisCmd -> Pc) (pc : Pc) (e : Effect) :
  get_field "type" data = VStr (asset_name a) ->
  unsent pc = [] ->
  (forall p, unsent (at_ p) = p) ->
  e_send e = e_send (store (storeResult config url data) at_) ->
  e_pc e = e_pc (store (storeResult config url data) at_) ->
  store_step config pc e.
Proof.
  intros Htype Hpc Hat Hsend Hpc'.
  destruct (storeResult_indexing url data a Htype) as (fields & rest & Heq & Hix).
  right. left. split; [exact Hpc|].
  exists (fixProtocolRelativeUrl url), fields.
  rewrite Hsend, Hpc', Heq. simpl. rewrite Hat. now split.
Qed.

Lemma store_continues (c : RedisCmd) (rest : list RedisCmd)
      (at_ : list RedisCmd -> Pc) (pc : Pc) :
  unsent pc = c :: rest ->
  (forall p, unsent (at_ p) = p) ->
  store_step config pc (store (c :: rest) at_).
Proof.
  intros Hpc Hat. left. exists c, rest. simpl. now rewrite Hat.
Qed.

Lemma store_idle (pc pc' : Pc) :
  unsent pc = [] -> unsent pc' = [] -> store_step config pc (goto pc').
Proof. intros H H'. right. right. now repeat split. Qed.

Lemma for_links_store_step (t : Task) (pc : Pc) (vis : gset string) (links : list Link) :
  unsent pc = [] -> store_step config pc (for_links config baseUrl t vis links).
Proof.
  intros Hpc. destruct links as [|link rest]; [now apply store_idle|].
  eapply (store_starts (link_url link) (link_record baseUrl t link)
            (getAssetType (link_url link) (link_tag link))
            (fun pending => AtLinkStore pending rest));
    try reflexivity; exact Hpc.
Qed.

Lemma resume_store_step (t : Task) (pc : Pc) (vis : gset string) (now : string)
      (e : Effect) :
  resume config baseUrl t pc vis now = Some e -> store_step config pc e.
Proof.
  intros H. destruct pc as [| |p|m|r|p r|p l|p| |]; try discriminate.
  - unfold resume in H. injection H as <-.
    destruct (negb (shouldCrawlUrl config (task_url t) (task_depth t)));
      [now apply store_idle|].
    destruct (bool_decide (task_url t ∈ vis)).
    { destruct (negb (String.eqb (task_referrer t) EmptyString));
        [|now apply store_idle].
      right. right. now repeat split. }
    destruct (Js.startsWith (task_url t) "data:image" && skipDataImages config).
    + eapply (store_starts (task_url t) (data_image_record t now) IMAGE AtDataStore);
        reflexivity.
    + right. right. now repeat split.
  - injection H as <-. now apply store_idle.
  - destruct p as [|c rest]; injection H as <-;
      [now apply store_idle | now apply store_continues].
  - destruct p as [|c rest]; injection H as <-.
    + destruct (expands config baseUrl t r);
        [now apply for_links_store_step | now apply store_idle].
    + now apply (store_continues c rest (fun pending => AtStoreResult pending r)).
  - destruct p as [|c rest]; injection H as <-.
    + now apply for_links_store_step.
    + now apply (store_continues c rest (fun pending => AtLinkStore pending l)).
  - destruct p as [|c rest]; injection H as <-;
      [now apply store_idle | now apply store_continues].
Qed.

Lemma reply_store_step (t : Task) (pc : Pc) (r : HttpResult) (now : string)
      (e : Effect) :
  reply config baseUrl t pc r now = Some e -> store_step config pc e.
Proof.
  intros H.
  assert (forall response pc0, unsent pc0 = [] ->
            store_step config pc0 (on_response config baseUrl t response now)) as Hresp.
  { intros response pc0 Hpc0.
    eapply (store_starts (task_url t) (result_record baseUrl t response now)
              (if isHtml_of response then LINK
               else getAssetType (task_url t) EmptyString)
              (fun pending => AtStoreResult pending response));
      try reflexivity; exact Hpc0. }
  assert (forall error pc0, unsent pc0 = [] ->
            store_step config pc0 (on_error config baseUrl t error now)) as Herr.
  { intros error pc0 Hpc0.
    eapply (store_starts (task_url t) (error_record baseUrl t error now)
              (getAssetType (task_url t) EmptyString) AtErrorStore);
      try reflexivity; exact Hpc0. }
  destruct pc as [| |p|m|r0|p r0|p l|p| |]; try discriminate;
    destruct r as [response|error]; injection H as <-; auto.
  destruct (negb (bool_decide (m = GET)) && expands config baseUrl t response); auto.
  right. right. now repeat split.
Qed.

Lemma elem_of_waiting (s : State) (c : RedisCmd) :
  c ∈ waiting s <->
  exists i job, jobs s !! i = Some job /\ c ∈ unsent (job_pc job).
Proof.
  unfold waiting. rewrite list_elem_of_In, in_flat_map. split.
  - intros (job & Hin & Hc). apply list_elem_of_In, list_elem_of_lookup in Hin as [i Hi].
    exists i, job. split; [exact Hi | now apply list_elem_of_In].
  - intros (i & job & Hi & Hc). exists job. split.
    + apply list_elem_of_In. eapply list_elem_of_lookup_2; eauto.
    + now apply list_elem_of_In.
Qed.

(** Commands that leave the hashes alone keep the store indexed, as long
    as what was waiting is still waiting or has been done. *)
Lemma indexed_transfer (r r' : Redis) (w w' : list RedisCmd) :
  (forall key field, hGet r' key field = hGet r key field) ->
  (forall key member, member ∈ sMembers r key -> member ∈ sMembers r' key) ->
  (forall key member, SADD key member ∈ w ->
                      SADD key member ∈ w' \/ member ∈ sMembers r' key) ->
  indexed config r w -> indexed config r' w'.
Proof.
  intros Hh Hs Hw Hix key. destruct (Hix key) as (H1 & H2 & H3).
  repeat split.
  - intros st Hst. rewrite Hh in Hst. destruct (H1 st Hst) as (u & -> & [H|H]);
      exists u; split; auto. destruct (Hw _ _ H); auto.
  - intros ty Hty. rewrite Hh in Hty. destruct (H2 ty Hty) as (u & -> & [H|H]);
      exists u; split; auto. destruct (Hw _ _ H); auto.
  - intros Hst. rewrite Hh in Hst. destruct (H3 Hst) as (u & -> & [H|H]);
      exists u; split; auto. destruct (Hw _ _ H); auto.
Qed.

(** The first command of a [storeResult] keeps the store indexed, the
    commands that follow it waiting. *)
Lemma indexed_HSET (r : Redis) (w w' : list RedisCmd) (u : string)
      (fields : list (string * string)) (rest : list RedisCmd) :
  indexing config u fields rest ->
  (forall c, c ∈ w -> c ∈ w') ->
  (forall c, c ∈ rest -> c ∈ w') ->
  indexed config r w ->
  indexed config (redis_exec (HSET (urlKey config u) fields) r) w'.
Proof.
  intros (_ & Hsome & Hst & Hty & Hall) Hw Hrest Hix key.
  destruct (Hix key) as (H1 & H2 & H3).
  destruct (decide (urlKey config u = key)) as [<-|Hne].
  - repeat split.
    + intros st H. rewrite hGet_HSET in H. destruct Hsome as [st0 Hst0].
      rewrite Hst0 in H. injection H as <-. exists u. split; [reflexivity|].
      right. apply Hrest, Hst, Hst0.
    + intros ty H. rewrite hGet_HSET in H.
      destruct (assoc "type" fields) as [ty0|] eqn:E.
      * injection H as <-. exists u. split; [reflexivity|]. right.
        apply Hrest. now apply Hty.
      * destruct (H2 ty H) as (u' & Hu' & [Hm|Hm]); exists u'; split; auto.
    + intros _. exists u. split; [reflexivity|]. right. apply Hrest, Hall.
  - repeat split.
    + intros st H. rewrite hGet_HSET_ne in H by exact Hne.
      destruct (H1 st H) as (u' & Hu' & [Hm|Hm]); exists u'; split; auto.
    + intros ty H. rewrite hGet_HSET_ne in H by exact Hne.
      destruct (H2 ty H) as (u' & Hu' & [Hm|Hm]); exists u'; split; auto.
    + intros H. rewrite hGet_HSET_ne in H by exact Hne.
      destruct (H3 H) as (u' & Hu' & [Hm|Hm]); exists u'; split; auto.
Qed.

Lemma waiting_perform (s : State) (i : nat) (job : Job) (e : Effect) (c : RedisCmd) :
  jobs s !! i = Some job ->
  (c ∈ waiting (perform i (job_task job) e s) <->
   c ∈ unsent (e_pc e)
   \/ exists j job', j <> i /\ jobs s !! j = Some job' /\ c ∈ unsent (job_pc job')).
Proof.
  intros Hjob. rewrite elem_of_waiting. split.
  - intros (j & job' & Hj & Hc).
    apply (perform_jobs s i job e Hjob) in Hj as [[-> ->]|[Hne Hj]]; [now left|].
    right. eauto.
  - intros [Hc|(j & job' & Hne & Hj & Hc)].
    + eexists i, _. split; [apply (perform_jobs s i job e Hjob); left; eauto | exact Hc].
    + exists j, job'. split; [apply (perform_jobs s i job e Hjob); right; auto | exact Hc].
Qed.

Lemma perform_redis (s : State) (i : nat) (t : Task) (e : Effect) :
  redis (perform i t e s) = redis_exec_all (e_send e) (redis s).
Proof. reflexivity. Qed.

Lemma redis_exec_all_one (c : RedisCmd) (r : Redis) :
  redis_exec_all [c] r = redis_exec c r.
Proof. reflexivity. Qed.

Lemma perform_indexed (s : State) (i : nat) (job : Job) (e : Effect) :
  jobs s !! i = Some job ->
  store_step config (job_pc job) e ->
  forallb is_SADD (unsent (job_pc job)) = true ->
  indexed config (redis s) (waiting s) ->
  indexed config (redis (perform i (job_task job) e s))
          (waiting (perform i (job_task job) e s))
  /\ forallb is_SADD (unsent (e_pc e)) = true.
Proof.
  intros Hjob Hstep Hsadd Hix.
  assert (forall c, c ∈ waiting s ->
            c ∈ unsent (job_pc job)
            \/ exists j job', j <> i /\ jobs s !! j = Some job'
                              /\ c ∈ unsent (job_pc job')) as Hold.
  { intros c Hc. apply elem_of_waiting in Hc as (j & job' & Hj & Hc).
    destruct (decide (j = i)) as [->|Hne]; [|right; eauto].
    left. congruence. }
  destruct Hstep as [(c & rest & Hp & Hsend & Hp')|[(Hp & u & fields & Hsend & Hixg)
                                                   |(Hp & Hp' & Hsend)]].
  - rewrite Hp in Hsadd. simpl in Hsadd. apply andb_true_iff in Hsadd as [Hc Hrest].
    split; [|now rewrite Hp'].
    destruct c as [|k m]; [discriminate|].
    rewrite perform_redis, Hsend, redis_exec_all_one.
    eapply indexed_transfer; [| | |exact Hix].
    + intros key field. apply hGet_SADD.
    + intros key member H. apply sMembers_exec. now right.
    + intros key member H. destruct (Hold _ H) as [H'|H'].
      * rewrite Hp in H'. apply elem_of_cons in H' as [[= -> ->]|H'].
        -- right. apply sMembers_exec. now left.
        -- left. apply (waiting_perform s i job e _ Hjob). left. now rewrite Hp'.
      * left. apply (waiting_perform s i job e _ Hjob). now right.
  - split; [|now destruct Hixg].
    rewrite perform_redis, Hsend, redis_exec_all_one.
    eapply indexed_HSET; [exact Hixg| | |exact Hix].
    + intros c Hc. destruct (Hold _ Hc) as [H'|H'].
      * rewrite Hp in H'. now apply elem_of_nil in H'.
      * apply (waiting_perform s i job e _ Hjob). now right.
    + intros c Hc. apply (waiting_perform s i job e _ Hjob). now left.
  - split; [|now rewrite Hp']. rewrite perform_redis.
    eapply indexed_transfer; [| | |exact Hix].
    + intros key field. now apply (hGet_exec_SADDs (e_send e)).
    + intros key member H. now apply redis_exec_all_grows.
    + intros key member H. destruct (Hold _ H) as [H'|H'].
      * rewrite Hp in H'. now apply elem_of_nil in H'.
      * left. apply (waiting_perform s i job e _ Hjob). now right.
Qed.

Lemma reachable_indexed (db : Redis) (s : State) :
  indexed config db [] ->
  reachable config baseUrl db s ->
  indexed config (redis s) (waiting s)
  /\ forall i job, jobs s !! i = Some job ->
                   forallb is_SADD (unsent (job_pc job)) = true.
Proof.
  intros Hdb R. induction R as [|s l s' R [IH1 IH2] Hstep].
  - unfold main. match goal with |- context [processQueue config ?s0] =>
      destruct (processQueue_frame config s0) as (_ & _ & Hr & _ & started & Hj) end.
    rewrite Hr. simpl in *. split.
    + eapply indexed_transfer; [reflexivity|auto| |exact Hdb].
      intros key member H. now apply elem_of_nil in H.
    + intros i job Hi. rewrite Hj in Hi. simpl in Hi.
      apply list_lookup_fmap_Some in Hi as (task & -> & _). reflexivity.
  - destruct l as [j now|j result now|].
    + apply step_Resume in Hstep as (job & Hjob & [[Hpc ->]|(e & He & ->)]).
      * split.
        -- simpl. eapply indexed_transfer; [reflexivity|auto| |exact IH1].
           intros key member H. left.
           apply elem_of_waiting in H as (i & job' & Hi & Hc).
           apply elem_of_waiting. destruct (decide (i = j)) as [->|Hne].
           ++ rewrite Hjob in Hi. injection Hi as <-. rewrite Hpc in Hc.
              now apply elem_of_nil in Hc.
           ++ exists i, job'. split; [simpl; now rewrite list_lookup_insert_ne|exact Hc].
        -- intros i job' Hi. simpl in Hi.
           apply list_lookup_insert_Some in Hi as [(-> & <- & _)|[_ Hi]];
             [reflexivity | eauto].
      * destruct (perform_indexed s j job e Hjob (resume_store_step _ _ _ _ _ He)
                    (IH2 j job Hjob) IH1) as [H1 H2].
        split; [exact H1|]. intros i job' Hi.
        apply (perform_jobs s j job e Hjob) in Hi as [[-> ->]|[_ Hi]]; eauto.
    + apply step_Reply in Hstep as (job & e & Hjob & He & ->).
      destruct (perform_indexed s j job e Hjob (reply_store_step _ _ _ _ _ He)
                  (IH2 j job Hjob) IH1) as [H1 H2].
      split; [exact H1|]. intros i job' Hi.
      apply (perform_jobs s j job e Hjob) in Hi as [[-> ->]|[_ Hi]]; eauto.
    + apply step_Timer in Hstep as (n & _ & ->).
      match goal with |- context [processQueue config ?s0] =>
        destruct (processQueue_frame config s0) as (_ & _ & Hr & _ & started & Hj) end.
      rewrite Hr. simpl in *. split.
      * eapply indexed_transfer; [reflexivity|auto| |exact IH1].
        intros key member H. left.
        apply elem_of_waiting in H as (i & job' & Hi & Hc).
        apply elem_of_waiting. exists i, job'.
        split; [rewrite Hj; now apply lookup_app_l_Some | exact Hc].
      * intros i job Hi. rewrite Hj in Hi.
        apply lookup_app_Some in Hi as [Hi|[_ Hi]]; [eauto|].
        apply list_lookup_fmap_Some in Hi as (task & -> & _). reflexivity.
Qed.

(** X24.  The indexes agree with the records whenever no call is in the
    middle of a [storeResult] (at the end of the crawl in particular).
    Starting from a store of which this is true (an empty one, say): every
    record with a status is the record of a URL that is in [all_urls] and
    in the [status:] set of the status the record shows, and a record with
    a type is the record of a URL in the [type:] set of that type. *)
Theorem indexes_agree_at_rest (db : Redis) (s : State) :
  indexed config db [] ->
  reachable config baseUrl db s ->
  (forall i job, jobs s !! i = Some job -> unsent (job_pc job) = []) ->
  indexed config (redis s) [].
Proof.
  intros Hdb R Hrest. destruct (reachable_indexed db s Hdb R) as [Hix _].
  eapply indexed_transfer; [reflexivity|auto| |exact Hix].
  intros key member H. apply elem_of_waiting in H as (i & job & Hi & Hc).
  rewrite (Hrest i job Hi) in Hc. now apply elem_of_nil in Hc.
Qed.

End Index.

Lemma empty_store_indexed `{api : NodeApi} (config : Config) :
  indexed config redis_empty [].
Proof.
  intros key. repeat split.
  - intros st H. discriminate.
  - intros ty H. discriminate.
  - intros [x H]. discriminate.
Qed.

Lemma site_final_at_rest (i : nat) (job : Job) :
  jobs Example.site_final !! i = Some job -> unsent (job_pc job) = [].
Proof.
  assert (Forall (fun job => unsent (job_pc job) = []) (jobs Example.site_final))
    as H by (vm_compute; repeat constructor).
  intros Hi. exact (proj1 (Forall_lookup _ _) H i job Hi).
Qed.

(** Witness of [indexes_agree_at_rest]: at the end of the example run the
    record of the image says 200, and the image is in [status:200]. *)
Lemma indexes_agree_at_rest_witness :
  hGet (redis Example.site_final)
       (urlKey (api := Reference.node) Example.site_config "https://ex.com/a.png")
       "status" = Some "200"
  /\ exists u,
      urlKey (api := Reference.node) Example.site_config "https://ex.com/a.png"
      = urlKey (api := Reference.node) Example.site_config u
      /\ (u ∈ sMembers (redis Example.site_final)
                (statusKey Example.site_config "200")
          \/ SADD (statusKey Example.site_config "200") u ∈ []).
Proof.
  assert (hGet (redis Example.site_final)
               (urlKey (api := Reference.node) Example.site_config
                  "https://ex.com/a.png") "status" = Some "200") as H
    by (vm_compute; reflexivity).
  split; [exact H|].
  exact (proj1 (indexes_agree_at_rest (api := Reference.node) Example.site_config
                  Example.baseUrl redis_empty Example.site_final
                  (empty_store_indexed Example.site_config)
                  site_final_reachable site_final_at_rest
                  (urlKey (api := Reference.node) Example.site_config
                     "https://ex.com/a.png"))
               "200" H).
Defined.

(** ** The command line and [--source] *)

Lemma indexOf_absent (x : string) (a : list string) :
  x ∉ a -> Js_indexOf x a = None /\ Js_array_includes x a = false.
Proof.
  induction a as [|y a IH]; intros Hn; [now split|].
  apply not_elem_of_cons in Hn as [Hne Hn]. destruct (IH Hn) as [H1 H2].
  unfold Js_array_includes in *. simpl.
  destruct (String.eqb_spec y x) as [->|_]; [congruence|]. now rewrite H1, H2.
Qed.

Lemma indexOf_first (x : string) (pre post : list string) :
  x ∉ pre ->
  Js_indexOf x (pre ++ x :: post) = Some (length pre)
  /\ Js_array_includes x (pre ++ x :: post) = true.
Proof.
  induction pre as [|y pre IH]; intros Hn.
  - unfold Js_array_includes. simpl. now rewrite String.eqb_refl.
  - apply not_elem_of_cons in Hn as [Hne Hn]. destruct (IH Hn) as [H1 H2].
    unfold Js_array_includes in *. simpl.
    destruct (String.eqb_spec y x) as [->|_]; [congruence|]. now rewrite H1, H2.
Qed.

(** X25.  What the command line selects.  With [node] and the script in
    front, as Node passes them: without [--source] the crawl starts;
    [--source] followed by an argument shows the sources of that
    argument; [--source] as the last of several arguments is a usage
    error; and [--source] as the only argument starts the crawl, since
    the test [process.argv.length > 3] fails. *)
Theorem dispatch_cases (node script : string) (args : list string) :
  node <> "--source" -> script <> "--source" ->
  ("--source" ∉ args -> dispatch (node :: script :: args) = CallMain)
  /\ (args = ["--source"] -> dispatch (node :: script :: args) = CallMain)
  /\ (forall pre targetUrl post,
        args = pre ++ "--source" :: targetUrl :: post -> "--source" ∉ pre ->
        dispatch (node :: script :: args) = CallShowSourcePages targetUrl)
  /\ (forall pre,
        args = pre ++ ["--source"] -> pre <> [] -> "--source" ∉ pre ->
        dispatch (node :: script :: args) = ExitWithUsage).
Proof.
  intros Hnode Hscript.
  assert (forall pre, "--source" ∉ pre -> "--source" ∉ node :: script :: pre) as Hfront.
  { intros pre H. rewrite !not_elem_of_cons. auto. }
  split; [|split; [|split]].
  - intros Hn. unfold dispatch.
    now rewrite (proj2 (indexOf_absent _ _ (Hfront _ Hn))).
  - intros ->. unfold dispatch, Js_array_includes. simpl.
    destruct (String.eqb node "--source"), (String.eqb script "--source"); reflexivity.
  - intros pre targetUrl post -> Hn. unfold dispatch.
    change (node :: script :: pre ++ "--source" :: targetUrl :: post)
      with ((node :: script :: pre) ++ "--source" :: targetUrl :: post).
    destruct (indexOf_first "--source" (node :: script :: pre) (targetUrl :: post)
                (Hfront _ Hn)) as [-> ->].
    rewrite length_app. cbn [length andb].
    assert ((3 <? S (S (length pre)) + S (S (length post))) = true)%nat as ->
      by (apply Nat.ltb_lt; lia).
    assert ((S (S (length pre)) + 1 <? S (S (length pre)) + S (S (length post))) = true)%nat
      as -> by (apply Nat.ltb_lt; lia).
    f_equal. rewrite app_nth2 by (simpl; lia).
    replace (S (S (length pre)) + 1 - length (node :: script :: pre))%nat with 1%nat
      by (simpl; lia).
    reflexivity.
  - intros pre -> Hne Hn. unfold dispatch.
    change (node :: script :: pre ++ ["--source"])
      with ((node :: script :: pre) ++ ["--source"]).
    destruct (indexOf_first "--source" (node :: script :: pre) [] (Hfront _ Hn))
      as [-> ->].
    rewrite length_app. cbn [length andb].
    assert ((3 <? S (S (length pre)) + 1) = true)%nat as ->.
    { apply Nat.ltb_lt. destruct pre; [contradiction | simpl; lia]. }
    assert ((S (S (length pre)) + 1 <? S (S (length pre)) + 1) = false)%nat as ->
      by (apply Nat.ltb_ge; lia).
    reflexivity.
Qed.

(** Witness of [dispatch_cases]: [node crawler.js --source] starts the
    crawl. *)
Lemma dispatch_cases_witness :
  dispatch ["node"; "crawler.js"; "--source"] = CallMain
  /\ dispatch ["node"; "crawler.js"; "--source"; "https://ex.com/about"]
     = CallShowSourcePages "https://ex.com/about".
Proof.
  destruct (dispatch_cases "node" "crawler.js" ["--source"]) as (_ & H & _);
    [discriminate | discriminate |].
  split; [now apply H | reflexivity].
Defined.

Section Sources.

Context `{api : NodeApi}.
Variable config : Config.

Lemma append_inv_head (p a b : string) : p +:+ a = p +:+ b -> a = b.
Proof.
  induction p as [|c p IH]; [now rewrite !append_nil|].
  rewrite !append_cons. intros [= H]. now apply IH.
Qed.

Lemma sources_key_differs (u : string) : sourcePagesKey config u <> urlKey config u.
Proof.
  unfold sourcePagesKey, urlKey. intros H. apply append_inv_head in H.
  apply (f_equal String.length) in H. rewrite Js_app_length in H. simpl in H. lia.
Qed.

(** X26.  [--source] finds what the crawl stored.  After
    [storeResult(url, data)] with a referrer, [showSourcePages(url)] finds
    the record and lists the referrer among the source pages.  The URL
    must not start with [//] ([storeResult] files such a URL under its
    [https:] form, [showSourcePages] looks it up as given), and the key
    of its sources must not hold a hash. *)
Theorem showSourcePages_lists_referrer (url : string) (data : Data) (r : Redis) :
  Js.startsWith url "//" = false ->
  truthy (get_field "referrer" data) = true ->
  hashes r !! sourcePagesKey config url = None ->
  let r' := redis_exec_all (storeResult config url data) r in
  ("- " +:+ js_String (get_field "referrer" data)) ∈ showSourcePages config r' url.
Proof.
  intros Hrel Href Hfree r'.
  assert (fixProtocolRelativeUrl url = url) as Hfix
    by (unfold fixProtocolRelativeUrl; now rewrite Hrel).
  set (data' := if is_nullish (get_field "status" data)
                then set_field "status" (VNum 0) data else data).
  assert (get_field "referrer" data' = get_field "referrer" data) as Hsame.
  { subst data'. destruct (is_nullish (get_field "status" data)); [|reflexivity].
    now rewrite get_set_field_other by discriminate. }
  destruct (storeResult_shape config url data) as (rest & Heq & Hrest & _).
  rewrite Hfix in Heq. fold data' in Heq.
  assert (SADD (sourcePagesKey config url) (js_String (get_field "referrer" data))
            ∈ storeResult config url data) as Hin.
  { unfold storeResult. rewrite Hfix. fold data'. rewrite Hsame, Href.
    right. right. left. }
  assert (hashes r' = <[urlKey config url :=
                          list_to_map (processData data') ∪ hGetAll r (urlKey config url)]>
                        (hashes r)) as Hh.
  { subst r'. rewrite Heq, redis_exec_all_cons, hashes_exec_SADDs by exact Hrest.
    reflexivity. }
  assert (redis_type r' (urlKey config url) = "hash") as Htype.
  { unfold redis_type. now rewrite Hh, lookup_insert_eq. }
  destruct (SADD_present (storeResult config url data) r
              (sourcePagesKey config url) (js_String (get_field "referrer" data))
              (or_introl Hin)) as (X & HX & Hmem).
  fold r' in HX.
  assert (redis_type r' (sourcePagesKey config url) = "set") as Htype'.
  { unfold redis_type.
    rewrite Hh, lookup_insert_ne by (apply not_eq_sym, sources_key_differs).
    now rewrite Hfree, HX. }
  assert (js_String (get_field "referrer" data)
            ∈ safeSetMembers r' (sourcePagesKey config url)) as Hlisted.
  { unfold safeSetMembers, sMembers. rewrite Htype', HX. simpl.
    now apply elem_of_elements. }
  unfold showSourcePages. fold (urlKey config url). fold (sourcePagesKey config url).
  unfold redis_exists. rewrite Htype. cbn [String.eqb Ascii.eqb Bool.eqb negb andb].
  apply elem_of_app. right. apply elem_of_app. right. apply elem_of_app. right.
  apply elem_of_cons. right.
  destruct (safeSetMembers r' (sourcePagesKey config url)) as [|p ps] eqn:E;
    [now apply elem_of_nil in Hlisted|].
  apply list_elem_of_fmap. eauto.
Qed.

End Sources.

(** Witness of [showSourcePages_lists_referrer]: the stub of [/about] and
    the page it was found on. *)
Lemma showSourcePages_lists_referrer_witness :
  "- https://ex.com"
    ∈ showSourcePages (api := Reference.node) Example.config
        (redis_exec_all
           (storeResult (api := Reference.node) Example.config
              "https://ex.com/about" Cases.stub_data) redis_empty)
        "https://ex.com/about".
Proof.
  exact (showSourcePages_lists_referrer (api := Reference.node) Example.config
           "https://ex.com/about" Cases.stub_data redis_empty
           eq_refl eq_refl eq_refl).
Defined.

(** ** Admission *)

Section Guards.

Context `{api : NodeApi}.
Variable config : Config.

(** The three guards of [shouldCrawlUrl], one by one. *)
Lemma shouldCrawlUrl_guards (url : string) (depth : Z) :
  shouldCrawlUrl config url depth = true
  <-> depth <= maxDepth config
      /\ (skipDataImages config && Js.startsWith url "data:image" = false)
      /\ isUrlExcluded config url = false.
Proof.
  unfold shouldCrawlUrl. destruct (Z.ltb_spec (maxDepth config) depth).
  - split; [discriminate | intros (? & _); lia].
  - destruct (skipDataImages config && Js.startsWith url "data:image").
    + split; [discriminate | now intros (_ & ? & _)].
    + destruct (isUrlExcluded config url).
      * split; [discriminate | now intros (_ & _ & ?)].
      * split; auto.
Qed.

End Guards.

(** ** Data images *)

(** *** Prefixes that survive the steps of [normalizeUrl] *)

Lemma startsWith_app_l (a b p : string) :
  Js.startsWith a p = true -> Js.startsWith (a +:+ b) p = true.
Proof.
  intros H. destruct (startsWith_inv _ _ H) as [t ->].
  rewrite Js_app_assoc. apply startsWith_app.
Qed.

Lemma startsWith_slash (url : string) : Js.startsWith (String "/" url) "/" = true.
Proof. rewrite startsWith_cons. apply prefix_empty. Qed.

Lemma strip_cases (s : string) :
  Js.strip_trailing_slash s = s \/ s = Js.strip_trailing_slash s +:+ "/".
Proof.
  induction s as [|c t IH]; [now left|].
  destruct t as [|d t'].
  - simpl. destruct (Ascii.eqb_spec c "/") as [->|_]; [now right | now left].
  - change (Js.strip_trailing_slash (String c (String d t')))
      with (String c (Js.strip_trailing_slash (String d t'))).
    destruct IH as [->|IH]; [now left|]. right. rewrite append_cons. now f_equal.
Qed.

Lemma first_split_cases (c : ascii) (s : string) :
  Js.first (Js.split c s) = s
  \/ exists rest, s = Js.first (Js.split c s) +:+ String c rest.
Proof.
  induction s as [|d t IH]; [now left|].
  simpl. destruct (Ascii.eqb_spec d c) as [->|Hne].
  - right. now exists t.
  - pose proof (split_nonempty c t) as Hs.
    destruct (Js.split c t) as [|w ws]; [now destruct Hs|]. simpl in *.
    destruct IH as [->|[rest ->]]; [now left|]. right. now exists rest.
Qed.

Lemma strip_keeps_prefix (s p : string) :
  forallb (fun d => negb (Ascii.eqb d "/")) (String.list_ascii_of_string p) = true ->
  Js.startsWith s p = true -> Js.startsWith (Js.strip_trailing_slash s) p = true.
Proof.
  intros Hp H. destruct (strip_cases s) as [->|E]; [exact H|].
  rewrite E in H. now rewrite (startsWith_app_other p _ EmptyString "/" Hp) in H.
Qed.

Lemma first_split_keeps_prefix (c : ascii) (s p : string) :
  forallb (fun d => negb (Ascii.eqb d c)) (String.list_ascii_of_string p) = true ->
  Js.startsWith s p = true -> Js.startsWith (Js.first (Js.split c s)) p = true.
Proof.
  intros Hp H. destruct (first_split_cases c s) as [->|[rest E]]; [exact H|].
  rewrite E in H. now rewrite (startsWith_app_other p _ rest c Hp) in H.
Qed.

Lemma join_snoc (sep x : string) (l : list string) :
  l <> [] -> Js.join sep (l ++ [x]) = Js.join sep l +:+ sep +:+ x.
Proof.
  induction l as [|w l IH]; [congruence|]. intros _.
  destruct l as [|w' l'].
  - reflexivity.
  - change (Js.join sep ((w :: w' :: l') ++ [x]))
      with (w +:+ sep +:+ Js.join sep ((w' :: l') ++ [x])).
    rewrite IH by discriminate.
    change (Js.join sep (w :: w' :: l')) with (w +:+ sep +:+ Js.join sep (w' :: l')).
    now rewrite !Js_app_assoc.
Qed.

(** The directory of a page URL: empty, or what stands in front of the
    last slash. *)
Lemma page_directory (page : string) :
  let dir := Js.join "/" (Js.slice_0_m1 (Js.split "/" page)) in
  dir = EmptyString \/ exists file, page = dir +:+ "/" +:+ file.
Proof.
  intros dir. subst dir. unfold Js.slice_0_m1.
  pose proof (split_nonempty "/" page) as Hne.
  pose proof (join_split "/" page) as Hj.
  rewrite (app_removelast_last EmptyString Hne) in Hj.
  destruct (removelast (Js.split "/" page)) as [|w l] eqn:E; [now left|].
  right. exists (List.last (Js.split "/" page) EmptyString).
  rewrite join_snoc in Hj by discriminate. now symmetry.
Qed.

Lemma web_url_not_data_image (url : string) :
  web_url url = true -> Js.startsWith url "data:image" = false.
Proof.
  unfold web_url. intros H. apply orb_true_iff in H as [H|H];
    destruct (startsWith_inv _ _ H) as [t ->]; reflexivity.
Qed.

Section DataImages.

Context `{api : NodeApi}.
Variable config : Config.
Variable baseUrl : ParsedUrl.

(** From a page that starts with [http] or with a slash, and a seed whose
    protocol starts with [http], a reference that is not empty becomes a
    string that starts with [http] or with a slash. *)
Lemma absolutize_web (url page : string) :
  Js.startsWith (baseProtocol baseUrl) "http" = true ->
  web_url page = true -> url <> EmptyString ->
  Js.startsWith (absolutize baseUrl url page) "http" = true
  \/ (Js.startsWith (absolutize baseUrl url page) "/" = true
      /\ absolutize baseUrl url page <> "/").
Proof.
  intros Hproto Hpage Hurl. unfold absolutize.
  destruct (Js.startsWith url "//") eqn:E2.
  - left. destruct (startsWith_inv _ _ E2) as [t ->]. reflexivity.
  - destruct (Js.startsWith url "/") eqn:E1.
    + left. now apply startsWith_app_l.
    + destruct (Js.startsWith url "http") eqn:Eh; [now left|]. cbn [negb].
      destruct (page_directory page) as [->|[file Hfile]].
      * right. rewrite append_nil. split; [apply startsWith_slash|].
        destruct url; [congruence | discriminate].
      * set (dir := Js.join "/" (Js.slice_0_m1 (Js.split "/" page))) in *.
        unfold web_url in Hpage. apply orb_true_iff in Hpage as [Hp|Hp].
        -- left. apply startsWith_app_l. rewrite Hfile in Hp.
           change ("/" +:+ file) with (String "/" file) in Hp.
           now rewrite (startsWith_app_other "http" dir file "/" eq_refl) in Hp.
        -- right. destruct dir as [|c dir'].
           ++ rewrite append_nil. split; [apply startsWith_slash|].
              destruct url; [congruence | discriminate].
           ++ rewrite Hfile in Hp. rewrite append_cons in Hp |- *.
              rewrite startsWith_cons in Hp |- *.
              split; [|destruct dir'; discriminate].
              destruct (Ascii.eqb "/" c); [apply prefix_empty | discriminate Hp].
Qed.

Lemma normalizeUrl_web (url page : string) :
  UrlLaws ->
  Js.startsWith (baseProtocol baseUrl) "http" = true ->
  web_url page = true -> url <> EmptyString ->
  web_url (normalizeUrl baseUrl url page) = true.
Proof.
  intros laws Hproto Hpage Hurl. unfold normalizeUrl, web_url.
  apply orb_true_iff.
  destruct (absolutize_web url page Hproto Hpage Hurl) as [H|[H Hne]].
  - left. apply url_scheme_kept.
    apply (first_split_keeps_prefix "#" _ "http" eq_refl).
    now apply (strip_keeps_prefix _ "http" eq_refl).
  - right.
    assert (Js.startsWith
              (Js.first (Js.split "#" (Js.strip_trailing_slash (absolutize baseUrl url page))))
              "/" = true) as Hs.
    { apply (first_split_keeps_prefix "#" _ "/" eq_refl).
      destruct (absolutize baseUrl url page) as [|c [|d t]]; [discriminate| |].
      - apply startsWith_inv in H as [t H]. injection H as -> _. congruence.
      - change (Js.strip_trailing_slash (String c (String d t)))
          with (String c (Js.strip_trailing_slash (String d t))).
        rewrite startsWith_cons in H |- *.
        destruct (Ascii.eqb "/" c); [apply prefix_empty | discriminate]. }
    unfold cleanup_query. now rewrite (url_needs_scheme _ Hs).
Qed.

Lemma nonempty_Some (o : option string) (s : string) :
  nonempty o = Some s -> s <> EmptyString.
Proof.
  destruct o as [x|]; simpl; [|discriminate].
  destruct (String.eqb_spec x EmptyString); [discriminate|]. now intros [= <-].
Qed.

Lemma extractLinks_web (doc : Document) (page : string) (link : Link) :
  UrlLaws ->
  Js.startsWith (baseProtocol baseUrl) "http" = true ->
  web_url page = true ->
  link ∈ extractLinks baseUrl doc page -> web_url (link_url link) = true.
Proof.
  intros laws Hproto Hpage Hin. unfold extractLinks in Hin.
  repeat (apply elem_of_app in Hin as [Hin|Hin]);
    apply list_elem_of_In, in_flat_map in Hin as (elem & _ & Hin);
    apply list_elem_of_In in Hin.
  - unfold extract_a in Hin. destruct (nonempty (attr_href elem)) as [href|] eqn:E;
      [|now apply elem_of_nil in Hin].
    destruct (_ && _); [|now apply elem_of_nil in Hin].
    apply list_elem_of_singleton in Hin as ->. simpl.
    apply normalizeUrl_web; auto. eapply nonempty_Some; eauto.
  - unfold extract_stylesheet in Hin.
    destruct (nonempty (attr_href elem)) as [href|] eqn:E;
      [|now apply elem_of_nil in Hin].
    apply list_elem_of_singleton in Hin as ->. simpl.
    apply normalizeUrl_web; auto. eapply nonempty_Some; eauto.
  - unfold extract_script in Hin.
    destruct (nonempty (attr_src elem)) as [src|] eqn:E;
      [|now apply elem_of_nil in Hin].
    apply list_elem_of_singleton in Hin as ->. simpl.
    apply normalizeUrl_web; auto. eapply nonempty_Some; eauto.
  - unfold extract_img in Hin.
    destruct (nonempty (attr_src elem)) as [src|] eqn:E;
      [|now apply elem_of_nil in Hin].
    destruct (negb _); [|now apply elem_of_nil in Hin].
    apply list_elem_of_singleton in Hin as ->. simpl.
    apply normalizeUrl_web; auto. eapply nonempty_Some; eauto.
Qed.

(** One turn of the loop pushes the link at hand and keeps the others. *)
Lemma for_links_web (t : Task) (vis : gset string) (links : list Link) :
  (forall link, link ∈ links -> web_url (link_url link) = true) ->
  (forall task, task ∈ e_push (for_links config baseUrl t vis links) ->
                web_url (task_url task) = true)
  /\ (forall link, link ∈ links_of (e_pc (for_links config baseUrl t vis links)) ->
                   web_url (link_url link) = true).
Proof.
  intros Hweb. destruct links as [|link rest]; simpl.
  - split; intros x Hx; now apply elem_of_nil in Hx.
  - split.
    + intros task Hin.
      assert (task_url task = link_url link) as ->.
      { repeat match type of Hin with
          | (_ ∈ (if ?b then _ else _)) => destruct b
          | (_ ∈ [_]) => apply list_elem_of_singleton in Hin; subst; reflexivity
          | (_ ∈ []) => apply elem_of_nil in Hin; destruct Hin
          end. }
      apply Hweb. left.
    + intros l Hin. unfold store in Hin.
      destruct (storeResult config (link_url link) (link_record baseUrl t link));
        simpl in Hin; apply Hweb; now right.
Qed.

Lemma resume_web (t : Task) (pc : Pc) (vis : gset string) (now : string) (e : Effect) :
  UrlLaws ->
  Js.startsWith (baseProtocol baseUrl) "http" = true ->
  resume config baseUrl t pc vis now = Some e ->
  web_url (task_url t) = true ->
  (forall link, link ∈ links_of pc -> web_url (link_url link) = true) ->
  (forall task, task ∈ e_push e -> web_url (task_url task) = true)
  /\ (forall link, link ∈ links_of (e_pc e) -> web_url (link_url link) = true).
Proof.
  intros laws Hproto H Ht Hlinks.
  assert (forall e', e_push e' = [] -> links_of (e_pc e') = [] ->
            (forall task, task ∈ e_push e' -> web_url (task_url task) = true)
            /\ (forall link, link ∈ links_of (e_pc e') -> web_url (link_url link) = true))
    as Hnone.
  { intros e' -> ->. split; intros x Hx; now apply elem_of_nil in Hx. }
  destruct pc as [| |p|m|r|p r|p links|p| |]; unfold resume in H; try discriminate H.
  - injection H as <-.
    destruct (negb (shouldCrawlUrl config (task_url t) (task_depth t)));
      [now apply Hnone|].
    destruct (bool_decide (task_url t ∈ vis)).
    { destruct (negb (String.eqb (task_referrer t) EmptyString)); now apply Hnone. }
    destruct (Js.startsWith (task_url t) "data:image" && skipDataImages config);
      [|now apply Hnone].
    apply Hnone; reflexivity.
  - injection H as <-. now apply Hnone.
  - destruct p; injection H as <-; now apply Hnone.
  - destruct p as [|c rest]; injection H as <-; [|now apply Hnone].
    destruct (expands config baseUrl t r); [|now apply Hnone].
    apply for_links_web. intros link Hin. eapply extractLinks_web; eauto.
  - destruct p as [|c rest]; injection H as <-.
    + now apply for_links_web.
    + split; [intros x Hx; now apply elem_of_nil in Hx | exact Hlinks].
  - destruct p; injection H as <-; now apply Hnone.
Qed.

Lemma reply_links (t : Task) (pc : Pc) (r : HttpResult) (now : string) (e : Effect) :
  reply config baseUrl t pc r now = Some e -> links_of (e_pc e) = [].
Proof.
  intros H. unfold reply, on_error, on_response, store in H.
  repeat case_match; simplify_eq; reflexivity.
Qed.

(** In the crawl of a site whose seed starts with [http], every task and
    every link still to be looked at starts with [http] or with a slash. *)
Lemma reachable_web (db : Redis) (s : State) :
  UrlLaws ->
  Js.startsWith (websiteUrl config) "http" = true ->
  Js.startsWith (baseProtocol baseUrl) "http" = true ->
  reachable config baseUrl db s ->
  (forall t, t ∈ dispatch_order s -> web_url (task_url t) = true)
  /\ (forall i job link,
         jobs s !! i = Some job -> link ∈ links_of (job_pc job) ->
         web_url (link_url link) = true).
Proof.
  intros laws Hseed Hproto R. induction R as [|s l s' R [IHt IHl] Hstep].
  - split.
    + intros t Hin. unfold main in Hin. rewrite processQueue_order in Hin.
      apply list_elem_of_singleton in Hin as ->. simpl.
      unfold web_url. now rewrite Hseed.
    + intros i job link Hjob Hin. unfold main in Hjob.
      match type of Hjob with context [processQueue config ?s0] =>
        destruct (processQueue_frame config s0) as (_ & _ & _ & _ & started & Hj) end.
      rewrite Hj in Hjob. simpl in Hjob.
      apply list_lookup_fmap_Some in Hjob as (task & -> & _).
      now apply elem_of_nil in Hin.
  - assert (forall j job, jobs s !! j = Some job -> web_url (job_url job) = true) as Hjobs.
    { intros j job Hjob. apply IHt. unfold dispatch_order. apply elem_of_app. left.
      apply list_elem_of_fmap. exists job. split; [reflexivity|].
      eapply list_elem_of_lookup_2; eauto. }
    assert (forall j job e,
               jobs s !! j = Some job ->
               (forall task, task ∈ e_push e -> web_url (task_url task) = true) ->
               (forall link, link ∈ links_of (e_pc e) -> web_url (link_url link) = true) ->
               (forall t, t ∈ dispatch_order (perform j (job_task job) e s) ->
                          web_url (task_url t) = true)
               /\ (forall i job' link,
                      jobs (perform j (job_task job) e s) !! i = Some job' ->
                      link ∈ links_of (job_pc job') ->
                      web_url (link_url link) = true)) as Hperform.
    { intros j job e Hjob Hpush Hlinks. split.
      - intros t Hin. rewrite perform_order in Hin by exact Hjob.
        apply elem_of_app in Hin as [Hin|Hin]; auto.
      - intros i job' link Hi Hin.
        apply (perform_jobs s j job e Hjob) in Hi as [[-> ->]|[_ Hi]]; eauto. }
    destruct l as [j now|j result now|].
    + apply step_Resume in Hstep as (job & Hjob & [[_ ->]|(e & He & ->)]).
      * split.
        -- intros t Hin. rewrite finally_order in Hin by exact Hjob. auto.
        -- intros i job' link Hi Hin. simpl in Hi.
           destruct (decide (i = j)) as [->|Hne].
           ++ rewrite list_lookup_insert_eq in Hi by (eapply lookup_lt_Some; eauto).
              injection Hi as <-. now apply elem_of_nil in Hin.
           ++ rewrite list_lookup_insert_ne in Hi by congruence. eauto.
      * destruct (resume_web _ _ _ _ _ laws Hproto He (Hjobs _ _ Hjob)
                    (fun link => IHl j job link Hjob)) as [Hp Hl].
        now apply Hperform.
    + apply step_Reply in Hstep as (job & e & Hjob & He & ->).
      apply Hperform; [exact Hjob| |].
      * intros task Hin. rewrite (reply_pushes _ _ _ _ _ _ _ He) in Hin.
        now apply elem_of_nil in Hin.
      * intros link Hin. rewrite (reply_links _ _ _ _ _ He) in Hin.
        now apply elem_of_nil in Hin.
    + apply step_Timer in Hstep as (n & _ & ->). split.
      * intros t Hin. rewrite processQueue_order in Hin. auto.
      * intros i job link Hi Hin.
        match type of Hi with context [processQueue config ?s0] =>
          destruct (processQueue_frame config s0) as (_ & _ & _ & _ & started & Hj) end.
        rewrite Hj in Hi. simpl in Hi.
        apply lookup_app_Some in Hi as [Hi|[_ Hi]]; [eauto|].
        apply list_lookup_fmap_Some in Hi as (task & -> & _).
        now apply elem_of_nil in Hin.
Qed.

(** *** The block that stores a data image is never entered *)

Lemma resume_data_store (t : Task) (pc : Pc) (vis : gset string) (now : string)
      (e : Effect) (pending : list RedisCmd) :
  resume config baseUrl t pc vis now = Some e ->
  e_pc e = AtDataStore pending ->
  exists pending', pc = AtDataStore pending'.
Proof.
  intros H Hpc. destruct pc as [| |p|m|r|p r|p links|p| |]; simpl in H;
    try discriminate; eauto.
  - injection H as <-.
    destruct (shouldCrawlUrl config (task_url t) (task_depth t)) eqn:Hadm;
      [|discriminate]. cbn [negb] in Hpc.
    destruct (bool_decide (task_url t ∈ vis));
      [destruct (negb (String.eqb (task_referrer t) EmptyString)); discriminate|].
    apply shouldCrawlUrl_guards in Hadm as (_ & Hdata & _).
    rewrite andb_comm, Hdata in Hpc. discriminate.
  - injection H as <-. discriminate.
  - destruct p; injection H as <-; [|discriminate].
    unfold for_links, store in Hpc. repeat case_match; discriminate.
  - destruct p; injection H as <-; [|discriminate].
    unfold for_links, store in Hpc. repeat case_match; discriminate.
  - destruct p; injection H as <-; discriminate.
Qed.

Lemma reply_data_store (t : Task) (pc : Pc) (r : HttpResult) (now : string)
      (e : Effect) (pending : list RedisCmd) :
  reply config baseUrl t pc r now = Some e -> e_pc e <> AtDataStore pending.
Proof.
  intros H Hpc. unfold reply, on_error, on_response, store in H.
  repeat case_match; simplify_eq; discriminate.
Qed.

Lemma no_data_store (db : Redis) (s : State) (i : nat) (job : Job)
      (pending : list RedisCmd) :
  reachable config baseUrl db s ->
  jobs s !! i = Some job -> job_pc job <> AtDataStore pending.
Proof.
  intros R. revert i job pending.
  induction R as [|s l s' R IH Hstep]; intros i job pending Hjob Hpc.
  - unfold main in Hjob.
    match type of Hjob with context [processQueue config ?s0] =>
      destruct (processQueue_frame config s0) as (_ & _ & _ & _ & started & Hj) end.
    rewrite Hj in Hjob. simpl in Hjob.
    apply list_lookup_fmap_Some in Hjob as (task & -> & _). discriminate.
  - destruct l as [j now|j result now|].
    + apply step_Resume in Hstep as (job2 & Hjob2 & [[_ ->]|(e & He & ->)]).
      * simpl in Hjob. destruct (decide (i = j)) as [->|Hne].
        -- rewrite list_lookup_insert_eq in Hjob by (eapply lookup_lt_Some; eauto).
           injection Hjob as <-. discriminate.
        -- rewrite list_lookup_insert_ne in Hjob by congruence. eapply IH; eauto.
      * apply (perform_jobs s j job2 e Hjob2) in Hjob as [[-> ->]|[_ Hjob]];
          [|eapply IH; eauto].
        destruct (resume_data_store _ _ _ _ _ _ He Hpc) as [p' Hp'].
        eapply IH; eauto.
    + apply step_Reply in Hstep as (job2 & e & Hjob2 & He & ->).
      apply (perform_jobs s j job2 e Hjob2) in Hjob as [[-> ->]|[_ Hjob]];
        [|eapply IH; eauto].
      exact (reply_data_store _ _ _ _ _ _ He Hpc).
    + apply step_Timer in Hstep as (n & _ & ->).
      match type of Hjob with context [processQueue config ?s0] =>
        destruct (processQueue_frame config s0) as (_ & _ & _ & _ & started & Hj) end.
      rewrite Hj in Hjob. simpl in Hjob.
      apply lookup_app_Some in Hjob as [Hjob|[_ Hjob]]; [eapply IH; eauto|].
      apply list_lookup_fmap_Some in Hjob as (task & -> & _). discriminate.
Qed.

(** C4, as the code has it.  With [skipDataImages] set, a [data:image] URL
    is refused by [shouldCrawlUrl] before [checkUrl] looks at it: it never
    enters [visitedUrls] and is never requested, and the call for it
    returns from its first segment; no segment of that call writes to
    Redis, pushes a task, or changes the visited set or the request log.
    The block of [checkUrl] that would store status 200 and type image is
    not entered by any call in any run.  And in the crawl of a web site (a
    seed that starts with [http], with the protocol [url-parse] reads from
    it, and a URL library that follows the URL Standard) no call is ever
    made on a [data:image] URL: every task, queued or called, starts with
    [http] or with a slash ([web_url]). *)
Theorem data_image_refused (db : Redis) (s : State) :
  reachable config baseUrl db s ->
  skipDataImages config = true ->
  (forall u, Js.startsWith u "data:image" = true ->
     (u ∉ visitedUrls s) /\ requests_for u s = [])
  /\ (forall i job,
        jobs s !! i = Some job ->
        Js.startsWith (job_url job) "data:image" = true ->
        (job_pc job = AtAdmission \/ job_pc job = Settled \/ job_pc job = Finished)
        /\ (forall result now, step config baseUrl s (Reply i result now) = None)
        /\ (forall now s',
               step config baseUrl s (Resume i now) = Some s' ->
               redis s' = redis s /\ queue s' = queue s
               /\ visitedUrls s' = visitedUrls s /\ requests s' = requests s
               /\ (job_pc job = AtAdmission -> pc_of s' i = Some Settled)))
  /\ (forall i job pending,
        jobs s !! i = Some job -> job_pc job <> AtDataStore pending)
  /\ (UrlLaws ->
      Js.startsWith (websiteUrl config) "http" = true ->
      Js.startsWith (baseProtocol baseUrl) "http" = true ->
      forall t, t ∈ dispatch_order s ->
                web_url (task_url t) = true
                /\ Js.startsWith (task_url t) "data:image" = false).
Proof.
  intros R Hskip. pose proof (reachable_inv _ _ _ _ R) as I.
  assert (forall u depth, Js.startsWith u "data:image" = true ->
                          shouldCrawlUrl config u depth = false) as Hrefused
    by (intros; now apply data_image_not_admitted).
  split; [|split; [|split]].
  - intros u Hdata.
    assert (u ∉ visitedUrls s) as Hv.
    { intros Hv. pose proof (inv_visited_admitted _ _ _ I u Hv) as Ha.
      rewrite (Hrefused u 0 Hdata) in Ha. discriminate. }
    split; [exact Hv|].
    destruct (requests_for u s) as [|[[i m] v] l] eqn:E; [reflexivity|].
    assert ((i, m, v) ∈ requests_for u s) as Hin by (rewrite E; left).
    unfold requests_for in Hin. apply list_elem_of_filter in Hin as [Hu Hin].
    simpl in Hu. subst v. destruct Hv. eapply inv_req_visited; eauto.
  - intros i job Hjob Hdata.
    assert (admitted (job_pc job) = false) as Hna.
    { destruct (admitted (job_pc job)) eqn:E; [|reflexivity].
      pose proof (inv_admitted _ _ _ I i job Hjob E) as Ha.
      rewrite (Hrefused _ (job_depth job) Hdata) in Ha. discriminate. }
    assert (job_pc job = AtAdmission \/ job_pc job = Settled \/ job_pc job = Finished)
      as Hpc by (destruct (job_pc job); try discriminate Hna; auto).
    split; [exact Hpc|]. split.
    + intros result now.
      destruct (step config baseUrl s (Reply i result now)) as [s'|] eqn:E; [|reflexivity].
      apply step_Reply in E as (job2 & e & Hjob2 & He & _).
      rewrite Hjob in Hjob2. injection Hjob2 as <-.
      destruct Hpc as [Hpc|[Hpc|Hpc]]; rewrite Hpc in He; discriminate.
    + intros now s' Hstep. destruct Hpc as [Hpc|[Hpc|Hpc]].
      * destruct (refused_step config baseUrl s i job now Hjob Hpc
                    (Hrefused _ (job_depth job) Hdata))
          as (s2 & Hs2 & Hr & Hq & Hvis & Hqu & Hset).
        rewrite Hstep in Hs2. injection Hs2 as <-. auto 10.
      * apply step_Resume in Hstep as (job2 & Hjob2 & [[_ ->]|(e & He & ->)]).
        -- repeat split. congruence.
        -- rewrite Hjob in Hjob2. injection Hjob2 as <-. rewrite Hpc in He. discriminate.
      * apply step_Resume in Hstep as (job2 & Hjob2 & [[Hs _]|(e & He & ->)]);
          rewrite Hjob in Hjob2; injection Hjob2 as <-.
        -- congruence.
        -- rewrite Hpc in He. discriminate.
  - intros i job pending Hjob. eapply no_data_store; eauto.
  - intros laws Hseed Hproto t Hin.
    pose proof (proj1 (reachable_web db s laws Hseed Hproto R) t Hin) as Hweb.
    split; [exact Hweb | now apply web_url_not_data_image].
Qed.

End DataImages.

Lemma data_seed_run : DataSeed.seed_run = Some DataSeed.final.
Proof. vm_compute. reflexivity. Qed.

(** Witness of [data_image_refused]: a crawl that is given a data image as
    its seed; the call for the seed is about to run. *)
Lemma data_image_refused_witness :
  Js.startsWith Example.data_image "data:image" = true
  /\ (Example.data_image ∉ visitedUrls (main DataSeed.config redis_empty))
  /\ requests_for Example.data_image (main DataSeed.config redis_empty) = [].
Proof.
  split; [reflexivity|].
  exact (proj1 (data_image_refused (api := Reference.node) DataSeed.config
                  DataSeed.baseUrl redis_empty (main DataSeed.config redis_empty)
                  (reach_main _ _ _) eq_refl)
               Example.data_image eq_refl).
Defined.

(** C4 as stated fails: in the crawl that is given a data image as its
    seed, with [skipDataImages] set, the call for the data image returns,
    the run comes to its end and the summary is generated; Redis is as
    empty as it was, so there is no record with status 200 for the data
    image; no request was made. *)
Lemma data_image_leaves_no_record :
  URLParse (NodeApi := Reference.node) (websiteUrl DataSeed.config)
  = Some DataSeed.baseUrl
  /\ skipDataImages DataSeed.config = true
  /\ Js.startsWith (websiteUrl DataSeed.config) "data:image" = true
  /\ DataSeed.seed_run = Some DataSeed.final
  /\ map job_url (jobs DataSeed.final) = [Example.data_image]
  /\ map job_pc (jobs DataSeed.final) = [Finished]
  /\ queue DataSeed.final = []
  /\ summaries DataSeed.final = 1%nat
  /\ redis DataSeed.final = redis_empty
  /\ hGet (redis DataSeed.final)
          (urlKey (api := Reference.node) DataSeed.config Example.data_image) "status"
     <> Some "200"
  /\ requests DataSeed.final = [].
Proof.
  split; [reflexivity|]. split; [reflexivity|]. split; [reflexivity|].
  split; [exact data_seed_run|].
  repeat split; try (vm_compute; reflexivity). vm_compute. discriminate.
Qed.

(** ** Outbound links: checked once, never expanded *)

Section OutboundOnce.

Context `{api : NodeApi}.
Variable config : Config.
Variable baseUrl : ParsedUrl.

(** The segment at admission: an admitted URL is in [visitedUrls]
    already, or this segment puts it there and sends the first request for
    it, a HEAD. *)
Lemma admission_segment (t : Task) (vis : gset string) (now : string) (e : Effect) :
  resume config baseUrl t AtAdmission vis now = Some e ->
  shouldCrawlUrl config (task_url t) (task_depth t) = true ->
  task_url t ∈ vis
  \/ (e_visit e = Some (task_url t) /\ e_request e = Some HEAD).
Proof.
  intros H Hadm. pose proof Hadm as Hg.
  apply (shouldCrawlUrl_guards config) in Hg as (_ & Hdata & _).
  unfold resume in H. rewrite Hadm in H. cbn [negb] in H.
  destruct (bool_decide (task_url t ∈ vis)) eqn:Hvis.
  - left. now apply bool_decide_eq_true in Hvis.
  - right. rewrite andb_comm, Hdata in H.
    rewrite bool_decide_eq_false_2 in H by apply getAssetType_untagged.
    injection H as <-. split; reflexivity.
Qed.

(** Whatever is in [visitedUrls] has been requested. *)
Lemma visited_requested (db : Redis) (s : State) (u : string) :
  reachable config baseUrl db s ->
  u ∈ visitedUrls s -> exists i m, (i, m, u) ∈ requests s.
Proof.
  induction 1 as [|s l s' R IH Hstep]; intros Hu.
  - unfold main in Hu. match type of Hu with context [processQueue config ?s0] =>
      destruct (processQueue_frame config s0) as (_ & Hv & _) end.
    rewrite Hv in Hu. simpl in Hu. now apply elem_of_empty in Hu.
  - assert (u ∈ visitedUrls s -> exists i m, (i, m, u) ∈ requests s') as Hold.
    { intros H. destruct (IH H) as (i & m & Hin). exists i, m.
      eapply step_requests; eauto. }
    destruct l as [j now|j result now|].
    + apply step_Resume in Hstep as (job & Hjob & [[_ ->]|(e & He & ->)]);
        [now apply Hold|].
      apply (perform_visited s j job e) in Hu as [Hv|Hu].
      * destruct (resume_visit _ _ _ _ _ _ _ _ He Hv) as (-> & m & Hm).
        exists j, m. apply (perform_requests s j job e). left. eauto.
      * destruct (IH Hu) as (i & m & Hin). exists i, m.
        apply (perform_requests s j job e). now right.
    + apply step_Reply in Hstep as (job & e & Hjob & He & ->).
      apply (perform_visited s j job e) in Hu as [Hv|Hu].
      * rewrite (reply_visit _ _ _ _ _ _ _ He) in Hv. discriminate.
      * destruct (IH Hu) as (i & m & Hin). exists i, m.
        apply (perform_requests s j job e). now right.
    + apply Hold. apply step_Timer in Hstep as (n & _ & ->).
      match type of Hu with context [processQueue config ?s0] =>
        destruct (processQueue_frame config s0) as (_ & Hv & _) end.
      now rewrite Hv in Hu.
Qed.

(** A call that has run its first segment on a URL that passes admission
    has found the URL in [visitedUrls] or has put it there. *)
Lemma started_visited (db : Redis) (s : State) (i : nat) (job : Job) :
  reachable config baseUrl db s ->
  jobs s !! i = Some job -> job_pc job <> AtAdmission ->
  shouldCrawlUrl config (job_url job) (job_depth job) = true ->
  job_url job ∈ visitedUrls s.
Proof.
  intros R. revert i job. induction R as [|s l s' R IH Hstep]; intros i job Hjob Hpc Hadm.
  - unfold main in Hjob.
    match type of Hjob with context [processQueue config ?s0] =>
      destruct (processQueue_frame config s0) as (_ & _ & _ & _ & started & Hj) end.
    rewrite Hj in Hjob. simpl in Hjob.
    apply list_lookup_fmap_Some in Hjob as (task & -> & _). now destruct Hpc.
  - destruct (step_jobs _ _ _ _ _ _ _ Hstep Hjob) as [(job0 & Hjob0 & Htask)|[_ Hnew]];
      [|now destruct Hpc].
    assert (job_url job0 = job_url job /\ job_depth job0 = job_depth job) as [Hu Hd]
      by (unfold job_url, job_depth; now rewrite Htask).
    assert (job_pc job0 = AtAdmission \/ job_pc job0 <> AtAdmission) as [Hat|Hpast]
      by (destruct (job_pc job0); auto; right; discriminate).
    + destruct l as [j now|j result now|].
      * apply step_Resume in Hstep as (job2 & Hjob2 & [[Hs ->]|(e & He & ->)]).
        -- simpl in Hjob. destruct (decide (i = j)) as [->|Hne].
           ++ rewrite Hjob0 in Hjob2. injection Hjob2 as <-. congruence.
           ++ rewrite list_lookup_insert_ne in Hjob by congruence.
              rewrite Hjob0 in Hjob. injection Hjob as <-. now destruct Hpc.
        -- apply (perform_jobs s j job2 e Hjob2) in Hjob as [[-> ->]|[_ Hjob]].
           ++ rewrite Hjob0 in Hjob2. injection Hjob2 as <-.
              rewrite Hat in He. apply (perform_visited s j job0 e).
              destruct (admission_segment _ _ _ _ He) as [Hv|[Hv _]].
              ** rewrite <- Hu, <- Hd in Hadm. exact Hadm.
              ** right. exact Hv.
              ** left. exact Hv.
           ++ rewrite Hjob0 in Hjob. injection Hjob as <-. now destruct Hpc.
      * apply step_Reply in Hstep as (job2 & e & Hjob2 & He & ->).
        apply (perform_jobs s j job2 e Hjob2) in Hjob as [[-> ->]|[_ Hjob]].
        -- rewrite Hjob0 in Hjob2. injection Hjob2 as <-.
           rewrite Hat in He. discriminate.
        -- rewrite Hjob0 in Hjob. injection Hjob as <-. now destruct Hpc.
      * apply step_Timer in Hstep as (n & _ & ->).
        match type of Hjob with context [processQueue config ?s0] =>
          destruct (processQueue_frame config s0) as (_ & _ & _ & _ & started & Hj) end.
        rewrite Hj in Hjob. simpl in Hjob.
        rewrite (lookup_app_l_Some _ _ _ _ Hjob0) in Hjob.
        injection Hjob as <-. now destruct Hpc.
    + rewrite <- Hu. eapply step_visited_mono; [exact Hstep|].
      apply (IH i job0 Hjob0 Hpast). now rewrite Hu, Hd.
Qed.

(** An outbound URL is only ever asked for with HEAD. *)
Lemma outbound_head_only (db : Redis) (s : State) (i : nat) (m : Method) (u : string) :
  reachable config baseUrl db s ->
  (i, m, u) ∈ requests s -> isInboundLink baseUrl u = false -> m = HEAD.
Proof.
  intros R. induction R as [|s l s' R IH Hstep]; intros Hin Hout.
  - unfold main in Hin. match type of Hin with context [processQueue config ?s0] =>
      destruct (processQueue_frame config s0) as (Hr & _) end.
    rewrite Hr in Hin. now apply elem_of_nil in Hin.
  - destruct l as [j now|j result now|].
    + apply step_Resume in Hstep as (job & Hjob & [[_ ->]|(e & He & ->)]);
        [now apply IH|].
      apply (perform_requests s j job e) in Hin as [(m' & Hm & Heq)|Hin];
        [|now apply IH].
      injection Heq as -> -> ->.
      now destruct (resume_requests _ _ _ _ _ _ _ _ He Hm).
    + apply step_Reply in Hstep as (job & e & Hjob & He & ->).
      apply (perform_requests s j job e) in Hin as [(m' & Hm & Heq)|Hin];
        [|now apply IH].
      injection Heq as -> -> ->.
      destruct (reply_requests _ _ _ _ _ _ _ _ He Hm) as (_ & _ & Hinb & _).
      unfold job_url in Hout. congruence.
    + apply IH; [|exact Hout]. apply step_Timer in Hstep as (n & _ & ->).
      match type of Hin with context [processQueue config ?s0] =>
        destruct (processQueue_frame config s0) as (Hr & _) end.
      now rewrite Hr in Hin.
Qed.

Lemma outbound_at_most_once (s : State) (u : string) :
  Inv config baseUrl s -> isInboundLink baseUrl u = false ->
  (length (requests_for u s) <= 1)%nat.
Proof.
  intros I Hout.
  destruct (requests_for_owner config baseUrl s u I) as [->|(i & m & Hin & ->)];
    [simpl; lia|].
  destruct (inv_req_job _ _ _ I _ _ _ Hin) as (job & Hjob & Hu).
  etransitivity; [apply length_filter|].
  apply (inv_outbound _ _ _ I i job Hjob). now rewrite Hu.
Qed.

(** A task that is queued or has been called stays so. *)
Lemma run_order (ls : list Label) (s s' : State) (t : Task) :
  run config baseUrl s ls = Some s' ->
  t ∈ dispatch_order s -> t ∈ dispatch_order s'.
Proof.
  revert s. induction ls as [|l ls IH]; intros s H Hin; simpl in H.
  - now injection H as <-.
  - destruct (step config baseUrl s l) as [s1|] eqn:E; [|discriminate].
    apply (IH s1 H).
    destruct (step_cases _ _ _ _ _ E)
      as [(j & job & e & Hjob & _ & ->)|[(j & job & Hjob & _ & ->)|(n & _ & ->)]].
    + rewrite perform_order by exact Hjob. apply elem_of_app. now left.
    + now rewrite finally_order by exact Hjob.
    + now rewrite processQueue_order.
Qed.

(** When the crawl is at rest, every task has been called and every call
    has finished. *)
Lemma at_rest_all_finished (db : Redis) (s : State) (t : Task) :
  1 <= concurrency config ->
  reachable config baseUrl db s ->
  idle s ->
  t ∈ dispatch_order s ->
  exists i job,
    jobs s !! i = Some job /\ job_task job = t /\ job_pc job = Finished.
Proof.
  intros Hc R [Ha Ht] Hin.
  destruct (busy_or_done config baseUrl db s Hc R) as [Hq _].
  assert (queue s = []) as Hqueue.
  { destruct (queue s) eqn:E; [reflexivity|].
    destruct Hq as [H|H]; [discriminate | lia | lia]. }
  unfold dispatch_order in Hin. rewrite Hqueue, app_nil_r in Hin.
  apply list_elem_of_fmap in Hin as (job & -> & Hin).
  apply list_elem_of_lookup_1 in Hin as [i Hi].
  exists i, job. split; [exact Hi|]. split; [reflexivity|].
  pose proof (reachable_counted _ _ _ _ R) as Hcount. unfold counted in Hcount.
  destruct (is_finished (job_pc job)) eqn:Hf.
  - destruct (job_pc job); try discriminate. reflexivity.
  - pose proof (live_in_flight s i job Hi Hf). lia.
Qed.

(** C6, as the code has it.  When the loop over the links of a fetched page
    reaches an outbound link that is not yet in [visitedUrls], it pushes the
    link with [depth] set to [maxDepth].  An outbound URL is requested at
    most once in a run.  No segment of the [checkUrl] call for an outbound
    URL pushes anything onto the queue, whatever [maxDepth] is.  A URL under
    an exclusion prefix, outbound or not, is not requested at all.  Every
    other outbound URL is checked exactly once: as soon as a call for it has
    run its first segment, and from then on, the log holds one request for
    it, a HEAD, provided the URL passes the three guards of
    [shouldCrawlUrl]: its depth is at most [maxDepth] (which the pinned
    depth is), it is not a [data:image] URL to be skipped, and its path
    starts with no exclusion prefix.  In particular, with a concurrency of
    at least 1, whenever the crawl has come to rest (no call in flight, no
    timer pending), every such outbound task that was queued or called at
    any earlier moment has been checked by exactly one HEAD. *)
Theorem outbound_checked_not_expanded (db : Redis) (s : State) :
  reachable config baseUrl db s ->
  (forall i job link rest now s',
      jobs s !! i = Some job ->
      (job_pc job = AtLinkStore [] (link :: rest)
       \/ exists response,
           job_pc job = AtStoreResult [] response
           /\ expands config baseUrl (job_task job) response = true
           /\ extractLinks baseUrl (resp_data response) (job_url job) = link :: rest) ->
      isInboundLink baseUrl (link_url link) = false ->
      link_url link ∉ visitedUrls s ->
      step config baseUrl s (Resume i now) = Some s' ->
      queue s' = queue s ++
        [{| task_url := link_url link; task_referrer := job_url job;
            task_depth := maxDepth config;
            task_sourcePages := task_sourcePages (job_task job) ++ [job_url job] |}])
  /\ (forall u,
         isInboundLink baseUrl u = false -> (length (requests_for u s) <= 1)%nat)
  /\ (forall i job l s',
         jobs s !! i = Some job ->
         isInboundLink baseUrl (job_url job) = false ->
         (exists now, l = Resume i now) \/ (exists result now, l = Reply i result now) ->
         step config baseUrl s l = Some s' ->
         queue s' = queue s)
  /\ (forall u, isUrlExcluded config u = true -> requests_for u s = [])
  /\ (forall i job,
         jobs s !! i = Some job ->
         job_pc job <> AtAdmission ->
         isInboundLink baseUrl (job_url job) = false ->
         job_depth job <= maxDepth config ->
         skipDataImages config && Js.startsWith (job_url job) "data:image" = false ->
         isUrlExcluded config (job_url job) = false ->
         exists k, requests_for (job_url job) s = [(k, HEAD, job_url job)])
  /\ (forall t ls s',
         t ∈ dispatch_order s ->
         run config baseUrl s ls = Some s' ->
         idle s' ->
         1 <= concurrency config ->
         isInboundLink baseUrl (task_url t) = false ->
         task_depth t <= maxDepth config ->
         skipDataImages config && Js.startsWith (task_url t) "data:image" = false ->
         isUrlExcluded config (task_url t) = false ->
         exists k, requests_for (task_url t) s' = [(k, HEAD, task_url t)]).
Proof.
  intros R. pose proof (reachable_inv _ _ _ _ R) as I.
  assert (forall s0 i job,
             reachable config baseUrl db s0 ->
             jobs s0 !! i = Some job ->
             job_pc job <> AtAdmission ->
             isInboundLink baseUrl (job_url job) = false ->
             job_depth job <= maxDepth config ->
             skipDataImages config && Js.startsWith (job_url job) "data:image" = false ->
             isUrlExcluded config (job_url job) = false ->
             exists k, requests_for (job_url job) s0 = [(k, HEAD, job_url job)])
    as Honce.
  { intros s0 i job R0 Hjob Hpc Hout Hdepth Hdata Hex.
    assert (job_url job ∈ visitedUrls s0) as Hv.
    { eapply started_visited; eauto. apply shouldCrawlUrl_guards. auto. }
    destruct (visited_requested db s0 _ R0 Hv) as (k & m & Hin).
    pose proof (outbound_head_only db s0 k m _ R0 Hin Hout) as ->.
    exists k.
    assert ((k, HEAD, job_url job) ∈ requests_for (job_url job) s0) as Hfor.
    { unfold requests_for. apply list_elem_of_filter. split; [reflexivity | exact Hin]. }
    pose proof (outbound_at_most_once s0 _ (reachable_inv _ _ _ _ R0) Hout) as Hlen.
    destruct (requests_for (job_url job) s0) as [|r [|r' rest]];
      [now apply elem_of_nil in Hfor | | simpl in Hlen; lia].
    apply list_elem_of_singleton in Hfor. now subst r. }
  split; [|split; [|split; [|split; [|split]]]].
  - intros i job link rest now s' Hjob Hpc Hout Hnew Hstep.
    apply step_Resume in Hstep as (job2 & Hjob2 & [[Hpc2 _]|(e & He & ->)]);
      rewrite Hjob in Hjob2; injection Hjob2 as <-.
    + destruct Hpc as [Hpc|(r & Hpc & _)]; congruence.
    + simpl. f_equal.
      destruct Hpc as [Hpc|(response & Hpc & Hex & Hlinks)]; rewrite Hpc in He;
        simpl in He.
      * injection He as <-. now apply for_links_outbound.
      * rewrite Hex in He. unfold job_url in Hlinks. rewrite Hlinks in He.
        injection He as <-. now apply for_links_outbound.
  - intros u Hout. now apply outbound_at_most_once.
  - intros i job l s' Hjob Hout Hl Hstep.
    assert (forall e, sound config baseUrl (job_task job) (job_pc job) (visitedUrls s) e ->
                      queue (perform i (job_task job) e s) = queue s) as Hperform.
    { intros e S. simpl. destruct (e_push e) as [|x l'] eqn:Hp; [apply app_nil_r|].
      exfalso. destruct (snd_push _ _ _ _ _ _ S) as [(p & links & Hpc)|Hin].
      - rewrite Hp. discriminate.
      - destruct (inv_loop _ _ _ I i job p links Hjob Hpc) as [Hin _]. congruence.
      - unfold job_url in Hout. congruence. }
    destruct Hl as [[now ->]|(result & now & ->)].
    + apply step_Resume in Hstep as (job2 & Hjob2 & [[_ ->]|(e & He & ->)]);
        rewrite Hjob in Hjob2; injection Hjob2 as <-; [reflexivity|].
      apply Hperform. eapply resume_sound; eauto.
    + apply step_Reply in Hstep as (job2 & e & Hjob2 & He & ->).
      rewrite Hjob in Hjob2. injection Hjob2 as <-.
      apply Hperform. eapply reply_sound; eauto.
  - intros u Hex. exact (proj2 (excluded_no_requests config baseUrl s u I Hex)).
  - intros i job. now apply Honce.
  - intros t ls s' Hin Hrun Hidle Hc Hout Hdepth Hdata Hex.
    pose proof (run_reachable _ _ _ _ _ _ R Hrun) as R'.
    destruct (at_rest_all_finished db s' t Hc R' Hidle (run_order _ _ _ _ Hrun Hin))
      as (i & job & Hjob & <- & Hpc).
    apply (Honce s' i job R' Hjob); try assumption. rewrite Hpc. discriminate.
Qed.

End OutboundOnce.

(** Witness of [outbound_checked_not_expanded]: the outbound link of the
    specification's scenario has been checked by one HEAD when the run
    ends. *)
Lemma outbound_checked_not_expanded_witness :
  isInboundLink (api := Reference.node) Example.baseUrl "https://other.org/" = false
  /\ exists k,
      requests_for "https://other.org/" Example.site_final
      = [(k, HEAD, "https://other.org/")].
Proof.
  split; [reflexivity|].
  refine (proj1 (proj2 (proj2 (proj2 (proj2
            (outbound_checked_not_expanded (api := Reference.node)
               Example.site_config Example.baseUrl redis_empty
               Example.site_final site_final_reachable)))))
            2%nat {| job_task := {| task_url := "https://other.org/";
                                    task_referrer := "https://ex.com";
                                    task_depth := 1;
                                    task_sourcePages := ["https://ex.com"] |};
                     job_pc := Finished |} _ _ _ _ _ _).
  - vm_compute. reflexivity.
  - discriminate.
  - reflexivity.
  - vm_compute. discriminate.
  - reflexivity.
  - reflexivity.
Defined.

(** ** The reference URL library follows the laws *)

(** *** Scanning *)

Lemma str_all_cons (p : ascii -> bool) (c : ascii) (s : string) :
  str_all p (String c s) = p c && str_all p s.
Proof. reflexivity. Qed.

Lemma str_all_app (p : ascii -> bool) (a b : string) :
  str_all p (a +:+ b) = str_all p a && str_all p b.
Proof.
  induction a as [|c a IH]; [reflexivity|].
  rewrite append_cons, !str_all_cons, IH. apply andb_assoc.
Qed.

Lemma str_all_weaken (p q : ascii -> bool) (s : string) :
  (forall c, p c = true -> q c = true) ->
  str_all p s = true -> str_all q s = true.
Proof.
  intros Hpq. induction s as [|c s IH]; [reflexivity|].
  rewrite !str_all_cons. intros H. apply andb_true_iff in H as [Hc Hs].
  now rewrite (Hpq c Hc), IH.
Qed.

Lemma str_all_lower (p : ascii -> bool) (s : string) :
  (forall c, p c = true -> p (Js.lower_ascii c) = true) ->
  str_all p s = true -> str_all p (Js.lower s) = true.
Proof.
  intros Hp. induction s as [|c s IH]; [reflexivity|].
  cbn [Js.lower]. rewrite !str_all_cons. intros H.
  apply andb_true_iff in H as [Hc Hs]. now rewrite (Hp c Hc), IH.
Qed.

Lemma stops_at_app (p : ascii -> bool) (a b : string) :
  a <> EmptyString -> stops_at p (a +:+ b) = stops_at p a.
Proof. destruct a; [congruence | reflexivity]. Qed.

Lemma span_spec (p : ascii -> bool) (s a b : string) :
  Reference.span p s = (a, b) ->
  s = a +:+ b /\ str_all p a = true /\ stops_at p b = true.
Proof.
  revert a b. induction s as [|c t IH]; intros a b H; simpl in H.
  - injection H as <- <-. auto.
  - destruct (p c) eqn:E.
    + destruct (Reference.span p t) as [a' b'].
      injection H as <- <-. destruct (IH a' b' eq_refl) as (-> & Ha & Hb).
      rewrite str_all_cons, E, Ha. auto.
    + injection H as <- <-. simpl. rewrite E. auto.
Qed.

Lemma span_intro (p : ascii -> bool) (a b : string) :
  str_all p a = true -> stops_at p b = true -> Reference.span p (a +:+ b) = (a, b).
Proof.
  induction a as [|c a IH]; intros Ha Hb.
  - rewrite append_nil. destruct b as [|d b]; [reflexivity|].
    simpl in *. apply negb_true_iff in Hb. now rewrite Hb.
  - rewrite append_cons. rewrite str_all_cons in Ha.
    apply andb_true_iff in Ha as [Hc Ha]. simpl. now rewrite Hc, (IH Ha Hb).
Qed.

(** *** Letter case *)

Lemma lower_alpha (c : ascii) :
  Reference.is_alpha (Js.lower_ascii c) = Reference.is_alpha c.
Proof. destruct c as [[] [] [] [] [] [] [] []]; reflexivity. Qed.

Lemma lower_scheme_char (c : ascii) :
  Reference.is_scheme_char c = true ->
  Reference.is_scheme_char (Js.lower_ascii c) = true.
Proof. destruct c as [[] [] [] [] [] [] [] []]; intros H; exact H || reflexivity. Qed.

Lemma lower_host_char (c : ascii) :
  Reference.not_in ["/"; "\"; "?"; "#"]%char c = true ->
  Reference.not_in ["/"; "\"; "?"; "#"]%char (Js.lower_ascii c) = true.
Proof. destruct c as [[] [] [] [] [] [] [] []]; intros H; exact H || reflexivity. Qed.

Lemma lower_app (a b : string) : Js.lower (a +:+ b) = Js.lower a +:+ Js.lower b.
Proof.
  induction a as [|c a IH]; [reflexivity|].
  rewrite append_cons. cbn [Js.lower]. now rewrite IH, append_cons.
Qed.

(** *** The scheme *)

Lemma scan_scheme_unfold (s : string) :
  Reference.scan_scheme s =
  match s with
  | String c _ =>
      if Reference.is_alpha c then
        match Reference.span Reference.is_scheme_char s with
        | (scheme, String d rest) =>
            if Ascii.eqb d ":" then Some (Js.lower scheme, rest) else None
        | _ => None
        end
      else None
  | EmptyString => None
  end.
Proof.
  unfold Reference.scan_scheme. destruct s as [|c t]; [reflexivity|].
  destruct (Reference.is_alpha c); [|reflexivity].
  destruct (Reference.span Reference.is_scheme_char (String c t)) as [scheme [|d rest]];
    [reflexivity|].
  destruct d as [[] [] [] [] [] [] [] []]; reflexivity.
Qed.

Lemma alpha_scheme_char (c : ascii) :
  Reference.is_alpha c = true -> Reference.is_scheme_char c = true.
Proof. unfold Reference.is_scheme_char. now intros ->. Qed.

Lemma scan_scheme_spec (x scheme rest : string) :
  Reference.scan_scheme x = Some (scheme, rest) ->
  exists c raw,
    Reference.is_alpha c = true
    /\ str_all Reference.is_scheme_char (String c raw) = true
    /\ scheme = Js.lower (String c raw)
    /\ x = String c raw +:+ ":" +:+ rest.
Proof.
  rewrite scan_scheme_unfold. destruct x as [|c t]; [discriminate|].
  destruct (Reference.is_alpha c) eqn:Ha; [|discriminate].
  destruct (Reference.span Reference.is_scheme_char (String c t)) as [raw r] eqn:E.
  destruct r as [|d r]; [discriminate|].
  destruct (Ascii.eqb_spec d ":") as [->|_]; [|discriminate].
  intros [= <- <-]. apply span_spec in E as (Hx & Hall & _).
  destruct raw as [|c' raw'].
  - rewrite append_nil in Hx. injection Hx as -> _. discriminate.
  - rewrite append_cons in Hx. injection Hx as <- Hx.
    exists c, raw'. repeat split; try assumption.
    rewrite append_cons. f_equal. exact Hx.
Qed.

Lemma scan_scheme_intro (c : ascii) (raw rest : string) :
  Reference.is_alpha c = true ->
  str_all Reference.is_scheme_char (String c raw) = true ->
  Reference.scan_scheme (String c raw +:+ ":" +:+ rest)
  = Some (Js.lower (String c raw), rest).
Proof.
  intros Ha Hall. rewrite scan_scheme_unfold.
  rewrite (span_intro Reference.is_scheme_char (String c raw) (":" +:+ rest) Hall eq_refl).
  rewrite append_cons, Ha. reflexivity.
Qed.

(** *** Path, query and fragment *)

Lemma scan_tail_unfold (s : string) :
  Reference.scan_tail s =
  let '(path, r) := Reference.span (Reference.not_in ["?"; "#"]%char) s in
  match r with
  | String d q =>
      if Ascii.eqb d "?" then
        let '(q', r') := Reference.span (Reference.not_in ["#"]%char) q in
        (path, Some q',
         match r' with
         | String d' f => if Ascii.eqb d' "#" then Some f else None
         | EmptyString => None
         end)
      else (path, None, if Ascii.eqb d "#" then Some q else None)
  | EmptyString => (path, None, None)
  end.
Proof.
  unfold Reference.scan_tail.
  destruct (Reference.span (Reference.not_in ["?"; "#"]%char) s) as [path [|d q]];
    [reflexivity|].
  destruct d as [[] [] [] [] [] [] [] []]; try reflexivity.
  cbv beta iota. change (Ascii.eqb "?" "?") with true. cbv iota.
  destruct (Reference.span (Reference.not_in ["#"]%char) q) as [q' [|d' f]];
    [reflexivity|].
  destruct d' as [[] [] [] [] [] [] [] []]; reflexivity.
Qed.

Lemma tail_of_stops (query fragment : option string) :
  stops_at (Reference.not_in ["?"; "#"]%char) (RefUrl.tail_of query fragment) = true.
Proof. destruct query, fragment; reflexivity. Qed.

Lemma scan_tail_intro (path : string) (query fragment : option string) :
  str_all (Reference.not_in ["?"; "#"]%char) path = true ->
  (forall q, query = Some q -> str_all (Reference.not_in ["#"]%char) q = true) ->
  Reference.scan_tail (path +:+ RefUrl.tail_of query fragment) = (path, query, fragment).
Proof.
  intros Hp Hq. rewrite scan_tail_unfold.
  rewrite (span_intro _ path _ Hp (tail_of_stops query fragment)).
  unfold RefUrl.tail_of. destruct query as [q|].
  - change (("?" +:+ q) +:+ ?f) with (String "?" (q +:+ f)).
    change (Ascii.eqb "?" "?") with true. cbv iota.
    rewrite (span_intro _ q _ (Hq q eq_refl)) by (destruct fragment; reflexivity).
    destruct fragment; reflexivity.
  - rewrite append_nil. destruct fragment; reflexivity.
Qed.

Lemma scan_tail_spec (s path : string) (query fragment : option string) :
  Reference.scan_tail s = (path, query, fragment) ->
  s = path +:+ RefUrl.tail_of query fragment
  /\ str_all (Reference.not_in ["?"; "#"]%char) path = true
  /\ (forall q, query = Some q -> str_all (Reference.not_in ["#"]%char) q = true).
Proof.
  rewrite scan_tail_unfold.
  destruct (Reference.span (Reference.not_in ["?"; "#"]%char) s) as [p r] eqn:E.
  apply span_spec in E as (-> & Hp & Hstop).
  destruct r as [|d q].
  - intros [= <- <- <-]. repeat split; [assumption | discriminate].
  - destruct (Ascii.eqb_spec d "?") as [->|Hq].
    + destruct (Reference.span (Reference.not_in ["#"]%char) q) as [q' r'] eqn:E'.
      apply span_spec in E' as (-> & Hq' & Hstop').
      intros [= <- <- <-]. split; [|split; [assumption | now intros ? [= <-]]].
      f_equal. unfold RefUrl.tail_of. destruct r' as [|d' f].
      * now rewrite !Js_app_nil_r.
      * destruct (Ascii.eqb_spec d' "#") as [->|Hd']; [reflexivity|].
        exfalso. simpl in Hstop'. apply negb_true_iff in Hstop'.
        unfold Reference.not_in in Hstop'. simpl in Hstop'.
        apply negb_false_iff, orb_true_iff in Hstop' as [H|H]; [|discriminate].
        now apply Ascii.eqb_eq in H.
    + intros [= <- <- <-]. split; [|split; [assumption | discriminate]].
      f_equal. unfold RefUrl.tail_of. rewrite append_nil.
      destruct (Ascii.eqb_spec d "#") as [->|Hd]; [reflexivity|].
      exfalso. simpl in Hstop. apply negb_true_iff in Hstop.
      unfold Reference.not_in in Hstop. simpl in Hstop.
      apply negb_false_iff in Hstop.
      apply orb_true_iff in Hstop as [H|H]; [now apply Ascii.eqb_eq in H|].
      apply orb_true_iff in H as [H|H]; [now apply Ascii.eqb_eq in H | discriminate].
Qed.

(** *** What [parse] returns *)

Lemma host_char_not_slash (c : ascii) :
  Reference.not_in ["/"; "\"; "?"; "#"]%char c = true -> Reference.is_slash c = false.
Proof.
  destruct c as [[] [] [] [] [] [] [] []]; intros H; first [reflexivity | discriminate H].
Qed.

Lemma lower_nonempty (s : string) : s <> EmptyString -> Js.lower s <> EmptyString.
Proof. destruct s; [congruence | discriminate]. Qed.

Lemma stops_at_prefix (p : ascii -> bool) (a b : string) :
  stops_at p (a +:+ b) = true -> stops_at p a = true.
Proof. destruct a; [reflexivity | exact id]. Qed.

Lemma startsWith_drop (s p : string) :
  Js.startsWith s p = true -> s = p +:+ Js.drop (String.length p) s.
Proof.
  intros H. destruct (startsWith_inv _ _ H) as [t ->]. now rewrite Js_drop_app.
Qed.

(** [parse] returns well-formed records; the scheme is that of the
    string, in lower case; and a string without [#] has no fragment. *)
Lemma parse_spec (x : string) (u : Reference.url) :
  Reference.parse x = Some u ->
  RefUrl.well_formed u
  /\ (exists c raw rest,
         x = String c raw +:+ ":" +:+ rest
         /\ Reference.u_scheme u = Js.lower (String c raw))
  /\ (str_all (Reference.not_in ["#"]%char) x = true -> Reference.u_fragment u = None).
Proof.
  unfold Reference.parse.
  destruct (Reference.scan_scheme x) as [[scheme rest]|] eqn:Es; [|discriminate].
  apply scan_scheme_spec in Es as (c & raw & Ha & Hall & -> & ->).
  assert ((exists c' s, Js.lower (String c raw) = String c' s
                        /\ Reference.is_alpha c' = true)
          /\ str_all Reference.is_scheme_char (Js.lower (String c raw)) = true
          /\ Js.lower (Js.lower (String c raw)) = Js.lower (String c raw))
    as (Hw1 & Hw2 & Hw3).
  { split; [|split].
    - exists (Js.lower_ascii c), (Js.lower raw). split; [reflexivity|].
      now rewrite lower_alpha.
    - apply str_all_lower; [apply lower_scheme_char | exact Hall].
    - apply lower_idem. }
  assert (forall path query fragment t,
             str_all (Reference.not_in ["#"]%char)
               (String c raw +:+ ":" +:+ t +:+ path +:+ RefUrl.tail_of query fragment) = true ->
             fragment = None) as Hfrag.
  { intros path query [f|] t H; [exfalso|reflexivity].
    rewrite !str_all_app in H. repeat (apply andb_true_iff in H as [? H]).
    unfold RefUrl.tail_of in H. rewrite str_all_app in H.
    apply andb_true_iff in H as [_ H]. discriminate. }
  set (scheme := Js.lower (String c raw)) in *.
  destruct (Reference.is_special scheme) eqn:Hsp.
  - destruct (Reference.span Reference.is_slash rest) as [sl rest1] eqn:E1.
    destruct (Reference.span (Reference.not_in ["/"; "\"; "?"; "#"]%char) rest1)
      as [host rest2] eqn:E2.
    apply span_spec in E1 as (-> & _ & _).
    apply span_spec in E2 as (-> & Hhost & Hstop).
    destruct (String.eqb_spec host EmptyString) as [|Hne]; [discriminate|].
    destruct (Reference.scan_tail rest2) as [[path query] fragment] eqn:Et.
    apply scan_tail_spec in Et as (-> & Hpath & Hquery).
    intros [= <-]. split; [|split].
    + unfold RefUrl.well_formed. cbn [Reference.u_scheme Reference.u_host
        Reference.u_path Reference.u_query Reference.u_fragment].
      rewrite Hsp. repeat split; try assumption.
      * destruct (String.eqb path EmptyString); [reflexivity | exact Hpath].
      * exists (Js.lower host). repeat split.
        -- now apply lower_nonempty.
        -- apply str_all_lower; [apply lower_host_char | exact Hhost].
        -- apply lower_idem.
        -- destruct (String.eqb_spec path EmptyString); [discriminate | assumption].
        -- destruct (String.eqb_spec path EmptyString); [reflexivity|].
           eapply stops_at_prefix; eauto.
    + exists c, raw. eexists. split; reflexivity.
    + intros H. cbn [Reference.u_fragment].
      apply (Hfrag path query fragment (sl +:+ host)).
      rewrite ?Js_app_assoc. rewrite ?Js_app_assoc in H. exact H.
  - destruct (Js.startsWith rest "//") eqn:Hss.
    + destruct (Reference.span (Reference.not_in ["/"; "?"; "#"]%char) (Js.drop 2 rest))
        as [host rest2] eqn:E2.
      apply span_spec in E2 as (Hrest & Hhost & Hstop).
      destruct (Reference.scan_tail rest2) as [[path query] fragment] eqn:Et.
      apply scan_tail_spec in Et as (-> & Hpath & Hquery).
      intros [= <-]. split; [|split].
      * unfold RefUrl.well_formed. cbn [Reference.u_scheme Reference.u_host
          Reference.u_path Reference.u_query Reference.u_fragment].
        rewrite Hsp. repeat split; try assumption.
        eapply stops_at_prefix; eauto.
      * exists c, raw. eexists. split; reflexivity.
      * intros H. cbn [Reference.u_fragment].
        apply (Hfrag path query fragment ("//" +:+ host)).
        rewrite (startsWith_drop _ _ Hss) in H. cbn [String.length] in H.
        rewrite Hrest in H. rewrite ?Js_app_assoc. rewrite ?Js_app_assoc in H. exact H.
    + destruct (Reference.scan_tail rest) as [[path query] fragment] eqn:Et.
      apply scan_tail_spec in Et as (-> & Hpath & Hquery).
      intros [= <-]. split; [|split].
      * unfold RefUrl.well_formed. cbn [Reference.u_scheme Reference.u_host
          Reference.u_path Reference.u_query Reference.u_fragment].
        rewrite Hsp. repeat split; try assumption.
        destruct (Js.startsWith path "//") eqn:Hp; [|reflexivity].
        now rewrite (startsWith_app_l _ _ _ Hp) in Hss.
      * exists c, raw. eexists. split; reflexivity.
      * intros H. cbn [Reference.u_fragment].
        apply (Hfrag path query fragment EmptyString).
        now rewrite append_nil.
Qed.

(** *** Parsing a serialisation *)

Lemma serialize_unfold (u : Reference.url) :
  Reference.serialize u
  = Reference.u_scheme u +:+ ":"
    +:+ match Reference.u_host u with Some h => "//" +:+ h | None => EmptyString end
    +:+ Reference.u_path u
    +:+ RefUrl.tail_of (Reference.u_query u) (Reference.u_fragment u).
Proof. reflexivity. Qed.

Lemma startsWith_slashes_app (path tail : string) :
  Js.startsWith path "//" = false ->
  stops_at (Reference.not_in ["?"; "#"]%char) tail = true ->
  Js.startsWith (path +:+ tail) "//" = false.
Proof.
  intros Hp Ht. destruct path as [|c [|d path]].
  - rewrite append_nil. destruct tail as [|e tail]; [reflexivity|].
    rewrite startsWith_cons. destruct (Ascii.eqb_spec "/" e) as [<-|]; [|reflexivity].
    discriminate.
  - rewrite append_cons, append_nil, startsWith_cons.
    destruct (Ascii.eqb "/" c); [|reflexivity].
    destruct tail as [|e tail]; [reflexivity|].
    rewrite startsWith_cons. destruct (Ascii.eqb_spec "/" e) as [<-|]; [|reflexivity].
    discriminate.
  - rewrite !append_cons, !startsWith_cons. rewrite !startsWith_cons in Hp.
    revert Hp.
    destruct (Ascii.eqb "/" c); [|reflexivity].
    destruct (Ascii.eqb "/" d); [|reflexivity].
    unfold Js.startsWith. now rewrite !prefix_empty.
Qed.

Lemma round_trip (u : Reference.url) :
  RefUrl.well_formed u -> Reference.parse (Reference.serialize u) = Some u.
Proof.
  destruct u as [scheme host path query fragment].
  unfold RefUrl.well_formed. cbn [Reference.u_scheme Reference.u_host
    Reference.u_path Reference.u_query Reference.u_fragment].
  intros ((c & raw & -> & Ha) & Hsch & Hlow & Hpath & Hquery & Hcase).
  rewrite serialize_unfold. cbn [Reference.u_scheme Reference.u_host
    Reference.u_path Reference.u_query Reference.u_fragment].
  unfold Reference.parse. rewrite (scan_scheme_intro c raw _ Ha Hsch), Hlow.
  pose proof (tail_of_stops query fragment) as Htail.
  destruct (Reference.is_special (String c raw)).
  - destruct Hcase as (h & -> & Hne & Hh & Hhlow & Hpne & Hpstop).
    rewrite Js_app_assoc.
    assert (stops_at Reference.is_slash (h +:+ path +:+ RefUrl.tail_of query fragment) = true)
      as Hs1.
    { destruct h as [|d h']; [congruence|]. rewrite append_cons. simpl.
      rewrite str_all_cons in Hh. apply andb_true_iff in Hh as [Hd _].
      now rewrite (host_char_not_slash d Hd). }
    rewrite (span_intro Reference.is_slash "//" _ eq_refl Hs1).
    assert (stops_at (Reference.not_in ["/"; "\"; "?"; "#"]%char)
              (path +:+ RefUrl.tail_of query fragment) = true) as Hs2
      by now rewrite stops_at_app.
    rewrite (span_intro _ h _ Hh Hs2).
    destruct (String.eqb_spec h EmptyString) as [|_]; [congruence|].
    rewrite (scan_tail_intro path query fragment Hpath Hquery).
    destruct (String.eqb_spec path EmptyString) as [|_]; [congruence|].
    now rewrite Hhlow.
  - destruct host as [h|].
    + destruct Hcase as [Hh Hpstop].
      rewrite Js_app_assoc.
      rewrite (startsWith_app "//" _), (Js_drop_app "//" _).
      assert (stops_at (Reference.not_in ["/"; "?"; "#"]%char)
                (path +:+ RefUrl.tail_of query fragment) = true) as Hs2.
      { destruct path as [|d path'].
        - rewrite append_nil. destruct query, fragment; reflexivity.
        - exact Hpstop. }
      rewrite (span_intro _ h _ Hh Hs2).
      now rewrite (scan_tail_intro path query fragment Hpath Hquery).
    + rewrite append_nil.
      rewrite (startsWith_slashes_app path _ Hcase Htail).
      now rewrite (scan_tail_intro path query fragment Hpath Hquery).
Qed.

(** *** Characters that do not occur *)

Lemma not_in_one (c d : ascii) : Reference.not_in [c] d = negb (Ascii.eqb d c).
Proof. unfold Reference.not_in. simpl. now rewrite orb_false_r. Qed.

Lemma not_in_weaken (cs cs' : list ascii) (c : ascii) :
  incl cs' cs -> Reference.not_in cs c = true -> Reference.not_in cs' c = true.
Proof.
  unfold Reference.not_in. rewrite !negb_true_iff. intros Hi H.
  destruct (existsb (Ascii.eqb c) cs') eqn:E; [|reflexivity].
  apply existsb_exists in E as (x & Hx & Hc).
  rewrite <- H. symmetry. apply existsb_exists. exists x. split; [now apply Hi | exact Hc].
Qed.

Lemma str_all_fewer (cs cs' : list ascii) (s : string) :
  incl cs' cs ->
  str_all (Reference.not_in cs) s = true -> str_all (Reference.not_in cs') s = true.
Proof. intros Hi. apply str_all_weaken. intros c. now apply not_in_weaken. Qed.

Lemma includes_cons (c d : ascii) (t : string) :
  Js.includes (String d t) (String c EmptyString)
  = Ascii.eqb d c || Js.includes t (String c EmptyString).
Proof.
  cbn [Js.includes]. rewrite startsWith_cons.
  unfold Js.startsWith at 1. rewrite prefix_empty, Ascii.eqb_sym.
  now destruct (Ascii.eqb d c).
Qed.

Lemma includes_not_in (c : ascii) (s : string) :
  Js.includes s (String c EmptyString) = false
  <-> str_all (Reference.not_in [c]) s = true.
Proof.
  induction s as [|d t IH]; [split; reflexivity|].
  rewrite includes_cons, str_all_cons, not_in_one, orb_false_iff, andb_true_iff, IH.
  now rewrite negb_true_iff.
Qed.

Lemma str_all_and (p q r : ascii -> bool) (s : string) :
  (forall c, p c = true -> q c = true -> r c = true) ->
  str_all p s = true -> str_all q s = true -> str_all r s = true.
Proof.
  intros Hr. induction s as [|c s IH]; [reflexivity|].
  rewrite !str_all_cons. intros Hp Hq.
  apply andb_true_iff in Hp as [Hp1 Hp2]. apply andb_true_iff in Hq as [Hq1 Hq2].
  now rewrite (Hr c Hp1 Hq1), IH.
Qed.

Lemma str_all_more (cs cs' : list ascii) (s : string) :
  str_all (Reference.not_in cs) s = true -> str_all (Reference.not_in cs') s = true ->
  str_all (Reference.not_in (cs ++ cs')) s = true.
Proof.
  apply str_all_and. intros c. unfold Reference.not_in.
  rewrite !negb_true_iff, existsb_app, orb_false_iff. tauto.
Qed.

Lemma str_all_drop (p : ascii -> bool) (n : nat) (s : string) :
  str_all p s = true -> str_all p (Js.drop n s) = true.
Proof.
  revert s. induction n as [|n IH]; intros [|c s] H; try exact H; try reflexivity.
  rewrite str_all_cons in H. apply andb_true_iff in H as [_ H]. now apply IH.
Qed.

Lemma split_pieces (c : ascii) (s : string) :
  Forall (fun w => str_all (Reference.not_in [c]) w = true) (Js.split c s).
Proof.
  induction s as [|d t IH]; [repeat constructor|].
  cbn [Js.split]. destruct (Ascii.eqb d c) eqn:E; [constructor; [reflexivity | exact IH]|].
  destruct (Js.split c t) as [|w ws]; [repeat constructor|].
  - rewrite str_all_cons, not_in_one, E. reflexivity.
  - inversion IH as [|? ? Hw Hws]; subst. constructor; [|exact Hws].
    now rewrite str_all_cons, not_in_one, E, Hw.
Qed.

Lemma split_all (p : ascii -> bool) (c : ascii) (s : string) :
  str_all p s = true -> Forall (fun w => str_all p w = true) (Js.split c s).
Proof.
  induction s as [|d t IH]; [repeat constructor|].
  rewrite str_all_cons. intros H. apply andb_true_iff in H as [Hd Ht].
  specialize (IH Ht). cbn [Js.split].
  destruct (Ascii.eqb d c); [constructor; [reflexivity | exact IH]|].
  destruct (Js.split c t) as [|w ws]; [repeat constructor|].
  - now rewrite str_all_cons, Hd.
  - inversion IH as [|? ? Hw Hws]; subst. constructor; [|exact Hws].
    now rewrite str_all_cons, Hd, Hw.
Qed.

(** *** The query string *)

Lemma filter_bool {A} (f : A -> bool) (l : list A) :
  filter (fun x => Is_true (f x)) l = List.filter f l.
Proof.
  induction l as [|a l IH]; [reflexivity|]. cbn [List.filter].
  destruct (f a) eqn:E.
  - rewrite filter_cons_True by (rewrite E; exact I). now rewrite IH.
  - rewrite filter_cons_False by (rewrite E; exact id). exact IH.
Qed.

Lemma filter_twice {A} (f g : A -> bool) (l : list A) :
  List.filter f (List.filter g l) = List.filter (fun x => g x && f x) l.
Proof.
  induction l as [|a l IH]; [reflexivity|]. cbn [List.filter].
  destruct (g a); cbn [List.filter andb]; [destruct (f a)|]; now rewrite IH.
Qed.

Lemma delete_unfold (u : Reference.url) (name : string) :
  Reference.searchParams_delete u name
  = RefUrl.set_query u
      (RefUrl.unpairs
         (List.filter (fun nv => negb (String.eqb (fst nv) name))
            (RefUrl.pairs (Reference.u_query u)))).
Proof.
  rewrite <- filter_bool. unfold Reference.searchParams_delete, RefUrl.set_query,
    RefUrl.unpairs, RefUrl.pairs.
  destruct (Reference.u_query u); reflexivity.
Qed.

Lemma pair_of_fmt (name value : string) :
  str_all (Reference.not_in ["="]%char) name = true ->
  Reference.pair_of (RefUrl.fmt (name, value)) = (name, value).
Proof.
  intros H. unfold Reference.pair_of, RefUrl.fmt. cbn [fst snd].
  now rewrite (span_intro _ name ("=" +:+ value) H eq_refl).
Qed.

Lemma fmt_nonempty (nv : string * string) (rest : string) :
  RefUrl.fmt nv +:+ rest <> EmptyString.
Proof. destruct nv as [[|c n] v]; discriminate. Qed.

Lemma join_fmt_nonempty (l : list (string * string)) :
  l <> [] -> Js.join "&" (map RefUrl.fmt l) <> EmptyString.
Proof.
  destruct l as [|nv [|nv' l]]; [congruence| |]; intros _.
  - cbn [map Js.join]. rewrite <- (Js_app_nil_r (RefUrl.fmt nv)). apply fmt_nonempty.
  - cbn [map Js.join]. apply fmt_nonempty.
Qed.

Lemma incl_amp : incl ["&"%char] ["="; "&"]%char.
Proof. intros x [<-|[]]. right. now left. Qed.

Lemma incl_eq : incl ["="%char] ["="; "&"]%char.
Proof. intros x [<-|[]]. now left. Qed.

Lemma plain_fmt (nv : string * string) :
  RefUrl.plain_pair nv -> str_all (Reference.not_in ["&"]%char) (RefUrl.fmt nv) = true.
Proof.
  intros [Hn Hv]. unfold RefUrl.fmt. rewrite !str_all_app, Hv.
  rewrite (str_all_fewer _ ["&"%char] _ incl_amp Hn). reflexivity.
Qed.

Lemma keep_nonempty (q : string) :
  q <> EmptyString -> Is_true (negb (String.eqb q EmptyString)).
Proof. intros H. destruct (String.eqb_spec q EmptyString); [contradiction | exact I]. Qed.

(** Reading back what was written. *)
Lemma pairs_unpairs (l : list (string * string)) :
  Forall RefUrl.plain_pair l -> RefUrl.pairs (RefUrl.unpairs l) = l.
Proof.
  induction 1 as [|nv l Hnv Hl IH]; [reflexivity|].
  unfold RefUrl.unpairs. cbv zeta.
  destruct (String.eqb_spec (Js.join "&" (map RefUrl.fmt (nv :: l))) EmptyString) as [E|_].
  { now destruct (join_fmt_nonempty (nv :: l)). }
  pose proof (plain_fmt nv Hnv) as Hamp. apply includes_not_in in Hamp.
  assert (Reference.pair_of (RefUrl.fmt nv) = nv) as Hpair.
  { destruct nv as [n v]. apply pair_of_fmt. destruct Hnv as [Hn _].
    exact (str_all_fewer _ ["="%char] _ incl_eq Hn). }
  assert (RefUrl.fmt nv <> EmptyString) as Hne.
  { rewrite <- (Js_app_nil_r (RefUrl.fmt nv)). apply fmt_nonempty. }
  destruct l as [|nv' l'].
  - cbn [map Js.join RefUrl.pairs]. rewrite (split_id _ _ Hamp).
    rewrite filter_cons_True by now apply keep_nonempty.
    rewrite filter_nil. cbn [map]. now rewrite Hpair.
  - change (Js.join "&" (map RefUrl.fmt (nv :: nv' :: l')))
      with (RefUrl.fmt nv +:+ String "&" (Js.join "&" (map RefUrl.fmt (nv' :: l')))).
    cbn [RefUrl.pairs]. rewrite split_app, (split_id _ _ Hamp). cbn [app].
    rewrite filter_cons_True by now apply keep_nonempty.
    cbn [map]. rewrite Hpair. f_equal.
    unfold RefUrl.unpairs in IH. cbv zeta in IH.
    destruct (String.eqb_spec (Js.join "&" (map RefUrl.fmt (nv' :: l'))) EmptyString)
      as [E|_]; [now destruct (join_fmt_nonempty (nv' :: l'))|].
    exact IH.
Qed.

Lemma pair_of_all (p : ascii -> bool) (piece : string) :
  str_all p piece = true ->
  str_all p (fst (Reference.pair_of piece)) = true
  /\ str_all p (snd (Reference.pair_of piece)) = true.
Proof.
  intros H. unfold Reference.pair_of.
  destruct (Reference.span (Reference.not_in ["="]%char) piece) as [name r] eqn:E.
  apply span_spec in E as (-> & _ & _). rewrite str_all_app in H.
  apply andb_true_iff in H as [Hn Hr]. cbn [fst snd].
  split; [exact Hn | now apply str_all_drop].
Qed.

Lemma pair_of_name (piece : string) :
  str_all (Reference.not_in ["="]%char) (fst (Reference.pair_of piece)) = true.
Proof.
  unfold Reference.pair_of.
  destruct (Reference.span (Reference.not_in ["="]%char) piece) as [name r] eqn:E.
  now apply span_spec in E as (_ & Hn & _).
Qed.

Lemma pairs_all (p : ascii -> bool) (q : option string) :
  (forall s, q = Some s -> str_all p s = true) ->
  Forall (fun nv => str_all p (fst nv) = true /\ str_all p (snd nv) = true)
         (RefUrl.pairs q).
Proof.
  intros Hq. destruct q as [s|]; [|constructor]. cbn [RefUrl.pairs].
  apply Forall_forall. intros nv Hin.
  apply list_elem_of_fmap in Hin as (piece & -> & Hin).
  apply list_elem_of_filter in Hin as [_ Hin].
  apply pair_of_all.
  pose proof (split_all p "&" s (Hq s eq_refl)) as Hall.
  rewrite Forall_forall in Hall. now apply Hall.
Qed.

Lemma pairs_plain (q : option string) : Forall RefUrl.plain_pair (RefUrl.pairs q).
Proof.
  destruct q as [s|]; [|constructor]. cbn [RefUrl.pairs].
  apply Forall_forall. intros nv Hin.
  apply list_elem_of_fmap in Hin as (piece & -> & Hin).
  apply list_elem_of_filter in Hin as [_ Hin].
  pose proof (split_pieces "&" s) as Hall.
  rewrite Forall_forall in Hall. apply Hall in Hin.
  destruct (pair_of_all _ piece Hin) as [Hn Hv].
  split; [|exact Hv].
  exact (str_all_more ["="%char] ["&"%char] _ (pair_of_name piece) Hn).
Qed.

Lemma join_all (p : ascii -> bool) (sep : string) (l : list string) :
  str_all p sep = true -> Forall (fun w => str_all p w = true) l ->
  str_all p (Js.join sep l) = true.
Proof.
  intros Hsep. induction 1 as [|w l Hw Hl IH]; [reflexivity|].
  destruct l as [|w' l']; [exact Hw|].
  change (Js.join sep (w :: w' :: l')) with (w +:+ sep +:+ Js.join sep (w' :: l')).
  now rewrite !str_all_app, Hw, Hsep, IH.
Qed.

Lemma unpairs_all (p : ascii -> bool) (l : list (string * string)) (q : string) :
  p "="%char = true -> p "&"%char = true ->
  Forall (fun nv => str_all p (fst nv) = true /\ str_all p (snd nv) = true) l ->
  RefUrl.unpairs l = Some q -> str_all p q = true.
Proof.
  intros Heq Hamp Hl. unfold RefUrl.unpairs. cbv zeta.
  destruct (String.eqb (Js.join "&" (map RefUrl.fmt l)) EmptyString); [discriminate|].
  intros [= <-]. apply join_all; [now rewrite str_all_cons, Hamp|].
  apply Forall_map. eapply Forall_impl; [exact Hl|].
  intros nv [Hn Hv]. unfold RefUrl.fmt. now rewrite !str_all_app, Hn, Hv, str_all_cons, Heq.
Qed.

(** *** Deleting parameters *)


(** *** Deleting parameters *)

Lemma without_filter (name : string) (names : list string) (l : list (string * string)) :
  RefUrl.without names (List.filter (fun nv => negb (String.eqb (fst nv) name)) l)
  = RefUrl.without (name :: names) l.
Proof. unfold RefUrl.without. now rewrite filter_twice. Qed.

Lemma without_one (name : string) (l : list (string * string)) :
  List.filter (fun nv => negb (String.eqb (fst nv) name)) l = RefUrl.without [name] l.
Proof.
  unfold RefUrl.without. apply List.filter_ext. intros nv. cbn [forallb].
  now rewrite andb_true_r.
Qed.

Lemma without_idem (names : list string) (l : list (string * string)) :
  RefUrl.without names (RefUrl.without names l) = RefUrl.without names l.
Proof.
  unfold RefUrl.without. rewrite filter_twice. apply List.filter_ext.
  intros nv. apply andb_diag.
Qed.

Lemma without_plain (names : list string) (l : list (string * string)) :
  Forall RefUrl.plain_pair l -> Forall RefUrl.plain_pair (RefUrl.without names l).
Proof. apply incl_Forall, List.incl_filter. Qed.

Lemma fold_delete (names : list string) (u : Reference.url) :
  names <> [] ->
  fold_left Reference.searchParams_delete names u
  = RefUrl.set_query u
      (RefUrl.unpairs (RefUrl.without names (RefUrl.pairs (Reference.u_query u)))).
Proof.
  revert u. induction names as [|name names IH]; [congruence|]. intros u _.
  cbn [fold_left]. rewrite delete_unfold. destruct names as [|name' names'].
  - cbn [fold_left]. now rewrite without_one.
  - rewrite IH by discriminate. cbn [RefUrl.set_query Reference.u_query
      Reference.u_scheme Reference.u_host Reference.u_path Reference.u_fragment].
    rewrite pairs_unpairs.
    + now rewrite without_filter.
    + eapply incl_Forall; [apply List.incl_filter | apply pairs_plain].
Qed.

Lemma cleaned_twice (u : Reference.url) :
  fold_left Reference.searchParams_delete utm_params
    (fold_left Reference.searchParams_delete utm_params u)
  = fold_left Reference.searchParams_delete utm_params u.
Proof.
  rewrite !(fold_delete utm_params) by discriminate.
  cbn [RefUrl.set_query Reference.u_query Reference.u_scheme Reference.u_host
       Reference.u_path Reference.u_fragment].
  rewrite pairs_unpairs by apply without_plain, pairs_plain.
  now rewrite without_idem.
Qed.

Lemma cleaned_well_formed (u : Reference.url) :
  RefUrl.well_formed u ->
  RefUrl.well_formed (fold_left Reference.searchParams_delete utm_params u)
  /\ Reference.u_scheme (fold_left Reference.searchParams_delete utm_params u)
     = Reference.u_scheme u
  /\ Reference.u_fragment (fold_left Reference.searchParams_delete utm_params u)
     = Reference.u_fragment u.
Proof.
  intros (H1 & H2 & H3 & H4 & H5 & H6).
  rewrite (fold_delete utm_params) by discriminate.
  split; [|split; reflexivity].
  unfold RefUrl.well_formed. cbn [RefUrl.set_query Reference.u_query
    Reference.u_scheme Reference.u_host Reference.u_path Reference.u_fragment].
  repeat split; try assumption.
  intros q Hq. eapply (unpairs_all (Reference.not_in ["#"]%char)); [reflexivity..| |exact Hq].
  eapply incl_Forall; [apply List.incl_filter|]. now apply pairs_all.
Qed.

(** *** Bare hosts *)

Lemma bare_host_shape (x : string) :
  bare_host x = true ->
  exists scheme host,
    (scheme = "http" \/ scheme = "https")
    /\ x = scheme +:+ "://" +:+ host +:+ "/"
    /\ host <> EmptyString
    /\ str_all (Reference.not_in ["/"; "\"; "?"; "#"]%char) host = true.
Proof.
  unfold bare_host. pose proof (join_split "/" x) as Hj.
  pose proof (split_pieces "/" x) as Hp.
  destruct (Js.split "/" x) as [|a [|b [|h [|e [|? ?]]]]]; try discriminate.
  intros H. repeat (apply andb_true_iff in H as [H ?]).
  repeat match goal with
    | H : String.eqb _ _ = true |- _ => apply String.eqb_eq in H
    | H : negb _ = true |- _ => apply negb_true_iff in H
    end.
  subst b e. cbn [Js.join] in Hj. rewrite append_nil, Js_app_nil_r in Hj.
  inversion Hp as [|? ? _ Hp1]; subst. inversion Hp1 as [|? ? _ Hp2]; subst.
  inversion Hp2 as [|? ? Hh _]; subst.
  assert (str_all (Reference.not_in ["/"; "\"; "?"; "#"]%char) h = true) as Hall.
  { apply (str_all_more ["/"%char] ["\"; "?"; "#"]%char); [exact Hh|].
    apply (str_all_more ["\"%char] ["?"; "#"]%char); [now apply includes_not_in|].
    apply (str_all_more ["?"%char] ["#"%char]); now apply includes_not_in. }
  assert (h <> EmptyString) as Hne
    by (match goal with H : String.eqb h _ = false |- _ =>
          now apply String.eqb_neq in H end).
  apply orb_true_iff in H as [H|H]; apply String.eqb_eq in H; subst a.
  - exists "http", h. repeat split; auto.
  - exists "https", h. repeat split; auto.
Qed.

Lemma parse_bare (scheme host tail : string) :
  scheme = "http" \/ scheme = "https" ->
  host <> EmptyString ->
  str_all (Reference.not_in ["/"; "\"; "?"; "#"]%char) host = true ->
  tail = "/" \/ tail = EmptyString ->
  Reference.parse (scheme +:+ "://" +:+ host +:+ tail)
  = Some {| Reference.u_scheme := scheme; Reference.u_host := Some (Js.lower host);
            Reference.u_path := "/"; Reference.u_query := None;
            Reference.u_fragment := None |}.
Proof.
  intros Hs Hne Hall Ht.
  assert (exists raw, scheme = String "h" raw
                      /\ str_all Reference.is_scheme_char scheme = true
                      /\ Js.lower scheme = scheme
                      /\ Reference.is_special scheme = true) as (raw & Hraw & Hsc & Hlow & Hsp).
  { destruct Hs as [->| ->]; eexists; repeat split. }
  unfold Reference.parse.
  change (scheme +:+ "://" +:+ host +:+ tail)
    with (scheme +:+ ":" +:+ "//" +:+ host +:+ tail).
  rewrite Hraw at 1. rewrite Hraw in Hsc.
  rewrite (scan_scheme_intro "h" raw _ eq_refl Hsc), <- Hraw, Hlow, Hsp.
  assert (stops_at Reference.is_slash (host +:+ tail) = true) as Hs1.
  { destruct host as [|d h']; [congruence|]. rewrite append_cons. simpl.
    rewrite str_all_cons in Hall. apply andb_true_iff in Hall as [Hd _].
    now rewrite (host_char_not_slash d Hd). }
  rewrite (span_intro Reference.is_slash "//" _ eq_refl Hs1).
  assert (stops_at (Reference.not_in ["/"; "\"; "?"; "#"]%char) tail = true) as Hs2
    by (destruct Ht as [->| ->]; reflexivity).
  rewrite (span_intro _ host _ Hall Hs2).
  destruct (String.eqb_spec host EmptyString) as [|_]; [congruence|].
  destruct Ht as [->| ->]; reflexivity.
Qed.

(** *** The five laws *)

Lemma cleanup_query_reference (x : string) :
  cleanup_query (api := Reference.node) x
  = match Reference.parse x with
    | Some u =>
        Reference.serialize (fold_left Reference.searchParams_delete utm_params u)
    | None => x
    end.
Proof. reflexivity. Qed.

Lemma scheme_char_not_hash (c : ascii) :
  Reference.is_scheme_char c = true -> Reference.not_in ["#"]%char c = true.
Proof.
  destruct c as [[] [] [] [] [] [] [] []]; intros H; first [reflexivity | discriminate H].
Qed.

Lemma incl_last (cs : list ascii) (c : ascii) : incl [c] (cs ++ [c]).
Proof. intros x [<-|[]]. apply in_or_app. right. now left. Qed.

Lemma serialize_no_hash (u : Reference.url) :
  RefUrl.well_formed u -> Reference.u_fragment u = None ->
  str_all (Reference.not_in ["#"]%char) (Reference.serialize u) = true.
Proof.
  intros (_ & Hsch & _ & Hpath & Hquery & Hcase) Hfrag.
  rewrite serialize_unfold, Hfrag, !str_all_app.
  rewrite (str_all_weaken _ _ _ scheme_char_not_hash Hsch).
  rewrite (str_all_fewer _ ["#"%char] _ (incl_last ["?"%char] "#") Hpath).
  assert (str_all (Reference.not_in ["#"]%char)
            (RefUrl.tail_of (Reference.u_query u) None) = true) as ->.
  { unfold RefUrl.tail_of. destruct (Reference.u_query u) as [q|]; [|reflexivity].
    rewrite Js_app_nil_r, str_all_app. now rewrite (Hquery q eq_refl). }
  assert (str_all (Reference.not_in ["#"]%char)
            match Reference.u_host u with
            | Some h => "//" +:+ h
            | None => EmptyString
            end = true) as ->; [|reflexivity].
  destruct (Reference.is_special (Reference.u_scheme u)).
  - destruct Hcase as (h & -> & _ & Hh & _). rewrite str_all_app.
    now rewrite (str_all_fewer _ ["#"%char] _ (incl_last ["/"; "\"; "?"]%char "#") Hh).
  - destruct (Reference.u_host u) as [h|]; [|reflexivity].
    destruct Hcase as [Hh _]. rewrite str_all_app.
    now rewrite (str_all_fewer _ ["#"%char] _ (incl_last ["/"; "?"]%char "#") Hh).
Qed.

Lemma lower_keeps_http (s : string) :
  Js.startsWith s "http" = true -> Js.startsWith (Js.lower s) "http" = true.
Proof.
  intros H. destruct (startsWith_inv _ _ H) as [t ->].
  rewrite lower_app. apply startsWith_app.
Qed.

Lemma reference_url_laws : UrlLaws (api := Reference.node).
Proof.
  split.
  - intros x. rewrite (cleanup_query_reference x).
    destruct (Reference.parse x) as [u|] eqn:E.
    + apply parse_spec in E as (Hwf & _ & _).
      destruct (cleaned_well_formed u Hwf) as (Hwf' & _ & _).
      rewrite cleanup_query_reference, (round_trip _ Hwf'). now rewrite cleaned_twice.
    + now rewrite cleanup_query_reference, E.
  - intros x Hx. apply includes_not_in. apply includes_not_in in Hx.
    rewrite cleanup_query_reference.
    destruct (Reference.parse x) as [u|] eqn:E; [|exact Hx].
    apply parse_spec in E as (Hwf & _ & Hfrag).
    destruct (cleaned_well_formed u Hwf) as (Hwf' & _ & Hf').
    apply serialize_no_hash; [exact Hwf'|]. rewrite Hf'. now apply Hfrag.
  - intros x Hx. rewrite cleanup_query_reference.
    destruct (Reference.parse x) as [u|] eqn:E; [|exact Hx].
    apply parse_spec in E as (Hwf & (c & raw & rest & -> & Hsch) & _).
    destruct (cleaned_well_formed u Hwf) as (_ & Hs' & _).
    rewrite serialize_unfold, Hs', Hsch. apply startsWith_app_l, lower_keeps_http.
    change (":" +:+ rest) with (String ":" rest) in Hx.
    now rewrite (startsWith_app_other "http" _ rest ":" eq_refl) in Hx.
  - intros x Hx _. apply bare_host_shape in Hx as (scheme & host & Hs & -> & Hne & Hall).
    rewrite !cleanup_query_reference.
    replace (Js.strip_trailing_slash (scheme +:+ "://" +:+ host +:+ "/"))
      with (scheme +:+ "://" +:+ host +:+ EmptyString).
    + rewrite !parse_bare by auto. reflexivity.
    + rewrite <- (strip_trailing_slash_added (scheme +:+ "://" +:+ host +:+ EmptyString)).
      now rewrite !Js_app_assoc.
  - intros x Hx. destruct (startsWith_inv _ _ Hx) as [t ->].
    change (URL_new (NodeApi := Reference.node) ("/" +:+ t)) with (Reference.parse (String "/" t)).
    unfold Reference.parse. now rewrite scan_scheme_unfold.
Qed.

(** ** A second pass of [normalizeUrl] *)

Lemma first_split_no_sep (c : ascii) (s : string) :
  Js.includes (Js.first (Js.split c s)) (String c EmptyString) = false.
Proof.
  apply includes_not_in. pose proof (split_pieces c s) as H.
  destruct (Js.split c s) as [|w ws]; [reflexivity|]. now inversion H.
Qed.

Lemma strip_no_sep (c : ascii) (s : string) :
  Js.includes s (String c EmptyString) = false ->
  Js.includes (Js.strip_trailing_slash s) (String c EmptyString) = false.
Proof.
  rewrite !includes_not_in. intros H.
  destruct (strip_cases s) as [->|E]; [exact H|].
  rewrite E, str_all_app in H. now apply andb_true_iff in H as [H _].
Qed.

Section SecondPass.

Context `{api : NodeApi}.
Variable baseUrl : ParsedUrl.

(** C3, as the code has it.  Take a reference whose absolute form starts
    with [http], and a URL library that follows the URL Standard.  On the
    result of a first pass, making absolute and cutting the fragment do
    nothing: a second pass removes one trailing slash and hands the string
    to the URL library, nothing else.  Therefore a second pass changes
    nothing when the first result does not end in a slash, and it changes
    nothing when the first result is a bare host, [http://host/] or
    [https://host/], which the library reads the same with and without its
    last slash. *)
Theorem normalizeUrl_second_pass (url base : string) :
  UrlLaws ->
  Js.startsWith (absolutize baseUrl url base) "http" = true ->
  normalizeUrl baseUrl (normalizeUrl baseUrl url base) base
  = cleanup_query (Js.strip_trailing_slash (normalizeUrl baseUrl url base))
  /\ (Js.endsWith (normalizeUrl baseUrl url base) "/" = false ->
      normalizeUrl baseUrl (normalizeUrl baseUrl url base) base
      = normalizeUrl baseUrl url base)
  /\ (bare_host (normalizeUrl baseUrl url base) = true ->
      URL_new (normalizeUrl baseUrl url base) <> None ->
      normalizeUrl baseUrl (normalizeUrl baseUrl url base) base
      = normalizeUrl baseUrl url base).
Proof.
  intros laws Habs.
  set (cut := Js.first (Js.split "#" (Js.strip_trailing_slash (absolutize baseUrl url base)))).
  assert (normalizeUrl baseUrl url base = cleanup_query cut) as Hr by reflexivity.
  assert (Js.startsWith (cleanup_query cut) "http" = true) as Hhttp.
  { apply url_scheme_kept. subst cut.
    apply (first_split_keeps_prefix "#" _ "http" eq_refl).
    now apply (strip_keeps_prefix _ "http" eq_refl). }
  assert (Js.includes (cleanup_query cut) "#" = false) as Hhash
    by (apply url_fragment_only, first_split_no_sep).
  assert (normalizeUrl baseUrl (cleanup_query cut) base
          = cleanup_query (Js.strip_trailing_slash (cleanup_query cut))) as Hsecond.
  { unfold normalizeUrl at 1. rewrite (absolutize_http baseUrl _ base Hhttp).
    now rewrite (first_split_id "#" _ (strip_no_sep "#" _ Hhash)). }
  rewrite Hr. split; [exact Hsecond|]. split.
  - intros Hslash. rewrite Hsecond, (strip_trailing_slash_id _ Hslash).
    apply url_round_trip.
  - intros Hbare Hparsed. rewrite Hsecond, (url_empty_path _ Hbare Hparsed).
    apply url_round_trip.
Qed.

End SecondPass.

(** Witness of [normalizeUrl_second_pass], with the reference URL library:
    the seed itself, whose first result is a bare host, and a reference
    with a tracking parameter and a fragment. *)
Lemma normalizeUrl_second_pass_witness :
  normalizeUrl (api := Reference.node) Example.baseUrl
    (normalizeUrl (api := Reference.node) Example.baseUrl
       "https://ex.com" "https://ex.com")
    "https://ex.com"
  = "https://ex.com/"
  /\ normalizeUrl (api := Reference.node) Example.baseUrl
       (normalizeUrl (api := Reference.node) Example.baseUrl
          "/about?utm_source=mail#team" "https://ex.com")
       "https://ex.com"
     = "https://ex.com/about".
Proof.
  split.
  - rewrite (proj2 (proj2 (normalizeUrl_second_pass (api := Reference.node)
                             Example.baseUrl "https://ex.com" "https://ex.com"
                             reference_url_laws eq_refl)));
      [reflexivity | reflexivity | discriminate].
  - rewrite (proj1 (proj2 (normalizeUrl_second_pass (api := Reference.node)
                             Example.baseUrl "/about?utm_source=mail#team"
                             "https://ex.com" reference_url_laws eq_refl)));
      reflexivity.
Defined.

(** A slash is also left at the end of the first result, and removed by the
    second pass, when it stands in front of a query that consists of
    tracking parameters only. *)
Example normalizeUrl_slash_before_tracking_query :
  normalizeUrl (api := Reference.node) Example.baseUrl
    "/docs/?utm_source=mail" "https://ex.com"
  = "https://ex.com/docs/"
  /\ normalizeUrl (api := Reference.node) Example.baseUrl
       "https://ex.com/docs/" "https://ex.com"
     = "https://ex.com/docs".
Proof. split; reflexivity. Qed.

(** The hypotheses about the library and the seed under which no call is
    ever made on a data image hold for the example site. *)
Example example_site_is_web :
  UrlLaws (api := Reference.node)
  /\ Js.startsWith (websiteUrl Example.site_config) "http" = true
  /\ Js.startsWith (baseProtocol Example.baseUrl) "http" = true.
Proof. split; [exact reference_url_laws | split; reflexivity]. Qed.
